(** * Verification of the output writer of the WebAssembly linker
      (wasm/Writer.cpp)

    The development is a shallow embedding of [Writer.cpp]: the index
    planner ([calculateImports], [assignIndexes], [registerType],
    [calculateTypes]), the memory layouter ([layoutMemory]), the export
    planner ([calculateExports]), the init-function collector and the two
    synthetic function bodies ([createCtorFunction],
    [createDispatchFunction]).

    Conventions.
    - A C++ fixed-width integer is a [Z] with its wrap-around written out
      ([wrap32], [wrap64], [to_int32], [to_int64]).
    - A byte stream ([raw_ostream]) is the [list Z] of the bytes written so
      far; every element is an 8-bit value.
    - A pointer is an index into a store kept in the symbol table record;
      mutation through a pointer is an update of the store, so aliases see
      each other's writes.
    - A computation that may leave the function by a C++ exception or reach
      undefined behaviour returns an [Outcome]. *)

From Stdlib Require Import ZArith List String Ascii Lia Bool Sorting Permutation.
From stdpp Require Import base option list gmap strings.

Local Open Scope string_scope.
Local Open Scope list_scope.
Local Open Scope Z_scope.

(** ** Fixed-width integers *)

Definition wrap32 (z : Z) : Z := z mod 2 ^ 32.
Definition wrap64 (z : Z) : Z := z mod 2 ^ 64.

(** Reinterpretation of the low 32 (64) bits as a signed integer. *)
Definition to_int32 (z : Z) : Z :=
  let u := wrap32 z in if u <? 2 ^ 31 then u else u - 2 ^ 32.
Definition to_int64 (z : Z) : Z :=
  let u := wrap64 z in if u <? 2 ^ 63 then u else u - 2 ^ 64.

(** [llvm::alignTo(Value, Align)] of MathExtras.h, on [uint64_t]. *)
Definition alignTo (Value Align : Z) : Z :=
  wrap64 (wrap64 (Value + Align - 1) / Align * Align).

(** ** Outcomes of partial computations *)

(** A call either returns ([Done]), is left by a C++ exception ([Raise]),
    is stopped by a failed [assert] in a build with assertions ([Abort]),
    or has undefined behaviour ([Undefined]: a null or dangling pointer is
    dereferenced, a vector is indexed out of range). *)
Inductive Outcome (A : Type) : Type :=
| Done (a : A)
| Raise (what : string)
| Abort
| Undefined.
Arguments Done {A} a.
Arguments Raise {A} what.
Arguments Abort {A}.
Arguments Undefined {A}.

#[global] Instance Outcome_ret : MRet Outcome := @Done.
#[global] Instance Outcome_bind : MBind Outcome := fun A B k m =>
  match m with
  | Done a => k a
  | Raise w => Raise w
  | Abort => Abort
  | Undefined => Undefined
  end.

(** Dereference of a pointer that may be null or dangling. *)
Definition deref {A} (p : option A) : Outcome A :=
  match p with
  | Some a => Done a
  | None => Undefined
  end.

(** [for (x : l) body(x)] over a state [S]. *)
Fixpoint forEach {A S} (body : A -> S -> Outcome S) (l : list A) (s : S) : Outcome S :=
  match l with
  | [] => Done s
  | x :: l' => s' ← body x s; forEach body l' s'
  end.

(** ** Wire encoder *)

Module Wire.

(** Modelled from the spec: [writeU8] of WriterUtils.cpp appends one
    byte to the stream. *)
Definition writeU8 (b : Z) : list Z := [b mod 256].

Fixpoint uleb_go (fuel : nat) (v : Z) : list Z :=
  match fuel with
  | O => []
  | S fuel' =>
      let byte := Z.land v 127 in
      let v' := Z.shiftr v 7 in
      if v' =? 0 then [byte] else Z.lor byte 128 :: uleb_go fuel' v'
  end.

(** Modelled from the spec: [writeUleb128] of WriterUtils.cpp is the ULEB128
    encoding of the WebAssembly binary format. The number is taken as an
    unsigned 64-bit value, for which ten groups of seven bits always
    suffice. *)
Definition writeUleb128 (n : Z) : list Z := uleb_go 10 (wrap64 n).

Fixpoint sleb_go (fuel : nat) (v : Z) : list Z :=
  match fuel with
  | O => []
  | S fuel' =>
      let byte := Z.land v 127 in
      let v' := Z.shiftr v 7 in
      let sign := Z.land byte 64 in
      if ((v' =? 0) && (sign =? 0)) || ((v' =? -1) && negb (sign =? 0))
      then [byte]
      else Z.lor byte 128 :: sleb_go fuel' v'
  end.

(** [llvm::encodeSLEB128] of LEB128.h on an [int64_t]. *)
Definition encodeSLEB128 (v : Z) : list Z := sleb_go 10 (to_int64 v).

(** Modelled from the spec: [writeInitExpr] writes the opcode byte, the
    encoded value and the [END] opcode. *)
Definition writeInitExpr (opcode value : Z) : list Z :=
  writeU8 opcode ++ encodeSLEB128 value ++ writeU8 11.

End Wire.
Import Wire.

(** ** Strings as the dispatcher uses them *)

Module Str.

(** [std::string::npos] *)
Definition npos : Z := 2 ^ 64 - 1.

Fixpoint find_from (c : ascii) (s : string) (i : Z) : Z :=
  match s with
  | EmptyString => npos
  | String a s' => if Ascii.eqb a c then i else find_from c s' (i + 1)
  end.

(** [s.find(":")]: position of the first colon, or [npos]. *)
Definition find_colon (s : string) : Z := find_from ":"%char s 0.

Definition size (s : string) : Z := Z.of_nat (String.length s).

(** [s.substr(pos, n)]: throws [std::out_of_range] when [pos > size()]. *)
Definition substr (s : string) (pos n : Z) : Outcome string :=
  if size s <? pos then Raise "basic_string::substr"
  else Done (String.substring (Z.to_nat pos) (Z.to_nat (Z.min n (size s - pos))) s).

(** [s.substr(pos)] *)
Definition substr_from (s : string) (pos : Z) : Outcome string :=
  substr s pos npos.

(** [s.c_str()] read as a C string: the characters before the first NUL. *)
Fixpoint c_str (s : string) : string :=
  match s with
  | EmptyString => EmptyString
  | String a s' => if Ascii.eqb a Ascii.zero then EmptyString else String a (c_str s')
  end.

End Str.

(** ** Constants of llvm/BinaryFormat/Wasm.h *)

Definition WasmPageSize : Z := 65536.

Definition WASM_TYPE_I32 : Z := 0x7F.
Definition WASM_TYPE_NORESULT : Z := 0x40.

Definition WASM_EXTERNAL_FUNCTION : Z := 0.
Definition WASM_EXTERNAL_TABLE : Z := 1.
Definition WASM_EXTERNAL_MEMORY : Z := 2.
Definition WASM_EXTERNAL_GLOBAL : Z := 3.

Definition WASM_OPCODE_END : Z := 0x0B.
Definition WASM_OPCODE_I32_CONST : Z := 0x41.

Definition WASM_SYMBOL_BINDING_MASK : Z := 3.
Definition WASM_SYMBOL_BINDING_WEAK : Z := 1.
Definition WASM_SYMBOL_BINDING_LOCAL : Z := 2.
Definition WASM_SYMBOL_VISIBILITY_MASK : Z := 4.
Definition WASM_SYMBOL_VISIBILITY_HIDDEN : Z := 4.

Definition R_WEBASSEMBLY_TABLE_INDEX_SLEB : Z := 1.
Definition R_WEBASSEMBLY_TABLE_INDEX_I32 : Z := 2.
Definition R_WEBASSEMBLY_TYPE_INDEX_LEB : Z := 6.

(** ** Constants of Writer.cpp *)

Definition kStackAlignment : Z := 16.
Definition kInitialTableOffset : Z := 1.
Definition kFunctionTableName : string := "__indirect_function_table".

(** ** Data model *)

(** Pointers are positions in the stores of the symbol table. *)
Abbreviation SymPtr := nat (only parsing).
Abbreviation FuncPtr := nat (only parsing).
Abbreviation GlobPtr := nat (only parsing).
Abbreviation FilePtr := nat (only parsing).

Record WasmSignature := mkSig { ParamTypes : list Z; ReturnType : Z }.

#[global] Instance WasmSignature_eq_dec : EqDecision WasmSignature.
Proof. solve_decision. Defined.

#[global] Instance WasmSignature_countable : Countable WasmSignature.
Proof.
  refine (inj_countable' (fun s => (ParamTypes s, ReturnType s))
                         (fun p => mkSig p.1 p.2) _).
  intros []; reflexivity.
Defined.

Record WasmGlobalType := mkGlobalType { Type_ : Z; Mutable : bool }.
Record WasmInitExpr := mkInitExpr { Opcode : Z; Value : Z }.
Record WasmGlobal := mkGlobal { GType : WasmGlobalType; InitExpr : WasmInitExpr }.
Record WasmRelocation := mkReloc { RType : Z; RIndex : Z }.
Record WasmInitFunc := mkInitFunc { IPriority : Z; ISymbol : Z }.
Record WasmExport := mkExport { EName : string; EKind : Z; EIndex : Z }.

#[global] Instance WasmExport_eq_dec : EqDecision WasmExport.
Proof. solve_decision. Defined.

(** An init entry to be written to the synthetic init function. *)
Record WasmInitEntry := mkInitEntry { Sym : SymPtr; Priority : Z }.

Module InputFunction.
Record t := mk {
  Name : string;
  Live : bool;
  Signature : WasmSignature;
  Relocations : list WasmRelocation;
  FunctionIndex : option Z;
  TableIndex : option Z;
  Body : list Z
}.
Definition setFunctionIndex (i : Z) (f : t) : t :=
  let 'mk n l s r _ ti b := f in mk n l s r (Some i) ti b.
Definition setTableIndex (i : Z) (f : t) : t :=
  let 'mk n l s r fi _ b := f in mk n l s r fi (Some i) b.
Definition setBody (b : list Z) (f : t) : t :=
  let 'mk n l s r fi ti _ := f in mk n l s r fi ti b.
End InputFunction.

Module InputGlobal.
Record t := mk {
  Live : bool;
  Global : WasmGlobal;
  GlobalIndex : option Z
}.
Definition setGlobalIndex (i : Z) (g : t) : t :=
  let 'mk l gl _ := g in mk l gl (Some i).
Definition setInitValue (v : Z) (g : t) : t :=
  let 'mk l gl gi := g in
  mk l (mkGlobal (GType gl) (mkInitExpr (Opcode (InitExpr gl)) v)) gi.
End InputGlobal.

(** A data segment or a custom section of an object file, as far as the
    writer reads it. *)
Module InputChunk.
Record t := mk {
  Name : string;
  Live : bool;
  Relocations : list WasmRelocation;
  Size : Z;
  Alignment : Z
}.
End InputChunk.

Module Symbol.
Inductive Kind :=
| DefinedFunctionKind | DefinedDataKind | DefinedGlobalKind | SectionKind
| UndefinedFunctionKind | UndefinedDataKind | UndefinedGlobalKind | LazyKind.

#[global] Instance Kind_eq_dec : EqDecision Kind.
Proof. solve_decision. Defined.

(** Modelled from the spec: the symbol classes of Symbols.h. A symbol has
    a name, flags, a [Live] bit and a [IsUsedInRegularObj] bit; function
    and global symbols carry an index slot; a defined function or global
    points to the input function or global it stands for; a data symbol
    has a virtual address. *)
Record t := mk {
  Name : string;
  SymbolKind : Kind;
  Flags : Z;
  Live : bool;
  IsUsedInRegularObj : bool;
  FunctionType : option WasmSignature;
  FunctionIndex : option Z;
  TableIndex : option Z;
  Function : option FuncPtr;
  GlobalType : option WasmGlobalType;
  GlobalIndex : option Z;
  Global : option GlobPtr;
  VirtualAddress : Z
}.

Definition withFunctionIndex (i : Z) (s : t) : t :=
  let 'mk n k f l u ft _ ti fn gt gi g va := s in mk n k f l u ft (Some i) ti fn gt gi g va.
Definition withTableIndex (i : Z) (s : t) : t :=
  let 'mk n k f l u ft fi _ fn gt gi g va := s in mk n k f l u ft fi (Some i) fn gt gi g va.
Definition withGlobalIndex (i : Z) (s : t) : t :=
  let 'mk n k f l u ft fi ti fn gt _ g va := s in mk n k f l u ft fi ti fn gt (Some i) g va.
Definition withVirtualAddress (a : Z) (s : t) : t :=
  let 'mk n k f l u ft fi ti fn gt gi g _ := s in mk n k f l u ft fi ti fn gt gi g a.

Definition isUndefined (s : t) : bool :=
  match SymbolKind s with
  | UndefinedFunctionKind | UndefinedDataKind | UndefinedGlobalKind => true
  | _ => false
  end.
Definition isLazy (s : t) : bool :=
  match SymbolKind s with LazyKind => true | _ => false end.
Definition isDefined (s : t) : bool := negb (isLazy s) && negb (isUndefined s).

Definition isWeak (s : t) : bool :=
  Z.land (Flags s) WASM_SYMBOL_BINDING_MASK =? WASM_SYMBOL_BINDING_WEAK.
Definition isLocal (s : t) : bool :=
  Z.land (Flags s) WASM_SYMBOL_BINDING_MASK =? WASM_SYMBOL_BINDING_LOCAL.
Definition isHidden (s : t) : bool :=
  Z.land (Flags s) WASM_SYMBOL_VISIBILITY_MASK =? WASM_SYMBOL_VISIBILITY_HIDDEN.
Definition isLive (s : t) : bool := Live s.

(** [isa<FunctionSymbol>], [isa<GlobalSymbol>], [isa<DataSymbol>] *)
Definition isFunctionSymbol (s : t) : bool :=
  match SymbolKind s with
  | DefinedFunctionKind | UndefinedFunctionKind => true
  | _ => false
  end.
Definition isGlobalSymbol (s : t) : bool :=
  match SymbolKind s with
  | DefinedGlobalKind | UndefinedGlobalKind => true
  | _ => false
  end.
Definition isDataSymbol (s : t) : bool :=
  match SymbolKind s with
  | DefinedDataKind | UndefinedDataKind => true
  | _ => false
  end.
End Symbol.

Module ObjFile.
Record t := mk {
  Functions : list FuncPtr;
  Globals : list GlobPtr;
  Segments : list InputChunk.t;
  CustomSections : list InputChunk.t;
  Symbols : list SymPtr;
  Types : list WasmSignature;
  TypeMap : list Z;
  TypeIsUsed : list bool;
  InitFunctions : list WasmInitFunc;
  SnaxABI : string;
  SnaxActions : list string;
  SnaxNotify : list string
}.
Definition withTypeMap (m : list Z) (f : t) : t :=
  let 'mk a b c d e g _ u i j k l := f in mk a b c d e g m u i j k l.
Definition withTypeIsUsed (u : list bool) (f : t) : t :=
  let 'mk a b c d e g m _ i j k l := f in mk a b c d e g m u i j k l.
End ObjFile.

Module Config.
Record t := mk {
  Relocatable : bool;
  ImportMemory : bool;
  ImportTable : bool;
  ExportTable : bool;
  ExportAll : bool;
  MergeDataSegments : bool;
  StackFirst : bool;
  StripDebug : bool;
  StripAll : bool;
  ZStackSize : Z;
  GlobalBase : Z;
  InitialMemory : Z;
  MaxMemory : Z
}.
End Config.

Module OutputSegment.
Record t := mk {
  Name : string;
  Index : Z;
  Alignment : Z;
  Size : Z;
  StartVA : Z;
  InputSegments : list InputChunk.t
}.
Definition withStartVA (va : Z) (s : t) : t :=
  let 'mk n i a sz _ l := s in mk n i a sz va l.
End OutputSegment.

(** An import entry as [createImportSection] builds it. *)
Inductive ImportDesc :=
| ImportFunction (SigIndex : Z)
| ImportGlobal (Global : WasmGlobalType)
| ImportMemory (Flags Initial Maximum : Z)
| ImportTable (ElemType Flags Initial Maximum : Z).

Record WasmImport := mkImport { Module_ : string; Field : string; Desc : ImportDesc }.

(** A section made by [createSyntheticSection]: its type, its name and the
    bytes written to its stream. *)
Record SyntheticSection := mkSection { SType : Z; SName : string; Body : list Z }.

Module SymbolTable.
(** Modelled from the spec: the symbol table of SymbolTable.h, with the
    stores the pointers of the link point into. [SymVector] is what
    [getSymbols()] returns. *)
Record t := mk {
  ObjectFiles : list ObjFile.t;
  SyntheticFunctions : list FuncPtr;
  SyntheticGlobals : list GlobPtr;
  SymVector : list SymPtr;
  Symbols : list Symbol.t;
  Functions : list InputFunction.t;
  Globals : list InputGlobal.t
}.
Definition withObjectFiles (v : list ObjFile.t) (s : t) : t :=
  let 'mk _ b c d e f g := s in mk v b c d e f g.
Definition withSymbols (v : list Symbol.t) (s : t) : t :=
  let 'mk a b c d _ f g := s in mk a b c d v f g.
Definition withFunctions (v : list InputFunction.t) (s : t) : t :=
  let 'mk a b c d e _ g := s in mk a b c d e v g.
Definition withGlobals (v : list InputGlobal.t) (s : t) : t :=
  let 'mk a b c d e f _ := s in mk a b c d e f v.
End SymbolTable.

(** The synthetic symbols of [WasmSym]; [None] is a null pointer. *)
Module WasmSym.
Record t := mk {
  StackPointer : option SymPtr;
  HeapBase : option SymPtr;
  DataEnd : option SymPtr;
  DsoHandle : option SymPtr;
  CallCtors : option SymPtr;
  EntryFunc : option SymPtr
}.
End WasmSym.

Module Writer.
Record t := mk {
  NumMemoryPages : Z;
  MaxMemoryPages : Z;
  Types : list WasmSignature;
  TypeIndices : gmap WasmSignature Z;
  ImportedSymbols : list SymPtr;
  NumImportedFunctions : Z;
  NumImportedGlobals : Z;
  Exports : list WasmExport;
  DefinedFakeGlobals : list SymPtr;
  InputGlobals : list GlobPtr;
  InputFunctions : list FuncPtr;
  IndirectFunctions : list SymPtr;
  InitFunctions : list WasmInitEntry;
  abis : list string;
  OutputSections : list SyntheticSection;
  Segments : list OutputSegment.t;
  SegmentMap : gmap string nat
}.

(** The members as the class initialises them. *)
Definition init : t := mk 0 0 [] ∅ [] 0 0 [] [] [] [] [] [] [] [] [] ∅.

Definition withNumMemoryPages v (w : t) : t :=
  let 'mk _ b c d e f g h i j k l m n o p q := w in mk v b c d e f g h i j k l m n o p q.
Definition withMaxMemoryPages v (w : t) : t :=
  let 'mk a _ c d e f g h i j k l m n o p q := w in mk a v c d e f g h i j k l m n o p q.
Definition withTypes v (w : t) : t :=
  let 'mk a b _ d e f g h i j k l m n o p q := w in mk a b v d e f g h i j k l m n o p q.
Definition withTypeIndices v (w : t) : t :=
  let 'mk a b c _ e f g h i j k l m n o p q := w in mk a b c v e f g h i j k l m n o p q.
Definition withImportedSymbols v (w : t) : t :=
  let 'mk a b c d _ f g h i j k l m n o p q := w in mk a b c d v f g h i j k l m n o p q.
Definition withNumImportedFunctions v (w : t) : t :=
  let 'mk a b c d e _ g h i j k l m n o p q := w in mk a b c d e v g h i j k l m n o p q.
Definition withNumImportedGlobals v (w : t) : t :=
  let 'mk a b c d e f _ h i j k l m n o p q := w in mk a b c d e f v h i j k l m n o p q.
Definition withExports v (w : t) : t :=
  let 'mk a b c d e f g _ i j k l m n o p q := w in mk a b c d e f g v i j k l m n o p q.
Definition withDefinedFakeGlobals v (w : t) : t :=
  let 'mk a b c d e f g h _ j k l m n o p q := w in mk a b c d e f g h v j k l m n o p q.
Definition withInputGlobals v (w : t) : t :=
  let 'mk a b c d e f g h i _ k l m n o p q := w in mk a b c d e f g h i v k l m n o p q.
Definition withInputFunctions v (w : t) : t :=
  let 'mk a b c d e f g h i j _ l m n o p q := w in mk a b c d e f g h i j v l m n o p q.
Definition withIndirectFunctions v (w : t) : t :=
  let 'mk a b c d e f g h i j k _ m n o p q := w in mk a b c d e f g h i j k v m n o p q.
Definition withInitFunctions v (w : t) : t :=
  let 'mk a b c d e f g h i j k l _ n o p q := w in mk a b c d e f g h i j k l v n o p q.
Definition withAbis v (w : t) : t :=
  let 'mk a b c d e f g h i j k l m _ o p q := w in mk a b c d e f g h i j k l m v o p q.
Definition withOutputSections v (w : t) : t :=
  let 'mk a b c d e f g h i j k l m n _ p q := w in mk a b c d e f g h i j k l m n v p q.
Definition withSegments v (w : t) : t :=
  let 'mk a b c d e f g h i j k l m n o _ q := w in mk a b c d e f g h i j k l m n o v q.
Definition withSegmentMap v (w : t) : t :=
  let 'mk a b c d e f g h i j k l m n o p _ := w in mk a b c d e f g h i j k l m n o p v.
End Writer.

(** The state of a link: the configuration, the symbol table with its
    stores, the synthetic symbols, the error sink and the members of the
    writer. [NDEBUG] tells whether [assert] is compiled out. *)
Record State := mkState {
  NDEBUG : bool;
  Cfg : Config.t;
  Symtab : SymbolTable.t;
  WSym : WasmSym.t;
  Errors : list string;
  W : Writer.t
}.

Definition withSymtab (v : SymbolTable.t) (s : State) : State :=
  let 'mkState a b _ d e f := s in mkState a b v d e f.
Definition withErrors (v : list string) (s : State) : State :=
  let 'mkState a b c d _ f := s in mkState a b c d v f.
Definition withW (v : Writer.t) (s : State) : State :=
  let 'mkState a b c d e _ := s in mkState a b c d e v.

(** Modelled from the spec: [error()] of the error sink is recoverable, it
    records the message and the link goes on; [errorCount()] counts them. *)
Definition error (msg : string) (s : State) : State :=
  withErrors (Errors s ++ [msg]) s.
Definition errorCount (s : State) : nat := length (Errors s).

(** [assert(c)] *)
Definition assert_ (c : bool) (s : State) : Outcome unit :=
  if NDEBUG s || c then Done tt else Abort.

(** *** Access through pointers *)

Definition getSym (p : SymPtr) (s : State) : Outcome Symbol.t :=
  deref (SymbolTable.Symbols (Symtab s) !! p).
Definition getFunc (p : FuncPtr) (s : State) : Outcome InputFunction.t :=
  deref (SymbolTable.Functions (Symtab s) !! p).
Definition getGlob (p : GlobPtr) (s : State) : Outcome InputGlobal.t :=
  deref (SymbolTable.Globals (Symtab s) !! p).
Definition getFile (p : FilePtr) (s : State) : Outcome ObjFile.t :=
  deref (SymbolTable.ObjectFiles (Symtab s) !! p).

Definition putSym (p : SymPtr) (v : Symbol.t) (s : State) : State :=
  withSymtab (SymbolTable.withSymbols (<[p := v]> (SymbolTable.Symbols (Symtab s))) (Symtab s)) s.
Definition putFunc (p : FuncPtr) (v : InputFunction.t) (s : State) : State :=
  withSymtab (SymbolTable.withFunctions (<[p := v]> (SymbolTable.Functions (Symtab s))) (Symtab s)) s.
Definition putGlob (p : GlobPtr) (v : InputGlobal.t) (s : State) : State :=
  withSymtab (SymbolTable.withGlobals (<[p := v]> (SymbolTable.Globals (Symtab s))) (Symtab s)) s.
Definition putFile (p : FilePtr) (v : ObjFile.t) (s : State) : State :=
  withSymtab (SymbolTable.withObjectFiles (<[p := v]> (SymbolTable.ObjectFiles (Symtab s))) (Symtab s)) s.

(** Modelled from the spec: the index slots of function and global symbols
    (Symbols.cpp). A defined function reads and writes the slots of its
    input function, an undefined one its own. *)
Definition hasFunctionIndex (p : SymPtr) (s : State) : Outcome bool :=
  sym ← getSym p s;
  match Symbol.SymbolKind sym with
  | Symbol.DefinedFunctionKind =>
      fp ← deref (Symbol.Function sym); f ← getFunc fp s;
      Done (bool_decide (is_Some (InputFunction.FunctionIndex f)))
  | Symbol.UndefinedFunctionKind => Done (bool_decide (is_Some (Symbol.FunctionIndex sym)))
  | _ => Undefined
  end.

Definition getFunctionIndex (p : SymPtr) (s : State) : Outcome Z :=
  sym ← getSym p s;
  match Symbol.SymbolKind sym with
  | Symbol.DefinedFunctionKind =>
      fp ← deref (Symbol.Function sym); f ← getFunc fp s;
      deref (InputFunction.FunctionIndex f)
  | Symbol.UndefinedFunctionKind => deref (Symbol.FunctionIndex sym)
  | _ => Undefined
  end.

Definition setFunctionIndex (p : SymPtr) (i : Z) (s : State) : Outcome State :=
  sym ← getSym p s;
  Done (putSym p (Symbol.withFunctionIndex i sym) s).

Definition hasTableIndex (p : SymPtr) (s : State) : Outcome bool :=
  sym ← getSym p s;
  match Symbol.SymbolKind sym with
  | Symbol.DefinedFunctionKind =>
      fp ← deref (Symbol.Function sym); f ← getFunc fp s;
      Done (bool_decide (is_Some (InputFunction.TableIndex f)))
  | Symbol.UndefinedFunctionKind => Done (bool_decide (is_Some (Symbol.TableIndex sym)))
  | _ => Undefined
  end.

Definition getTableIndex (p : SymPtr) (s : State) : Outcome Z :=
  sym ← getSym p s;
  match Symbol.SymbolKind sym with
  | Symbol.DefinedFunctionKind =>
      fp ← deref (Symbol.Function sym); f ← getFunc fp s;
      deref (InputFunction.TableIndex f)
  | Symbol.UndefinedFunctionKind => deref (Symbol.TableIndex sym)
  | _ => Undefined
  end.

Definition setTableIndex (p : SymPtr) (i : Z) (s : State) : Outcome State :=
  sym ← getSym p s;
  match Symbol.SymbolKind sym with
  | Symbol.DefinedFunctionKind =>
      fp ← deref (Symbol.Function sym); f ← getFunc fp s;
      Done (putFunc fp (InputFunction.setTableIndex i f) s)
  | Symbol.UndefinedFunctionKind => Done (putSym p (Symbol.withTableIndex i sym) s)
  | _ => Undefined
  end.

Definition getGlobalIndex (p : SymPtr) (s : State) : Outcome Z :=
  sym ← getSym p s;
  match Symbol.SymbolKind sym with
  | Symbol.DefinedGlobalKind =>
      gp ← deref (Symbol.Global sym); g ← getGlob gp s;
      deref (InputGlobal.GlobalIndex g)
  | Symbol.UndefinedGlobalKind => deref (Symbol.GlobalIndex sym)
  | _ => Undefined
  end.

Definition setGlobalIndex (p : SymPtr) (i : Z) (s : State) : Outcome State :=
  sym ← getSym p s;
  Done (putSym p (Symbol.withGlobalIndex i sym) s).

Definition setVirtualAddress (p : SymPtr) (a : Z) (s : State) : Outcome State :=
  sym ← getSym p s;
  Done (putSym p (Symbol.withVirtualAddress a sym) s).

Definition getVirtualAddress (p : SymPtr) (s : State) : Outcome Z :=
  sym ← getSym p s; Done (Symbol.VirtualAddress sym).

(** ** More of the wire encoder: strings, limits, signatures, imports *)

Module WireRecords.

Definition bytes_of_string (s : string) : list Z :=
  map (fun a => Z.of_N (N_of_ascii a)) (list_ascii_of_string s).

(** Modelled from the spec: [writeStr] writes the ULEB128 length followed by
    the raw bytes, without terminator. *)
Definition writeStr (s : string) : list Z :=
  writeUleb128 (Str.size s) ++ bytes_of_string s.

(** Modelled from the spec: [writeLimits] writes the flag byte, then one
    or two ULEBs. *)
Definition writeLimits (Flags Initial Maximum : Z) : list Z :=
  writeU8 Flags ++ writeUleb128 Initial ++
  (if Z.land Flags 1 =? 0 then [] else writeUleb128 Maximum).

(** Modelled from the spec: [writeSig] writes the form byte [0x60], the
    ULEB count of parameters, their value-type bytes, the ULEB count of
    results and their value-type bytes. *)
Definition writeSig (Sig : WasmSignature) : list Z :=
  writeU8 0x60 ++ writeUleb128 (Z.of_nat (length (ParamTypes Sig))) ++
  flat_map writeU8 (ParamTypes Sig) ++
  (if ReturnType Sig =? WASM_TYPE_NORESULT then writeUleb128 0
   else writeUleb128 1 ++ writeU8 (ReturnType Sig)).

(** Modelled from the spec: [writeImport] writes the module and field
    names, the kind byte and the kind's own description. *)
Definition writeImport (Import : WasmImport) : list Z :=
  writeStr (Module_ Import) ++ writeStr (Field Import) ++
  match Desc Import with
  | ImportFunction SigIndex => writeU8 WASM_EXTERNAL_FUNCTION ++ writeUleb128 SigIndex
  | ImportGlobal G =>
      writeU8 WASM_EXTERNAL_GLOBAL ++ writeU8 (Type_ G) ++ writeU8 (if Mutable G then 1 else 0)
  | ImportMemory F Ini M => writeU8 WASM_EXTERNAL_MEMORY ++ writeLimits F Ini M
  | ImportTable E F Ini M => writeU8 WASM_EXTERNAL_TABLE ++ writeU8 E ++ writeLimits F Ini M
  end.

End WireRecords.
Import WireRecords.

Definition WASM_SEC_TYPE : Z := 1.
Definition WASM_SEC_IMPORT : Z := 2.
Definition WASM_SEC_FUNCTION : Z := 3.
Definition WASM_SEC_ELEM : Z := 9.
Definition WASM_TYPE_ANYFUNC : Z := 0x70.
Definition WASM_LIMITS_FLAG_HAS_MAX : Z := 1.

(** ** The writer *)

(** [createSyntheticSection(Type, Name)], with the bytes the caller then
    writes to the stream of the new section. *)
Definition createSyntheticSection (Type_ : Z) (Name : string) (OS : list Z) (s : State) : State :=
  withW (Writer.withOutputSections
           (Writer.OutputSections (W s) ++ [mkSection Type_ Name OS]) (W s)) s.

(** *** Type table *)

(** [Writer::lookupType]. The rendering of the signature in the message is
    left out. *)
Definition lookupType (Sig : WasmSignature) (s : State) : Z * State :=
  match Writer.TypeIndices (W s) !! Sig with
  | None => (0, error "type not found: " s)
  | Some i => (wrap32 i, s)
  end.

(** [Writer::registerType]. The map holds [int32_t] values, the result is a
    [uint32_t]. *)
Definition registerType (Sig : WasmSignature) (s : State) : Z * State :=
  match Writer.TypeIndices (W s) !! Sig with
  | Some i => (wrap32 i, s)
  | None =>
      let i := to_int32 (Z.of_nat (length (Writer.Types (W s)))) in
      (wrap32 i,
       withW (Writer.withTypes (Writer.Types (W s) ++ [Sig])
                (Writer.withTypeIndices (<[Sig := i]> (Writer.TypeIndices (W s))) (W s))) s)
  end.

(** *** Sections *)

(** The entry [createImportSection] builds for one imported symbol. *)
Definition importOf (p : SymPtr) (s : State) : Outcome (WasmImport * State) :=
  sym ← getSym p s;
  if Symbol.isFunctionSymbol sym then
    Sig ← deref (Symbol.FunctionType sym);
    let '(SigIndex, s') := lookupType Sig s in
    Done (mkImport "env" (Symbol.Name sym) (ImportFunction SigIndex), s')
  else if Symbol.isGlobalSymbol sym then
    G ← deref (Symbol.GlobalType sym);
    Done (mkImport "env" (Symbol.Name sym) (ImportGlobal G), s)
  else Undefined.

Fixpoint importsOf (l : list SymPtr) (s : State) : Outcome (list WasmImport * State) :=
  match l with
  | [] => Done ([], s)
  | p :: l' =>
      '(Import, s1) ← importOf p s;
      '(Imports, s2) ← importsOf l' s1;
      Done (Import :: Imports, s2)
  end.

Definition memoryImport (s : State) : WasmImport :=
  let Flags := if Writer.MaxMemoryPages (W s) =? 0 then 0 else WASM_LIMITS_FLAG_HAS_MAX in
  mkImport "env" "memory"
    (ImportMemory Flags (Writer.NumMemoryPages (W s)) (Writer.MaxMemoryPages (W s))).

Definition tableImport (s : State) : WasmImport :=
  let TableSize := wrap32 (kInitialTableOffset + Z.of_nat (length (Writer.IndirectFunctions (W s)))) in
  mkImport "env" kFunctionTableName
    (ImportTable WASM_TYPE_ANYFUNC WASM_LIMITS_FLAG_HAS_MAX TableSize TableSize).

(** [Writer::createImportSection] *)
Definition createImportSection (s : State) : Outcome State :=
  let NumImports :=
    wrap32 (wrap32 (wrap32 (Z.of_nat (length (Writer.ImportedSymbols (W s))))
                    + (if Config.ImportMemory (Cfg s) then 1 else 0))
            + (if Config.ImportTable (Cfg s) then 1 else 0)) in
  if NumImports =? 0 then Done s
  else
    '(Imports, s') ← importsOf (Writer.ImportedSymbols (W s)) s;
    let entries :=
      (if Config.ImportMemory (Cfg s) then [memoryImport s] else []) ++
      (if Config.ImportTable (Cfg s) then [tableImport s] else []) ++ Imports in
    Done (createSyntheticSection WASM_SEC_IMPORT ""
            (writeUleb128 NumImports ++ flat_map writeImport entries) s').

(** [Writer::createTypeSection] *)
Definition createTypeSection (s : State) : State :=
  createSyntheticSection WASM_SEC_TYPE ""
    (writeUleb128 (Z.of_nat (length (Writer.Types (W s)))) ++
     flat_map writeSig (Writer.Types (W s))) s.

(** The signature indices [createFunctionSection] writes. *)
Fixpoint sigIndicesOf (l : list FuncPtr) (s : State) : Outcome (list Z * State) :=
  match l with
  | [] => Done ([], s)
  | p :: l' =>
      Func ← getFunc p s;
      let '(i, s1) := lookupType (InputFunction.Signature Func) s in
      '(idxs, s2) ← sigIndicesOf l' s1;
      Done (i :: idxs, s2)
  end.

(** [Writer::createFunctionSection] *)
Definition createFunctionSection (s : State) : Outcome State :=
  match Writer.InputFunctions (W s) with
  | [] => Done s
  | _ =>
      '(idxs, s') ← sigIndicesOf (Writer.InputFunctions (W s)) s;
      Done (createSyntheticSection WASM_SEC_FUNCTION ""
              (writeUleb128 (Z.of_nat (length (Writer.InputFunctions (W s)))) ++
               flat_map writeUleb128 idxs) s')
  end.

(** The loop of [createElemSection]: the function index of every indirect
    function, with the assertion on its table index. *)
Fixpoint elemEntries (l : list SymPtr) (TableIndex : Z) (s : State) : Outcome (list Z) :=
  match l with
  | [] => Done []
  | p :: l' =>
      ti ← getTableIndex p s;
      _ ← assert_ (ti =? TableIndex) s;
      fi ← getFunctionIndex p s;
      rest ← elemEntries l' (wrap32 (TableIndex + 1)) s;
      Done (writeUleb128 fi ++ rest)
  end.

(** [Writer::createElemSection] *)
Definition createElemSection (s : State) : Outcome State :=
  match Writer.IndirectFunctions (W s) with
  | [] => Done s
  | _ =>
      entries ← elemEntries (Writer.IndirectFunctions (W s)) kInitialTableOffset s;
      Done (createSyntheticSection WASM_SEC_ELEM ""
              (writeUleb128 1 ++ writeUleb128 0 ++
               writeInitExpr WASM_OPCODE_I32_CONST kInitialTableOffset ++
               writeUleb128 (Z.of_nat (length (Writer.IndirectFunctions (W s)))) ++
               entries) s)
  end.

(** *** Imports *)

Definition pushImportedSymbol (p : SymPtr) (s : State) : State :=
  withW (Writer.withImportedSymbols (Writer.ImportedSymbols (W s) ++ [p]) (W s)) s.

(** The body of the loop of [calculateImports]. *)
Definition calculateImports_body (p : SymPtr) (s : State) : Outcome State :=
  Sym ← getSym p s;
  if negb (Symbol.isUndefined Sym) then Done s
  else if Symbol.isDataSymbol Sym then Done s
  else if Symbol.isWeak Sym && negb (Config.Relocatable (Cfg s)) then Done s
  else if negb (Symbol.isLive Sym) then Done s
  else if negb (Symbol.IsUsedInRegularObj Sym) then Done s
  else
    let s1 := pushImportedSymbol p s in
    if Symbol.isFunctionSymbol Sym then
      let n := Writer.NumImportedFunctions (W s1) in
      s2 ← setFunctionIndex p n (withW (Writer.withNumImportedFunctions (wrap32 (n + 1)) (W s1)) s1);
      Done s2
    else if Symbol.isGlobalSymbol Sym then
      let n := Writer.NumImportedGlobals (W s1) in
      s2 ← setGlobalIndex p n (withW (Writer.withNumImportedGlobals (wrap32 (n + 1)) (W s1)) s1);
      Done s2
    else Undefined.

(** [Writer::calculateImports] *)
Definition calculateImports (s : State) : Outcome State :=
  forEach calculateImports_body (SymbolTable.SymVector (Symtab s)) s.

(** *** Exports *)

Definition pushExport (e : WasmExport) (s : State) : State :=
  withW (Writer.withExports (Writer.Exports (W s) ++ [e]) (W s)) s.

Definition pushDefinedFakeGlobal (p : SymPtr) (s : State) : State :=
  withW (Writer.withDefinedFakeGlobals (Writer.DefinedFakeGlobals (W s) ++ [p]) (W s)) s.

(** The body of the loop of [calculateExports]; [FakeGlobalIndex] is the
    local counter. *)
Definition calculateExports_body (p : SymPtr) (acc : Z * State) : Outcome (Z * State) :=
  let '(FakeGlobalIndex, s) := acc in
  Sym ← getSym p s;
  if negb (Symbol.isDefined Sym) then Done acc
  else if Symbol.isHidden Sym && negb (Config.ExportAll (Cfg s)) then Done acc
  else if Symbol.isLocal Sym then Done acc
  else if negb (Symbol.isLive Sym) then Done acc
  else
    let Name := Symbol.Name Sym in
    match Symbol.SymbolKind Sym with
    | Symbol.DefinedFunctionKind =>
        i ← getFunctionIndex p s;
        Done (FakeGlobalIndex, pushExport (mkExport Name WASM_EXTERNAL_FUNCTION i) s)
    | Symbol.DefinedGlobalKind =>
        G ← deref (Symbol.GlobalType Sym);
        if Mutable G then
          (* Only the __stack_pointer should ever be create as mutable. *)
          _ ← assert_ (bool_decide (Some p = WasmSym.StackPointer (WSym s))) s;
          Done acc
        else
          i ← getGlobalIndex p s;
          Done (FakeGlobalIndex, pushExport (mkExport Name WASM_EXTERNAL_GLOBAL i) s)
    | Symbol.DefinedDataKind =>
        Done (wrap32 (FakeGlobalIndex + 1),
              pushExport (mkExport Name WASM_EXTERNAL_GLOBAL FakeGlobalIndex)
                (pushDefinedFakeGlobal p s))
    | _ => Undefined
    end.

(** [Writer::calculateExports] *)
Definition calculateExports (s : State) : Outcome State :=
  if Config.Relocatable (Cfg s) then Done s
  else
    let s1 :=
      if negb (Config.Relocatable (Cfg s)) && negb (Config.ImportMemory (Cfg s))
      then pushExport (mkExport "memory" WASM_EXTERNAL_MEMORY 0) s else s in
    let s2 :=
      if negb (Config.Relocatable (Cfg s)) && Config.ExportTable (Cfg s)
      then pushExport (mkExport kFunctionTableName WASM_EXTERNAL_TABLE 0) s1 else s1 in
    let FakeGlobalIndex :=
      wrap32 (Writer.NumImportedGlobals (W s2) + Z.of_nat (length (Writer.InputGlobals (W s2)))) in
    '(_, s3) ← forEach calculateExports_body (SymbolTable.SymVector (Symtab s2)) (FakeGlobalIndex, s2);
    Done s3.

(** *** Types *)

Definition setTypeMap (File : FilePtr) (I : nat) (v : Z) (s : State) : Outcome State :=
  F ← getFile File s;
  if bool_decide (I < length (ObjFile.TypeMap F))%nat
  then Done (putFile File (ObjFile.withTypeMap (<[I := v]> (ObjFile.TypeMap F)) F) s)
  else Undefined.

Definition setTypeIsUsed (File : FilePtr) (I : nat) (v : bool) (s : State) : Outcome State :=
  F ← getFile File s;
  if bool_decide (I < length (ObjFile.TypeIsUsed F))%nat
  then Done (putFile File (ObjFile.withTypeIsUsed (<[I := v]> (ObjFile.TypeIsUsed F)) F) s)
  else Undefined.

Definition calculateTypes_type (File : FilePtr) (I : nat) (s : State) : Outcome State :=
  F ← getFile File s;
  used ← deref (ObjFile.TypeIsUsed F !! I);
  if (used : bool) then
    Sig ← deref (ObjFile.Types F !! I);
    let '(i, s1) := registerType Sig s in
    setTypeMap File I i s1
  else Done s.

Definition calculateTypes_file (File : FilePtr) (s : State) : Outcome State :=
  F ← getFile File s;
  forEach (calculateTypes_type File) (seq 0 (length (ObjFile.Types F))) s.

Definition calculateTypes_import (p : SymPtr) (s : State) : Outcome State :=
  Sym ← getSym p s;
  if Symbol.isFunctionSymbol Sym then
    Sig ← deref (Symbol.FunctionType Sym);
    Done (registerType Sig s).2
  else Done s.

Definition calculateTypes_function (p : FuncPtr) (s : State) : Outcome State :=
  F ← getFunc p s;
  Done (registerType (InputFunction.Signature F) s).2.

(** [Writer::calculateTypes] *)
Definition calculateTypes (s : State) : Outcome State :=
  s1 ← forEach calculateTypes_file (seq 0 (length (SymbolTable.ObjectFiles (Symtab s)))) s;
  s2 ← forEach calculateTypes_import (Writer.ImportedSymbols (W s1)) s1;
  forEach calculateTypes_function (Writer.InputFunctions (W s2)) s2.

(** *** Index assignment *)

Definition AddDefinedFunction (Func : FuncPtr) (acc : Z * State) : Outcome (Z * State) :=
  let '(FunctionIndex, s) := acc in
  F ← getFunc Func s;
  if negb (InputFunction.Live F) then Done acc
  else
    let s1 := withW (Writer.withInputFunctions (Writer.InputFunctions (W s) ++ [Func]) (W s)) s in
    Done (wrap32 (FunctionIndex + 1),
          putFunc Func (InputFunction.setFunctionIndex FunctionIndex F) s1).

Definition AddDefinedGlobal (Global : GlobPtr) (acc : Z * State) : Outcome (Z * State) :=
  let '(GlobalIndex, s) := acc in
  G ← getGlob Global s;
  if InputGlobal.Live G then
    let s1 := putGlob Global (InputGlobal.setGlobalIndex GlobalIndex G) s in
    Done (wrap32 (GlobalIndex + 1),
          withW (Writer.withInputGlobals (Writer.InputGlobals (W s1) ++ [Global]) (W s1)) s1)
  else Done acc.

(** Modelled from the spec: [ObjFile::getFunctionSymbol] resolves an index of
    the file's symbol list to a function symbol. *)
Definition getFunctionSymbol (File : ObjFile.t) (Index : Z) (s : State) : Outcome SymPtr :=
  p ← deref (ObjFile.Symbols File !! Z.to_nat Index);
  Sym ← getSym p s;
  if Symbol.isFunctionSymbol Sym then Done p else Undefined.

Definition pushIndirectFunction (p : SymPtr) (s : State) : State :=
  withW (Writer.withIndirectFunctions (Writer.IndirectFunctions (W s) ++ [p]) (W s)) s.

(** One relocation in [HandleRelocs]; [TableIndex] is the local counter. *)
Definition HandleReloc (File : FilePtr) (Reloc : WasmRelocation) (acc : Z * State)
  : Outcome (Z * State) :=
  let '(TableIndex, s) := acc in
  F ← getFile File s;
  if (RType Reloc =? R_WEBASSEMBLY_TABLE_INDEX_I32) ||
     (RType Reloc =? R_WEBASSEMBLY_TABLE_INDEX_SLEB) then
    p ← getFunctionSymbol F (RIndex Reloc) s;
    hasT ← hasTableIndex p s;
    if (hasT : bool) then Done acc
    else
      hasF ← hasFunctionIndex p s;
      if negb hasF then Done acc
      else
        s1 ← setTableIndex p TableIndex s;
        Done (wrap32 (TableIndex + 1), pushIndirectFunction p s1)
  else if RType Reloc =? R_WEBASSEMBLY_TYPE_INDEX_LEB then
    (* Mark target type as live *)
    Sig ← deref (ObjFile.Types F !! Z.to_nat (RIndex Reloc));
    let '(i, s1) := registerType Sig s in
    s2 ← setTypeMap File (Z.to_nat (RIndex Reloc)) i s1;
    s3 ← setTypeIsUsed File (Z.to_nat (RIndex Reloc)) true s2;
    Done (TableIndex, s3)
  else Done acc.

(** [HandleRelocs(Chunk)] for a chunk of file [File]. *)
Definition HandleRelocs (File : FilePtr) (Live : bool) (Relocs : list WasmRelocation)
    (acc : Z * State) : Outcome (Z * State) :=
  if negb Live then Done acc
  else forEach (HandleReloc File) Relocs acc.

Definition HandleRelocs_function (File : FilePtr) (Chunk : FuncPtr) (acc : Z * State)
  : Outcome (Z * State) :=
  F ← getFunc Chunk acc.2;
  HandleRelocs File (InputFunction.Live F) (InputFunction.Relocations F) acc.

Definition HandleRelocs_chunk (File : FilePtr) (Chunk : InputChunk.t) (acc : Z * State)
  : Outcome (Z * State) :=
  HandleRelocs File (InputChunk.Live Chunk) (InputChunk.Relocations Chunk) acc.

Definition HandleRelocs_file (File : FilePtr) (acc : Z * State) : Outcome (Z * State) :=
  F ← getFile File acc.2;
  acc1 ← forEach (HandleRelocs_function File) (ObjFile.Functions F) acc;
  acc2 ← forEach (HandleRelocs_chunk File) (ObjFile.Segments F) acc1;
  forEach (HandleRelocs_chunk File) (ObjFile.CustomSections F) acc2.

Definition fileIndices (s : State) : list FilePtr :=
  seq 0 (length (SymbolTable.ObjectFiles (Symtab s))).

(** [Writer::assignIndexes] *)
Definition assignIndexes (s : State) : Outcome State :=
  let FunctionIndex :=
    wrap32 (Writer.NumImportedFunctions (W s) + Z.of_nat (length (Writer.InputFunctions (W s)))) in
  acc1 ← forEach AddDefinedFunction (SymbolTable.SyntheticFunctions (Symtab s)) (FunctionIndex, s);
  acc2 ← forEach (fun File acc => F ← getFile File acc.2;
                                  forEach AddDefinedFunction (ObjFile.Functions F) acc)
                 (fileIndices s) acc1;
  let s2 := acc2.2 in
  '(_, s3) ← forEach HandleRelocs_file (fileIndices s) (kInitialTableOffset, s2);
  let GlobalIndex :=
    wrap32 (Writer.NumImportedGlobals (W s3) + Z.of_nat (length (Writer.InputGlobals (W s3)))) in
  acc4 ← forEach AddDefinedGlobal (SymbolTable.SyntheticGlobals (Symtab s3)) (GlobalIndex, s3);
  '(_, s5) ← forEach (fun File acc => F ← getFile File acc.2;
                                      forEach AddDefinedGlobal (ObjFile.Globals F) acc)
                     (fileIndices s) acc4;
  Done s5.

(** *** Memory layout *)

(** [getOutputDataSegmentName] *)
Definition getOutputDataSegmentName (cfg : Config.t) (Name : string) : string :=
  if negb (Config.MergeDataSegments cfg) then Name
  else if String.prefix ".text." Name then ".text"
  else if String.prefix ".data." Name then ".data"
  else if String.prefix ".bss." Name then ".bss"
  else Name.

(** Modelled from the spec: an output segment is a named aggregation of
    input segments with a computed alignment and size
    ([OutputSegment::addInputSegment] of OutputSegment.h): the alignment is
    the largest of its inputs, each input starts at the next offset aligned
    for it. A new segment has alignment 1 and size 0. *)
Definition newOutputSegment (Name : string) (Index : Z) : OutputSegment.t :=
  OutputSegment.mk Name Index 1 0 0 [].

Definition addInputSegment (InSeg : InputChunk.t) (S : OutputSegment.t) : Outcome OutputSegment.t :=
  if InputChunk.Alignment InSeg =? 0 then Undefined
  else
    let Size := wrap32 (alignTo (OutputSegment.Size S) (InputChunk.Alignment InSeg)) in
    Done (OutputSegment.mk (OutputSegment.Name S) (OutputSegment.Index S)
            (Z.max (OutputSegment.Alignment S) (InputChunk.Alignment InSeg))
            (wrap32 (Size + InputChunk.Size InSeg))
            (OutputSegment.StartVA S)
            (OutputSegment.InputSegments S ++ [InSeg])).

Definition createOutputSegments_segment (Segment : InputChunk.t) (s : State) : Outcome State :=
  if negb (InputChunk.Live Segment) then Done s
  else
    let Name := getOutputDataSegmentName (Cfg s) (InputChunk.Name Segment) in
    let '(i, s1) :=
      match Writer.SegmentMap (W s) !! Name with
      | Some i => (i, s)
      | None =>
          let i := length (Writer.Segments (W s)) in
          (i, withW (Writer.withSegments
                       (Writer.Segments (W s) ++ [newOutputSegment Name (wrap32 (Z.of_nat i))])
                       (Writer.withSegmentMap (<[Name := i]> (Writer.SegmentMap (W s))) (W s))) s)
      end in
    S ← deref (Writer.Segments (W s1) !! i);
    S' ← addInputSegment Segment S;
    Done (withW (Writer.withSegments (<[i := S']> (Writer.Segments (W s1))) (W s1)) s1).

Definition createOutputSegments_file (File : ObjFile.t) (s : State) : Outcome State :=
  let s1 :=
    if String.eqb (ObjFile.SnaxABI File) "" then s
    else withW (Writer.withAbis (Writer.abis (W s) ++ [ObjFile.SnaxABI File]) (W s)) s in
  forEach createOutputSegments_segment (ObjFile.Segments File) s1.

(** [Writer::createOutputSegments] *)
Definition createOutputSegments (s : State) : Outcome State :=
  forEach createOutputSegments_file (SymbolTable.ObjectFiles (Symtab s)) s.

(** [WasmSym::StackPointer->Global->Global.InitExpr.Value.Int32 = v] *)
Definition setStackPointerInit (v : Z) (s : State) : Outcome State :=
  sp ← deref (WasmSym.StackPointer (WSym s));
  Sym ← getSym sp s;
  gp ← deref (Symbol.Global Sym);
  G ← getGlob gp s;
  Done (putGlob gp (InputGlobal.setInitValue (to_int32 v) G) s).

(** The lambda [PlaceStack] of [layoutMemory]; [MemoryPtr] is the local
    variable it captures. *)
Definition PlaceStack (acc : Z * State) : Outcome (Z * State) :=
  let '(MemoryPtr, s) := acc in
  if Config.Relocatable (Cfg s) then Done acc
  else
    let MemoryPtr1 := wrap32 (alignTo MemoryPtr kStackAlignment) in
    let s1 :=
      if negb (Config.ZStackSize (Cfg s) =? alignTo (Config.ZStackSize (Cfg s)) kStackAlignment)
      then error "stack size must be 16-byte aligned" s else s in
    let MemoryPtr2 := wrap32 (MemoryPtr1 + Config.ZStackSize (Cfg s)) in
    s2 ← setStackPointerInit MemoryPtr2 s1;
    Done (MemoryPtr2, s2).

(** The loop of [layoutMemory] over [Segments]. *)
Fixpoint layoutSegments (Segs : list OutputSegment.t) (MemoryPtr : Z)
  : list OutputSegment.t * Z :=
  match Segs with
  | [] => ([], MemoryPtr)
  | Seg :: Segs' =>
      let MemoryPtr1 := wrap32 (alignTo MemoryPtr (OutputSegment.Alignment Seg)) in
      let Seg' := OutputSegment.withStartVA MemoryPtr1 Seg in
      let '(rest, MemoryPtr2) := layoutSegments Segs' (wrap32 (MemoryPtr1 + OutputSegment.Size Seg)) in
      (Seg' :: rest, MemoryPtr2)
  end.

Definition setOptVirtualAddress (p : option SymPtr) (a : Z) (s : State) : Outcome State :=
  match p with
  | Some p => setVirtualAddress p a s
  | None => Done s
  end.

(** [Writer::layoutMemory]. The numbers in the two "too small" messages are
    left out. *)
Definition layoutMemory (s : State) : Outcome State :=
  s ← createOutputSegments s;
  let MemoryPtr := 0 in
  '(MemoryPtr, s) ←
    (if Config.StackFirst (Cfg s) then PlaceStack (MemoryPtr, s)
     else Done (Config.GlobalBase (Cfg s), s));
  let DataStart := MemoryPtr in
  s ← setOptVirtualAddress (WasmSym.DsoHandle (WSym s)) DataStart s;
  let '(Segs, MemoryPtr) := layoutSegments (Writer.Segments (W s)) MemoryPtr in
  let s := withW (Writer.withSegments Segs (W s)) s in
  s ← setOptVirtualAddress (WasmSym.DataEnd (WSym s)) MemoryPtr s;
  '(MemoryPtr, s) ←
    (if negb (Config.StackFirst (Cfg s)) then PlaceStack (MemoryPtr, s)
     else Done (MemoryPtr, s));
  s ← (if negb (Config.Relocatable (Cfg s)) then
         hb ← deref (WasmSym.HeapBase (WSym s)); setVirtualAddress hb MemoryPtr s
       else Done s);
  let '(MemoryPtr, s) :=
    if negb (Config.InitialMemory (Cfg s) =? 0) then
      let s :=
        if negb (Config.InitialMemory (Cfg s) =? alignTo (Config.InitialMemory (Cfg s)) WasmPageSize)
        then error "initial memory must be 65536-byte aligned" s else s in
      if Config.InitialMemory (Cfg s) <? MemoryPtr
      then (MemoryPtr, error "initial memory too small" s)
      else (Config.InitialMemory (Cfg s), s)
    else (MemoryPtr, s) in
  let MemSize := wrap32 (alignTo MemoryPtr WasmPageSize) in
  let s := withW (Writer.withNumMemoryPages (MemSize / WasmPageSize) (W s)) s in
  let s :=
    if negb (Config.MaxMemory (Cfg s) =? 0) then
      let s :=
        if negb (Config.MaxMemory (Cfg s) =? alignTo (Config.MaxMemory (Cfg s)) WasmPageSize)
        then error "maximum memory must be 65536-byte aligned" s else s in
      let s :=
        if Config.MaxMemory (Cfg s) <? MemoryPtr
        then error "maximum memory too small" s else s in
      withW (Writer.withMaxMemoryPages (Config.MaxMemory (Cfg s) / WasmPageSize) (W s)) s
    else s in
  Done s.

(** *** Init functions and the constructor caller *)

(** [std::stable_sort] with the comparator [lt]: insertion from the right,
    every element is put before the first element that is not smaller. *)
Section StableSort.
Context {A : Type} (lt : A -> A -> bool).

Fixpoint stable_insert (x : A) (l : list A) : list A :=
  match l with
  | [] => [x]
  | y :: l' => if lt y x then y :: stable_insert x l' else x :: y :: l'
  end.

Fixpoint stable_sort (l : list A) : list A :=
  match l with
  | [] => []
  | x :: l' => stable_insert x (stable_sort l')
  end.
End StableSort.

Definition priority_lt (L R : WasmInitEntry) : bool := Priority L <? Priority R.

(** [WasmSignature{{}, WASM_TYPE_NORESULT}] *)
Definition voidSignature : WasmSignature := mkSig [] WASM_TYPE_NORESULT.

Definition pushInitFunction (e : WasmInitEntry) (s : State) : State :=
  withW (Writer.withInitFunctions (Writer.InitFunctions (W s) ++ [e]) (W s)) s.

Definition calculateInitFunctions_entry (File : ObjFile.t) (F : WasmInitFunc) (s : State)
  : Outcome State :=
  p ← getFunctionSymbol File (ISymbol F) s;
  Sym ← getSym p s;
  Sig ← deref (Symbol.FunctionType Sym);
  let s1 :=
    if bool_decide (Sig ≠ voidSignature)
    then error ("invalid signature for init func: " +:+ Symbol.Name Sym) s else s in
  Done (pushInitFunction (mkInitEntry p (IPriority F)) s1).

Definition calculateInitFunctions_file (File : ObjFile.t) (s : State) : Outcome State :=
  forEach (calculateInitFunctions_entry File) (ObjFile.InitFunctions File) s.

(** [Writer::calculateInitFunctions] *)
Definition calculateInitFunctions (s : State) : Outcome State :=
  s1 ← forEach calculateInitFunctions_file (SymbolTable.ObjectFiles (Symtab s)) s;
  (* Sort in order of priority (lowest first) *)
  Done (withW (Writer.withInitFunctions
                 (stable_sort priority_lt (Writer.InitFunctions (W s1))) (W s1)) s1).

Definition OPCODE_CALL : Z := 0x10.
Definition OPCODE_IF : Z := 0x4.
Definition OPCODE_ELSE : Z := 0x5.
Definition OPCODE_END : Z := 0xb.
Definition OPCODE_GET_LOCAL : Z := 0x20.
Definition OPCODE_I32_EQ : Z := 0x46.
Definition OPCODE_I64_EQ : Z := 0x51.
Definition OPCODE_I64_NE : Z := 0x52.
Definition OPCODE_I32_CONST : Z := 0x41.
Definition OPCODE_I64_CONST : Z := 0x42.
Definition SNAX_COMPILER_ERROR_BASE : Z := 8000000000000000000.
Definition SNAX_ERROR_NO_ACTION : Z := SNAX_COMPILER_ERROR_BASE.
Definition SNAX_ERROR_ONERROR : Z := SNAX_COMPILER_ERROR_BASE + 1.

(** The calls the loop of [createCtorFunction] writes. *)
Fixpoint ctorCalls (l : list WasmInitEntry) (s : State) : Outcome (list Z) :=
  match l with
  | [] => Done []
  | F :: l' =>
      i ← getFunctionIndex (Sym F) s;
      rest ← ctorCalls l' s;
      Done (writeU8 OPCODE_CALL ++ writeUleb128 i ++ rest)
  end.

(** The body [createCtorFunction] builds before it attaches it. *)
Definition ctorFunctionBody (s : State) : Outcome (list Z) :=
  calls ← ctorCalls (Writer.InitFunctions (W s)) s;
  let BodyContent := writeUleb128 0 ++ calls ++ writeU8 OPCODE_END in
  Done (writeUleb128 (Z.of_nat (length BodyContent)) ++ BodyContent).

(** [cast<SyntheticFunction>(Sym->Function)->setBody(Body)] *)
Definition setSyntheticBody (p : option SymPtr) (Body : list Z) (s : State) : Outcome State :=
  p ← deref p;
  Sym ← getSym p s;
  fp ← deref (Symbol.Function Sym);
  F ← getFunc fp s;
  Done (putFunc fp (InputFunction.setBody Body F) s).

(** [Writer::createCtorFunction] *)
Definition createCtorFunction (s : State) : Outcome State :=
  FunctionBody ← ctorFunctionBody s;
  setSyntheticBody (WasmSym.CallCtors (WSym s)) FunctionBody s.

(** *** The dispatcher *)

(** Modelled from the spec: [name(s)], the platform's encoding of a string of
    at most 13 characters over a 32-letter alphabet into a 64-bit integer
    ([snax::cdt::string_to_name] of snax/utils.hpp): the letters [a]-[z]
    are 6-31, the digits [1]-[5] are 1-5, anything else is 0; the first
    twelve characters take five bits each from the top, the thirteenth the
    low four bits. *)
Definition char_to_symbol (c : ascii) : Z :=
  let n := Z.of_N (N_of_ascii c) in
  if (97 <=? n) && (n <=? 122) then n - 97 + 6
  else if (49 <=? n) && (n <=? 53) then n - 49 + 1
  else 0.

Fixpoint string_to_name_from (i : nat) (n : nat) (str : string) : Z :=
  match n with
  | O => 0
  | S n' =>
      let '(c, rest) :=
        match str with
        | EmptyString => (0, EmptyString)
        | String a str' => (char_to_symbol a, str')
        end in
      let c :=
        if (i <? 12)%nat then Z.shiftl (Z.land c 31) (64 - 5 * (Z.of_nat i + 1))
        else Z.land c 15 in
      Z.lor c (string_to_name_from (S i) n' rest)
  end.

Definition string_to_name (str : string) : Z := string_to_name_from 0 13 (Str.c_str str).

(** Modelled from the spec: [SymbolTable::find(name)] returns the symbol of
    that name, or null. *)
Definition find (Name : string) (s : State) : option SymPtr :=
  List.find (fun p => match SymbolTable.Symbols (Symtab s) !! p with
                      | Some Sym => String.eqb (Symbol.Name Sym) Name
                      | None => false
                      end)
            (SymbolTable.SymVector (Symtab s)).

(** [((FunctionSymbol* )Symtab->find(name))->getFunctionIndex()] as a
    [uint32_t] *)
Definition functionIndexOf (Name : string) (s : State) : Outcome Z :=
  func_sym ← deref (find Name s);
  i ← getFunctionIndex func_sym s;
  Done (wrap32 i).

Definition INT_MAX : Z := 2 ^ 31 - 1.

Section Dispatch.

(** The symbol table the lambdas capture. *)
Variable s : State.

(** The lambda [create_if]: the bytes it writes; [need_else] is [true]
    when it returns. *)
Definition create_if (str : string) (need_else : bool) : Outcome (list Z) :=
  prefix ← Str.substr str 0 (Str.find_colon str);
  let nm := string_to_name prefix in
  target ← Str.substr_from str (wrap64 (Str.find_colon str + 1));
  index ← functionIndexOf target s;
  if 0 <=? index then
    Done ((if need_else then writeU8 OPCODE_ELSE else []) ++
          writeU8 OPCODE_I64_CONST ++ encodeSLEB128 nm ++
          writeU8 OPCODE_GET_LOCAL ++ writeUleb128 2 ++
          writeU8 OPCODE_I64_EQ ++
          writeU8 OPCODE_IF ++ writeU8 0x40 ++
          writeU8 OPCODE_GET_LOCAL ++ writeUleb128 0 ++
          writeU8 OPCODE_GET_LOCAL ++ writeUleb128 1 ++
          writeU8 OPCODE_CALL ++ writeUleb128 index)
  else Raise "wasm_ld internal error function not found".

(** A cascade of [create_if] over a vector, starting with [need_else]. *)
Fixpoint create_ifs (l : list string) (need_else : bool) : Outcome (list Z) :=
  match l with
  | [] => Done []
  | str :: l' =>
      b ← create_if str need_else;
      rest ← create_ifs l' true;
      Done (b ++ rest)
  end.

(** [if (receiver != name("snax"))] *)
Definition if_receiver_ne_snax : list Z :=
  writeU8 OPCODE_GET_LOCAL ++ writeUleb128 0 ++
  writeU8 OPCODE_I64_CONST ++ encodeSLEB128 (string_to_name "snax") ++
  writeU8 OPCODE_I64_NE ++
  writeU8 OPCODE_IF ++ writeU8 0x40.

(** [snax_assert_code(false, code)] *)
Definition call_assert (assert_idx code : Z) : list Z :=
  writeU8 OPCODE_I32_CONST ++ writeUleb128 0 ++
  writeU8 OPCODE_I64_CONST ++ writeUleb128 code ++
  writeU8 OPCODE_CALL ++ writeUleb128 assert_idx.

(** The [else] branch calling [post_dispatch], when the symbol exists. *)
Definition call_post (post_sym : option SymPtr) : Outcome (list Z) :=
  match post_sym with
  | None => Done []
  | Some p =>
      i ← getFunctionIndex p s;
      let post_idx := wrap32 i in
      Done (writeU8 OPCODE_ELSE ++
            writeU8 OPCODE_GET_LOCAL ++ writeUleb128 0 ++
            writeU8 OPCODE_GET_LOCAL ++ writeUleb128 1 ++
            writeU8 OPCODE_GET_LOCAL ++ writeUleb128 2 ++
            writeU8 OPCODE_CALL ++ writeUleb128 post_idx)
  end.

Definition ends (n : Z) : list Z := concat (replicate (Z.to_nat n) (writeU8 OPCODE_END)).

(** The loop state of [create_action_dispatch]: the bytes written, the
    set [has_dispatched], [need_else] and [act_cnt]. *)
Definition action_body (act : string) (acc : list Z * gset string * bool * Z)
  : Outcome (list Z * gset string * bool * Z) :=
  let '(OS, has_dispatched, need_else, act_cnt) := acc in
  if bool_decide (act ∈ has_dispatched) then Done acc
  else
    b ← create_if act need_else;
    if INT_MAX <=? act_cnt then Undefined
    else Done (OS ++ b, {[act]} ∪ has_dispatched, true, act_cnt + 1).

Definition action_file (File : ObjFile.t) (acc : list Z * gset string * bool * Z)
  : Outcome (list Z * gset string * bool * Z) :=
  forEach action_body (ObjFile.SnaxActions File) acc.

(** The lambda [create_action_dispatch] *)
Definition create_action_dispatch (assert_idx : Z) (post_sym : option SymPtr)
  : Outcome (list Z) :=
  '(OS, _, _, act_cnt) ←
    forEach action_file (SymbolTable.ObjectFiles (Symtab s)) ([], ∅, false, 0);
  post ← call_post post_sym;
  Done (OS ++
        (if 0 <? act_cnt then writeU8 OPCODE_ELSE else []) ++
        (* do not fail if self == snax *)
        if_receiver_ne_snax ++
        (* assert that no action was found *)
        call_assert assert_idx SNAX_ERROR_NO_ACTION ++
        post ++
        writeU8 OPCODE_END ++
        ends act_cnt).

End Dispatch.

(** [std::map<std::string, std::vector<std::string>>]: an association list
    kept sorted by key, which is the order the map is iterated in. *)
Module NotifyMap.
Definition t := list (string * list string).

(** [m[key].push_back(v)] *)
Fixpoint push_back (key v : string) (m : t) : t :=
  match m with
  | [] => [(key, [v])]
  | (k, vs) :: m' =>
      match String.compare key k with
      | Eq => (k, vs ++ [v]) :: m'
      | Lt => (key, [v]) :: m
      | Gt => (k, vs) :: push_back key v m'
      end
  end.

(** [m[key]], read only *)
Fixpoint at_ (key : string) (m : t) : list string :=
  match m with
  | [] => []
  | (k, vs) :: m' => if String.eqb k key then vs else at_ key m'
  end.
End NotifyMap.

Section NotifyDispatch.

Variable s : State.

(** The loop state of the first loop of [create_notify_dispatch]:
    [has_dispatched], [notify_handlers] and [not_cnt]. *)
Definition notify_body (notif : string) (acc : gset string * NotifyMap.t * Z)
  : Outcome (gset string * NotifyMap.t * Z) :=
  let '(has_dispatched, notify_handlers, not_cnt) := acc in
  if bool_decide (notif ∈ has_dispatched) then Done acc
  else
    if INT_MAX <=? not_cnt then Undefined
    else
      let idx := Str.find_colon notif in
      (* <code_name>::<action>:<generated_notify_dispatch_func> *)
      code_name ← Str.substr notif 0 idx;
      rest ← Str.substr_from notif (wrap64 (idx + 2));
      Done ({[notif]} ∪ has_dispatched,
            NotifyMap.push_back code_name rest notify_handlers,
            not_cnt + 1).

Definition notify_file (File : ObjFile.t) (acc : gset string * NotifyMap.t * Z)
  : Outcome (gset string * NotifyMap.t * Z) :=
  forEach notify_body (ObjFile.SnaxNotify File) acc.

(** The loop that looks for an [onerror] handler. *)
Definition has_onerror_handler (not_cnt : Z) (notify_handlers : NotifyMap.t) : bool :=
  (0 <? not_cnt) &&
  existsb (fun notif0 : string * list string =>
             String.eqb notif0.1 "snax" &&
             existsb (fun notif1 => String.eqb notif1 "onerror") notif0.2)
          notify_handlers.

(** The assertion on [onerror], guarded by [code == snax] and
    [action == onerror]. *)
Definition assert_onerror (assert_idx : Z) : list Z :=
  writeU8 OPCODE_I64_CONST ++ encodeSLEB128 (string_to_name "snax") ++
  writeU8 OPCODE_GET_LOCAL ++ writeUleb128 1 ++
  writeU8 OPCODE_I64_EQ ++
  writeU8 OPCODE_IF ++ writeU8 0x40 ++
  writeU8 OPCODE_I64_CONST ++ encodeSLEB128 (string_to_name "onerror") ++
  writeU8 OPCODE_GET_LOCAL ++ writeUleb128 2 ++
  writeU8 OPCODE_I64_EQ ++
  writeU8 OPCODE_IF ++ writeU8 0x40 ++
  call_assert assert_idx SNAX_ERROR_ONERROR ++
  writeU8 OPCODE_END ++
  writeU8 OPCODE_END.

(** The loop that dispatches the handlers of every code but ["*"];
    [notify0_need_else] is its flag. *)
Fixpoint notify_codes (m : NotifyMap.t) (notify0_need_else : bool) : Outcome (list Z) :=
  match m with
  | [] => Done []
  | notif0 :: m' =>
      let nm := string_to_name notif0.1 in
      if String.eqb notif0.1 "*" then notify_codes m' notify0_need_else
      else
        handlers ← create_ifs s notif0.2 false;
        rest ← notify_codes m' true;
        Done ((if notify0_need_else then writeU8 OPCODE_ELSE else []) ++
              writeU8 OPCODE_I64_CONST ++ encodeSLEB128 nm ++
              writeU8 OPCODE_GET_LOCAL ++ writeUleb128 1 ++
              writeU8 OPCODE_I64_EQ ++
              writeU8 OPCODE_IF ++ writeU8 0x40 ++
              handlers ++ rest)
  end.

(** The lambda [create_notify_dispatch] *)
Definition create_notify_dispatch (assert_idx : Z) (post_sym : option SymPtr)
  : Outcome (list Z) :=
  '(_, notify_handlers, not_cnt) ←
    forEach notify_file (SymbolTable.ObjectFiles (Symtab s)) (∅, [], 0);
  (* dispatch notification handlers *)
  codes ← (if 0 <? not_cnt then
             b ← notify_codes notify_handlers false;
             Done (b ++ writeU8 OPCODE_END ++ writeU8 OPCODE_ELSE)
           else Done []);
  wildcard ← create_ifs s (NotifyMap.at_ "*" notify_handlers) false;
  post ← call_post s post_sym;
  Done (if_receiver_ne_snax ++
        (* check for onerror first *)
        (if has_onerror_handler not_cnt notify_handlers then []
         else assert_onerror assert_idx) ++
        codes ++ wildcard ++ post ++ ends not_cnt).

(** The call of [__wasm_call_ctors] (of [__cxa_finalize]), left out when
    the symbol is missing or has index 0. *)
Definition call_ctors (ctors_sym : option SymPtr) : Outcome (list Z) :=
  match ctors_sym with
  | None => Done []
  | Some p =>
      i ← getFunctionIndex p s;
      let ctors_idx := wrap32 i in
      if ctors_idx =? 0 then Done []
      else Done (writeU8 OPCODE_CALL ++ writeUleb128 ctors_idx)
  end.

Definition call_dtors (dtors_sym : option SymPtr) : Outcome (list Z) :=
  match dtors_sym with
  | None => Done []
  | Some p =>
      i ← getFunctionIndex p s;
      let dtors_idx := wrap32 i in
      if dtors_idx =? 0 then Done []
      else Done (writeU8 OPCODE_I32_CONST ++ writeUleb128 0 ++
                 writeU8 OPCODE_CALL ++ writeUleb128 dtors_idx)
  end.

Definition call_pre (pre_sym : option SymPtr) : Outcome (list Z) :=
  match pre_sym with
  | None => Done []
  | Some p =>
      i ← getFunctionIndex p s;
      let pre_idx := wrap32 i in
      Done (writeU8 OPCODE_GET_LOCAL ++ writeUleb128 0 ++
            writeU8 OPCODE_GET_LOCAL ++ writeUleb128 1 ++
            writeU8 OPCODE_GET_LOCAL ++ writeUleb128 2 ++
            writeU8 OPCODE_CALL ++ writeUleb128 pre_idx ++
            writeU8 OPCODE_IF ++ writeU8 0x40)
  end.

(** The string [BodyContent] of [createDispatchFunction] *)
Definition dispatchBodyContent : Outcome (list Z) :=
  assert_idx ← functionIndexOf "snax_assert_code" s;
  let post_sym := find "post_dispatch" s in
  (* create ctors call *)
  ctors ← call_ctors (find "__wasm_call_ctors" s);
  (* create the pre_dispatch function call *)
  let pre_sym := find "pre_dispatch" s in
  pre ← call_pre pre_sym;
  action ← create_action_dispatch s assert_idx post_sym;
  notify ← create_notify_dispatch assert_idx post_sym;
  dtors ← call_dtors (find "__cxa_finalize" s);
  Done (writeUleb128 0 ++ ctors ++ pre ++
        (* create the preamble for apply if (code == receiver) *)
        writeU8 OPCODE_GET_LOCAL ++ writeUleb128 0 ++
        writeU8 OPCODE_GET_LOCAL ++ writeUleb128 1 ++
        writeU8 OPCODE_I64_EQ ++
        writeU8 OPCODE_IF ++ writeU8 0x40 ++
        action ++
        (* now doing notification handling *)
        writeU8 OPCODE_ELSE ++
        notify ++
        writeU8 OPCODE_END ++
        dtors ++
        (if bool_decide (is_Some pre_sym) then writeU8 OPCODE_END else []) ++
        writeU8 OPCODE_END).

(** The string [FunctionBody]: the body with its length in front. *)
Definition dispatchFunctionBody : Outcome (list Z) :=
  BodyContent ← dispatchBodyContent;
  Done (writeUleb128 (Z.of_nat (length BodyContent)) ++ BodyContent).

End NotifyDispatch.

(** [Writer::createDispatchFunction] *)
Definition createDispatchFunction (s : State) : Outcome State :=
  FunctionBody ← dispatchFunctionBody s;
  setSyntheticBody (WasmSym.EntryFunc (WSym s)) FunctionBody s.

(** ** Definitions the statements use *)

(** The link is stopped by [fatal()]: no outcome of the model is of that
    kind other than a call that does not return. *)
Definition terminated {A} (o : Outcome A) : Prop :=
  match o with Done _ => False | _ => True end.

(** The name [create_if] looks up: what follows the first colon. *)
Definition dispatch_target (str : string) : string :=
  let pos := wrap64 (Str.find_colon str + 1) in
  String.substring (Z.to_nat pos) (Z.to_nat (Z.min Str.npos (Str.size str - pos))) str.

(** ** A small link to run the writer on *)

Module Example.

Definition config : Config.t :=
  Config.mk false false false false false true false false false 4096 1024 0 0.

Definition undefinedFunction (Name : string) (Index : option Z) : Symbol.t :=
  Symbol.mk Name Symbol.UndefinedFunctionKind 0 true true (Some voidSignature)
    Index None None None None None 0.

Definition definedFunction (Name : string) (Function : FuncPtr) : Symbol.t :=
  Symbol.mk Name Symbol.DefinedFunctionKind 0 true true (Some voidSignature)
    None None (Some Function) None None None 0.

Definition inputFunction (Name : string) (Index : option Z) : InputFunction.t :=
  InputFunction.mk Name true voidSignature [] Index None [].

(** One object file with three functions and the given dispatcher
    metadata. *)
Definition file (actions notify : list string) : ObjFile.t :=
  ObjFile.mk [0; 1; 2]%nat [] [] [] [0; 1; 2; 3]%nat [] [] [] [] "" actions notify.

(** The state after index assignment: [snax_assert_code] is imported with
    index 0, the handlers are defined with indices 1 and 2, [apply] is the
    synthetic entry with index 3. *)
Definition dispatchState (files : list ObjFile.t) : State :=
  mkState true config
    (SymbolTable.mk files [] [] [0; 1; 2; 3]%nat
       [undefinedFunction "snax_assert_code" (Some 0); definedFunction "handle_err" 0%nat;
        definedFunction "on_transfer" 1%nat; definedFunction "apply" 2%nat]
       [inputFunction "handle_err" (Some 1); inputFunction "on_transfer" (Some 2);
        inputFunction "apply" (Some 3)] [])
    (WasmSym.mk None None None None None (Some 3%nat)) [] Writer.init.

End Example.

(** What [createOutputSegments] leaves alone. *)
Definition same_link (s s' : State) : Prop :=
  NDEBUG s' = NDEBUG s /\ Cfg s' = Cfg s /\ Symtab s' = Symtab s /\
  WSym s' = WSym s /\ Errors s' = Errors s.

(** The output segment made of the single input segment [Seg]. *)
Definition singleSegment (cfg : Config.t) (Seg : InputChunk.t) : OutputSegment.t :=
  OutputSegment.mk (getOutputDataSegmentName cfg (InputChunk.Name Seg)) 0
    (Z.max 1 (InputChunk.Alignment Seg))
    (wrap32 (wrap32 (alignTo 0 (InputChunk.Alignment Seg)) + InputChunk.Size Seg))
    0 [Seg].

(** The symbols the layout writes to stay where they are. *)
Definition layout_symbols (sp de hb : SymPtr) (gp : GlobPtr) (syms : list Symbol.t) : Prop :=
  is_Some (syms !! de) /\ is_Some (syms !! hb) /\
  exists x, syms !! sp = Some x /\ Symbol.Global x = Some gp.

Module ExampleLayout.

Definition dataSegment : InputChunk.t := InputChunk.mk ".data" true [] 100 8.

Definition file : ObjFile.t :=
  ObjFile.mk [] [0%nat] [dataSegment] [] [0; 1; 2; 3]%nat [] [] [] [] "" [] [].

Definition stackPointer : Symbol.t :=
  Symbol.mk "__stack_pointer" Symbol.DefinedGlobalKind 4 true true None None None None
    (Some (mkGlobalType WASM_TYPE_I32 true)) None (Some 0%nat) 0.

Definition dataSymbol (Name : string) : Symbol.t :=
  Symbol.mk Name Symbol.DefinedDataKind 4 true true None None None None None None None 0.

Definition stackPointerGlobal : InputGlobal.t :=
  InputGlobal.mk true
    (mkGlobal (mkGlobalType WASM_TYPE_I32 true) (mkInitExpr WASM_OPCODE_I32_CONST 0)) None.

(** Scenario 3 of the specification: [global_base = 1024],
    [z_stack_size = 4096], one live [.data] segment of 100 bytes aligned
    to 8. *)
Definition state : State :=
  mkState true Example.config
    (SymbolTable.mk [file] [] [0%nat] [0; 1; 2; 3]%nat
       [stackPointer; dataSymbol "__heap_base"; dataSymbol "__data_end";
        dataSymbol "__dso_handle"]
       [] [stackPointerGlobal])
    (WasmSym.mk (Some 0%nat) (Some 1%nat) (Some 2%nat) (Some 3%nat) None None)
    [] Writer.init.

End ExampleLayout.

(** The type table and its index agree: no signature is listed twice, every
    index of the map is the position of its signature (as an [int32_t]),
    and every listed signature has an index. *)
Definition types_consistent (w : Writer.t) : Prop :=
  NoDup (Writer.Types w) /\
  (forall Sig i, Writer.TypeIndices w !! Sig = Some i ->
     exists n : nat, Writer.Types w !! n = Some Sig /\ i = to_int32 (Z.of_nat n)) /\
  (forall (n : nat) Sig, Writer.Types w !! n = Some Sig ->
     is_Some (Writer.TypeIndices w !! Sig)).

(** What the registration of types leaves alone, and what it only extends. *)
Definition types_extend (s s' : State) : Prop :=
  SymbolTable.Symbols (Symtab s') = SymbolTable.Symbols (Symtab s) /\
  SymbolTable.Functions (Symtab s') = SymbolTable.Functions (Symtab s) /\
  length (SymbolTable.ObjectFiles (Symtab s')) = length (SymbolTable.ObjectFiles (Symtab s)) /\
  Writer.ImportedSymbols (W s') = Writer.ImportedSymbols (W s) /\
  Writer.InputFunctions (W s') = Writer.InputFunctions (W s) /\
  Errors s' = Errors s /\
  (forall Sig i, Writer.TypeIndices (W s) !! Sig = Some i ->
                 Writer.TypeIndices (W s') !! Sig = Some i) /\
  (types_consistent (W s) -> types_consistent (W s')).

(** The signature of the imported function symbol [p] is registered. *)
Definition import_registered (p : SymPtr) (s : State) : Prop :=
  forall sym Sig,
    SymbolTable.Symbols (Symtab s) !! p = Some sym ->
    Symbol.isFunctionSymbol sym = true ->
    Symbol.FunctionType sym = Some Sig ->
    is_Some (Writer.TypeIndices (W s) !! Sig).

(** The signature of the input function [p] is registered. *)
Definition function_registered (p : FuncPtr) (s : State) : Prop :=
  exists F, SymbolTable.Functions (Symtab s) !! p = Some F /\
            is_Some (Writer.TypeIndices (W s) !! InputFunction.Signature F).

(** The index [i] written for the input function [p] names its signature in
    the type table. *)
Definition function_sig_index (s : State) (p : FuncPtr) (i : Z) : Prop :=
  exists F, SymbolTable.Functions (Symtab s) !! p = Some F /\
            0 <= i /\
            Writer.Types (W s) !! Z.to_nat i = Some (InputFunction.Signature F).

(** The import entry [Import] built for the symbol [p]: when it is a
    function import, its index names the signature of [p]. *)
Definition import_sig_index (s : State) (p : SymPtr) (Import : WasmImport) : Prop :=
  forall i, Desc Import = ImportFunction i ->
    exists sym Sig, SymbolTable.Symbols (Symtab s) !! p = Some sym /\
                    Symbol.FunctionType sym = Some Sig /\
                    0 <= i /\
                    Writer.Types (W s) !! Z.to_nat i = Some Sig.

(** The imported symbol [p] can be written as an import: it is there,
    and when it is a function symbol it has a type, which is registered. *)
Definition import_resolved (p : SymPtr) (s : State) : Prop :=
  exists sym, SymbolTable.Symbols (Symtab s) !! p = Some sym /\
    (Symbol.isFunctionSymbol sym = true ->
     exists Sig, Symbol.FunctionType sym = Some Sig /\
                 is_Some (Writer.TypeIndices (W s) !! Sig)).

(** An imported symbol that is not a function is a global symbol with a
    type. *)
Definition global_import_typed (s : State) (p : SymPtr) : Prop :=
  forall sym, SymbolTable.Symbols (Symtab s) !! p = Some sym ->
              Symbol.isFunctionSymbol sym = false ->
              Symbol.isGlobalSymbol sym = true /\ is_Some (Symbol.GlobalType sym).

(** The import entry [Import] is the one of the symbol [p]: module [env],
    the name of the symbol, and either the position of its signature in
    the type table or its global type. *)
Definition import_entry (s : State) (p : SymPtr) (Import : WasmImport) : Prop :=
  exists sym, SymbolTable.Symbols (Symtab s) !! p = Some sym /\
    Module_ Import = "env" /\ Field Import = Symbol.Name sym /\
    if Symbol.isFunctionSymbol sym
    then exists Sig i, Symbol.FunctionType sym = Some Sig /\
                       Desc Import = ImportFunction i /\ 0 <= i /\
                       Writer.Types (W s) !! Z.to_nat i = Some Sig
    else exists G, Symbol.GlobalType sym = Some G /\ Desc Import = ImportGlobal G.

Module ExampleTypes.

Definition unarySignature : WasmSignature := mkSig [WASM_TYPE_I32] WASM_TYPE_NORESULT.

Definition importedFunction : Symbol.t :=
  Symbol.mk "print" Symbol.UndefinedFunctionKind 0 true true (Some unarySignature)
    (Some 0) None None None None None 0.

Definition file : ObjFile.t :=
  ObjFile.mk [0; 1; 2]%nat [] [] [] [0; 1; 2; 3]%nat [voidSignature; unarySignature]
    [0; 0] [true; false] [] "" [] [].

(** One imported function of signature [(i32) -> ()] and three defined
    functions, two of signature [() -> ()] and one of [(i32) -> ()]. *)
Definition state : State :=
  mkState true Example.config
    (SymbolTable.mk [file] [] [] [0; 1; 2; 3]%nat
       [importedFunction; Example.definedFunction "a" 0%nat;
        Example.definedFunction "b" 1%nat; Example.definedFunction "c" 2%nat]
       [Example.inputFunction "a" (Some 1);
        InputFunction.mk "b" true unarySignature [] (Some 2) None [];
        Example.inputFunction "c" (Some 3)] [])
    (WasmSym.mk None None None None None None) []
    (Writer.withInputFunctions [0; 1; 2]%nat (Writer.withImportedSymbols [0%nat] Writer.init)).

(** The state [calculateTypes] leaves. *)
Definition typed : State :=
  match calculateTypes state with
  | Done s' => s'
  | _ => state
  end.

End ExampleTypes.

(** The symbols [calculateImports] has to import, in the words of the
    specification: undefined, live, used in a regular object, not a data
    symbol, and not weak unless the output is relocatable. *)
Definition is_import (cfg : Config.t) (sym : Symbol.t) : bool :=
  Symbol.isUndefined sym && Symbol.isLive sym && Symbol.IsUsedInRegularObj sym &&
  negb (Symbol.isDataSymbol sym) &&
  (negb (Symbol.isWeak sym) || Config.Relocatable cfg).

(** A test on the symbol a pointer points to; a dangling pointer fails it. *)
Definition sym_is (f : Symbol.t -> bool) (s : State) (p : SymPtr) : bool :=
  match SymbolTable.Symbols (Symtab s) !! p with
  | Some sym => f sym
  | None => false
  end.

(** What the index assignment of imports never changes in a symbol. *)
Definition attrs (sym : Symbol.t) : Symbol.Kind * Z * bool * bool :=
  (Symbol.SymbolKind sym, Symbol.Flags sym, Symbol.Live sym, Symbol.IsUsedInRegularObj sym).

Module ExampleImports.

Definition symbol (Name : string) (k : Symbol.Kind) (Flags : Z) (Live Used : bool) : Symbol.t :=
  Symbol.mk Name k Flags Live Used (Some voidSignature) None None None
    (Some (mkGlobalType WASM_TYPE_I32 false)) None None 0.

(** Seven symbols: two undefined functions and an undefined global to
    import, and a defined function, an undefined data symbol, a weak
    undefined function and a dead undefined function to leave out. *)
Definition state : State :=
  mkState true Example.config
    (SymbolTable.mk [] [] [] [0; 1; 2; 3; 4; 5; 6]%nat
       [symbol "f" Symbol.UndefinedFunctionKind 0 true true;
        symbol "d" Symbol.DefinedFunctionKind 0 true true;
        symbol "g" Symbol.UndefinedGlobalKind 0 true true;
        symbol "x" Symbol.UndefinedDataKind 0 true true;
        symbol "w" Symbol.UndefinedFunctionKind WASM_SYMBOL_BINDING_WEAK true true;
        symbol "h" Symbol.UndefinedFunctionKind 0 true true;
        symbol "dead" Symbol.UndefinedFunctionKind 0 false true]
       [] [])
    (WasmSym.mk None None None None None None) [] Writer.init.

Definition imported : State :=
  match calculateImports state with
  | Done s' => s'
  | _ => state
  end.

End ExampleImports.

(** What the loop of [calculateImports] over [l] has done between [s] and
    [s']: the imports are the selected symbols of [l] in order, the
    function imports and the global imports are numbered consecutively from
    the counters of [s], nothing else is touched. *)
Definition imports_result (l : list SymPtr) (s s' : State) : Prop :=
  let imps := filter (fun p => sym_is (is_import (Cfg s)) s p) l in
  Cfg s' = Cfg s /\
  attrs <$> SymbolTable.Symbols (Symtab s') = attrs <$> SymbolTable.Symbols (Symtab s) /\
  (forall q, ~ In q l ->
     SymbolTable.Symbols (Symtab s') !! q = SymbolTable.Symbols (Symtab s) !! q) /\
  Writer.ImportedSymbols (W s') = Writer.ImportedSymbols (W s) ++ imps /\
  Writer.NumImportedFunctions (W s') =
    Writer.NumImportedFunctions (W s) +
    Z.of_nat (length (filter (fun p => sym_is Symbol.isFunctionSymbol s p) imps)) /\
  Writer.NumImportedGlobals (W s') =
    Writer.NumImportedGlobals (W s) +
    Z.of_nat (length (filter (fun p => sym_is Symbol.isGlobalSymbol s p) imps)) /\
  (forall (k : nat) p,
     filter (fun p => sym_is Symbol.isFunctionSymbol s p) imps !! k = Some p ->
     exists sym, SymbolTable.Symbols (Symtab s') !! p = Some sym /\
                 Symbol.FunctionIndex sym = Some (Writer.NumImportedFunctions (W s) + Z.of_nat k)) /\
  (forall (k : nat) p,
     filter (fun p => sym_is Symbol.isGlobalSymbol s p) imps !! k = Some p ->
     exists sym, SymbolTable.Symbols (Symtab s') !! p = Some sym /\
                 Symbol.GlobalIndex sym = Some (Writer.NumImportedGlobals (W s) + Z.of_nat k)).

(** The init functions of the object files, in file order and then in the
    order of each file's linking metadata, paired with their file. *)
Definition initFuncsOf (s : State) : list (ObjFile.t * WasmInitFunc) :=
  flat_map (fun File => map (pair File) (ObjFile.InitFunctions File))
           (SymbolTable.ObjectFiles (Symtab s)).

(** The entry [e] is the one collected for the init function [F] of
    [File]. *)
Definition init_entry_of (s : State) (FF : ObjFile.t * WasmInitFunc) (e : WasmInitEntry) : Prop :=
  getFunctionSymbol FF.1 (ISymbol FF.2) s = Done (Sym e) /\ Priority e = IPriority FF.2.

(** The signature of the entry's symbol is not [() -> ()]. *)
Definition bad_init_signature (s : State) (e : WasmInitEntry) : bool :=
  sym_is (fun sym => bool_decide (Symbol.FunctionType sym <> Some voidSignature)) s (Sym e).

Definition init_error_message (s : State) (e : WasmInitEntry) : string :=
  match SymbolTable.Symbols (Symtab s) !! Sym e with
  | Some sym => "invalid signature for init func: " +:+ Symbol.Name sym
  | None => ""
  end.

(** The errors reported for a list of collected entries. *)
Definition init_errors (s : State) (l : list WasmInitEntry) : list string :=
  flat_map (fun e => if bad_init_signature s e then [init_error_message s e] else []) l.

Definition priority_le (L R : WasmInitEntry) : Prop := Priority L <= Priority R.

(** The bytes of the calls [call i] for the function indices [idxs]. *)
Definition callsOf (idxs : list Z) : list Z :=
  flat_map (fun i => OPCODE_CALL :: writeUleb128 i) idxs.

Module ExampleInit.

Definition badSignature : WasmSignature := mkSig [WASM_TYPE_I32] WASM_TYPE_NORESULT.

Definition file0 : ObjFile.t :=
  ObjFile.mk [0; 1]%nat [] [] [] [0; 1]%nat [] [] []
    [mkInitFunc 65535 0; mkInitFunc 100 1] "" [] [].

Definition file1 : ObjFile.t :=
  ObjFile.mk [2; 3]%nat [] [] [] [2; 3]%nat [] [] []
    [mkInitFunc 100 0; mkInitFunc 7 1] "" [] [].

Definition definedFunction (Name : string) (Sig : WasmSignature) (Function : FuncPtr) : Symbol.t :=
  Symbol.mk Name Symbol.DefinedFunctionKind 0 true true (Some Sig)
    None None (Some Function) None None None 0.

(** Four init functions with priorities 65535, 100, 100 and 7; the third
    one has the signature [(i32) -> ()]. The synthetic function
    [__wasm_call_ctors] is the function 4. *)
Definition state : State :=
  mkState true Example.config
    (SymbolTable.mk [file0; file1] [4%nat] [] [0; 1; 2; 3; 4]%nat
       [definedFunction "ctor_a" voidSignature 0%nat;
        definedFunction "ctor_b" voidSignature 1%nat;
        definedFunction "ctor_c" badSignature 2%nat;
        definedFunction "ctor_d" voidSignature 3%nat;
        definedFunction "__wasm_call_ctors" voidSignature 4%nat]
       [Example.inputFunction "ctor_a" (Some 1); Example.inputFunction "ctor_b" (Some 2);
        InputFunction.mk "ctor_c" true badSignature [] (Some 3) None [];
        Example.inputFunction "ctor_d" (Some 4);
        Example.inputFunction "__wasm_call_ctors" (Some 0)] [])
    (WasmSym.mk None None None None (Some 4%nat) None) [] Writer.init.

Definition collected : State :=
  match calculateInitFunctions state with
  | Done s' => s'
  | _ => state
  end.

End ExampleInit.

(** The symbols [calculateExports] considers: defined, not hidden unless
    everything is exported, not local, live. *)
Definition exportable (cfg : Config.t) (sym : Symbol.t) : bool :=
  Symbol.isDefined sym && negb (Symbol.isHidden sym && negb (Config.ExportAll cfg)) &&
  negb (Symbol.isLocal sym) && Symbol.isLive sym.

(** The symbol at [p] is an exportable defined global that is mutable
    ([m = true]) or not ([m = false]). *)
Definition exportable_global (m : bool) (s : State) (p : SymPtr) : Prop :=
  exists sym G,
    SymbolTable.Symbols (Symtab s) !! p = Some sym /\
    exportable (Cfg s) sym = true /\
    Symbol.SymbolKind sym = Symbol.DefinedGlobalKind /\
    Symbol.GlobalType sym = Some G /\ Mutable G = m.

(** The export entry [e] is the one of the symbol at [p]: a function with
    its function index, a global that is not mutable with its global index,
    or a data symbol as a fake global. *)
Definition export_of (s : State) (p : SymPtr) (e : WasmExport) : Prop :=
  exists sym,
    SymbolTable.Symbols (Symtab s) !! p = Some sym /\
    exportable (Cfg s) sym = true /\
    EName e = Symbol.Name sym /\
    match Symbol.SymbolKind sym with
    | Symbol.DefinedFunctionKind =>
        EKind e = WASM_EXTERNAL_FUNCTION /\ getFunctionIndex p s = Done (EIndex e)
    | Symbol.DefinedGlobalKind =>
        EKind e = WASM_EXTERNAL_GLOBAL /\ exportable_global false s p /\
        getGlobalIndex p s = Done (EIndex e)
    | Symbol.DefinedDataKind => EKind e = WASM_EXTERNAL_GLOBAL
    | _ => False
    end.

(** What the loop of [calculateExports] never changes. *)
Definition exports_frame (s s' : State) : Prop :=
  NDEBUG s' = NDEBUG s /\ Cfg s' = Cfg s /\ Symtab s' = Symtab s /\
  WSym s' = WSym s /\ Errors s' = Errors s.

Module ExampleExports.

Definition global (Name : string) (Mutable : bool) (Global : GlobPtr) : Symbol.t :=
  Symbol.mk Name Symbol.DefinedGlobalKind 0 true true None None None None
    (Some (mkGlobalType WASM_TYPE_I32 Mutable)) None (Some Global) 0.

Definition inputGlobal (Mutable : bool) (Index : Z) : InputGlobal.t :=
  InputGlobal.mk true
    (mkGlobal (mkGlobalType WASM_TYPE_I32 Mutable) (mkInitExpr WASM_OPCODE_I32_CONST 0))
    (Some Index).

(** The stack pointer (hidden), a mutable global [counter] that is not the
    stack pointer, and a global [limit] that is not mutable; [NDEBUG] tells
    the build. *)
Definition state (NDEBUG : bool) : State :=
  mkState NDEBUG Example.config
    (SymbolTable.mk [] [] [0; 1; 2]%nat [0; 1; 2]%nat
       [Symbol.mk "__stack_pointer" Symbol.DefinedGlobalKind WASM_SYMBOL_VISIBILITY_HIDDEN
          true true None None None None (Some (mkGlobalType WASM_TYPE_I32 true)) None
          (Some 0%nat) 0;
        global "counter" true 1%nat; global "limit" false 2%nat]
       [] [inputGlobal true 0; inputGlobal true 1; inputGlobal false 2])
    (WasmSym.mk (Some 0%nat) None None None None None) []
    (Writer.withInputGlobals [0; 1; 2]%nat Writer.init).

Definition exported : State :=
  match calculateExports (state true) with
  | Done s' => s'
  | _ => state true
  end.

End ExampleExports.







Module ExampleOrder.



End ExampleOrder.

(** A relocation of kind [TABLE_INDEX_I32] or [TABLE_INDEX_SLEB]. *)
Definition table_reloc (r : WasmRelocation) : bool :=
  (RType r =? R_WEBASSEMBLY_TABLE_INDEX_I32) || (RType r =? R_WEBASSEMBLY_TABLE_INDEX_SLEB).

(** What the walk over the relocations never changes in a file, an input
    function and a symbol. *)
Definition file_key (F : ObjFile.t) :=
  (ObjFile.Functions F, ObjFile.Segments F, ObjFile.CustomSections F, ObjFile.Symbols F,
   ObjFile.Types F).
Definition func_key (f : InputFunction.t) :=
  (InputFunction.Live f, InputFunction.Relocations f, InputFunction.FunctionIndex f).
Definition sym_key (x : Symbol.t) :=
  (Symbol.SymbolKind x, Symbol.Function x, Symbol.FunctionIndex x).

(** A step of the walk: files, functions and symbols keep what the walk
    reads, and a table index that is assigned stays. *)
Definition table_step (s s' : State) : Prop :=
  file_key <$> SymbolTable.ObjectFiles (Symtab s') = file_key <$> SymbolTable.ObjectFiles (Symtab s) /\
  func_key <$> SymbolTable.Functions (Symtab s') = func_key <$> SymbolTable.Functions (Symtab s) /\
  sym_key <$> SymbolTable.Symbols (Symtab s') = sym_key <$> SymbolTable.Symbols (Symtab s) /\
  (forall p v, getTableIndex p s = Done v -> getTableIndex p s' = Done v).

(** Where the function index and the table index of a function symbol are
    kept: in the input function of a defined function, in the symbol
    itself for an undefined one. Two symbols with the same slot are symbols
    of the same function. *)
Definition table_slot (p : SymPtr) (s : State) : option (FuncPtr + SymPtr) :=
  match SymbolTable.Symbols (Symtab s) !! p with
  | Some sym =>
      match Symbol.SymbolKind sym with
      | Symbol.DefinedFunctionKind => inl <$> Symbol.Function sym
      | Symbol.UndefinedFunctionKind => Some (inr p)
      | _ => None
      end
  | None => None
  end.

(** No input function and no symbol has a table index: the state of the
    link before [assignIndexes]. *)
Definition no_table_index (s : State) : Prop :=
  Forall (fun f => InputFunction.TableIndex f = None) (SymbolTable.Functions (Symtab s)) /\
  Forall (fun x => Symbol.TableIndex x = None) (SymbolTable.Symbols (Symtab s)).

(** The invariant of the walk, for the local counter [TableIndex]: as long
    as the table stays below 2^32 entries the counter is the next free
    index, the k-th indirect function has a function index and the
    table index [kInitialTableOffset + k], every table index that can
    be read lies between [kInitialTableOffset] and the counter, and two
    symbols that read the same table index are symbols of the same
    function. *)
Definition table_inv (acc : Z * State) : Prop :=
  let '(TableIndex, s) := acc in
  Z.of_nat (length (Writer.IndirectFunctions (W s))) < 2 ^ 32 - 1 ->
  TableIndex = kInitialTableOffset + Z.of_nat (length (Writer.IndirectFunctions (W s))) /\
  (forall (k : nat) p, Writer.IndirectFunctions (W s) !! k = Some p ->
     getTableIndex p s = Done (kInitialTableOffset + Z.of_nat k) /\
     hasFunctionIndex p s = Done true) /\
  (forall p v, getTableIndex p s = Done v -> kInitialTableOffset <= v < TableIndex) /\
  (forall p q v, getTableIndex p s = Done v -> getTableIndex q s = Done v ->
     table_slot p s = table_slot q s).

(** The relocation [r] of a live chunk of the file at [File] is served: if
    it is a table index relocation and its target has a function index,
    the target has a table index. *)
Definition reloc_done (File : FilePtr) (r : WasmRelocation) (s : State) : Prop :=
  table_reloc r = true ->
  forall F p,
    SymbolTable.ObjectFiles (Symtab s) !! File = Some F ->
    getFunctionSymbol F (RIndex r) s = Done p ->
    hasFunctionIndex p s = Done true ->
    hasTableIndex p s = Done true.

(** The relocations of the live chunks of a file: its functions, its
    segments and its custom sections. *)
Definition live_relocs (s : State) (F : ObjFile.t) : list WasmRelocation :=
  flat_map (fun fp => match SymbolTable.Functions (Symtab s) !! fp with
                      | Some f => if InputFunction.Live f then InputFunction.Relocations f else []
                      | None => []
                      end) (ObjFile.Functions F) ++
  flat_map (fun c => if InputChunk.Live c then InputChunk.Relocations c else [])
           (ObjFile.Segments F) ++
  flat_map (fun c => if InputChunk.Live c then InputChunk.Relocations c else [])
           (ObjFile.CustomSections F).

Module ExampleTable.

(** Two defined functions [f] and [g] whose addresses are taken by two
    relocations each, and a weak undefined function [w] that is not
    imported, so that it has no function index, whose address is taken as
    well. *)
Definition file : ObjFile.t :=
  ObjFile.mk [0; 1]%nat [] [InputChunk.mk ".data" true [mkReloc R_WEBASSEMBLY_TABLE_INDEX_I32 1;
                                                       mkReloc R_WEBASSEMBLY_TABLE_INDEX_I32 2] 8 4]
    [] [0; 1; 2]%nat [voidSignature] [0] [false] [] "" [] [].

Definition state : State :=
  mkState true Example.config
    (SymbolTable.mk [file] [] [] [0; 1; 2]%nat
       [Example.definedFunction "f" 0%nat; Example.definedFunction "g" 1%nat;
        Symbol.mk "w" Symbol.UndefinedFunctionKind WASM_SYMBOL_BINDING_WEAK true true
          (Some voidSignature) None None None None None None 0]
       [InputFunction.mk "f" true voidSignature
          [mkReloc R_WEBASSEMBLY_TABLE_INDEX_SLEB 1; mkReloc R_WEBASSEMBLY_TYPE_INDEX_LEB 0;
           mkReloc R_WEBASSEMBLY_TABLE_INDEX_SLEB 0] None None [];
        Example.inputFunction "g" None] [])
    (WasmSym.mk None None None None None None) [] Writer.init.

Definition assigned : State :=
  match assignIndexes state with
  | Done s' => s'
  | _ => state
  end.

End ExampleTable.

(** A step of the walk on the loop state: it keeps the invariant. *)
Definition walk_step (a a' : Z * State) : Prop :=
  table_step a.2 a'.2 /\ (table_inv a -> table_inv a').

(** Every relocation of the chunk (of the file at [File]) is served. *)
Definition chunk_done (File : FilePtr) (c : InputChunk.t) (a : Z * State) : Prop :=
  InputChunk.Live c = true ->
  forall r, In r (InputChunk.Relocations c) -> reloc_done File r a.2.

Definition function_done (File : FilePtr) (fp : FuncPtr) (a : Z * State) : Prop :=
  forall f, SymbolTable.Functions (Symtab a.2) !! fp = Some f ->
            InputFunction.Live f = true ->
            forall r, In r (InputFunction.Relocations f) -> reloc_done File r a.2.

Definition file_done (File : FilePtr) (a : Z * State) : Prop :=
  forall F, SymbolTable.ObjectFiles (Symtab a.2) !! File = Some F ->
            forall r, In r (live_relocs a.2 F) -> reloc_done File r a.2.

(** ** More of the writer *)

(** *** Symbol flags of the linking section *)

Definition WASM_SYMBOL_UNDEFINED : Z := 0x10.

(** [getWasmFlags] *)
Definition getWasmFlags (Sym : Symbol.t) : Z :=
  let Flags := 0 in
  let Flags := if Symbol.isLocal Sym then Z.lor Flags WASM_SYMBOL_BINDING_LOCAL else Flags in
  let Flags := if Symbol.isWeak Sym then Z.lor Flags WASM_SYMBOL_BINDING_WEAK else Flags in
  let Flags := if Symbol.isHidden Sym then Z.lor Flags WASM_SYMBOL_VISIBILITY_HIDDEN else Flags in
  let Flags := if Symbol.isUndefined Sym then Z.lor Flags WASM_SYMBOL_UNDEFINED else Flags in
  Flags.

(** *** What the statements on the memory layout use *)

(** An upper bound of the room a list of output segments takes: the size
    of every segment and the padding in front of it. *)
Definition segments_extent (Segs : list OutputSegment.t) : Z :=
  foldr (fun S acc => OutputSegment.Alignment S + OutputSegment.Size S + acc) 0 Segs.

(** The address range of a placed segment. *)
Definition segment_end (S : OutputSegment.t) : Z :=
  OutputSegment.StartVA S + OutputSegment.Size S.

Module ExampleSegments.

Definition segments : list OutputSegment.t :=
  [OutputSegment.mk ".data" 0 8 100 0 []; OutputSegment.mk ".bss" 1 16 40 0 [];
   OutputSegment.mk ".rodata" 2 1 3 0 []].

End ExampleSegments.

(** *** What the statements on the output segments use *)

(** The data segments of the object files, in the order
    [createOutputSegments] visits them. *)
Definition allSegments (s : State) : list InputChunk.t :=
  flat_map ObjFile.Segments (SymbolTable.ObjectFiles (Symtab s)).

(** The input segment [c] is live and goes to the output segment [Name]. *)
Definition in_output_segment (cfg : Config.t) (Name : string) (c : InputChunk.t) : bool :=
  InputChunk.Live c && String.eqb (getOutputDataSegmentName cfg (InputChunk.Name c)) Name.

(** The invariant of [createOutputSegments] once the input segments [done]
    are visited: the k-th output segment has the index k, [SegmentMap] maps
    its name to k, and it holds the visited live input segments of that
    name, at least one; [SegmentMap] points into [Segments]; every visited
    live input segment has its name in [SegmentMap]. *)
Definition segments_grouped (cfg : Config.t) (done : list InputChunk.t) (w : Writer.t) : Prop :=
  (forall (k : nat) S, Writer.Segments w !! k = Some S ->
     OutputSegment.Index S = wrap32 (Z.of_nat k) /\
     Writer.SegmentMap w !! OutputSegment.Name S = Some k /\
     OutputSegment.InputSegments S
       = filter (fun c => in_output_segment cfg (OutputSegment.Name S) c) done /\
     OutputSegment.InputSegments S <> []) /\
  (forall n (k : nat), Writer.SegmentMap w !! n = Some k ->
     exists S, Writer.Segments w !! k = Some S /\ OutputSegment.Name S = n) /\
  (forall c, In c done -> InputChunk.Live c = true ->
     is_Some (Writer.SegmentMap w !! getOutputDataSegmentName cfg (InputChunk.Name c))).

Module ExampleGroups.

Definition file0 : ObjFile.t :=
  ObjFile.mk [] [] [InputChunk.mk ".data.a" true [] 10 4; InputChunk.mk ".bss.b" true [] 6 8;
                    InputChunk.mk ".data.dead" false [] 100 0]
    [] [] [] [] [] [] "{abi0}" [] [].

Definition file1 : ObjFile.t :=
  ObjFile.mk [] [] [InputChunk.mk ".data.c" true [] 3 16; InputChunk.mk ".rodata" true [] 5 1]
    [] [] [] [] [] [] "" [] [].

Definition state : State :=
  mkState true
    (Config.mk false false false false false true false false false 1024 1024 0 0)
    (SymbolTable.mk [file0; file1] [] [] [] [] [] [])
    (WasmSym.mk None None None None None None) [] Writer.init.

End ExampleGroups.

(** The end of [layoutMemory], from the check of the initial memory on:
    [MemoryPtr] is the local variable, the result is the state with the
    numbers of pages. *)
Definition memoryPages (MemoryPtr : Z) (s : State) : State :=
  let '(MemoryPtr, s) :=
    if negb (Config.InitialMemory (Cfg s) =? 0) then
      let s :=
        if negb (Config.InitialMemory (Cfg s) =? alignTo (Config.InitialMemory (Cfg s)) WasmPageSize)
        then error "initial memory must be 65536-byte aligned" s else s in
      if Config.InitialMemory (Cfg s) <? MemoryPtr
      then (MemoryPtr, error "initial memory too small" s)
      else (Config.InitialMemory (Cfg s), s)
    else (MemoryPtr, s) in
  let MemSize := wrap32 (alignTo MemoryPtr WasmPageSize) in
  let s := withW (Writer.withNumMemoryPages (MemSize / WasmPageSize) (W s)) s in
  let s :=
    if negb (Config.MaxMemory (Cfg s) =? 0) then
      let s :=
        if negb (Config.MaxMemory (Cfg s) =? alignTo (Config.MaxMemory (Cfg s)) WasmPageSize)
        then error "maximum memory must be 65536-byte aligned" s else s in
      let s :=
        if Config.MaxMemory (Cfg s) <? MemoryPtr
        then error "maximum memory too small" s else s in
      withW (Writer.withMaxMemoryPages (Config.MaxMemory (Cfg s) / WasmPageSize) (W s)) s
    else s in
  s.

(** *** What the statements on the function and global indices use *)

(** The input function at [fp] (the input global at [gp]) is live. *)
Definition function_live (s : State) (fp : FuncPtr) : bool :=
  match SymbolTable.Functions (Symtab s) !! fp with
  | Some f => InputFunction.Live f
  | None => false
  end.

Definition global_live (s : State) (gp : GlobPtr) : bool :=
  match SymbolTable.Globals (Symtab s) !! gp with
  | Some g => InputGlobal.Live g
  | None => false
  end.

(** The input functions and the input globals in the order [assignIndexes]
    visits them: the synthetic ones, then those of the object files. *)
Definition definedFunctions (s : State) : list FuncPtr :=
  SymbolTable.SyntheticFunctions (Symtab s) ++
  flat_map ObjFile.Functions (SymbolTable.ObjectFiles (Symtab s)).

Definition definedGlobals (s : State) : list GlobPtr :=
  SymbolTable.SyntheticGlobals (Symtab s) ++
  flat_map ObjFile.Globals (SymbolTable.ObjectFiles (Symtab s)).

(** The invariant of the loops over the input functions, once the
    functions [done] are visited; [acc] is the counter and the state,
    [base] the first index. *)
Definition functions_numbered (s0 : State) (base : Z) (done : list FuncPtr)
    (acc : Z * State) : Prop :=
  acc.1 = wrap32 (base + Z.of_nat (length (filter (fun fp => function_live s0 fp) done))) /\
  Writer.InputFunctions (W acc.2)
    = Writer.InputFunctions (W s0) ++ filter (fun fp => function_live s0 fp) done /\
  (forall (k : nat) fp, filter (fun fp => function_live s0 fp) done !! k = Some fp ->
     exists f, SymbolTable.Functions (Symtab acc.2) !! fp = Some f /\
               InputFunction.FunctionIndex f = Some (wrap32 (base + Z.of_nat k))) /\
  (forall fp, ~ In fp (filter (fun fp => function_live s0 fp) done) ->
     SymbolTable.Functions (Symtab acc.2) !! fp = SymbolTable.Functions (Symtab s0) !! fp) /\
  (forall fp, function_live acc.2 fp = function_live s0 fp) /\
  SymbolTable.ObjectFiles (Symtab acc.2) = SymbolTable.ObjectFiles (Symtab s0).

(** The same for the input globals. *)
Definition globals_numbered (s0 : State) (base : Z) (done : list GlobPtr)
    (acc : Z * State) : Prop :=
  acc.1 = wrap32 (base + Z.of_nat (length (filter (fun gp => global_live s0 gp) done))) /\
  Writer.InputGlobals (W acc.2)
    = Writer.InputGlobals (W s0) ++ filter (fun gp => global_live s0 gp) done /\
  (forall (k : nat) gp, filter (fun gp => global_live s0 gp) done !! k = Some gp ->
     exists g, SymbolTable.Globals (Symtab acc.2) !! gp = Some g /\
               InputGlobal.GlobalIndex g = Some (wrap32 (base + Z.of_nat k))) /\
  (forall gp, ~ In gp (filter (fun gp => global_live s0 gp) done) ->
     SymbolTable.Globals (Symtab acc.2) !! gp = SymbolTable.Globals (Symtab s0) !! gp) /\
  (forall gp, global_live acc.2 gp = global_live s0 gp) /\
  SymbolTable.ObjectFiles (Symtab acc.2) = SymbolTable.ObjectFiles (Symtab s0).

(** What the numbering of the functions and the walk over the relocations
    keep of the globals. *)
Definition globals_frame (s s' : State) : Prop :=
  SymbolTable.Globals (Symtab s') = SymbolTable.Globals (Symtab s) /\
  ObjFile.Globals <$> SymbolTable.ObjectFiles (Symtab s')
    = ObjFile.Globals <$> SymbolTable.ObjectFiles (Symtab s) /\
  SymbolTable.SyntheticGlobals (Symtab s') = SymbolTable.SyntheticGlobals (Symtab s) /\
  Writer.InputGlobals (W s') = Writer.InputGlobals (W s) /\
  Writer.NumImportedGlobals (W s') = Writer.NumImportedGlobals (W s).

(** What the walk over the relocations and the numbering of the globals
    keep of the functions. *)
Definition functions_frame (s s' : State) : Prop :=
  Writer.InputFunctions (W s') = Writer.InputFunctions (W s) /\
  (fun f => (InputFunction.Live f, InputFunction.FunctionIndex f)) <$> SymbolTable.Functions (Symtab s')
    = (fun f => (InputFunction.Live f, InputFunction.FunctionIndex f)) <$> SymbolTable.Functions (Symtab s).

Module ExampleIndexes.

(** Two imported functions are numbered already; the synthetic function 2
    and the functions 0 and 1 of the file follow, of which 1 is dead. The
    globals 0 (synthetic) and 1 are live. *)
Definition file : ObjFile.t :=
  ObjFile.mk [0; 1]%nat [1%nat] [] [] [] [] [] [] [] "" [] [].

Definition state : State :=
  mkState true Example.config
    (SymbolTable.mk [file] [2%nat] [0%nat] [] []
       [Example.inputFunction "f" None;
        InputFunction.mk "dead" false voidSignature [] None None [];
        Example.inputFunction "__wasm_call_ctors" None]
       [ExampleLayout.stackPointerGlobal; ExampleLayout.stackPointerGlobal])
    (WasmSym.mk None None None None None None) []
    (Writer.withNumImportedGlobals 1 (Writer.withNumImportedFunctions 2 Writer.init)).

Definition assigned : State :=
  match assignIndexes state with
  | Done s' => s'
  | _ => state
  end.

End ExampleIndexes.

(** *** The other sections *)

Definition WASM_SEC_CUSTOM : Z := 0.
Definition WASM_SEC_TABLE : Z := 4.
Definition WASM_SEC_MEMORY : Z := 5.
Definition WASM_SEC_EXPORT : Z := 7.
Definition WASM_SEC_CODE : Z := 10.
Definition WASM_SEC_DATA : Z := 11.
Definition WASM_NAMES_FUNCTION : Z := 1.

(** [Writer::createMemorySection] *)
Definition createMemorySection (s : State) : State :=
  if Config.ImportMemory (Cfg s) then s
  else
    let HasMax := negb (Writer.MaxMemoryPages (W s) =? 0) in
    createSyntheticSection WASM_SEC_MEMORY ""
      (writeUleb128 1 ++
       writeUleb128 (if HasMax then WASM_LIMITS_FLAG_HAS_MAX else 0) ++
       writeUleb128 (Writer.NumMemoryPages (W s)) ++
       (if HasMax then writeUleb128 (Writer.MaxMemoryPages (W s)) else [])) s.






(** Modelled from the spec: [writeTableType] writes the element type and
    the limits. *)
Definition writeTableType (ElemType Flags Initial Maximum : Z) : list Z :=
  writeU8 ElemType ++ writeLimits Flags Initial Maximum.

(** [Writer::createTableSection] *)
Definition createTableSection (s : State) : State :=
  if Config.ImportTable (Cfg s) then s
  else
    let TableSize :=
      wrap32 (kInitialTableOffset + Z.of_nat (length (Writer.IndirectFunctions (W s)))) in
    createSyntheticSection WASM_SEC_TABLE ""
      (writeUleb128 1 ++
       writeTableType WASM_TYPE_ANYFUNC WASM_LIMITS_FLAG_HAS_MAX TableSize TableSize) s.

(** Modelled from the spec: [writeExport] writes the name, the kind byte
    and the index; a kind other than function, global, memory or table ends
    the link ([fatal]), which is rendered as [Raise]. *)
Definition writeExport (Export : WasmExport) : Outcome (list Z) :=
  if (EKind Export =? WASM_EXTERNAL_FUNCTION) || (EKind Export =? WASM_EXTERNAL_GLOBAL) ||
     (EKind Export =? WASM_EXTERNAL_MEMORY) || (EKind Export =? WASM_EXTERNAL_TABLE)
  then Done (writeStr (EName Export) ++ writeU8 (EKind Export) ++ writeUleb128 (EIndex Export))
  else Raise "unsupported export type".

Fixpoint writeExports (l : list WasmExport) : Outcome (list Z) :=
  match l with
  | [] => Done []
  | e :: l' => b ← writeExport e; rest ← writeExports l'; Done (b ++ rest)
  end.

Section ExportSection.

(** [Config->should_export] of Config.h, which is not part of the writer:
    any predicate on export entries. *)
Variable should_export : WasmExport -> bool.

(** [Writer::createExportSection] *)
Definition createExportSection (s : State) : Outcome State :=
  match Writer.Exports (W s) with
  | [] => Done s
  | _ =>
      let filtered_exports := filter (fun ex => should_export ex) (Writer.Exports (W s)) in
      entries ← writeExports filtered_exports;
      let s1 :=
        createSyntheticSection WASM_SEC_EXPORT ""
          (writeUleb128 (wrap32 (Z.of_nat (length filtered_exports))) ++ entries) s in
      Done (withW (Writer.withExports filtered_exports (W s1)) s1)
  end.

End ExportSection.

(** *** Custom sections *)

(** The body of the loops of [calculateCustomSections]; the map is the
    member [CustomSectionMapping]. *)
Definition calculateCustomSections_section (StripDebug : bool) (Section : InputChunk.t)
    (m : gmap string (list InputChunk.t)) : gmap string (list InputChunk.t) :=
  let Name := InputChunk.Name Section in
  (* These custom sections are known the linker and synthesized rather than
     blindly copied *)
  if String.eqb Name "linking" || String.eqb Name "name" || String.prefix "reloc." Name then m
  (* .. or it is a debug section *)
  else if StripDebug && String.prefix ".debug_" Name then m
  else <[Name := default [] (m !! Name) ++ [Section]]> m.

(** [Writer::calculateCustomSections] *)
Definition calculateCustomSections (s : State) (CustomSectionMapping : gmap string (list InputChunk.t))
  : gmap string (list InputChunk.t) :=
  let StripDebug := Config.StripDebug (Cfg s) || Config.StripAll (Cfg s) in
  foldl (fun m File =>
           foldl (fun m Section => calculateCustomSections_section StripDebug Section m)
                 m (ObjFile.CustomSections File))
        CustomSectionMapping (SymbolTable.ObjectFiles (Symtab s)).

(** *** The name section *)

(** [SubSection::writeTo]: the type, the size and the body. *)
Definition writeSubSection (Type_ : Z) (Body : list Z) : list Z :=
  writeUleb128 Type_ ++ writeUleb128 (Z.of_nat (length Body)) ++ Body.

Section NameSection.

(** [InputFunction::getDebugName] of InputChunks.h and [demangleItanium]
    of lld/Common/Strings.h are not part of the writer. *)
Variable getDebugName : FuncPtr -> string.
Variable demangleItanium : string -> option string.

Definition demangledName (Name : string) : string :=
  match demangleItanium Name with
  | Some n => n
  | None => Name
  end.

(** The first loop of [createNameSection]: the count. *)
Fixpoint countNames (l : list FuncPtr) (NumNames : Z) (s : State) : Outcome Z :=
  match l with
  | [] => Done NumNames
  | fp :: l' =>
      F ← getFunc fp s;
      if negb (String.eqb (InputFunction.Name F) "") || negb (String.eqb (getDebugName fp) "")
      then countNames l' (wrap32 (NumNames + 1)) s
      else countNames l' NumNames s
  end.

(** The entries for the imported functions: index and name. *)
Fixpoint importedNames (l : list SymPtr) (s : State) : Outcome (list (Z * string)) :=
  match l with
  | [] => Done []
  | p :: l' =>
      S ← getSym p s;
      if Symbol.isFunctionSymbol S then
        i ← getFunctionIndex p s;
        rest ← importedNames l' s;
        Done ((i, demangledName (Symbol.Name S)) :: rest)
      else importedNames l' s
  end.

(** The entries for the defined functions. *)
Fixpoint functionNames (l : list FuncPtr) (s : State) : Outcome (list (Z * string)) :=
  match l with
  | [] => Done []
  | fp :: l' =>
      F ← getFunc fp s;
      if negb (String.eqb (InputFunction.Name F) "") then
        i ← deref (InputFunction.FunctionIndex F);
        let n := if negb (String.eqb (getDebugName fp) "") then getDebugName fp
                 else demangledName (InputFunction.Name F) in
        rest ← functionNames l' s;
        Done ((i, n) :: rest)
      else functionNames l' s
  end.

Definition writeNameEntry (e : Z * string) : list Z :=
  writeUleb128 e.1 ++ writeStr e.2.

(** [Writer::createNameSection] *)
Definition createNameSection (s : State) : Outcome State :=
  NumNames ← countNames (Writer.InputFunctions (W s)) (Writer.NumImportedFunctions (W s)) s;
  if NumNames =? 0 then Done s
  else
    imports ← importedNames (Writer.ImportedSymbols (W s)) s;
    functions ← functionNames (Writer.InputFunctions (W s)) s;
    Done (createSyntheticSection WASM_SEC_CUSTOM "name"
            (writeSubSection WASM_NAMES_FUNCTION
               (writeUleb128 NumNames ++ flat_map writeNameEntry (imports ++ functions))) s).

End NameSection.

(** *** What the statements on the exported data symbols use *)


Module ExampleData.

(** One immutable input global, exported as [limit], and the data symbols
    [table] at 1024 and [buffer] at 1040; [hidden] is not exported. *)
Definition dataSymbol (Name : string) (Flags VirtualAddress : Z) : Symbol.t :=
  Symbol.mk Name Symbol.DefinedDataKind Flags true true None None None None None None None
    VirtualAddress.

Definition state : State :=
  mkState true Example.config
    (SymbolTable.mk [] [] [0%nat] [0; 1; 2; 3]%nat
       [dataSymbol "table" 0 1024; ExampleExports.global "limit" false 0%nat;
        dataSymbol "hidden" WASM_SYMBOL_VISIBILITY_HIDDEN 1032; dataSymbol "buffer" 0 1040]
       [] [ExampleExports.inputGlobal false 1])
    (WasmSym.mk None None None None None None) []
    (Writer.withNumImportedGlobals 1 (Writer.withInputGlobals [0%nat] Writer.init)).

Definition exported : State :=
  match calculateExports state with
  | Done s' => s'
  | _ => state
  end.

End ExampleData.

(** The kinds [writeExport] knows. *)
Definition export_kind_known (e : WasmExport) : bool :=
  (EKind e =? WASM_EXTERNAL_FUNCTION) || (EKind e =? WASM_EXTERNAL_GLOBAL) ||
  (EKind e =? WASM_EXTERNAL_MEMORY) || (EKind e =? WASM_EXTERNAL_TABLE).

Module ExampleExportFilter.

(** Only the entry points [apply] and [memory] pass. *)
Definition should_export (e : WasmExport) : bool :=
  String.eqb (EName e) "apply" || String.eqb (EName e) "memory".

Definition state (Exports : list WasmExport) : State :=
  mkState true Example.config (SymbolTable.mk [] [] [] [] [] [] [])
    (WasmSym.mk None None None None None None) []
    (Writer.withExports Exports Writer.init).

End ExampleExportFilter.

(** *** What the statement on the custom sections uses *)

(** A custom section of this name is copied: it is not synthesized by the
    linker and, when debug sections are stripped, not a debug section. *)
Definition custom_section_kept (StripDebug : bool) (Name : string) : bool :=
  negb (String.eqb Name "linking" || String.eqb Name "name" || String.prefix "reloc." Name) &&
  negb (StripDebug && String.prefix ".debug_" Name).

(** The custom sections of the object files, in the order
    [calculateCustomSections] visits them. *)
Definition allCustomSections (s : State) : list InputChunk.t :=
  flat_map ObjFile.CustomSections (SymbolTable.ObjectFiles (Symtab s)).

(** The sections of [l] that are copied under the name [Name]. *)
Definition customSectionsNamed (StripDebug : bool) (Name : string) (l : list InputChunk.t)
  : list InputChunk.t :=
  filter (fun c => custom_section_kept StripDebug (InputChunk.Name c) &&
                   String.eqb (InputChunk.Name c) Name) l.

(** An entry of a map of vectors: none for the empty vector. *)
Definition nonempty {A} (l : list A) : option (list A) :=
  match l with
  | [] => None
  | _ => Some l
  end.

(** *** What the statement on the name section uses *)

(** The name of the input function behind a pointer. *)
Definition functionName (s : State) (fp : FuncPtr) : string :=
  match SymbolTable.Functions (Symtab s) !! fp with
  | Some F => InputFunction.Name F
  | None => ""
  end.

(** The function is counted by the first loop of [createNameSection]. *)
Definition name_counted (getDebugName : FuncPtr -> string) (s : State) (fp : FuncPtr) : bool :=
  negb (String.eqb (functionName s fp) "") || negb (String.eqb (getDebugName fp) "").

(** The function gets an entry in the last loop of [createNameSection]. *)
Definition name_written (s : State) (fp : FuncPtr) : bool :=
  negb (String.eqb (functionName s fp) "").

(** The imported symbol is a function symbol. *)
Definition isFunctionImport (s : State) (p : SymPtr) : bool :=
  match SymbolTable.Symbols (Symtab s) !! p with
  | Some Sym => Symbol.isFunctionSymbol Sym
  | None => false
  end.

Module ExampleNames.

(** The function 1 of [ExampleIndexes] carries a debug name. *)
Definition getDebugName (fp : FuncPtr) : string :=
  match fp with
  | 0%nat => "f(int)"
  | _ => ""
  end.

Definition demangleItanium (Name : string) : option string :=
  if String.prefix "_Z" Name then Some "demangled" else None.

(** A function without a name and with a debug name, numbered 0. *)
Definition anonymous : State :=
  mkState true Example.config
    (SymbolTable.mk [] [] [] [] []
       [InputFunction.mk "" true voidSignature [] (Some 0) None []; Example.inputFunction "g" (Some 1)]
       [])
    (WasmSym.mk None None None None None None) []
    (Writer.withInputFunctions [0; 1]%nat Writer.init).

End ExampleNames.

(** *** What the statement on the notify entries uses *)

(** The string holds no colon. *)
Fixpoint no_colon (str : string) : bool :=
  match str with
  | EmptyString => true
  | String a str' => negb (Ascii.eqb a ":"%char) && no_colon str'
  end.

Module ExampleCtors.

(** No function is imported; [__wasm_call_ctors] is the first synthetic
    function and [apply] the second. *)
Definition state : State :=
  mkState true Example.config
    (SymbolTable.mk [] [0; 1]%nat [] [0; 1]%nat
       [Example.definedFunction "__wasm_call_ctors" 0%nat; Example.definedFunction "apply" 1%nat]
       [Example.inputFunction "__wasm_call_ctors" None; Example.inputFunction "apply" None] [])
    (WasmSym.mk None None None None (Some 0%nat) (Some 1%nat)) [] Writer.init.

Definition assigned : State :=
  match assignIndexes state with
  | Done s' => s'
  | _ => state
  end.

End ExampleCtors.

(** * Properties *)

(** ** The encoders and the string functions on examples *)

Example uleb_624485 : writeUleb128 624485 = [229; 142; 38].
Proof. reflexivity. Qed.

Example sleb_minus_123456 : encodeSLEB128 (-123456) = [192; 187; 120].
Proof. reflexivity. Qed.

Example substr_code : Str.substr "snax::onerror:handle_err" 0 4 = Done "snax".
Proof. reflexivity. Qed.

Example substr_rest : Str.substr_from "snax::onerror:handle_err" 6 = Done "onerror:handle_err".
Proof. reflexivity. Qed.

Example substr_past_end : Str.substr_from "a:" 3 = Raise "basic_string::substr".
Proof. reflexivity. Qed.

Example name_snax : string_to_name "snax" = 14181219500078137344.
Proof. reflexivity. Qed.

Example name_onerror : string_to_name "onerror" = 11877535737890996224.
Proof. reflexivity. Qed.

(** ** Reasoning about outcomes *)

Lemma bind_Done {A B} (m : Outcome A) (k : A -> Outcome B) (b : B) :
  (m ≫= k) = Done b <-> exists a, m = Done a /\ k a = Done b.
Proof.
  destruct m; simpl; split; try (intros (? & HA & ?); discriminate HA);
    try discriminate; eauto.
  intros (? & [= ->] & ?). assumption.
Qed.

Lemma deref_Done {A} (p : option A) (a : A) : deref p = Done a <-> p = Some a.
Proof. destruct p; simpl; split; congruence. Qed.

Lemma bind_Raise {A B} (m : Outcome A) (k : A -> Outcome B) (w : string) :
  (m ≫= k) = Raise w -> m = Raise w \/ exists a, m = Done a /\ k a = Raise w.
Proof.
  destruct m; simpl; intros H; try discriminate; [right; eauto | left; congruence].
Qed.

Lemma deref_no_raise {A} (p : option A) (w : string) : deref p <> Raise w.
Proof. destruct p; discriminate. Qed.

(** Splits a hypothesis [(x ← m; k) = Done b] into the run of [m] and the
    run of [k]. *)
Tactic Notation "inv_bind" hyp(H) :=
  let a := fresh "a" in
  let Ha := fresh "Hrun" in
  apply bind_Done in H; destruct H as (a & Ha & H).

Tactic Notation "inv_bind" hyp(H) "as" ident(a) ident(Ha) :=
  apply bind_Done in H; destruct H as (a & Ha & H).

Ltac inv_Done :=
  repeat match goal with
         | H : Done _ = Done _ |- _ => injection H as H; try subst
         | H : deref _ = Done _ |- _ => apply deref_Done in H
         | H : Undefined = Done _ |- _ => discriminate H
         | H : Raise _ = Done _ |- _ => discriminate H
         | H : Abort = Done _ |- _ => discriminate H
         end.

Lemma forEach_nil {A S} (body : A -> S -> Outcome S) (s : S) :
  forEach body [] s = Done s.
Proof. reflexivity. Qed.

Lemma forEach_cons {A S} (body : A -> S -> Outcome S) (x : A) (l : list A) (s : S) :
  forEach body (x :: l) s = (body x s ≫= forEach body l).
Proof. reflexivity. Qed.

Lemma bind_Done_l {A B} (a : A) (k : A -> Outcome B) : (Done a ≫= k) = k a.
Proof. reflexivity. Qed.


(** An invariant kept by the body is kept by the loop. *)
Lemma forEach_invariant {A S} (body : A -> S -> Outcome S) (I : S -> Prop) (l : list A) :
  (forall x s s', In x l -> I s -> body x s = Done s' -> I s') ->
  forall s s', I s -> forEach body l s = Done s' -> I s'.
Proof.
  induction l as [|x l IH]; intros Hbody s s' HI Hrun; simpl in Hrun.
  - inv_Done. assumption.
  - inv_bind Hrun. eapply IH; [ | | exact Hrun].
    + intros; eapply Hbody; eauto. right; assumption.
    + eapply Hbody; eauto. left; reflexivity.
Qed.

(** ** Fixed-width arithmetic *)

Lemma wrap32_small z : 0 <= z < 2 ^ 32 -> wrap32 z = z.
Proof. intros; unfold wrap32; apply Z.mod_small; assumption. Qed.

Lemma wrap32_range z : 0 <= wrap32 z < 2 ^ 32.
Proof. unfold wrap32; apply Z.mod_pos_bound; lia. Qed.

Lemma wrap32_to_int32 z : wrap32 (to_int32 z) = wrap32 z.
Proof.
  unfold to_int32. destruct (wrap32 z <? 2 ^ 31) eqn:E.
  - unfold wrap32. rewrite Z.mod_mod; lia.
  - unfold wrap32. rewrite Zminus_mod, Z_mod_same_full, Z.sub_0_r, !Z.mod_mod; lia.
Qed.

(** ** A missing signature at [lookupType] *)

(** C7, as stated, fails: looking up a signature that was never registered
    returns the substitute index 0 after recording a recoverable error, and
    the function section is emitted with that index. *)
Lemma lookupType_missing_not_fatal :
  let F := InputFunction.mk "f" true voidSignature [] (Some 0) None [] in
  let s := mkState true (Config.mk false false false false false true false false false 0 0 0 0)
             (SymbolTable.mk [] [] [] [] [] [F] [])
             (WasmSym.mk None None None None None None) []
             (Writer.withInputFunctions [0%nat] Writer.init) in
  Writer.TypeIndices (W s) !! voidSignature = None /\
  lookupType voidSignature s = (0, error "type not found: " s) /\
  ~ terminated (createFunctionSection s) /\
  createFunctionSection s =
    Done (createSyntheticSection WASM_SEC_FUNCTION "" [1; 0] (error "type not found: " s)).
Proof.
  cbv zeta. repeat split.
  intros H. vm_compute in H. exact H.
Qed.

(** C7 (amended): a signature that was never registered makes [lookupType]
    report one recoverable error through the error sink and return 0; the
    writer and the symbol table are left as they were and the link goes
    on. *)
Theorem lookupType_missing_recoverable (Sig : WasmSignature) (s : State) :
  Writer.TypeIndices (W s) !! Sig = None ->
  exists s', lookupType Sig s = (0, s') /\
             errorCount s' = S (errorCount s) /\
             W s' = W s /\ Symtab s' = Symtab s /\ Cfg s' = Cfg s.
Proof.
  intros Hnone. unfold lookupType. rewrite Hnone.
  eexists; split; [reflexivity|].
  destruct s; unfold errorCount, error, withErrors; simpl.
  rewrite length_app; simpl. repeat split; lia.
Qed.

Lemma lookupType_missing_recoverable_witness :
  exists s', lookupType voidSignature
               (mkState true (Config.mk false false false false false true false false false 0 0 0 0)
                  (SymbolTable.mk [] [] [] [] [] [] [])
                  (WasmSym.mk None None None None None None) [] Writer.init) = (0, s') /\
             errorCount s' = 1%nat /\ W s' = Writer.init /\
             Symtab s' = SymbolTable.mk [] [] [] [] [] [] [] /\
             Cfg s' = Config.mk false false false false false true false false false 0 0 0 0.
Proof.
  apply (lookupType_missing_recoverable voidSignature
           (mkState true (Config.mk false false false false false true false false false 0 0 0 0)
              (SymbolTable.mk [] [] [] [] [] [] [])
              (WasmSym.mk None None None None None None) [] Writer.init)).
  reflexivity.
Defined.

(** ** The guard of [create_if] *)

Lemma find_from_range (c : ascii) (str : string) (i : Z) :
  Str.find_from c str i = Str.npos \/
  (i <= Str.find_from c str i < i + Str.size str).
Proof.
  revert i; induction str as [|a str IH]; intros i; simpl; [left; reflexivity|].
  destruct (Ascii.eqb a c).
  - right. unfold Str.size; simpl String.length. lia.
  - destruct (IH (i + 1)) as [-> | H]; [left; reflexivity|].
    right. unfold Str.size in *; simpl String.length. lia.
Qed.

Lemma substr_prefix_Done (str : string) (n : Z) : exists r, Str.substr str 0 n = Done r.
Proof.
  unfold Str.substr. destruct (Str.size str <? 0) eqn:E; [|eauto].
  apply Z.ltb_lt in E. unfold Str.size in E. lia.
Qed.

Lemma substr_after_colon_Done (str : string) :
  exists r, Str.substr_from str (wrap64 (Str.find_colon str + 1)) = Done r.
Proof.
  unfold Str.substr_from, Str.substr.
  destruct (Str.size str <? wrap64 (Str.find_colon str + 1)) eqn:E; [|eauto].
  exfalso. apply Z.ltb_lt in E. unfold wrap64 in E.
  destruct (find_from_range ":"%char str 0) as [Hn | Hr]; fold (Str.find_colon str) in *.
  - rewrite Hn in E. unfold Str.npos in E.
    replace (2 ^ 64 - 1 + 1) with (0 + 1 * 2 ^ 64) in E by lia.
    rewrite Z.mod_add in E by lia. rewrite Z.mod_0_l in E by lia.
    unfold Str.size in E. lia.
  - assert (Hle : (Str.find_colon str + 1) mod 2 ^ 64 <= Str.find_colon str + 1)
      by (apply Z.mod_le; lia).
    lia.
Qed.

(** C10: in [create_if] the branch that throws "wasm_ld internal error
    function not found" is unreachable. The index is a [uint32_t], so the
    guard [index >= 0] holds for every index the lookup yields and
    [create_if] is never left by an exception; a name that is absent from
    the symbol table makes the lambda dereference the null result of
    [find] (undefined behaviour) instead of reporting anything. *)
Theorem create_if_not_found_unreachable (s : State) (str : string) (need_else : bool) :
  (forall what, create_if s str need_else <> Raise what) /\
  match functionIndexOf (dispatch_target str) s with
  | Done index => (0 <=? index) = true /\ index < 2 ^ 32
  | _ => True
  end /\
  match find (dispatch_target str) s with
  | None => create_if s str need_else = Undefined
  | Some _ => True
  end.
Proof.
  assert (Hidx : forall t i, functionIndexOf t s = Done i -> 0 <= i < 2 ^ 32).
  { intros t i H. unfold functionIndexOf in H.
    inv_bind H. inv_bind H. inv_Done. apply wrap32_range. }
  assert (Hnr : forall t w, functionIndexOf t s <> Raise w).
  { intros t w Ei. unfold functionIndexOf, getFunctionIndex, getSym, getFunc in Ei.
    repeat match type of Ei with
           | deref _ = Raise _ => exact (deref_no_raise _ _ Ei)
           | Done _ = Raise _ => discriminate Ei
           | Undefined = Raise _ => discriminate Ei
           | (_ ≫= _) = Raise _ =>
               apply bind_Raise in Ei; destruct Ei as [Ei | (? & _ & Ei)]
           | match Symbol.SymbolKind ?x with _ => _ end = Raise _ =>
               destruct (Symbol.SymbolKind x)
           end. }
  destruct (substr_prefix_Done str (Str.find_colon str)) as [r Hr].
  destruct (substr_after_colon_Done str) as [t Ht].
  assert (t = dispatch_target str) as Etarget.
  { unfold Str.substr_from, Str.substr in Ht.
    destruct (Str.size str <? wrap64 (Str.find_colon str + 1)); [discriminate|].
    injection Ht as <-. reflexivity. }
  split; [|split].
  - intros what H. unfold create_if in H. rewrite Hr, Ht in H; simpl in H.
    destruct (functionIndexOf t s) as [i| w | |] eqn:Ei; simpl in H; try discriminate.
    + apply Hidx in Ei. destruct (0 <=? i) eqn:E0; [discriminate|].
      apply Z.leb_gt in E0. lia.
    + exact (Hnr _ _ Ei).
  - destruct (functionIndexOf (dispatch_target str) s) as [i| | |] eqn:Ei; try exact I.
    apply Hidx in Ei. split; [apply Z.leb_le|]; lia.
  - destruct (find (dispatch_target str) s) eqn:Ef; [exact I|].
    unfold create_if. rewrite Hr, Ht; simpl. subst t.
    unfold functionIndexOf. rewrite Ef. reflexivity.
Qed.

(** ** The [onerror] assertion of the notify dispatch *)

(** The handler is found only when a vector entry under ["snax"] is the bare
    word ["onerror"]. *)
Lemma has_onerror_handler_true (not_cnt : Z) (m : NotifyMap.t) :
  has_onerror_handler not_cnt m = true ->
  0 < not_cnt /\ exists vs, In ("snax", vs) m /\ In "onerror" vs.
Proof.
  unfold has_onerror_handler. intros H.
  apply andb_true_iff in H as [Hc H]. apply Z.ltb_lt in Hc. split; [assumption|].
  apply existsb_exists in H as ([k vs] & Hin & H). simpl in H.
  apply andb_true_iff in H as [Hk Hv].
  apply String.eqb_eq in Hk. subst k.
  apply existsb_exists in Hv as (v & Hv & E).
  apply String.eqb_eq in E. subst v. eauto.
Qed.

(** C1, at the entry ["snax::onerror:handle_err"]: the handlers collected
    under ["snax"] are [["onerror:handle_err"]], the test for an [onerror]
    handler compares that whole entry with ["onerror"] and fails, and the
    [SNAX_ERROR_ONERROR] assertion is written in front of the branch that
    calls [handle_err]. *)
Theorem onerror_handler_not_recognised :
  let s := Example.dispatchState [Example.file [] ["snax::onerror:handle_err"]] in
  forEach notify_file (SymbolTable.ObjectFiles (Symtab s)) (∅, [], 0)
    = Done ({["snax::onerror:handle_err"]}, [("snax", ["onerror:handle_err"])], 1) /\
  has_onerror_handler 1 [("snax", ["onerror:handle_err"])] = false /\
  create_notify_dispatch s 0 None =
    Done (if_receiver_ne_snax ++ assert_onerror 0 ++
          [66; 128; 128; 128; 128; 128; 128; 244; 230; 68; 32; 1; 81; 4; 64] ++
          [66; 128; 128; 128; 128; 174; 250; 222; 234; 164; 127; 32; 2; 81; 4; 64] ++
          [32; 0; 32; 1; 16; 1] ++ [11; 5] ++ [11]) /\
  call_assert 0 SNAX_ERROR_ONERROR =
    [65; 0; 66; 129; 128; 128; 217; 211; 179; 237; 130; 111; 16; 0].
Proof.
  cbv zeta. split; [|split; [|split]].
  - vm_compute. reflexivity.
  - reflexivity.
  - vm_compute. reflexivity.
  - reflexivity.
Qed.

(** ** The layout of one data segment, the stack and the heap *)


Lemma same_link_refl s : same_link s s.
Proof. repeat split. Qed.

Lemma same_link_trans s1 s2 s3 : same_link s1 s2 -> same_link s2 s3 -> same_link s1 s3.
Proof. unfold same_link; intuition congruence. Qed.

Lemma same_link_withW s w : same_link s (withW w s).
Proof. destruct s; repeat split. Qed.

Lemma segment_dead (c : InputChunk.t) (s : State) :
  InputChunk.Live c = false -> createOutputSegments_segment c s = Done s.
Proof. intros E. unfold createOutputSegments_segment. rewrite E. reflexivity. Qed.

Lemma segments_dead (l : list InputChunk.t) (s : State) :
  filter InputChunk.Live l = [] -> forEach createOutputSegments_segment l s = Done s.
Proof.
  induction l as [|c l IH]; [reflexivity|].
  rewrite forEach_cons, filter_cons.
  destruct (InputChunk.Live c) eqn:E.
  - rewrite decide_True by exact I. discriminate.
  - rewrite decide_False by (simpl; tauto).
    rewrite segment_dead by assumption. exact IH.
Qed.


Lemma segment_first (Seg : InputChunk.t) (s : State) :
  Writer.Segments (W s) = [] -> Writer.SegmentMap (W s) = ∅ ->
  InputChunk.Alignment Seg <> 0 -> InputChunk.Live Seg = true ->
  exists s', createOutputSegments_segment Seg s = Done s' /\
             same_link s s' /\
             Writer.Segments (W s') = [singleSegment (Cfg s) Seg].
Proof.
  intros Hsegs Hmap Hal E. unfold createOutputSegments_segment.
  rewrite E, Hmap, lookup_empty, Hsegs.
  destruct s as [nd cfg st ws er w]; destruct w; simpl in *. subst.
  unfold addInputSegment. apply Z.eqb_neq in Hal. rewrite Hal. simpl.
  eexists; split; [reflexivity|]. split; [repeat split|]. reflexivity.
Qed.

Lemma segments_single (l : list InputChunk.t) (Seg : InputChunk.t) (s : State) :
  Writer.Segments (W s) = [] -> Writer.SegmentMap (W s) = ∅ ->
  InputChunk.Alignment Seg <> 0 ->
  filter InputChunk.Live l = [Seg] ->
  exists s', forEach createOutputSegments_segment l s = Done s' /\
             same_link s s' /\
             Writer.Segments (W s') = [singleSegment (Cfg s) Seg].
Proof.
  intros Hsegs Hmap Hal. induction l as [|c l IH]; [discriminate|].
  rewrite forEach_cons, filter_cons.
  destruct (InputChunk.Live c) eqn:E.
  - rewrite decide_True by exact I. intros [= -> Hrest].
    destruct (segment_first Seg s) as (s' & -> & Hs); try assumption.
    rewrite bind_Done_l, segments_dead by assumption. eauto.
  - rewrite decide_False by (simpl; tauto). intros Hrest.
    rewrite segment_dead by assumption. auto.
Qed.

Lemma file_abis_same (File : ObjFile.t) (s : State) :
  let s1 := if String.eqb (ObjFile.SnaxABI File) "" then s
            else withW (Writer.withAbis (Writer.abis (W s) ++ [ObjFile.SnaxABI File]) (W s)) s in
  same_link s s1 /\ Writer.Segments (W s1) = Writer.Segments (W s) /\
  Writer.SegmentMap (W s1) = Writer.SegmentMap (W s).
Proof.
  cbv zeta. destruct (String.eqb _ _); [repeat split|].
  destruct s as [nd cfg st ws er w]; destruct w; repeat split.
Qed.

Lemma createOutputSegments_file_eq (File : ObjFile.t) (s : State) :
  createOutputSegments_file File s =
  forEach createOutputSegments_segment (ObjFile.Segments File)
    (if String.eqb (ObjFile.SnaxABI File) "" then s
     else withW (Writer.withAbis (Writer.abis (W s) ++ [ObjFile.SnaxABI File]) (W s)) s).
Proof. reflexivity. Qed.

Lemma files_dead (files : list ObjFile.t) (s : State) :
  filter InputChunk.Live (flat_map ObjFile.Segments files) = [] ->
  exists s', forEach createOutputSegments_file files s = Done s' /\
             same_link s s' /\ Writer.Segments (W s') = Writer.Segments (W s) /\
             Writer.SegmentMap (W s') = Writer.SegmentMap (W s).
Proof.
  revert s. induction files as [|F files IH]; intros s Hdead.
  - exists s. repeat split.
  - simpl flat_map in Hdead. rewrite filter_app in Hdead.
    apply app_eq_nil in Hdead as [HF Hrest].
    rewrite forEach_cons, createOutputSegments_file_eq.
    rewrite segments_dead by assumption. rewrite bind_Done_l.
    destruct (file_abis_same F s) as (Hl & Hs & Hm).
    set (s1 := if String.eqb (ObjFile.SnaxABI F) "" then s else _) in *.
    destruct (IH s1 Hrest) as (s' & -> & Hl' & Hs' & Hm').
    exists s'. split; [reflexivity|]. split; [eapply same_link_trans; eassumption|].
    split; congruence.
Qed.

Lemma files_single (files : list ObjFile.t) (Seg : InputChunk.t) (s : State) :
  Writer.Segments (W s) = [] -> Writer.SegmentMap (W s) = ∅ ->
  InputChunk.Alignment Seg <> 0 ->
  filter InputChunk.Live (flat_map ObjFile.Segments files) = [Seg] ->
  exists s', forEach createOutputSegments_file files s = Done s' /\
             same_link s s' /\
             Writer.Segments (W s') = [singleSegment (Cfg s) Seg].
Proof.
  intros Hsegs Hmap Hal. revert s Hsegs Hmap.
  induction files as [|F files IH]; intros s Hsegs Hmap Hone; [discriminate|].
  simpl flat_map in Hone. rewrite filter_app in Hone.
  rewrite forEach_cons, createOutputSegments_file_eq.
  destruct (file_abis_same F s) as (Hl & Hs & Hm).
  set (s1 := if String.eqb (ObjFile.SnaxABI F) "" then s else _) in *.
  assert (Hcfg : Cfg s1 = Cfg s) by apply Hl.
  destruct (filter InputChunk.Live (ObjFile.Segments F)) as [|c rest] eqn:EF.
  - rewrite segments_dead by assumption. rewrite bind_Done_l.
    destruct (IH s1) as (s' & -> & Hl' & Hs'); [congruence | congruence | exact Hone |].
    exists s'. split; [reflexivity|]. split; [eapply same_link_trans; eassumption|].
    congruence.
  - simpl in Hone. injection Hone as -> Hrest.
    apply app_eq_nil in Hrest as [-> Hrest].
    destruct (segments_single (ObjFile.Segments F) Seg s1) as (s2 & -> & Hl2 & Hs2);
      try congruence.
    rewrite bind_Done_l.
    destruct (files_dead files s2 Hrest) as (s' & -> & Hl' & Hs' & _).
    exists s'. split; [reflexivity|].
    split; [eapply same_link_trans; [|eassumption]; eapply same_link_trans; eassumption|].
    congruence.
Qed.

Lemma createOutputSegments_eq (s : State) :
  createOutputSegments s =
  forEach createOutputSegments_file (SymbolTable.ObjectFiles (Symtab s)) s.
Proof. reflexivity. Qed.



Lemma layout_symbols_insert sp de hb gp syms q a y :
  layout_symbols sp de hb gp syms -> syms !! q = Some y ->
  layout_symbols sp de hb gp (<[q := Symbol.withVirtualAddress a y]> syms).
Proof.
  intros (Hde & Hhb & x & Hx & Hg) Hq.
  assert (Hlen : forall j, is_Some (syms !! j) ->
                           is_Some (<[q := Symbol.withVirtualAddress a y]> syms !! j)).
  { intros j Hj. apply lookup_lt_is_Some. rewrite length_insert.
    apply lookup_lt_is_Some. assumption. }
  split; [auto|]. split; [auto|].
  destruct (decide (q = sp)) as [-> | Hneq].
  - exists (Symbol.withVirtualAddress a y). split.
    + apply list_lookup_insert_eq. eapply lookup_lt_Some; eassumption.
    + assert (x = y) as -> by congruence. destruct y; assumption.
  - exists x. split; [|assumption]. rewrite list_lookup_insert_ne; assumption.
Qed.

Lemma setVirtualAddress_mk nd cfg files sfun sglob symvec syms funs globs ws er w p a y :
  syms !! p = Some y ->
  setVirtualAddress p a
    (mkState nd cfg (SymbolTable.mk files sfun sglob symvec syms funs globs) ws er w) =
  Done (mkState nd cfg
          (SymbolTable.mk files sfun sglob symvec
             (<[p := Symbol.withVirtualAddress a y]> syms) funs globs) ws er w).
Proof. intros H. unfold setVirtualAddress, getSym. simpl. rewrite H. reflexivity. Qed.

Lemma setStackPointerInit_mk nd cfg files sfun sglob symvec syms funs globs
    sp hb de dso cc ef er w v x gp G :
  syms !! sp = Some x -> Symbol.Global x = Some gp -> globs !! gp = Some G ->
  setStackPointerInit v
    (mkState nd cfg (SymbolTable.mk files sfun sglob symvec syms funs globs)
       (WasmSym.mk (Some sp) hb de dso cc ef) er w) =
  Done (mkState nd cfg
          (SymbolTable.mk files sfun sglob symvec syms funs
             (<[gp := InputGlobal.setInitValue (to_int32 v) G]> globs))
          (WasmSym.mk (Some sp) hb de dso cc ef) er w).
Proof.
  intros Hx Hg HG. unfold setStackPointerInit, getSym, getGlob. simpl.
  rewrite Hx. simpl. rewrite Hg. simpl. rewrite HG. reflexivity.
Qed.

(** C3: in a link that is not relocatable, with [global_base = 1024],
    [z_stack_size = 4096], no initial or maximal memory, the stack after
    the data, and one live data segment of 100 bytes aligned to 8,
    [layoutMemory] puts the segment at 1024, [__data_end] at 1124, the stack
    from 1136 up to the initial [__stack_pointer] 5232, [__heap_base] at 5232
    and asks for one page of memory; nothing is reported. *)
Theorem layoutMemory_data_heap_stack (s : State) (Seg : InputChunk.t)
    (sp de hb : SymPtr) (spSym : Symbol.t) (gp : GlobPtr) :
  Config.Relocatable (Cfg s) = false -> Config.StackFirst (Cfg s) = false ->
  Config.GlobalBase (Cfg s) = 1024 -> Config.ZStackSize (Cfg s) = 4096 ->
  Config.InitialMemory (Cfg s) = 0 -> Config.MaxMemory (Cfg s) = 0 ->
  Writer.Segments (W s) = [] -> Writer.SegmentMap (W s) = ∅ ->
  filter InputChunk.Live
    (flat_map ObjFile.Segments (SymbolTable.ObjectFiles (Symtab s))) = [Seg] ->
  InputChunk.Size Seg = 100 -> InputChunk.Alignment Seg = 8 ->
  WasmSym.StackPointer (WSym s) = Some sp ->
  SymbolTable.Symbols (Symtab s) !! sp = Some spSym ->
  Symbol.Global spSym = Some gp ->
  is_Some (SymbolTable.Globals (Symtab s) !! gp) ->
  WasmSym.DataEnd (WSym s) = Some de -> WasmSym.HeapBase (WSym s) = Some hb ->
  de <> hb ->
  is_Some (SymbolTable.Symbols (Symtab s) !! de) ->
  is_Some (SymbolTable.Symbols (Symtab s) !! hb) ->
  match WasmSym.DsoHandle (WSym s) with
  | Some dso => is_Some (SymbolTable.Symbols (Symtab s) !! dso)
  | None => True
  end ->
  exists s', layoutMemory s = Done s' /\
    (exists S, Writer.Segments (W s') = [S] /\
               OutputSegment.StartVA S = 1024 /\ OutputSegment.Size S = 100) /\
    getVirtualAddress de s' = Done 1124 /\
    (exists G', SymbolTable.Globals (Symtab s') !! gp = Some G' /\
                Value (InitExpr (InputGlobal.Global G')) = 5232) /\
    getVirtualAddress hb s' = Done 5232 /\
    Writer.NumMemoryPages (W s') = 1 /\
    Errors s' = Errors s.
Proof.
  intros Hrel Hsf Hgb Hzs Him Hmm Hsegs Hmap Hone Hsize Halign
         Hsp Hspsym Hgp [G HG] Hde Hhb Hne [deSym HdeS] [hbSym HhbS] Hdso.
  destruct (files_single _ Seg s Hsegs Hmap ltac:(lia) Hone)
    as (s1 & Hrun & (Hnd & Hcfg & Hst & Hws & Her) & Hs1).
  unfold layoutMemory. rewrite createOutputSegments_eq, Hrun, bind_Done_l.
  clear Hrun Hone Hsegs Hmap.
  destruct s1 as [nd1 cfg1 st1 ws1 er1 w1]. simpl in Hnd, Hcfg, Hst, Hws, Her, Hs1.
  subst nd1 cfg1 st1 ws1 er1.
  unfold singleSegment in Hs1. rewrite Hsize, Halign in Hs1.
  destruct s as [nd cfg st ws er w]. simpl in *.
  destruct cfg; simpl in *; subst.
  destruct ws as [osp ohb ode odso occ oef]; simpl in *; subst.
  destruct st as [files sfun sglob symvec syms funs globs]; simpl in *.
  assert (HP : layout_symbols sp de hb gp syms).
  { split; [eauto|]. split; [eauto|]. eauto. }
  clear Hspsym spSym Hgp HdeS deSym HhbS hbSym.
  (* __dso_handle *)
  assert (Hstep1 : exists syms1, layout_symbols sp de hb gp syms1 /\
            setOptVirtualAddress odso 1024
              (mkState nd (Config.mk false ImportMemory0 ImportTable0 ExportTable ExportAll
                             MergeDataSegments false StripDebug StripAll 4096 1024 0 0)
                 (SymbolTable.mk files sfun sglob symvec syms funs globs)
                 (WasmSym.mk (Some sp) (Some hb) (Some de) odso occ oef) er w1) =
            Done (mkState nd (Config.mk false ImportMemory0 ImportTable0 ExportTable ExportAll
                             MergeDataSegments false StripDebug StripAll 4096 1024 0 0)
                 (SymbolTable.mk files sfun sglob symvec syms1 funs globs)
                 (WasmSym.mk (Some sp) (Some hb) (Some de) odso occ oef) er w1)).
  { destruct odso as [dso|]; simpl.
    - destruct Hdso as [y Hy]. unfold setVirtualAddress, getSym. simpl. rewrite Hy. simpl.
      eexists; split; [|reflexivity]. apply layout_symbols_insert; assumption.
    - eauto. }
  destruct Hstep1 as (syms1 & HP1 & ->). rewrite bind_Done_l. clear HP Hdso.
  set (nm := getOutputDataSegmentName _ _) in *. clearbody nm.
  destruct w1; simpl in Hs1; subst.
  cbn [W Writer.Segments layoutSegments OutputSegment.Alignment OutputSegment.Size
       OutputSegment.withStartVA].
  replace (wrap32 (alignTo 1024 (1 `max` 8))) with 1024 by reflexivity.
  replace (wrap32 (wrap32 (alignTo 0 8) + 100)) with 100 by reflexivity.
  replace (wrap32 (1024 + 100)) with 1124 by reflexivity.
  cbn [withW Writer.withSegments WSym WasmSym.DataEnd setOptVirtualAddress].
  (* __data_end *)
  destruct (proj1 HP1) as [y Hy].
  erewrite setVirtualAddress_mk by exact Hy; rewrite bind_Done_l.
  pose proof (layout_symbols_insert _ _ _ _ _ _ 1124 _ HP1 Hy) as HP2.
  assert (Hde2 : <[de := Symbol.withVirtualAddress 1124 y]> syms1 !! de
                 = Some (Symbol.withVirtualAddress 1124 y))
    by (apply list_lookup_insert_eq; eapply lookup_lt_Some; eassumption).
  set (syms2 := <[de := Symbol.withVirtualAddress 1124 y]> syms1) in *. clearbody syms2.
  clear HP1 Hy syms1.
  (* the stack *)
  cbn [Cfg Config.StackFirst Config.Relocatable Config.ZStackSize negb PlaceStack].
  replace (4096 =? alignTo 4096 kStackAlignment) with true by reflexivity.
  replace (wrap32 (wrap32 (alignTo 1124 kStackAlignment) + 4096)) with 5232 by reflexivity.
  cbn [negb].
  destruct HP2 as (Hde & [z Hz] & x & Hx & Hgx).
  erewrite setStackPointerInit_mk by eassumption.
  rewrite !bind_Done_l.
  cbn [Cfg Config.Relocatable negb WSym WasmSym.HeapBase deref].
  rewrite bind_Done_l.
  (* __heap_base *)
  erewrite setVirtualAddress_mk by exact Hz. rewrite bind_Done_l.
  cbn -[insert lookup wrap32 alignTo Z.div to_int32].
  replace (wrap32 (alignTo 5232 WasmPageSize) / WasmPageSize) with 1 by reflexivity.
  eexists. split; [reflexivity|].
  cbn [W Writer.Segments Writer.NumMemoryPages Errors Symtab SymbolTable.Globals].
  split; [eexists; split; [reflexivity|]; split; reflexivity|].
  split.
  { unfold getVirtualAddress, getSym. cbn [Symtab SymbolTable.Symbols].
    rewrite list_lookup_insert_ne by auto. rewrite Hde2. destruct y; reflexivity. }
  split.
  { eexists. split; [apply list_lookup_insert_eq; eapply lookup_lt_Some; eassumption|].
    destruct G as [l [gt [op v]] gi]. reflexivity. }
  split.
  { unfold getVirtualAddress, getSym. cbn [Symtab SymbolTable.Symbols].
    rewrite list_lookup_insert_eq by (eapply lookup_lt_Some; eassumption).
    destruct z; reflexivity. }
  split; reflexivity.
Qed.

Lemma layoutMemory_data_heap_stack_witness :
  exists s', layoutMemory ExampleLayout.state = Done s' /\
    (exists S, Writer.Segments (W s') = [S] /\
               OutputSegment.StartVA S = 1024 /\ OutputSegment.Size S = 100) /\
    getVirtualAddress 2%nat s' = Done 1124 /\
    (exists G', SymbolTable.Globals (Symtab s') !! 0%nat = Some G' /\
                Value (InitExpr (InputGlobal.Global G')) = 5232) /\
    getVirtualAddress 1%nat s' = Done 5232 /\
    Writer.NumMemoryPages (W s') = 1 /\
    Errors s' = Errors ExampleLayout.state.
Proof.
  apply (layoutMemory_data_heap_stack ExampleLayout.state ExampleLayout.dataSegment
           0%nat 2%nat 1%nat ExampleLayout.stackPointer 0%nat);
    try reflexivity; try (simpl; eauto); lia.
Defined.

(** ** The type table *)

Lemma types_extend_refl s : types_extend s s.
Proof. unfold types_extend; intuition. Qed.

Lemma types_extend_trans s1 s2 s3 :
  types_extend s1 s2 -> types_extend s2 s3 -> types_extend s1 s3.
Proof.
  intros (A1 & A2 & A3 & A4 & A5 & A6 & A7 & A8) (B1 & B2 & B3 & B4 & B5 & B6 & B7 & B8).
  unfold types_extend.
  split; [congruence|]. split; [congruence|]. split; [congruence|].
  split; [congruence|]. split; [congruence|]. split; [congruence|].
  split; auto.
Qed.

Lemma registerType_extend (Sig : WasmSignature) (s : State) :
  types_extend s (registerType Sig s).2.
Proof.
  unfold registerType.
  destruct (Writer.TypeIndices (W s) !! Sig) as [i|] eqn:E; simpl;
    [apply types_extend_refl|].
  destruct s as [nd cfg st ws er w]; destruct w; simpl in *.
  repeat (split; [reflexivity|]). split.
  - intros Sig' i H. simpl in *. rewrite lookup_insert_ne; [assumption|]. congruence.
  - intros (Hnd & Hidx & Hlist). simpl in *. unfold types_consistent. simpl.
    split; [|split].
    + apply NoDup_app. split; [assumption|]. split; [|apply NoDup_singleton].
      intros x Hx Hx'. apply list_elem_of_singleton in Hx'. subst x.
      apply list_elem_of_lookup in Hx as [n Hn].
      destruct (Hlist n Sig Hn) as [j Hj]. congruence.
    + intros Sig' i. destruct (decide (Sig = Sig')) as [<- | Hne].
      * rewrite lookup_insert_eq. intros [= <-]. exists (length Types).
        split; [|reflexivity]. rewrite lookup_app_r by lia.
        rewrite Nat.sub_diag. reflexivity.
      * rewrite lookup_insert_ne by assumption. intros H.
        destruct (Hidx _ _ H) as (n & Hn & ->). exists n. split; [|reflexivity].
        apply lookup_app_l_Some. assumption.
    + intros n Sig' H. destruct (decide (Sig = Sig')) as [<- | Hne].
      * rewrite lookup_insert_eq. eauto.
      * rewrite lookup_insert_ne by assumption.
        apply lookup_app_Some in H as [H | [_ H]]; [eauto|].
        apply list_lookup_singleton_Some in H as [_ H]. congruence.
Qed.

Lemma registerType_registered (Sig : WasmSignature) (s : State) :
  is_Some (Writer.TypeIndices (W (registerType Sig s).2) !! Sig).
Proof.
  unfold registerType.
  destruct (Writer.TypeIndices (W s) !! Sig) as [i|] eqn:E; simpl; [eauto|].
  destruct s as [nd cfg st ws er w]; destruct w; simpl in *.
  rewrite lookup_insert_eq. eauto.
Qed.

(** A second registration of a signature changes nothing and yields the
    same index. *)
Lemma registerType_twice (Sig : WasmSignature) (s : State) :
  registerType Sig (registerType Sig s).2 = registerType Sig s.
Proof.
  unfold registerType at 2 3.
  destruct (Writer.TypeIndices (W s) !! Sig) as [i|] eqn:E; simpl.
  - unfold registerType. rewrite E. reflexivity.
  - unfold registerType. destruct s as [nd cfg st ws er w]; destruct w; simpl in *.
    rewrite lookup_insert_eq. reflexivity.
Qed.

(** The table grows by the signature on its first registration only. *)
Lemma registerType_Types (Sig : WasmSignature) (s : State) :
  Writer.Types (W (registerType Sig s).2) =
  if bool_decide (is_Some (Writer.TypeIndices (W s) !! Sig))
  then Writer.Types (W s) else Writer.Types (W s) ++ [Sig].
Proof.
  unfold registerType.
  destruct (Writer.TypeIndices (W s) !! Sig) as [i|] eqn:E; simpl.
  - reflexivity.
  - destruct s as [nd cfg st ws er w]; destruct w; reflexivity.
Qed.

(** A loop whose body relates the states by a preorder [R] and establishes
    [Q x] for its element, where [Q] is stable under [R]. *)
Lemma forEach_each {A S} (body : A -> S -> Outcome S)
    (R : S -> S -> Prop) (Q : A -> S -> Prop) (l : list A) :
  (forall s, R s s) ->
  (forall s1 s2 s3, R s1 s2 -> R s2 s3 -> R s1 s3) ->
  (forall x s s', body x s = Done s' -> R s s' /\ Q x s') ->
  (forall x s s', R s s' -> Q x s -> Q x s') ->
  forall s s', forEach body l s = Done s' -> R s s' /\ forall x, In x l -> Q x s'.
Proof.
  intros Hrefl Htrans Hbody Hstable.
  induction l as [|x l IH]; intros s s' Hrun.
  - rewrite forEach_nil in Hrun. inv_Done. split; [apply Hrefl|]. intros ? [].
  - rewrite forEach_cons in Hrun. inv_bind Hrun.
    destruct (Hbody _ _ _ Hrun0) as [HR HQ].
    destruct (IH _ _ Hrun) as [HR' HQ'].
    split; [eapply Htrans; eassumption|].
    intros y [<- | Hy]; [eapply Hstable; eassumption | auto].
Qed.

Lemma putFile_extend (File : FilePtr) (F : ObjFile.t) (s : State) :
  types_extend s (putFile File F s).
Proof.
  destruct s as [nd cfg st ws er w]; destruct st; unfold types_extend; simpl.
  rewrite length_insert.
  do 6 (split; [reflexivity|]). split; [intros ? ? H; exact H | intros H; exact H].
Qed.

Lemma setTypeMap_extend File I v s s' :
  setTypeMap File I v s = Done s' -> types_extend s s'.
Proof.
  unfold setTypeMap. intros H. inv_bind H.
  destruct (bool_decide _); inv_Done. apply putFile_extend.
Qed.

Lemma setTypeIsUsed_extend File I v s s' :
  setTypeIsUsed File I v s = Done s' -> types_extend s s'.
Proof.
  unfold setTypeIsUsed. intros H. inv_bind H.
  destruct (bool_decide _); inv_Done. apply putFile_extend.
Qed.

Lemma calculateTypes_type_extend File I s s' :
  calculateTypes_type File I s = Done s' -> types_extend s s'.
Proof.
  unfold calculateTypes_type. intros H.
  inv_bind H as F HF. inv_bind H as used Hused.
  destruct used; [|inv_Done; apply types_extend_refl].
  inv_bind H as Sig HSig.
  pose proof (registerType_extend Sig s) as Hreg.
  destruct (registerType Sig s) as [i s1]. simpl in Hreg.
  eapply types_extend_trans; [exact Hreg|]. eapply setTypeMap_extend; eassumption.
Qed.

Lemma calculateTypes_file_extend File s s' :
  calculateTypes_file File s = Done s' -> types_extend s s'.
Proof.
  unfold calculateTypes_file. intros H. inv_bind H.
  eapply (forEach_each _ types_extend (fun _ _ => True)) in H; [apply H | ..].
  - apply types_extend_refl.
  - apply types_extend_trans.
  - intros x t t' Ht. split; [|exact I]. eapply calculateTypes_type_extend; eassumption.
  - auto.
Qed.

Lemma import_registered_stable p s s' :
  types_extend s s' -> import_registered p s -> import_registered p s'.
Proof.
  intros (Hsym & _ & _ & _ & _ & _ & Hmono & _) HQ sym Sig Hp Hf Ht.
  rewrite Hsym in Hp. destruct (HQ sym Sig Hp Hf Ht) as [i Hi].
  exists i. auto.
Qed.

Lemma function_registered_stable p s s' :
  types_extend s s' -> function_registered p s -> function_registered p s'.
Proof.
  intros (_ & Hfun & _ & _ & _ & _ & Hmono & _) (F & HF & [i Hi]).
  exists F. rewrite Hfun. split; [assumption|]. exists i. auto.
Qed.

Lemma calculateTypes_import_spec p s s' :
  calculateTypes_import p s = Done s' -> types_extend s s' /\ import_registered p s'.
Proof.
  unfold calculateTypes_import, getSym. intros H. inv_bind H as a Ha. inv_Done.
  destruct (Symbol.isFunctionSymbol a) eqn:Ef.
  - inv_bind H as Sig0 HSig0. inv_Done. split; [apply registerType_extend|].
    intros sym Sig Hp _ Ht.
    destruct (registerType_extend Sig0 s) as (Hsym & _). rewrite Hsym in Hp.
    assert (sym = a) as -> by congruence.
    assert (Sig = Sig0) as -> by congruence.
    apply registerType_registered.
  - inv_Done. split; [apply types_extend_refl|].
    intros sym Sig Hp Hf _. assert (sym = a) as -> by congruence. congruence.
Qed.

Lemma calculateTypes_function_spec p s s' :
  calculateTypes_function p s = Done s' -> types_extend s s' /\ function_registered p s'.
Proof.
  unfold calculateTypes_function, getFunc. intros H. inv_bind H as a Ha. inv_Done.
  split; [apply registerType_extend|].
  exists a. destruct (registerType_extend (InputFunction.Signature a) s) as (_ & -> & _).
  split; [assumption | apply registerType_registered].
Qed.

(** After [calculateTypes] the table is still consistent and holds the
    signature of every imported function and of every input function. *)
Lemma calculateTypes_spec s s' :
  calculateTypes s = Done s' ->
  types_extend s s' /\
  (forall p, In p (Writer.ImportedSymbols (W s')) -> import_registered p s') /\
  (forall p, In p (Writer.InputFunctions (W s')) -> function_registered p s').
Proof.
  unfold calculateTypes. intros H. inv_bind H as s1 Hrun. inv_bind H as s2 Hrun0.
  apply (forEach_each _ types_extend (fun _ _ => True)) in Hrun;
    [ | apply types_extend_refl | apply types_extend_trans
      | intros x t t' Ht; split; [eapply calculateTypes_file_extend; eassumption | exact I]
      | auto ].
  destruct Hrun as [H1 _].
  apply (forEach_each _ types_extend import_registered) in Hrun0;
    [ | apply types_extend_refl | apply types_extend_trans
      | apply calculateTypes_import_spec
      | intros; eapply import_registered_stable; eassumption ].
  destruct Hrun0 as [H2 HQ2].
  apply (forEach_each _ types_extend function_registered) in H;
    [ | apply types_extend_refl | apply types_extend_trans
      | apply calculateTypes_function_spec
      | intros; eapply function_registered_stable; eassumption ].
  destruct H as [H3 HQ3].
  split; [eapply types_extend_trans; [|eassumption]; eapply types_extend_trans; eassumption|].
  split.
  - intros p Hp. eapply import_registered_stable; [exact H3|]. apply HQ2.
    destruct H3 as (_ & _ & _ & E3 & _). destruct H2 as (_ & _ & _ & E2 & _).
    rewrite E3, E2 in Hp. exact Hp.
  - intros p Hp. apply HQ3. destruct H3 as (_ & _ & _ & _ & E3 & _).
    rewrite E3 in Hp. exact Hp.
Qed.

Lemma lookupType_registered (Sig : WasmSignature) (s : State) :
  types_consistent (W s) ->
  Z.of_nat (length (Writer.Types (W s))) <= 2 ^ 31 ->
  is_Some (Writer.TypeIndices (W s) !! Sig) ->
  exists i, lookupType Sig s = (i, s) /\ 0 <= i /\
            Writer.Types (W s) !! Z.to_nat i = Some Sig.
Proof.
  intros (_ & Hidx & _) Hlen [j Hj]. unfold lookupType. rewrite Hj.
  destruct (Hidx _ _ Hj) as (n & Hn & ->).
  apply lookup_lt_Some in Hn as Hlt.
  rewrite wrap32_to_int32, wrap32_small by lia.
  exists (Z.of_nat n). rewrite Nat2Z.id. repeat split; [lia | assumption].
Qed.

Lemma sigIndicesOf_registered (l : list FuncPtr) (s : State) :
  types_consistent (W s) ->
  Z.of_nat (length (Writer.Types (W s))) <= 2 ^ 31 ->
  (forall p, In p l -> function_registered p s) ->
  exists idxs, sigIndicesOf l s = Done (idxs, s) /\ Forall2 (function_sig_index s) l idxs.
Proof.
  intros Hc Hlen. induction l as [|p l IH]; intros Hreg.
  - exists []. split; [reflexivity | constructor].
  - destruct (Hreg p (or_introl eq_refl)) as (F & HF & Hsig).
    destruct (lookupType_registered _ _ Hc Hlen Hsig) as (i & Hi & Hpos & Hty).
    destruct IH as (idxs & Hrun & Hall); [intros; apply Hreg; right; assumption|].
    exists (i :: idxs). split.
    + simpl. unfold getFunc. rewrite HF. simpl. rewrite Hi, Hrun. reflexivity.
    + constructor; [|assumption]. exists F. auto.
Qed.

Lemma importsOf_registered (l : list SymPtr) (s : State) :
  types_consistent (W s) ->
  Z.of_nat (length (Writer.Types (W s))) <= 2 ^ 31 ->
  (forall p, In p l -> import_registered p s) ->
  forall Imports s'', importsOf l s = Done (Imports, s'') ->
    s'' = s /\ Forall2 (import_sig_index s) l Imports.
Proof.
  intros Hc Hlen. induction l as [|p l IH]; intros Hreg Imports s'' Hrun.
  - simpl in Hrun. inv_Done. split; [reflexivity | constructor].
  - simpl in Hrun. inv_bind Hrun as r1 H1. destruct r1 as [Import s1].
    inv_bind Hrun as r2 H2. destruct r2 as [rest s2]. inv_Done.
    assert (Hone : s1 = s /\ import_sig_index s p Import).
    { unfold importOf, getSym in H1. inv_bind H1 as sym Hsym. inv_Done.
      destruct (Symbol.isFunctionSymbol sym) eqn:Ef.
      - inv_bind H1 as Sig HSig. inv_Done.
        destruct (lookupType_registered Sig s Hc Hlen) as (i & Hi & Hpos & Hty).
        { eapply (Hreg p); [left; reflexivity | eassumption..]. }
        rewrite Hi in H1. inv_Done. split; [reflexivity|].
        intros j [= <-]. exists sym, Sig. auto.
      - destruct (Symbol.isGlobalSymbol sym); [|discriminate].
        inv_bind H1 as G HG. inv_Done. split; [reflexivity|].
        intros j Hj. discriminate Hj. }
    destruct Hone as [-> Hp].
    destruct (IH (fun q Hq => Hreg q (or_intror Hq)) _ _ H2) as [-> Hall].
    split; [reflexivity|]. constructor; assumption.
Qed.

Lemma import_resolved_stable p s s' :
  types_extend s s' -> import_resolved p s -> import_resolved p s'.
Proof.
  intros (Hsym & _ & _ & _ & _ & _ & Hmono & _) (sym & Hp & Hf).
  exists sym. split; [rewrite Hsym; exact Hp|].
  intros Hfun. destruct (Hf Hfun) as (Sig & HSig & [i Hi]).
  exists Sig. split; [exact HSig|]. exists i. auto.
Qed.

Lemma calculateTypes_import_resolved p s s' :
  calculateTypes_import p s = Done s' -> types_extend s s' /\ import_resolved p s'.
Proof.
  intros H. pose proof (calculateTypes_import_spec _ _ _ H) as [Hext _].
  split; [exact Hext|].
  unfold calculateTypes_import, getSym in H. inv_bind H as a Ha. inv_Done.
  destruct Hext as (Hsym & _). exists a. split; [rewrite Hsym; exact Ha|].
  intros Hf. rewrite Hf in H. inv_bind H as Sig0 HSig0. inv_Done.
  exists Sig0. split; [exact HSig0 | apply registerType_registered].
Qed.

(** [calculateTypes] reads every imported symbol, and the type of every
    imported function. *)
Lemma calculateTypes_imports_resolved s s' :
  calculateTypes s = Done s' ->
  forall p, In p (Writer.ImportedSymbols (W s')) -> import_resolved p s'.
Proof.
  unfold calculateTypes. intros H. inv_bind H as s1 Hrun. inv_bind H as s2 Hrun0.
  apply (forEach_each _ types_extend import_resolved) in Hrun0;
    [ | apply types_extend_refl | apply types_extend_trans
      | apply calculateTypes_import_resolved
      | intros; eapply import_resolved_stable; eassumption ].
  destruct Hrun0 as [H2 HQ2].
  apply (forEach_each _ types_extend (fun _ _ => True)) in H;
    [ | apply types_extend_refl | apply types_extend_trans
      | intros x t t' Ht; split; [apply (calculateTypes_function_spec _ _ _ Ht) | exact I]
      | auto ].
  destruct H as [H3 _].
  intros p Hp. eapply import_resolved_stable; [exact H3|]. apply HQ2.
  destruct H3 as (_ & _ & _ & E3 & _). destruct H2 as (_ & _ & _ & E2 & _).
  rewrite E3, E2 in Hp. exact Hp.
Qed.

(** The entries of the import section: one per imported symbol, in order,
    with the position of the signature for a function. *)
Lemma importsOf_entries (l : list SymPtr) (s : State) :
  types_consistent (W s) ->
  Z.of_nat (length (Writer.Types (W s))) <= 2 ^ 31 ->
  (forall p, In p l -> import_resolved p s) ->
  (forall p, In p l -> global_import_typed s p) ->
  exists Imports, importsOf l s = Done (Imports, s) /\ Forall2 (import_entry s) l Imports.
Proof.
  intros Hc Hlen. induction l as [|p l IH]; intros Hres Hglob.
  - exists []. split; [reflexivity | constructor].
  - destruct IH as (rest & Hrest & Hall);
      [intros; apply Hres; right; assumption | intros; apply Hglob; right; assumption|].
    destruct (Hres p (or_introl eq_refl)) as (sym & Hsym & Hfun).
    pose proof (Hglob p (or_introl eq_refl) sym Hsym) as Hg.
    simpl. unfold importOf at 1, getSym. rewrite Hsym. simpl.
    destruct (Symbol.isFunctionSymbol sym) eqn:Ef.
    + destruct (Hfun eq_refl) as (Sig & HSig & Hreg).
      destruct (lookupType_registered Sig s Hc Hlen Hreg) as (i & Hi & Hpos & Hty).
      rewrite HSig. simpl. rewrite Hi. simpl. rewrite Hrest. simpl.
      eexists. split; [reflexivity|]. constructor; [|exact Hall].
      exists sym. split; [exact Hsym|]. split; [reflexivity|]. split; [reflexivity|].
      rewrite Ef. exists Sig, i. auto.
    + destruct (Hg eq_refl) as [Hgs [G HG]]. rewrite Hgs, HG. simpl. rewrite Hrest. simpl.
      eexists. split; [reflexivity|]. constructor; [|exact Hall].
      exists sym. split; [exact Hsym|]. split; [reflexivity|]. split; [reflexivity|].
      rewrite Ef. exists G. auto.
Qed.

(** C5: [registerType] is idempotent: a second call with an equal signature
    returns the same index and the same state, and the table grows by the
    signature only when it had no index. After [calculateTypes] (from a
    consistent table that stays within the range of the [int32_t] indices)
    no signature is listed twice in [Types], which is what the type section
    writes. [createFunctionSection] then returns without an error and
    writes, for the k-th input function, a position of [Types] that holds
    the signature of that function; [createImportSection] (when every
    imported symbol that is not a function is a global with a type) returns
    without an error and writes one entry per imported symbol, in order,
    where the entry of a function holds a position of [Types] with the
    signature of that function. *)
Theorem type_table_deduplicated (s s' : State) :
  types_consistent (W s) ->
  calculateTypes s = Done s' ->
  Z.of_nat (length (Writer.Types (W s'))) <= 2 ^ 31 ->
  (forall Sig t,
     registerType Sig (registerType Sig t).2 = registerType Sig t /\
     Writer.Types (W (registerType Sig t).2) =
       if bool_decide (is_Some (Writer.TypeIndices (W t) !! Sig))
       then Writer.Types (W t) else Writer.Types (W t) ++ [Sig]) /\
  NoDup (Writer.Types (W s')) /\
  Writer.OutputSections (W (createTypeSection s')) =
    Writer.OutputSections (W s') ++
    [mkSection WASM_SEC_TYPE ""
       (writeUleb128 (Z.of_nat (length (Writer.Types (W s')))) ++
        flat_map writeSig (Writer.Types (W s')))] /\
  (exists idxs,
     sigIndicesOf (Writer.InputFunctions (W s')) s' = Done (idxs, s') /\
     Forall2 (function_sig_index s') (Writer.InputFunctions (W s')) idxs /\
     createFunctionSection s' =
       Done (match Writer.InputFunctions (W s') with
             | [] => s'
             | _ => createSyntheticSection WASM_SEC_FUNCTION ""
                      (writeUleb128 (Z.of_nat (length (Writer.InputFunctions (W s')))) ++
                       flat_map writeUleb128 idxs) s'
             end)) /\
  (forall Imports s'',
     importsOf (Writer.ImportedSymbols (W s')) s' = Done (Imports, s'') ->
     s'' = s' /\ Forall2 (import_sig_index s') (Writer.ImportedSymbols (W s')) Imports) /\
  ((forall p, In p (Writer.ImportedSymbols (W s')) -> global_import_typed s' p) ->
   exists Imports,
     importsOf (Writer.ImportedSymbols (W s')) s' = Done (Imports, s') /\
     Forall2 (import_entry s') (Writer.ImportedSymbols (W s')) Imports /\
     let NumImports :=
       wrap32 (wrap32 (wrap32 (Z.of_nat (length (Writer.ImportedSymbols (W s'))))
                       + (if Config.ImportMemory (Cfg s') then 1 else 0))
               + (if Config.ImportTable (Cfg s') then 1 else 0)) in
     createImportSection s' =
       Done (if NumImports =? 0 then s'
             else createSyntheticSection WASM_SEC_IMPORT ""
                    (writeUleb128 NumImports ++
                     flat_map writeImport
                       ((if Config.ImportMemory (Cfg s') then [memoryImport s'] else []) ++
                        (if Config.ImportTable (Cfg s') then [tableImport s'] else []) ++
                        Imports)) s')).
Proof.
  intros Hc Hrun Hlen.
  destruct (calculateTypes_spec _ _ Hrun) as (Hext & Himp & Hfun).
  pose proof (calculateTypes_imports_resolved _ _ Hrun) as Hres.
  assert (Hc' : types_consistent (W s')) by (apply Hext; assumption).
  split; [intros Sig t; split; [apply registerType_twice | apply registerType_Types]|].
  split; [apply Hc'|].
  split; [destruct s' as [nd cfg st ws er w]; destruct w; reflexivity|].
  split; [|split].
  - destruct (sigIndicesOf_registered (Writer.InputFunctions (W s')) s' Hc' Hlen Hfun)
      as (idxs & Hidx & Hall).
    exists idxs. split; [exact Hidx|]. split; [exact Hall|].
    unfold createFunctionSection.
    destruct (Writer.InputFunctions (W s')) as [|fp l] eqn:E; [reflexivity|].
    rewrite Hidx. reflexivity.
  - intros Imports s''. apply importsOf_registered; assumption.
  - intros Hglob.
    destruct (importsOf_entries (Writer.ImportedSymbols (W s')) s' Hc' Hlen Hres Hglob)
      as (Imports & Himps & Hall).
    exists Imports. split; [exact Himps|]. split; [exact Hall|].
    intros NumImports. unfold createImportSection. fold NumImports.
    destruct (NumImports =? 0); [reflexivity|].
    rewrite Himps. reflexivity.
Qed.

Lemma type_table_deduplicated_witness :
  NoDup (Writer.Types (W ExampleTypes.typed)) /\
  Writer.Types (W ExampleTypes.typed) = [voidSignature; ExampleTypes.unarySignature] /\
  sigIndicesOf (Writer.InputFunctions (W ExampleTypes.typed)) ExampleTypes.typed
    = Done ([0; 1; 0], ExampleTypes.typed) /\
  (exists s1, createFunctionSection ExampleTypes.typed = Done s1 /\
              Body <$> Writer.OutputSections (W s1) = [[3; 0; 1; 0]]) /\
  (exists s2, createImportSection ExampleTypes.typed = Done s2 /\
              Body <$> Writer.OutputSections (W s2)
              = [[1; 3; 101; 110; 118; 5; 112; 114; 105; 110; 116; 0; 1]] /\
              Errors s2 = []).
Proof.
  destruct (type_table_deduplicated ExampleTypes.state ExampleTypes.typed)
    as (_ & Hnd & _ & (idxs & Hsig & _ & Hfun) & _ & Himp).
  - unfold types_consistent. simpl. split; [constructor|]. split.
    + intros Sig i H. rewrite lookup_empty in H. discriminate H.
    + intros n Sig H. destruct n; discriminate H.
  - vm_compute. reflexivity.
  - vm_compute. discriminate.
  - split; [exact Hnd|]. split; [vm_compute; reflexivity|].
    assert (HS : sigIndicesOf (Writer.InputFunctions (W ExampleTypes.typed)) ExampleTypes.typed
                 = Done ([0; 1; 0], ExampleTypes.typed)) by (vm_compute; reflexivity).
    split; [exact HS|]. split.
    + rewrite HS in Hsig. injection Hsig as <-.
      eexists. split; [exact Hfun|]. vm_compute. reflexivity.
    + destruct Himp as (Imports & Himps & _ & Hsec).
      * intros p Hp sym Hsym Hf. vm_compute in Hp.
        destruct Hp as [<- | []]. vm_compute in Hsym. injection Hsym as <-. discriminate Hf.
      * assert (HI : importsOf (Writer.ImportedSymbols (W ExampleTypes.typed)) ExampleTypes.typed
                     = Done ([mkImport "env" "print" (ImportFunction 1)], ExampleTypes.typed))
          by (vm_compute; reflexivity).
        rewrite HI in Himps. injection Himps as <-.
        eexists. split; [exact Hsec|]. split; vm_compute; reflexivity.
Defined.

(** ** Imports *)

Lemma is_import_attrs cfg a b : attrs a = attrs b -> is_import cfg a = is_import cfg b.
Proof.
  destruct a, b; unfold attrs; simpl. intros [= -> -> -> ->]. reflexivity.
Qed.

Lemma isFunctionSymbol_attrs a b :
  attrs a = attrs b -> Symbol.isFunctionSymbol a = Symbol.isFunctionSymbol b.
Proof.
  destruct a, b; unfold attrs; simpl. intros [= -> -> -> ->]. reflexivity.
Qed.

Lemma isGlobalSymbol_attrs a b :
  attrs a = attrs b -> Symbol.isGlobalSymbol a = Symbol.isGlobalSymbol b.
Proof.
  destruct a, b; unfold attrs; simpl. intros [= -> -> -> ->]. reflexivity.
Qed.

Lemma sym_is_attrs (f : Symbol.t -> bool) (s s' : State) (p : SymPtr) :
  (forall a b, attrs a = attrs b -> f a = f b) ->
  attrs <$> SymbolTable.Symbols (Symtab s') = attrs <$> SymbolTable.Symbols (Symtab s) ->
  sym_is f s' p = sym_is f s p.
Proof.
  intros Hf Hst. unfold sym_is.
  assert (H : attrs <$> (SymbolTable.Symbols (Symtab s') !! p)
              = attrs <$> (SymbolTable.Symbols (Symtab s) !! p))
    by (rewrite <- !list_lookup_fmap, Hst; reflexivity).
  destruct (SymbolTable.Symbols (Symtab s') !! p), (SymbolTable.Symbols (Symtab s) !! p);
    simpl in H; try discriminate; [|reflexivity].
  apply Hf. congruence.
Qed.

(** The body imports exactly the symbols [is_import] selects. *)
Lemma calculateImports_body_skip (p : SymPtr) (s s' : State) :
  calculateImports_body p s = Done s' ->
  sym_is (is_import (Cfg s)) s p = false -> s' = s.
Proof.
  unfold calculateImports_body, sym_is, getSym, is_import. intros H Himp.
  inv_bind H as Sym HSym. inv_Done. rewrite HSym in Himp.
  destruct (Symbol.isUndefined Sym), (Symbol.isDataSymbol Sym), (Symbol.isWeak Sym),
    (Config.Relocatable (Cfg s)), (Symbol.isLive Sym), (Symbol.IsUsedInRegularObj Sym);
    cbn [negb andb orb] in *; try discriminate; inv_Done; reflexivity.
Qed.

Lemma calculateImports_body_import (p : SymPtr) (s s' : State) :
  calculateImports_body p s = Done s' ->
  sym_is (is_import (Cfg s)) s p = true ->
  exists Sym, SymbolTable.Symbols (Symtab s) !! p = Some Sym /\
    ((Symbol.isFunctionSymbol Sym = true /\
      s' = putSym p (Symbol.withFunctionIndex (Writer.NumImportedFunctions (W s)) Sym)
             (withW (Writer.withNumImportedFunctions
                       (wrap32 (Writer.NumImportedFunctions (W s) + 1))
                       (W (pushImportedSymbol p s))) (pushImportedSymbol p s))) \/
     (Symbol.isFunctionSymbol Sym = false /\ Symbol.isGlobalSymbol Sym = true /\
      s' = putSym p (Symbol.withGlobalIndex (Writer.NumImportedGlobals (W s)) Sym)
             (withW (Writer.withNumImportedGlobals
                       (wrap32 (Writer.NumImportedGlobals (W s) + 1))
                       (W (pushImportedSymbol p s))) (pushImportedSymbol p s)))).
Proof.
  unfold calculateImports_body, sym_is, getSym, is_import. intros H Himp.
  inv_bind H as Sym HSym. inv_Done. rewrite HSym in Himp. exists Sym. split; [exact HSym|].
  assert (Hpass : forall (A : Type) (x y : A),
            (if negb (Symbol.isUndefined Sym) then x
             else if Symbol.isDataSymbol Sym then x
             else if Symbol.isWeak Sym && negb (Config.Relocatable (Cfg s)) then x
             else if negb (Symbol.isLive Sym) then x
             else if negb (Symbol.IsUsedInRegularObj Sym) then x else y) = y).
  { intros A x y.
    destruct (Symbol.isUndefined Sym), (Symbol.isDataSymbol Sym), (Symbol.isWeak Sym),
      (Config.Relocatable (Cfg s)), (Symbol.isLive Sym), (Symbol.IsUsedInRegularObj Sym);
      cbn [negb andb orb] in *; try discriminate; reflexivity. }
  rewrite Hpass in H. clear Hpass Himp.
  destruct (Symbol.isFunctionSymbol Sym).
  - left. split; [reflexivity|].
    inv_bind H as t Ht. inv_Done.
    unfold setFunctionIndex, getSym in Ht. inv_bind Ht as Sym' HSym'.
    inv_Done. destruct s as [nd cfg st ws er w]; destruct st, w; simpl in *.
    assert (Sym' = Sym) as -> by congruence. reflexivity.
  - right. split; [reflexivity|].
    destruct (Symbol.isGlobalSymbol Sym); [|discriminate]. split; [reflexivity|].
    inv_bind H as t Ht. inv_Done.
    unfold setGlobalIndex, getSym in Ht. inv_bind Ht as Sym' HSym'.
    inv_Done. destruct s as [nd cfg st ws er w]; destruct st, w; simpl in *.
    assert (Sym' = Sym) as -> by congruence. reflexivity.
Qed.

Lemma attrs_withFunctionIndex i sym : attrs (Symbol.withFunctionIndex i sym) = attrs sym.
Proof. destruct sym; reflexivity. Qed.

Lemma attrs_withGlobalIndex i sym : attrs (Symbol.withGlobalIndex i sym) = attrs sym.
Proof. destruct sym; reflexivity. Qed.

Lemma fmap_insert_same {A B} (f : A -> B) (l : list A) (i : nat) (x y : A) :
  l !! i = Some x -> f y = f x -> f <$> <[i := y]> l = f <$> l.
Proof.
  intros Hx Hf. rewrite list_fmap_insert, Hf. apply list_insert_id.
  rewrite list_lookup_fmap, Hx. reflexivity.
Qed.

(** The state after the import of the function symbol [p]. *)
Lemma import_function_state (p : SymPtr) (Sym : Symbol.t) (s : State) :
  SymbolTable.Symbols (Symtab s) !! p = Some Sym ->
  let s1 := putSym p (Symbol.withFunctionIndex (Writer.NumImportedFunctions (W s)) Sym)
              (withW (Writer.withNumImportedFunctions
                        (wrap32 (Writer.NumImportedFunctions (W s) + 1))
                        (W (pushImportedSymbol p s))) (pushImportedSymbol p s)) in
  Cfg s1 = Cfg s /\
  SymbolTable.Symbols (Symtab s1) =
    <[p := Symbol.withFunctionIndex (Writer.NumImportedFunctions (W s)) Sym]>
      (SymbolTable.Symbols (Symtab s)) /\
  Writer.ImportedSymbols (W s1) = Writer.ImportedSymbols (W s) ++ [p] /\
  Writer.NumImportedFunctions (W s1) = wrap32 (Writer.NumImportedFunctions (W s) + 1) /\
  Writer.NumImportedGlobals (W s1) = Writer.NumImportedGlobals (W s).
Proof. intros _. destruct s as [nd cfg st ws er w]; destruct st, w; repeat split. Qed.

Lemma import_global_state (p : SymPtr) (Sym : Symbol.t) (s : State) :
  SymbolTable.Symbols (Symtab s) !! p = Some Sym ->
  let s1 := putSym p (Symbol.withGlobalIndex (Writer.NumImportedGlobals (W s)) Sym)
              (withW (Writer.withNumImportedGlobals
                        (wrap32 (Writer.NumImportedGlobals (W s) + 1))
                        (W (pushImportedSymbol p s))) (pushImportedSymbol p s)) in
  Cfg s1 = Cfg s /\
  SymbolTable.Symbols (Symtab s1) =
    <[p := Symbol.withGlobalIndex (Writer.NumImportedGlobals (W s)) Sym]>
      (SymbolTable.Symbols (Symtab s)) /\
  Writer.ImportedSymbols (W s1) = Writer.ImportedSymbols (W s) ++ [p] /\
  Writer.NumImportedFunctions (W s1) = Writer.NumImportedFunctions (W s) /\
  Writer.NumImportedGlobals (W s1) = wrap32 (Writer.NumImportedGlobals (W s) + 1).
Proof. intros _. destruct s as [nd cfg st ws er w]; destruct st, w; repeat split. Qed.

Lemma filter_sym_is_ext (f : Symbol.t -> bool) (s s' : State) (l : list SymPtr) :
  (forall a b, attrs a = attrs b -> f a = f b) ->
  attrs <$> SymbolTable.Symbols (Symtab s') = attrs <$> SymbolTable.Symbols (Symtab s) ->
  filter (fun p => sym_is f s' p) l = filter (fun p => sym_is f s p) l.
Proof.
  intros Hf Hst. apply list_filter_iff. intros p.
  rewrite (sym_is_attrs f s s' p Hf Hst). reflexivity.
Qed.

Lemma function_not_global sym :
  Symbol.isFunctionSymbol sym = true -> Symbol.isGlobalSymbol sym = false.
Proof. unfold Symbol.isFunctionSymbol, Symbol.isGlobalSymbol. destruct (Symbol.SymbolKind sym); congruence. Qed.

Lemma calculateImports_loop (l : list SymPtr) :
  forall s s',
    NoDup l ->
    0 <= Writer.NumImportedFunctions (W s) ->
    Writer.NumImportedFunctions (W s) + Z.of_nat (length l) < 2 ^ 32 ->
    0 <= Writer.NumImportedGlobals (W s) ->
    Writer.NumImportedGlobals (W s) + Z.of_nat (length l) < 2 ^ 32 ->
    forEach calculateImports_body l s = Done s' ->
    imports_result l s s'.
Proof.
  induction l as [|p l IH]; intros s s' Hnd Hf0 Hf1 Hg0 Hg1 Hrun.
  - rewrite forEach_nil in Hrun. inv_Done. unfold imports_result. simpl.
    rewrite filter_nil. simpl. rewrite app_nil_r, !Z.add_0_r.
    repeat split; intros k q H; discriminate H.
  - rewrite forEach_cons in Hrun. inv_bind Hrun as s1 Hbody.
    apply NoDup_cons in Hnd as [Hp Hnd]. rewrite list_elem_of_In in Hp.
    simpl length in Hf1, Hg1.
    destruct (sym_is (is_import (Cfg s)) s p) eqn:Eimp.
    + (* imported *)
      destruct (calculateImports_body_import _ _ _ Hbody Eimp) as (Sym & HSym & Hcase).
      assert (Hlt : (p < length (SymbolTable.Symbols (Symtab s)))%nat)
        by (eapply lookup_lt_Some; eassumption).
      destruct Hcase as [[Hfun ->] | (Hnf & Hglob & ->)].
      * destruct (import_function_state p Sym s HSym) as (Ecfg & Esym & Eis & Enf & Eng).
        cbv zeta in *.
        set (s1 := putSym p _ _) in *. clearbody s1.
        rewrite wrap32_small in Enf by lia.
        assert (Eattr : attrs <$> SymbolTable.Symbols (Symtab s1)
                        = attrs <$> SymbolTable.Symbols (Symtab s)).
        { rewrite Esym. eapply fmap_insert_same; [eassumption|].
          apply attrs_withFunctionIndex. }
        specialize (IH s1 s' Hnd ltac:(lia) ltac:(lia) ltac:(lia) ltac:(lia) Hrun).
        destruct IH as (I1 & I2 & I3 & I4 & I5 & I6 & I7 & I8).
        rewrite Ecfg in *.
        rewrite (filter_sym_is_ext _ s s1 l (is_import_attrs _) Eattr) in *.
        rewrite !(filter_sym_is_ext _ s s1 _ isFunctionSymbol_attrs Eattr) in *.
        rewrite !(filter_sym_is_ext _ s s1 _ isGlobalSymbol_attrs Eattr) in *.
        assert (Hpf : sym_is Symbol.isFunctionSymbol s p = true)
          by (unfold sym_is; rewrite HSym; assumption).
        assert (Hpg : sym_is Symbol.isGlobalSymbol s p = false)
          by (unfold sym_is; rewrite HSym; apply function_not_global; assumption).
        unfold imports_result. cbv zeta.
        rewrite (filter_cons_True _ p l) by (rewrite Eimp; exact I).
        rewrite (filter_cons_True (fun p => sym_is Symbol.isFunctionSymbol s p))
          by (rewrite Hpf; exact I).
        rewrite (filter_cons_False (fun p => sym_is Symbol.isGlobalSymbol s p))
          by (rewrite Hpg; simpl; tauto).
        split; [assumption|]. split; [congruence|]. split.
        { intros q Hq. rewrite I3 by (intros ?; apply Hq; right; assumption).
          rewrite Esym. apply list_lookup_insert_ne. intros ->. apply Hq. left; reflexivity. }
        split; [rewrite I4, Eis, <- app_assoc; reflexivity|].
        split; [rewrite I5, Enf; simpl length; lia|].
        split; [rewrite I6, Eng; reflexivity|].
        split.
        { intros [|k] q Hk.
          - simpl in Hk. injection Hk as <-. rewrite I3 by assumption.
            rewrite Esym, list_lookup_insert_eq by assumption.
            eexists; split; [reflexivity|]. destruct Sym; simpl. f_equal; lia.
          - simpl in Hk. destruct (I7 k q Hk) as (sym & Hs & Hi).
            exists sym. split; [assumption|]. rewrite Hi, Enf. f_equal; lia. }
        { intros k q Hk. destruct (I8 k q Hk) as (sym & Hs & Hi).
          exists sym. split; [assumption|]. rewrite Hi, Eng. reflexivity. }
      * destruct (import_global_state p Sym s HSym) as (Ecfg & Esym & Eis & Enf & Eng).
        cbv zeta in *.
        set (s1 := putSym p _ _) in *. clearbody s1.
        rewrite wrap32_small in Eng by lia.
        assert (Eattr : attrs <$> SymbolTable.Symbols (Symtab s1)
                        = attrs <$> SymbolTable.Symbols (Symtab s)).
        { rewrite Esym. eapply fmap_insert_same; [eassumption|].
          apply attrs_withGlobalIndex. }
        specialize (IH s1 s' Hnd ltac:(lia) ltac:(lia) ltac:(lia) ltac:(lia) Hrun).
        destruct IH as (I1 & I2 & I3 & I4 & I5 & I6 & I7 & I8).
        rewrite Ecfg in *.
        rewrite (filter_sym_is_ext _ s s1 l (is_import_attrs _) Eattr) in *.
        rewrite !(filter_sym_is_ext _ s s1 _ isFunctionSymbol_attrs Eattr) in *.
        rewrite !(filter_sym_is_ext _ s s1 _ isGlobalSymbol_attrs Eattr) in *.
        assert (Hpf : sym_is Symbol.isFunctionSymbol s p = false)
          by (unfold sym_is; rewrite HSym; assumption).
        assert (Hpg : sym_is Symbol.isGlobalSymbol s p = true)
          by (unfold sym_is; rewrite HSym; assumption).
        unfold imports_result. cbv zeta.
        rewrite (filter_cons_True _ p l) by (rewrite Eimp; exact I).
        rewrite (filter_cons_False (fun p => sym_is Symbol.isFunctionSymbol s p))
          by (rewrite Hpf; simpl; tauto).
        rewrite (filter_cons_True (fun p => sym_is Symbol.isGlobalSymbol s p))
          by (rewrite Hpg; exact I).
        split; [assumption|]. split; [congruence|]. split.
        { intros q Hq. rewrite I3 by (intros ?; apply Hq; right; assumption).
          rewrite Esym. apply list_lookup_insert_ne. intros ->. apply Hq. left; reflexivity. }
        split; [rewrite I4, Eis, <- app_assoc; reflexivity|].
        split; [rewrite I5, Enf; reflexivity|].
        split; [rewrite I6, Eng; simpl length; lia|].
        split.
        { intros k q Hk. destruct (I7 k q Hk) as (sym & Hs & Hi).
          exists sym. split; [assumption|]. rewrite Hi, Enf. reflexivity. }
        { intros [|k] q Hk.
          - simpl in Hk. injection Hk as <-. rewrite I3 by assumption.
            rewrite Esym, list_lookup_insert_eq by assumption.
            eexists; split; [reflexivity|]. destruct Sym; simpl. f_equal; lia.
          - simpl in Hk. destruct (I8 k q Hk) as (sym & Hs & Hi).
            exists sym. split; [assumption|]. rewrite Hi, Eng. f_equal; lia. }
    + (* left out *)
      pose proof (calculateImports_body_skip _ _ _ Hbody Eimp) as ->.
      specialize (IH s s' Hnd ltac:(lia) ltac:(lia) ltac:(lia) ltac:(lia) Hrun).
      destruct IH as (I1 & I2 & I3 & I4 & I5 & I6 & I7 & I8).
      unfold imports_result. cbv zeta.
      rewrite (filter_cons_False _ p l) by (rewrite Eimp; simpl; tauto).
      repeat (split; [assumption|]). split; [|split; [|split; [|split; [|split]]]];
        try assumption.
      intros q Hq. apply I3. intros ?; apply Hq; right; assumption.
Qed.

Lemma calculateImports_body_total (p : SymPtr) (s : State) :
  is_Some (SymbolTable.Symbols (Symtab s) !! p) ->
  exists s1, calculateImports_body p s = Done s1 /\
             length (SymbolTable.Symbols (Symtab s1)) = length (SymbolTable.Symbols (Symtab s)).
Proof.
  intros [Sym HSym]. unfold calculateImports_body, getSym. rewrite HSym. simpl.
  destruct (negb (Symbol.isUndefined Sym)) eqn:Eu; [eauto|].
  destruct (Symbol.isDataSymbol Sym) eqn:Ed; [eauto|].
  destruct (Symbol.isWeak Sym && negb (Config.Relocatable (Cfg s))); [eauto|].
  destruct (negb (Symbol.isLive Sym)); [eauto|].
  destruct (negb (Symbol.IsUsedInRegularObj Sym)); [eauto|].
  assert (Hkind : Symbol.isFunctionSymbol Sym = true \/
                  Symbol.isFunctionSymbol Sym = false /\ Symbol.isGlobalSymbol Sym = true).
  { unfold Symbol.isUndefined, Symbol.isDataSymbol, Symbol.isFunctionSymbol,
      Symbol.isGlobalSymbol in *.
    destruct (Symbol.SymbolKind Sym); simpl in *; try discriminate; auto. }
  destruct Hkind as [-> | [-> ->]].
  - unfold setFunctionIndex, getSym.
    destruct s as [nd cfg st ws er w]; destruct st, w; simpl in *. rewrite HSym. simpl.
    eexists; split; [reflexivity|]. simpl. apply length_insert.
  - unfold setGlobalIndex, getSym.
    destruct s as [nd cfg st ws er w]; destruct st, w; simpl in *. rewrite HSym. simpl.
    eexists; split; [reflexivity|]. simpl. apply length_insert.
Qed.

Lemma calculateImports_loop_total (l : list SymPtr) :
  forall s, Forall (fun p => is_Some (SymbolTable.Symbols (Symtab s) !! p)) l ->
            exists s', forEach calculateImports_body l s = Done s'.
Proof.
  induction l as [|p l IH]; intros s Hall; [eexists; reflexivity|].
  apply Forall_cons in Hall as [Hp Hall].
  destruct (calculateImports_body_total p s Hp) as (s1 & Hs1 & Hlen).
  rewrite forEach_cons, Hs1, bind_Done_l. apply IH.
  eapply Forall_impl; [exact Hall|]. intros q Hq. simpl in *.
  apply lookup_lt_is_Some. rewrite Hlen. apply lookup_lt_is_Some. assumption.
Qed.

(** C2: over a symbol table whose pointers are valid and distinct (and
    fewer than 2^32), with a fresh writer, [calculateImports] returns, and
    [ImportedSymbols] is exactly the list of the symbols that are undefined,
    live, used in a regular object, not data symbols and (not weak or the
    output relocatable), in the order of the symbol table; every one of them
    is a function or a global symbol; the k-th function import has function
    index k, the k-th global import has global index k, and the two counters
    are the numbers of function and of global imports. *)
Theorem calculateImports_selects (s : State) :
  let symbols := SymbolTable.SymVector (Symtab s) in
  let imps := filter (fun p => sym_is (is_import (Cfg s)) s p) symbols in
  let fimps := filter (fun p => sym_is Symbol.isFunctionSymbol s p) imps in
  let gimps := filter (fun p => sym_is Symbol.isGlobalSymbol s p) imps in
  NoDup symbols ->
  Forall (fun p => is_Some (SymbolTable.Symbols (Symtab s) !! p)) symbols ->
  Z.of_nat (length symbols) < 2 ^ 32 ->
  Writer.ImportedSymbols (W s) = [] ->
  Writer.NumImportedFunctions (W s) = 0 ->
  Writer.NumImportedGlobals (W s) = 0 ->
  exists s',
    calculateImports s = Done s' /\
    Writer.ImportedSymbols (W s') = imps /\
    (forall p, In p imps ->
       sym_is Symbol.isFunctionSymbol s p = true \/ sym_is Symbol.isGlobalSymbol s p = true) /\
    (forall (k : nat) p, fimps !! k = Some p ->
       exists sym, SymbolTable.Symbols (Symtab s') !! p = Some sym /\
                   Symbol.FunctionIndex sym = Some (Z.of_nat k)) /\
    (forall (k : nat) p, gimps !! k = Some p ->
       exists sym, SymbolTable.Symbols (Symtab s') !! p = Some sym /\
                   Symbol.GlobalIndex sym = Some (Z.of_nat k)) /\
    Writer.NumImportedFunctions (W s') = Z.of_nat (length fimps) /\
    Writer.NumImportedGlobals (W s') = Z.of_nat (length gimps).
Proof.
  intros symbols imps fimps gimps Hnd Hvalid Hlen His Hnf Hng.
  destruct (calculateImports_loop_total symbols s Hvalid) as [s' Hrun].
  exists s'. split; [exact Hrun|].
  destruct (calculateImports_loop symbols s s' Hnd) as (I1 & I2 & I3 & I4 & I5 & I6 & I7 & I8);
    [lia | lia | lia | lia | exact Hrun |].
  cbv zeta in *. rewrite His, Hnf, Hng in *. simpl in I4, I5, I6.
  split; [exact I4|]. split.
  { intros p Hp. apply list_elem_of_In, list_elem_of_filter in Hp as [Hp _].
    unfold sym_is, is_import in *.
    destruct (SymbolTable.Symbols (Symtab s) !! p) as [sym|]; [|destruct Hp].
    unfold Symbol.isUndefined, Symbol.isDataSymbol, Symbol.isFunctionSymbol,
      Symbol.isGlobalSymbol in *.
    destruct (Symbol.SymbolKind sym); simpl in *; auto;
      rewrite ?andb_false_r in Hp; destruct Hp. }
  split; [intros k p Hk; destruct (I7 k p Hk) as (sym & ? & ?); eauto|].
  split; [intros k p Hk; destruct (I8 k p Hk) as (sym & ? & ?); eauto|].
  split; assumption.
Qed.

Lemma calculateImports_selects_witness :
  Writer.ImportedSymbols (W ExampleImports.imported) = [0; 2; 5]%nat /\
  Writer.NumImportedFunctions (W ExampleImports.imported) = 2 /\
  Writer.NumImportedGlobals (W ExampleImports.imported) = 1.
Proof.
  destruct (calculateImports_selects ExampleImports.state)
    as (s' & Hrun & His & _ & _ & _ & Hnf & Hng).
  - apply (NoDup_seq 0 7).
  - repeat constructor; eexists; reflexivity.
  - vm_compute. reflexivity.
  - reflexivity.
  - reflexivity.
  - reflexivity.
  - unfold ExampleImports.imported. rewrite Hrun. rewrite His, Hnf, Hng.
    vm_compute. auto.
Defined.

(** ** Init functions *)

Section StableSortFacts.
Context {A : Type} (key : A -> Z).
Let lt (x y : A) : bool := key x <? key y.

Lemma stable_insert_perm (x : A) (l : list A) : Permutation (stable_insert lt x l) (x :: l).
Proof.
  induction l as [|y l IH]; simpl; [reflexivity|].
  destruct (lt y x); [|reflexivity].
  rewrite IH. apply perm_swap.
Qed.

Lemma stable_sort_perm (l : list A) : Permutation (stable_sort lt l) l.
Proof.
  induction l as [|x l IH]; simpl; [reflexivity|].
  rewrite stable_insert_perm. constructor. exact IH.
Qed.

Lemma stable_insert_sorted (x : A) (l : list A) :
  StronglySorted (fun a b => key a <= key b) l ->
  StronglySorted (fun a b => key a <= key b) (stable_insert lt x l).
Proof.
  induction l as [|y l IH]; intros Hs; simpl.
  - repeat constructor.
  - apply StronglySorted_inv in Hs as [Hs Hy]. unfold lt at 1.
    destruct (key y <? key x) eqn:E.
    + apply Z.ltb_lt in E. constructor; [auto|].
      rewrite Forall_forall in *. intros z Hz.
      rewrite stable_insert_perm in Hz. apply elem_of_cons in Hz as [-> | Hz]; [lia | auto].
    + apply Z.ltb_ge in E. constructor; [constructor; assumption|].
      constructor; [assumption|].
      rewrite Forall_forall in *. intros z Hz. specialize (Hy z Hz). lia.
Qed.

Lemma stable_sort_sorted (l : list A) :
  StronglySorted (fun a b => key a <= key b) (stable_sort lt l).
Proof.
  induction l as [|x l IH]; simpl; [constructor | apply stable_insert_sorted; exact IH].
Qed.

Lemma stable_insert_stable (k : Z) (x : A) (l : list A) :
  filter (fun a => key a = k) (stable_insert lt x l) = filter (fun a => key a = k) (x :: l).
Proof.
  induction l as [|y l IH]; simpl; [reflexivity|]. unfold lt at 1.
  destruct (key y <? key x) eqn:E; [|reflexivity].
  apply Z.ltb_lt in E. rewrite (filter_cons _ y), IH, !filter_cons.
  destruct (decide (key y = k)), (decide (key x = k)); try reflexivity. lia.
Qed.

Lemma stable_sort_stable (k : Z) (l : list A) :
  filter (fun a => key a = k) (stable_sort lt l) = filter (fun a => key a = k) l.
Proof.
  induction l as [|x l IH]; simpl; [reflexivity|].
  rewrite stable_insert_stable, !filter_cons, IH. reflexivity.
Qed.

End StableSortFacts.

Lemma getFunctionSymbol_Symtab File i s s1 :
  Symtab s1 = Symtab s -> getFunctionSymbol File i s1 = getFunctionSymbol File i s.
Proof. intros E. unfold getFunctionSymbol, getSym. rewrite E. reflexivity. Qed.

Lemma init_errors_Symtab s s1 l : Symtab s1 = Symtab s -> init_errors s1 l = init_errors s l.
Proof.
  intros E. unfold init_errors, bad_init_signature, init_error_message, sym_is.
  rewrite E. reflexivity.
Qed.

Lemma init_errors_app s l1 l2 : init_errors s (l1 ++ l2) = init_errors s l1 ++ init_errors s l2.
Proof. unfold init_errors. apply flat_map_app. Qed.

(** One init function: its entry is appended, and an error is reported when
    its signature is not [() -> ()]. *)
Lemma calculateInitFunctions_entry_spec File F s s1 :
  calculateInitFunctions_entry File F s = Done s1 ->
  Symtab s1 = Symtab s /\
  exists e, init_entry_of s (File, F) e /\
            Writer.InitFunctions (W s1) = Writer.InitFunctions (W s) ++ [e] /\
            Errors s1 = Errors s ++ init_errors s [e].
Proof.
  unfold calculateInitFunctions_entry. intros H.
  inv_bind H as p Hp. inv_bind H as sym Hsym. inv_bind H as Sig HSig. inv_Done.
  unfold getSym in Hsym. inv_Done.
  split; [destruct (bool_decide _); destruct s as [nd cfg st ws er w]; destruct w; reflexivity|].
  exists (mkInitEntry p (IPriority F)). split; [split; [exact Hp | reflexivity]|].
  unfold init_errors, bad_init_signature, init_error_message, sym_is. simpl.
  rewrite Hsym, HSig.
  assert (E : bool_decide (Some Sig <> Some voidSignature) = bool_decide (Sig <> voidSignature)).
  { apply bool_decide_ext. split; intros H ?; apply H; congruence. }
  rewrite E.
  destruct (bool_decide (Sig <> voidSignature));
    destruct s as [nd cfg st ws er w]; destruct w; simpl; rewrite ?app_nil_r; split; reflexivity.
Qed.

Lemma calculateInitFunctions_file_spec File (l : list WasmInitFunc) :
  forall s s',
    forEach (calculateInitFunctions_entry File) l s = Done s' ->
    Symtab s' = Symtab s /\
    exists es, Forall2 (init_entry_of s) (map (pair File) l) es /\
               Writer.InitFunctions (W s') = Writer.InitFunctions (W s) ++ es /\
               Errors s' = Errors s ++ init_errors s es.
Proof.
  induction l as [|F l IH]; intros s s' Hrun.
  - rewrite forEach_nil in Hrun. inv_Done. split; [reflexivity|].
    exists []. rewrite !app_nil_r. repeat split. constructor.
  - rewrite forEach_cons in Hrun. inv_bind Hrun as s1 H1.
    destruct (calculateInitFunctions_entry_spec _ _ _ _ H1) as (E1 & e & He & Hi & Her).
    destruct (IH _ _ Hrun) as (E2 & es & Hes & His & Hers).
    split; [congruence|]. exists (e :: es). split; [|split].
    + simpl. constructor; [exact He|].
      eapply Forall2_impl; [exact Hes|]. intros [F' f'] e' [Ha Hb].
      split; [|exact Hb]. simpl in *. rewrite <- Ha. symmetry.
      apply getFunctionSymbol_Symtab. exact E1.
    + rewrite His, Hi, <- app_assoc. reflexivity.
    + rewrite Hers, Her, (init_errors_Symtab s s1) by exact E1.
      rewrite <- app_assoc, <- init_errors_app. reflexivity.
Qed.

Lemma calculateInitFunctions_files_spec (files : list ObjFile.t) :
  forall s s',
    forEach calculateInitFunctions_file files s = Done s' ->
    Symtab s' = Symtab s /\
    exists es,
      Forall2 (init_entry_of s)
        (flat_map (fun File => map (pair File) (ObjFile.InitFunctions File)) files) es /\
      Writer.InitFunctions (W s') = Writer.InitFunctions (W s) ++ es /\
      Errors s' = Errors s ++ init_errors s es.
Proof.
  induction files as [|File files IH]; intros s s' Hrun.
  - rewrite forEach_nil in Hrun. inv_Done. split; [reflexivity|].
    exists []. rewrite !app_nil_r. repeat split. constructor.
  - rewrite forEach_cons in Hrun. inv_bind Hrun as s1 H1.
    destruct (calculateInitFunctions_file_spec _ _ _ _ H1) as (E1 & es1 & He & Hi & Her).
    destruct (IH _ _ Hrun) as (E2 & es & Hes & His & Hers).
    split; [congruence|]. exists (es1 ++ es). split; [|split].
    + simpl. apply Forall2_app; [exact He|].
      eapply Forall2_impl; [exact Hes|]. intros [F' f'] e' [Ha Hb].
      split; [|exact Hb]. simpl in *. rewrite <- Ha. symmetry.
      apply getFunctionSymbol_Symtab. exact E1.
    + rewrite His, Hi, <- app_assoc. reflexivity.
    + rewrite Hers, Her, (init_errors_Symtab s s1) by exact E1.
      rewrite <- app_assoc, <- init_errors_app. reflexivity.
Qed.

(** The calls written for the init entries are the calls of their function
    indices. *)
Lemma ctorCalls_spec (l : list WasmInitEntry) (s : State) (calls : list Z) :
  ctorCalls l s = Done calls ->
  exists idxs, Forall2 (fun e i => getFunctionIndex (Sym e) s = Done i) l idxs /\
               calls = callsOf idxs.
Proof.
  revert calls. induction l as [|e l IH]; intros calls H; simpl in H.
  - inv_Done. exists []. split; [constructor | reflexivity].
  - inv_bind H as i Hi. inv_bind H as rest Hrest. inv_Done.
    destruct (IH _ Hrest) as (idxs & Hall & ->).
    exists (i :: idxs). split; [constructor; assumption | reflexivity].
Qed.

(** Conversely, the loop returns when every init function has a function
    index. *)
Lemma ctorCalls_total (l : list WasmInitEntry) (s : State) (idxs : list Z) :
  Forall2 (fun e i => getFunctionIndex (Sym e) s = Done i) l idxs ->
  ctorCalls l s = Done (callsOf idxs).
Proof.
  induction 1 as [|e i l idxs Hi _ IH]; simpl; [reflexivity|].
  rewrite Hi. simpl. rewrite IH. reflexivity.
Qed.

Lemma putFunc_Body fp f s :
  (fp < length (SymbolTable.Functions (Symtab s)))%nat ->
  SymbolTable.Functions (Symtab (putFunc fp f s)) !! fp = Some f /\
  (forall fq, fq <> fp ->
     SymbolTable.Functions (Symtab (putFunc fp f s)) !! fq
     = SymbolTable.Functions (Symtab s) !! fq) /\
  SymbolTable.Symbols (Symtab (putFunc fp f s)) = SymbolTable.Symbols (Symtab s) /\
  W (putFunc fp f s) = W s /\ Errors (putFunc fp f s) = Errors s.
Proof.
  intros Hlt. destruct s as [nd cfg st ws er w]; destruct st; simpl in *.
  split; [apply list_lookup_insert_eq; exact Hlt|].
  split; [intros fq Hne; apply list_lookup_insert_ne; auto|]. repeat split.
Qed.

Lemma setBody_proj b f :
  InputFunction.Body (InputFunction.setBody b f) = b /\
  InputFunction.Name (InputFunction.setBody b f) = InputFunction.Name f /\
  InputFunction.Live (InputFunction.setBody b f) = InputFunction.Live f /\
  InputFunction.Signature (InputFunction.setBody b f) = InputFunction.Signature f /\
  InputFunction.FunctionIndex (InputFunction.setBody b f) = InputFunction.FunctionIndex f.
Proof. destruct f; repeat split. Qed.

(** C6: [calculateInitFunctions] collects one entry per init function, in
    file order, reports one error for each entry whose signature is not
    [() -> ()], and leaves [InitFunctions] as the stable sort of the
    collected entries by ascending priority: a permutation, sorted, with the
    entries of equal priority in their input order. [createCtorFunction]
    then returns exactly when every init function has a function index and
    [WasmSym::CallCtors] is a symbol with an input function; it changes
    nothing but the body of that function, which becomes the length of the
    content followed by the content: a ULEB 0 for the locals, one [call]
    with the function index of each init function in that sorted order, and
    one [END]. *)
Theorem init_functions_sorted_and_called (s s' : State) :
  Writer.InitFunctions (W s) = [] ->
  calculateInitFunctions s = Done s' ->
  exists collected,
    Forall2 (init_entry_of s) (initFuncsOf s) collected /\
    Errors s' = Errors s ++ init_errors s collected /\
    Permutation (Writer.InitFunctions (W s')) collected /\
    StronglySorted priority_le (Writer.InitFunctions (W s')) /\
    (forall k, filter (fun e => Priority e = k) (Writer.InitFunctions (W s'))
               = filter (fun e => Priority e = k) collected) /\
    Symtab s' = Symtab s /\
    (forall FunctionBody, ctorFunctionBody s' = Done FunctionBody ->
       exists idxs,
         Forall2 (fun e i => getFunctionIndex (Sym e) s' = Done i)
                 (Writer.InitFunctions (W s')) idxs /\
         let BodyContent := writeUleb128 0 ++ callsOf idxs ++ [OPCODE_END] in
         FunctionBody = writeUleb128 (Z.of_nat (length BodyContent)) ++ BodyContent) /\
    (forall idxs p sym fp F,
       Forall2 (fun e i => getFunctionIndex (Sym e) s' = Done i)
               (Writer.InitFunctions (W s')) idxs ->
       WasmSym.CallCtors (WSym s') = Some p ->
       SymbolTable.Symbols (Symtab s') !! p = Some sym ->
       Symbol.Function sym = Some fp ->
       SymbolTable.Functions (Symtab s') !! fp = Some F ->
       let BodyContent := writeUleb128 0 ++ callsOf idxs ++ [OPCODE_END] in
       let FunctionBody := writeUleb128 (Z.of_nat (length BodyContent)) ++ BodyContent in
       createCtorFunction s' = Done (putFunc fp (InputFunction.setBody FunctionBody F) s')) /\
    (forall s'',
       createCtorFunction s' = Done s'' ->
       exists idxs p sym fp F,
         Forall2 (fun e i => getFunctionIndex (Sym e) s' = Done i)
                 (Writer.InitFunctions (W s')) idxs /\
         WasmSym.CallCtors (WSym s') = Some p /\
         SymbolTable.Symbols (Symtab s') !! p = Some sym /\
         Symbol.Function sym = Some fp /\
         SymbolTable.Functions (Symtab s') !! fp = Some F /\
         let BodyContent := writeUleb128 0 ++ callsOf idxs ++ [OPCODE_END] in
         let FunctionBody := writeUleb128 (Z.of_nat (length BodyContent)) ++ BodyContent in
         s'' = putFunc fp (InputFunction.setBody FunctionBody F) s' /\
         InputFunction.Body <$> SymbolTable.Functions (Symtab s'') !! fp = Some FunctionBody /\
         (forall fq, fq <> fp ->
            SymbolTable.Functions (Symtab s'') !! fq = SymbolTable.Functions (Symtab s') !! fq) /\
         SymbolTable.Symbols (Symtab s'') = SymbolTable.Symbols (Symtab s') /\
         W s'' = W s' /\ Errors s'' = Errors s').
Proof.
  intros Hfresh Hrun. unfold calculateInitFunctions in Hrun.
  inv_bind Hrun as s1 H1. inv_Done.
  destruct (calculateInitFunctions_files_spec _ _ _ H1) as (E1 & es & Hes & His & Her).
  rewrite Hfresh in His. simpl in His.
  exists es. split; [exact Hes|].
  assert (HW : Writer.InitFunctions
                 (W (withW (Writer.withInitFunctions
                              (stable_sort priority_lt (Writer.InitFunctions (W s1))) (W s1)) s1))
               = stable_sort priority_lt es).
  { rewrite His. destruct s1 as [nd cfg st ws er w]; destruct w; reflexivity. }
  assert (HE : Errors (withW (Writer.withInitFunctions
                              (stable_sort priority_lt (Writer.InitFunctions (W s1))) (W s1)) s1)
               = Errors s1)
    by (destruct s1 as [nd cfg st ws er w]; reflexivity).
  assert (HS : Symtab (withW (Writer.withInitFunctions
                              (stable_sort priority_lt (Writer.InitFunctions (W s1))) (W s1)) s1)
               = Symtab s1)
    by (destruct s1 as [nd cfg st ws er w]; reflexivity).
  set (s' := withW _ s1) in *. clearbody s'.
  rewrite HW, HE, HS.
  split; [exact Her|].
  split; [apply (stable_sort_perm Priority)|].
  split; [apply (stable_sort_sorted Priority)|].
  split; [intros k; apply (stable_sort_stable Priority)|].
  split; [exact E1|].
  split; [|split].
  - intros FunctionBody Hbody. unfold ctorFunctionBody in Hbody.
    inv_bind Hbody as calls Hcalls. inv_Done.
    rewrite HW in Hcalls.
    destruct (ctorCalls_spec _ _ _ Hcalls) as (idxs & Hall & ->).
    exists idxs. split; [exact Hall | reflexivity].
  - intros idxs p sym fp F Hall Hp Hsym Hfp HF BodyContent FunctionBody.
    unfold createCtorFunction, ctorFunctionBody. rewrite HW.
    rewrite (ctorCalls_total _ _ _ Hall). simpl.
    unfold setSyntheticBody, getSym, getFunc. rewrite Hp. simpl.
    rewrite HS, Hsym. simpl. rewrite Hfp. simpl. rewrite HF. reflexivity.
  - intros s'' Hctor. unfold createCtorFunction in Hctor.
    inv_bind Hctor as body Hbody. unfold ctorFunctionBody in Hbody. rewrite HW in Hbody.
    inv_bind Hbody as calls Hcalls.
    destruct (ctorCalls_spec _ _ _ Hcalls) as (idxs & Hall & ->).
    injection Hbody as <-.
    unfold setSyntheticBody, getSym, getFunc in Hctor.
    inv_bind Hctor as p Hp. apply deref_Done in Hp.
    inv_bind Hctor as sym Hsym. apply deref_Done in Hsym.
    inv_bind Hctor as fp Hfp. apply deref_Done in Hfp.
    inv_bind Hctor as F HF. apply deref_Done in HF.
    injection Hctor as <-.
    exists idxs, p, sym, fp, F. rewrite <- HS, <- HE.
    split; [exact Hall|]. split; [exact Hp|]. split; [exact Hsym|]. split; [exact Hfp|].
    split; [exact HF|]. intros BodyContent FunctionBody.
    split; [reflexivity|].
    apply lookup_lt_Some in HF as Hlt.
    destruct (putFunc_Body fp (InputFunction.setBody FunctionBody F) s' Hlt)
      as (Hat & Hother & Hsyms & HWs & HEs).
    split; [|split; [exact Hother|split; [exact Hsyms|split; [exact HWs | exact HEs]]]].
    etransitivity; [exact (f_equal (fmap InputFunction.Body) Hat)|].
    simpl. f_equal. apply setBody_proj.
Qed.

Lemma init_functions_sorted_and_called_witness :
  map Priority (Writer.InitFunctions (W ExampleInit.collected)) = [7; 100; 100; 65535] /\
  map Sym (Writer.InitFunctions (W ExampleInit.collected)) = [3; 1; 2; 0]%nat /\
  Errors ExampleInit.collected = ["invalid signature for init func: ctor_c"] /\
  ctorFunctionBody ExampleInit.collected = Done [10; 0; 16; 4; 16; 2; 16; 3; 16; 1; 11] /\
  exists s'', createCtorFunction ExampleInit.collected = Done s'' /\
              InputFunction.Body <$> SymbolTable.Functions (Symtab s'')
              = [[]; []; []; []; [10; 0; 16; 4; 16; 2; 16; 3; 16; 1; 11]].
Proof.
  destruct (init_functions_sorted_and_called ExampleInit.state ExampleInit.collected)
    as (collected & _ & _ & _ & Hsorted & _ & _ & _ & Hctor & _).
  - reflexivity.
  - vm_compute. reflexivity.
  - clear Hsorted.
    split; [vm_compute; reflexivity|]. split; [vm_compute; reflexivity|].
    split; [vm_compute; reflexivity|]. split; [vm_compute; reflexivity|].
    eexists. split.
    + apply (Hctor [4; 2; 3; 1] 4%nat
               (ExampleInit.definedFunction "__wasm_call_ctors" voidSignature 4%nat) 4%nat
               (Example.inputFunction "__wasm_call_ctors" (Some 0))).
      * repeat constructor.
      * reflexivity.
      * reflexivity.
      * reflexivity.
      * reflexivity.
    + vm_compute. reflexivity.
Defined.

(** ** Exports *)

Lemma exports_frame_refl s : exports_frame s s.
Proof. repeat split. Qed.

Lemma exports_frame_trans s1 s2 s3 :
  exports_frame s1 s2 -> exports_frame s2 s3 -> exports_frame s1 s3.
Proof. unfold exports_frame. intuition congruence. Qed.

Lemma exports_frame_push e s : exports_frame s (pushExport e s).
Proof. destruct s as [nd cfg st ws er w]; destruct w; repeat split. Qed.

Lemma exports_frame_fake p s : exports_frame s (pushDefinedFakeGlobal p s).
Proof. destruct s as [nd cfg st ws er w]; destruct w; repeat split. Qed.

Lemma Exports_push e s : Writer.Exports (W (pushExport e s)) = Writer.Exports (W s) ++ [e].
Proof. destruct s as [nd cfg st ws er w]; destruct w; reflexivity. Qed.

Lemma Exports_fake p s : Writer.Exports (W (pushDefinedFakeGlobal p s)) = Writer.Exports (W s).
Proof. destruct s as [nd cfg st ws er w]; destruct w; reflexivity. Qed.

Lemma getGlobalIndex_frame p s s1 :
  exports_frame s s1 -> getGlobalIndex p s1 = getGlobalIndex p s.
Proof.
  intros (_ & _ & E & _). unfold getGlobalIndex, getSym, getGlob. rewrite E. reflexivity.
Qed.

Lemma getFunctionIndex_frame p s s1 :
  exports_frame s s1 -> getFunctionIndex p s1 = getFunctionIndex p s.
Proof.
  intros (_ & _ & E & _). unfold getFunctionIndex, getSym, getFunc. rewrite E. reflexivity.
Qed.

Lemma exportable_global_frame m p s s1 :
  exports_frame s s1 -> exportable_global m s1 p -> exportable_global m s p.
Proof.
  intros (_ & Ec & E & _). unfold exportable_global. rewrite Ec, E. auto.
Qed.

Lemma export_of_frame p e s s1 : exports_frame s s1 -> export_of s1 p e -> export_of s p e.
Proof.
  intros Hf (sym & Hp & Hx & Hn & Hk). pose proof Hf as (_ & Ec & E & _).
  exists sym. rewrite <- E, <- Ec. repeat (split; [assumption|]).
  destruct (Symbol.SymbolKind sym); try assumption.
  - destruct Hk as [? Hk]. split; [assumption|].
    rewrite <- (getFunctionIndex_frame p s s1 Hf). assumption.
  - destruct Hk as (? & Hg & Hk). split; [assumption|]. split.
    + eapply exportable_global_frame; eassumption.
    + rewrite <- (getGlobalIndex_frame p s s1 Hf). assumption.
Qed.

Lemma calculateExports_body_skip p fake s Sym :
  SymbolTable.Symbols (Symtab s) !! p = Some Sym ->
  exportable (Cfg s) Sym = false ->
  calculateExports_body p (fake, s) = Done (fake, s).
Proof.
  intros HSym Hx. unfold calculateExports_body, getSym, exportable in *.
  rewrite HSym. simpl.
  destruct (Symbol.isDefined Sym), (Symbol.isHidden Sym), (Config.ExportAll (Cfg s)),
    (Symbol.isLocal Sym), (Symbol.isLive Sym); cbn [negb andb] in *;
    try reflexivity; discriminate.
Qed.

Lemma calculateExports_body_export p fake s Sym :
  SymbolTable.Symbols (Symtab s) !! p = Some Sym ->
  exportable (Cfg s) Sym = true ->
  calculateExports_body p (fake, s) =
    match Symbol.SymbolKind Sym with
    | Symbol.DefinedFunctionKind =>
        i ← getFunctionIndex p s;
        Done (fake, pushExport (mkExport (Symbol.Name Sym) WASM_EXTERNAL_FUNCTION i) s)
    | Symbol.DefinedGlobalKind =>
        G ← deref (Symbol.GlobalType Sym);
        if Mutable G then
          _ ← assert_ (bool_decide (Some p = WasmSym.StackPointer (WSym s))) s;
          Done (fake, s)
        else
          i ← getGlobalIndex p s;
          Done (fake, pushExport (mkExport (Symbol.Name Sym) WASM_EXTERNAL_GLOBAL i) s)
    | Symbol.DefinedDataKind =>
        Done (wrap32 (fake + 1),
              pushExport (mkExport (Symbol.Name Sym) WASM_EXTERNAL_GLOBAL fake)
                (pushDefinedFakeGlobal p s))
    | _ => Undefined
    end.
Proof.
  intros HSym Hx. unfold calculateExports_body, getSym, exportable in *.
  rewrite HSym. simpl.
  destruct (Symbol.isDefined Sym), (Symbol.isHidden Sym), (Config.ExportAll (Cfg s)),
    (Symbol.isLocal Sym), (Symbol.isLive Sym); cbn [negb andb] in *;
    try reflexivity; discriminate.
Qed.

(** The body of the loop on the symbol [p]: nothing is reported; the new
    entries are entries of [p]; a global that is not mutable gets its entry,
    a mutable one gets none. *)
Lemma calculateExports_body_spec p fake s fake' s1 :
  calculateExports_body p (fake, s) = Done (fake', s1) ->
  exports_frame s s1 /\
  exists new,
    Writer.Exports (W s1) = Writer.Exports (W s) ++ new /\
    Forall (export_of s p) new /\
    (exportable_global false s p ->
       exists i sym, getGlobalIndex p s = Done i /\
                     SymbolTable.Symbols (Symtab s) !! p = Some sym /\
                     In (mkExport (Symbol.Name sym) WASM_EXTERNAL_GLOBAL i) new) /\
    (exportable_global true s p -> new = []).
Proof.
  intros H.
  assert (HSym : exists Sym, SymbolTable.Symbols (Symtab s) !! p = Some Sym).
  { unfold calculateExports_body, getSym in H. inv_bind H as Sym HSym. inv_Done. eauto. }
  destruct HSym as [Sym HSym].
  assert (Hglob : forall m, exportable_global m s p ->
            exportable (Cfg s) Sym = true /\
            Symbol.SymbolKind Sym = Symbol.DefinedGlobalKind /\
            exists G, Symbol.GlobalType Sym = Some G /\ Mutable G = m).
  { intros m (sym & G & Hs & Hx & Hk & HG & Hm).
    assert (sym = Sym) as -> by congruence. eauto. }
  destruct (exportable (Cfg s) Sym) eqn:Hx.
  - rewrite (calculateExports_body_export _ _ _ _ HSym Hx) in H.
    destruct (Symbol.SymbolKind Sym) eqn:Hk; try discriminate.
    + (* function *)
      inv_bind H as i Hi. inv_Done. split; [apply exports_frame_push|].
      exists [mkExport (Symbol.Name Sym) WASM_EXTERNAL_FUNCTION i].
      split; [apply Exports_push|]. split.
      * constructor; [|constructor]. exists Sym. rewrite Hk. auto.
      * split; intros Hg; destruct (Hglob _ Hg) as (_ & ? & _); congruence.
    + (* data *)
      inv_Done. split.
      { eapply exports_frame_trans; [apply exports_frame_fake | apply exports_frame_push]. }
      exists [mkExport (Symbol.Name Sym) WASM_EXTERNAL_GLOBAL fake].
      split; [rewrite Exports_push, Exports_fake; reflexivity|]. split.
      * constructor; [|constructor]. exists Sym. rewrite Hk. auto.
      * split; intros Hg; destruct (Hglob _ Hg) as (_ & ? & _); congruence.
    + (* global *)
      inv_bind H as G HG. inv_Done. destruct (Mutable G) eqn:Hm.
      * inv_bind H as u Hu. inv_Done. split; [apply exports_frame_refl|].
        exists []. rewrite app_nil_r. split; [reflexivity|]. split; [constructor|].
        split; [|reflexivity].
        intros Hg. destruct (Hglob _ Hg) as (_ & _ & G' & HG' & Hm'). congruence.
      * inv_bind H as i Hi. inv_Done. split; [apply exports_frame_push|].
        exists [mkExport (Symbol.Name Sym) WASM_EXTERNAL_GLOBAL i].
        split; [apply Exports_push|]. split; [|split].
        -- constructor; [|constructor]. exists Sym. rewrite Hk.
           split; [assumption|]. split; [assumption|]. split; [reflexivity|].
           split; [reflexivity|]. split; [|assumption].
           exists Sym, G. auto.
        -- intros _. exists i, Sym. split; [assumption|]. split; [assumption|].
           left; reflexivity.
        -- intros Hg. destruct (Hglob _ Hg) as (_ & _ & G' & HG' & Hm'). congruence.
  - rewrite (calculateExports_body_skip _ _ _ _ HSym Hx) in H. inv_Done.
    split; [apply exports_frame_refl|].
    exists []. rewrite app_nil_r. split; [reflexivity|]. split; [constructor|].
    split; [|reflexivity].
    intros Hg. destruct (Hglob _ Hg) as (? & _). congruence.
Qed.

Lemma calculateExports_loop (l : list SymPtr) :
  forall fake s fake' s',
    forEach calculateExports_body l (fake, s) = Done (fake', s') ->
    exports_frame s s' /\
    exists new,
      Writer.Exports (W s') = Writer.Exports (W s) ++ new /\
      Forall (fun e => exists p, In p l /\ export_of s p e) new /\
      (forall p, In p l -> exportable_global false s p ->
         exists i sym, getGlobalIndex p s = Done i /\
                       SymbolTable.Symbols (Symtab s) !! p = Some sym /\
                       In (mkExport (Symbol.Name sym) WASM_EXTERNAL_GLOBAL i) new).
Proof.
  induction l as [|p l IH]; intros fake s fake' s' Hrun.
  - rewrite forEach_nil in Hrun. inv_Done. split; [apply exports_frame_refl|].
    exists []. rewrite app_nil_r. split; [reflexivity|]. split; [constructor|].
    intros ? [].
  - rewrite forEach_cons in Hrun. inv_bind Hrun as acc Hbody. destruct acc as [fake1 s1].
    destruct (calculateExports_body_spec _ _ _ _ _ Hbody) as (Hf1 & new1 & E1 & A1 & G1 & _).
    destruct (IH _ _ _ _ Hrun) as (Hf2 & new2 & E2 & A2 & G2).
    split; [eapply exports_frame_trans; eassumption|].
    exists (new1 ++ new2). split; [rewrite E2, E1, app_assoc; reflexivity|]. split.
    + apply Forall_app. split.
      * eapply Forall_impl; [exact A1|]. intros e He. exists p. split; [left; reflexivity|assumption].
      * eapply Forall_impl; [exact A2|]. intros e (q & Hq & He).
        exists q. split; [right; assumption|]. eapply export_of_frame; eassumption.
    + intros q [<- | Hq] Hg.
      * destruct (G1 Hg) as (i & sym & ? & ? & Hin). exists i, sym.
        repeat (split; [assumption|]). apply in_or_app. left; assumption.
      * assert (Hg1 : exportable_global false s1 q).
        { destruct Hf1 as (_ & Ec & E & _). unfold exportable_global in *.
          rewrite Ec, E. exact Hg. }
        destruct (G2 q Hq Hg1) as (i & sym & Hi & Hs & Hin). exists i, sym.
        rewrite (getGlobalIndex_frame q s s1 Hf1) in Hi.
        destruct Hf1 as (_ & _ & E & _). rewrite E in Hs.
        repeat (split; [assumption|]). apply in_or_app. right; assumption.
Qed.

(** C8, as stated, fails: [counter] is a defined, live, global symbol that
    is neither local nor hidden, it is mutable and it is not the stack
    pointer. With assertions compiled out [calculateExports] returns with an
    empty error sink and exports only the memory and [limit]; with
    assertions the run is aborted, and the error sink is not involved
    either. *)
Lemma mutable_global_not_reported :
  exportable_global true (ExampleExports.state true) 1%nat /\
  Some 1%nat <> WasmSym.StackPointer (WSym (ExampleExports.state true)) /\
  (exists s', calculateExports (ExampleExports.state true) = Done s' /\
              Errors s' = [] /\
              Writer.Exports (W s') =
                [mkExport "memory" WASM_EXTERNAL_MEMORY 0;
                 mkExport "limit" WASM_EXTERNAL_GLOBAL 2]) /\
  calculateExports (ExampleExports.state false) = Abort.
Proof.
  split; [|split; [|split]].
  - eexists _, _. repeat split; reflexivity.
  - discriminate.
  - eexists. split; [vm_compute; reflexivity|]. split; reflexivity.
  - vm_compute. reflexivity.
Qed.

(** C8 (amended): [calculateExports] reports nothing through the error
    sink. A defined, live symbol that is not local and not hidden (or
    everything is exported) and is a mutable global is skipped: the loop
    body only asserts that it is the stack pointer, which aborts a build
    with assertions and does nothing otherwise. Every entry the loop adds
    is the entry of a symbol of the table: a function with its function
    index, a global that is not mutable with its global index, or a data
    symbol as a fake global; and every global that is not mutable gets its
    entry. *)
Theorem calculateExports_globals (s s' : State) :
  calculateExports s = Done s' ->
  Errors s' = Errors s /\ Symtab s' = Symtab s /\
  (forall p fake, exportable_global true s p ->
     calculateExports_body p (fake, s) =
       if NDEBUG s || bool_decide (Some p = WasmSym.StackPointer (WSym s))
       then Done (fake, s) else Abort) /\
  exists fixed new,
    Writer.Exports (W s') = Writer.Exports (W s) ++ fixed ++ new /\
    Forall (fun e => EKind e = WASM_EXTERNAL_MEMORY \/ EKind e = WASM_EXTERNAL_TABLE) fixed /\
    Forall (fun e => exists p, In p (SymbolTable.SymVector (Symtab s)) /\ export_of s p e) new /\
    (Config.Relocatable (Cfg s) = false ->
     forall p, In p (SymbolTable.SymVector (Symtab s)) -> exportable_global false s p ->
       exists i sym, getGlobalIndex p s = Done i /\
                     SymbolTable.Symbols (Symtab s) !! p = Some sym /\
                     In (mkExport (Symbol.Name sym) WASM_EXTERNAL_GLOBAL i) new).
Proof.
  intros Hrun.
  assert (Hmut : forall p fake, exportable_global true s p ->
     calculateExports_body p (fake, s) =
       if NDEBUG s || bool_decide (Some p = WasmSym.StackPointer (WSym s))
       then Done (fake, s) else Abort).
  { intros p fake (sym & G & Hs & Hx & Hk & HG & Hm).
    rewrite (calculateExports_body_export _ _ _ _ Hs Hx), Hk, HG. simpl. rewrite Hm.
    unfold assert_. destruct (NDEBUG s || bool_decide _); reflexivity. }
  unfold calculateExports in Hrun.
  destruct (Config.Relocatable (Cfg s)) eqn:Hrel.
  - inv_Done. repeat (split; [auto|]). exists [], []. rewrite app_nil_r.
    split; [reflexivity|]. split; [constructor|]. split; [constructor|]. discriminate.
  - cbn [negb andb] in Hrun.
    set (s1 := if negb (Config.ImportMemory (Cfg s)) then _ else s) in *.
    set (s2 := if Config.ExportTable (Cfg s) then _ else s1) in *.
    inv_bind Hrun as acc Hloop. destruct acc as [fake' s3]. inv_Done.
    assert (H1 : exports_frame s s1 /\ exists f1, Writer.Exports (W s1) = Writer.Exports (W s) ++ f1 /\
                 Forall (fun e => EKind e = WASM_EXTERNAL_MEMORY \/ EKind e = WASM_EXTERNAL_TABLE) f1).
    { subst s1. destruct (negb (Config.ImportMemory (Cfg s))).
      - split; [apply exports_frame_push|]. eexists. split; [apply Exports_push|].
        constructor; [left; reflexivity | constructor].
      - split; [apply exports_frame_refl|]. exists []. rewrite app_nil_r.
        split; [reflexivity | constructor]. }
    destruct H1 as (F1 & f1 & E1 & K1).
    assert (H2 : exports_frame s1 s2 /\ exists f2, Writer.Exports (W s2) = Writer.Exports (W s1) ++ f2 /\
                 Forall (fun e => EKind e = WASM_EXTERNAL_MEMORY \/ EKind e = WASM_EXTERNAL_TABLE) f2).
    { subst s2. destruct (Config.ExportTable (Cfg s)).
      - split; [apply exports_frame_push|]. eexists. split; [apply Exports_push|].
        constructor; [right; reflexivity | constructor].
      - split; [apply exports_frame_refl|]. exists []. rewrite app_nil_r.
        split; [reflexivity | constructor]. }
    destruct H2 as (F2 & f2 & E2 & K2).
    clearbody s1 s2.
    pose proof (exports_frame_trans _ _ _ F1 F2) as F12.
    destruct (calculateExports_loop _ _ _ _ _ Hloop) as (F3 & new & E3 & A3 & G3).
    pose proof (exports_frame_trans _ _ _ F12 F3) as F.
    pose proof F12 as (_ & Ec & Es & _).
    split; [apply F|]. split; [apply F|]. split; [exact Hmut|].
    exists (f1 ++ f2), new. split; [rewrite E3, E2, E1, <- !app_assoc; reflexivity|].
    split; [apply Forall_app; split; assumption|]. split.
    + eapply Forall_impl; [exact A3|]. intros e (p & Hp & He). exists p.
      rewrite Es in Hp. split; [assumption|]. exact (export_of_frame p e s s2 F12 He).
    + intros _ p Hp Hg.
      assert (Hg2 : exportable_global false s2 p)
        by (unfold exportable_global in *; rewrite Ec, Es; exact Hg).
      rewrite <- Es in Hp.
      destruct (G3 p Hp Hg2) as (i & sym & Hi & Hs & Hin).
      rewrite (getGlobalIndex_frame p s s2 F12) in Hi. rewrite Es in Hs. eauto.
Qed.

Lemma calculateExports_globals_witness :
  Errors ExampleExports.exported = [] /\
  Writer.Exports (W ExampleExports.exported) =
    [mkExport "memory" WASM_EXTERNAL_MEMORY 0; mkExport "limit" WASM_EXTERNAL_GLOBAL 2].
Proof.
  destruct (calculateExports_globals (ExampleExports.state true) ExampleExports.exported)
    as (Herr & _).
  - vm_compute. reflexivity.
  - split; [exact Herr | vm_compute; reflexivity].
Defined.

(** ** The dispatcher as a function of the strings *)





Lemma notify_body_eq notif (seen : gset string) notify_handlers not_cnt :
  notify_body notif (seen, notify_handlers, not_cnt) =
  if bool_decide (notif ∈ seen) then Done (seen, notify_handlers, not_cnt)
  else if INT_MAX <=? not_cnt then Undefined
       else code_name ← Str.substr notif 0 (Str.find_colon notif);
            rest ← Str.substr_from notif (wrap64 (Str.find_colon notif + 2));
            Done ({[notif]} ∪ seen, NotifyMap.push_back code_name rest notify_handlers,
                  not_cnt + 1).
Proof. reflexivity. Qed.
















(** ** Table indices *)

Lemma lookup_key {A K} (key : A -> K) (l l' : list A) (p : nat) :
  key <$> l' = key <$> l -> key <$> (l' !! p) = key <$> (l !! p).
Proof. intros H. rewrite <- !list_lookup_fmap, H. reflexivity. Qed.

Lemma table_step_refl s : table_step s s.
Proof. repeat split; auto. Qed.

Lemma table_step_trans s1 s2 s3 : table_step s1 s2 -> table_step s2 s3 -> table_step s1 s3.
Proof.
  intros (A1 & A2 & A3 & A4) (B1 & B2 & B3 & B4).
  split; [congruence|]. split; [congruence|]. split; [congruence|]. auto.
Qed.

Lemma hasFunctionIndex_step p s s' :
  table_step s s' -> hasFunctionIndex p s' = hasFunctionIndex p s.
Proof.
  intros (_ & Hf & Hs & _). unfold hasFunctionIndex, getSym, getFunc.
  pose proof (lookup_key sym_key _ _ p Hs) as Hp.
  destruct (SymbolTable.Symbols (Symtab s') !! p) as [x'|],
           (SymbolTable.Symbols (Symtab s) !! p) as [x|]; simpl in Hp; try discriminate;
    [|reflexivity].
  injection Hp as Hk Hfn Hfi. simpl. rewrite Hk, Hfn, Hfi.
  destruct (Symbol.SymbolKind x); try reflexivity.
  destruct (Symbol.Function x) as [fp|]; [|reflexivity]. simpl.
  pose proof (lookup_key func_key _ _ fp Hf) as Hq.
  destruct (SymbolTable.Functions (Symtab s') !! fp) as [f'|],
           (SymbolTable.Functions (Symtab s) !! fp) as [f|]; simpl in Hq; try discriminate;
    [|reflexivity].
  injection Hq as _ _ Hi. simpl. rewrite Hi. reflexivity.
Qed.

Lemma getFunctionIndex_step p s s' :
  table_step s s' -> getFunctionIndex p s' = getFunctionIndex p s.
Proof.
  intros (_ & Hf & Hs & _). unfold getFunctionIndex, getSym, getFunc.
  pose proof (lookup_key sym_key _ _ p Hs) as Hp.
  destruct (SymbolTable.Symbols (Symtab s') !! p) as [x'|],
           (SymbolTable.Symbols (Symtab s) !! p) as [x|]; simpl in Hp; try discriminate;
    [|reflexivity].
  injection Hp as Hk Hfn Hfi. simpl. rewrite Hk, Hfn, Hfi.
  destruct (Symbol.SymbolKind x); try reflexivity.
  destruct (Symbol.Function x) as [fp|]; [|reflexivity]. simpl.
  pose proof (lookup_key func_key _ _ fp Hf) as Hq.
  destruct (SymbolTable.Functions (Symtab s') !! fp) as [f'|],
           (SymbolTable.Functions (Symtab s) !! fp) as [f|]; simpl in Hq; try discriminate;
    [|reflexivity].
  injection Hq as _ _ Hi. simpl. rewrite Hi. reflexivity.
Qed.

Lemma getFunctionSymbol_step F F' i s s' :
  file_key F' = file_key F -> table_step s s' ->
  getFunctionSymbol F' i s' = getFunctionSymbol F i s.
Proof.
  intros HF (_ & _ & Hs & _). unfold getFunctionSymbol, getSym.
  injection HF as _ _ _ Hsym _. rewrite Hsym.
  destruct (ObjFile.Symbols F !! Z.to_nat i) as [p|]; [|reflexivity]. simpl.
  pose proof (lookup_key sym_key _ _ p Hs) as Hp.
  destruct (SymbolTable.Symbols (Symtab s') !! p) as [x'|],
           (SymbolTable.Symbols (Symtab s) !! p) as [x|]; simpl in Hp; try discriminate;
    [|reflexivity].
  injection Hp as Hk _ _. simpl. unfold Symbol.isFunctionSymbol. rewrite Hk. reflexivity.
Qed.

(** A table index that can be read is one the symbol has. *)
Lemma hasTableIndex_of_get p s v : getTableIndex p s = Done v -> hasTableIndex p s = Done true.
Proof.
  unfold getTableIndex, hasTableIndex. intros H. inv_bind H as x Hx. rewrite Hx. simpl.
  destruct (Symbol.SymbolKind x); try discriminate.
  - inv_bind H as fp Hfp. inv_bind H as f Hf. rewrite Hfp. simpl. rewrite Hf. simpl.
    inv_Done. rewrite H. reflexivity.
  - inv_Done. rewrite H. reflexivity.
Qed.

Lemma getTableIndex_of_has p s : hasTableIndex p s = Done true -> exists v, getTableIndex p s = Done v.
Proof.
  unfold getTableIndex, hasTableIndex. intros H. inv_bind H as x Hx. rewrite Hx. simpl.
  destruct (Symbol.SymbolKind x); try discriminate.
  - inv_bind H as fp Hfp. inv_bind H as f Hf. rewrite Hfp. simpl. rewrite Hf. simpl.
    inv_Done. apply bool_decide_eq_true in H as [v Hv]. rewrite Hv. eauto.
  - inv_Done. apply bool_decide_eq_true in H as [v Hv]. rewrite Hv. eauto.
Qed.

Lemma getFunctionIndex_of_has p s :
  hasFunctionIndex p s = Done true -> exists v, getFunctionIndex p s = Done v.
Proof.
  unfold getFunctionIndex, hasFunctionIndex. intros H. inv_bind H as x Hx. rewrite Hx. simpl.
  destruct (Symbol.SymbolKind x); try discriminate.
  - inv_bind H as fp Hfp. inv_bind H as f Hf. rewrite Hfp. simpl. rewrite Hf. simpl.
    inv_Done. apply bool_decide_eq_true in H as [v Hv]. rewrite Hv. eauto.
  - inv_Done. apply bool_decide_eq_true in H as [v Hv]. rewrite Hv. eauto.
Qed.

Lemma putFunc_proj fp f s :
  SymbolTable.ObjectFiles (Symtab (putFunc fp f s)) = SymbolTable.ObjectFiles (Symtab s) /\
  SymbolTable.Symbols (Symtab (putFunc fp f s)) = SymbolTable.Symbols (Symtab s) /\
  SymbolTable.Functions (Symtab (putFunc fp f s)) = <[fp := f]> (SymbolTable.Functions (Symtab s)) /\
  W (putFunc fp f s) = W s.
Proof. destruct s as [nd cfg st ws er w]; destruct st; repeat split. Qed.

Lemma putSym_proj p x s :
  SymbolTable.ObjectFiles (Symtab (putSym p x s)) = SymbolTable.ObjectFiles (Symtab s) /\
  SymbolTable.Symbols (Symtab (putSym p x s)) = <[p := x]> (SymbolTable.Symbols (Symtab s)) /\
  SymbolTable.Functions (Symtab (putSym p x s)) = SymbolTable.Functions (Symtab s) /\
  W (putSym p x s) = W s.
Proof. destruct s as [nd cfg st ws er w]; destruct st; repeat split. Qed.

Lemma func_key_setTableIndex i f : func_key (InputFunction.setTableIndex i f) = func_key f.
Proof. destruct f; reflexivity. Qed.

Lemma sym_key_withTableIndex i x : sym_key (Symbol.withTableIndex i x) = sym_key x.
Proof. destruct x; reflexivity. Qed.

(** The assignment of a table index to a symbol that has none: the symbol
    reads the new index and no other table index changes. *)
Lemma setTableIndex_step p T s s1 :
  hasTableIndex p s = Done false ->
  setTableIndex p T s = Done s1 ->
  table_step s s1 /\ getTableIndex p s1 = Done T /\ W s1 = W s /\
  (forall q v, getTableIndex q s1 = Done v -> v = T \/ getTableIndex q s = Done v).
Proof.
  unfold hasTableIndex, setTableIndex. intros Hhas Hset.
  inv_bind Hset as x Hx. rewrite Hx in Hhas. simpl in Hhas.
  unfold getSym in Hx. inv_Done.
  destruct (Symbol.SymbolKind x) eqn:Hk; try discriminate.
  - (* a defined function: the slot of its input function *)
    inv_bind Hset as fp Hfp. inv_bind Hset as f Hf. inv_Done.
    rewrite Hfp in Hhas. simpl in Hhas. rewrite Hf in Hhas. simpl in Hhas.
    unfold getFunc in Hf. inv_Done. apply bool_decide_eq_false in Hhas.
    assert (Hnone : InputFunction.TableIndex f = None)
      by (destruct (InputFunction.TableIndex f); [exfalso; apply Hhas; eauto | reflexivity]).
    destruct (putFunc_proj fp (InputFunction.setTableIndex T f) s) as (Eo & Es & Ef & Ew).
    set (s1 := putFunc fp _ s) in *. clearbody s1.
    assert (Hlt : (fp < length (SymbolTable.Functions (Symtab s)))%nat)
      by (eapply lookup_lt_Some; eassumption).
    split; [|split; [|split; [exact Ew|]]].
    + split; [rewrite Eo; reflexivity|]. split.
      { rewrite Ef. eapply fmap_insert_same; [eassumption | apply func_key_setTableIndex]. }
      split; [rewrite Es; reflexivity|].
      intros q v Hq. unfold getTableIndex, getSym, getFunc in *. rewrite Es, Ef.
      inv_bind Hq as y Hy. rewrite Hy. simpl.
      destruct (Symbol.SymbolKind y); try discriminate; [|exact Hq].
      inv_bind Hq as fq Hfq. rewrite Hfq. simpl. inv_bind Hq as g Hg. inv_Done.
      destruct (decide (fq = fp)) as [-> | Hne].
      * assert (g = f) as -> by congruence. congruence.
      * rewrite list_lookup_insert_ne by auto. rewrite Hg. simpl. rewrite Hq. reflexivity.
    + unfold getTableIndex, getSym, getFunc. rewrite Es, Ef, Hx. simpl. rewrite Hk, Hfp. simpl.
      rewrite list_lookup_insert_eq by assumption. simpl. destruct f; reflexivity.
    + intros q v. unfold getTableIndex, getSym, getFunc. rewrite Es, Ef. intros Hq.
      inv_bind Hq as y Hy. rewrite Hy. simpl.
      destruct (Symbol.SymbolKind y); try discriminate; [|right; exact Hq].
      inv_bind Hq as fq Hfq. rewrite Hfq. simpl. inv_bind Hq as g Hg.
      destruct (decide (fq = fp)) as [-> | Hne].
      * rewrite list_lookup_insert_eq in Hg by assumption. inv_Done.
        injection Hg as <-. left. destruct f; simpl in Hq. congruence.
      * rewrite list_lookup_insert_ne in Hg by auto. right. rewrite Hg. exact Hq.
  - (* an undefined function: its own slot *)
    inv_Done. apply bool_decide_eq_false in Hhas.
    assert (Hnone : Symbol.TableIndex x = None)
      by (destruct (Symbol.TableIndex x); [exfalso; apply Hhas; eauto | reflexivity]).
    destruct (putSym_proj p (Symbol.withTableIndex T x) s) as (Eo & Es & Ef & Ew).
    set (s1 := putSym p _ s) in *. clearbody s1.
    assert (Hlt : (p < length (SymbolTable.Symbols (Symtab s)))%nat)
      by (eapply lookup_lt_Some; eassumption).
    split; [|split; [|split; [exact Ew|]]].
    + split; [rewrite Eo; reflexivity|]. split; [rewrite Ef; reflexivity|]. split.
      { rewrite Es. eapply fmap_insert_same; [eassumption | apply sym_key_withTableIndex]. }
      intros q v Hq. unfold getTableIndex, getSym, getFunc in *. rewrite Es, Ef.
      destruct (decide (q = p)) as [-> | Hne].
      * rewrite Hx in Hq. simpl in Hq. rewrite Hk, Hnone in Hq. discriminate Hq.
      * rewrite list_lookup_insert_ne by auto. exact Hq.
    + unfold getTableIndex, getSym. rewrite Es.
      rewrite list_lookup_insert_eq by assumption. simpl.
      destruct x; simpl in *. rewrite Hk. reflexivity.
    + intros q v. unfold getTableIndex, getSym, getFunc. rewrite Es, Ef.
      destruct (decide (q = p)) as [-> | Hne].
      * rewrite list_lookup_insert_eq by assumption. simpl.
        destruct x; simpl in *. rewrite Hk. simpl. left. congruence.
      * rewrite list_lookup_insert_ne by auto. auto.
Qed.

(** Two states with the same input functions and the same symbols read
    the same table indices. *)
Lemma getTableIndex_stores s s' p :
  SymbolTable.Functions (Symtab s') = SymbolTable.Functions (Symtab s) ->
  SymbolTable.Symbols (Symtab s') = SymbolTable.Symbols (Symtab s) ->
  getTableIndex p s' = getTableIndex p s.
Proof. intros Ef Es. unfold getTableIndex, getSym, getFunc. rewrite Es, Ef. reflexivity. Qed.

Lemma no_table_index_get s p v : no_table_index s -> getTableIndex p s <> Done v.
Proof.
  intros [HF HS] H. unfold getTableIndex, getSym, getFunc in H.
  inv_bind H as x Hx. inv_Done.
  destruct (Symbol.SymbolKind x); try discriminate.
  - inv_bind H as fp Hfp. inv_bind H as f Hf. inv_Done.
    rewrite Forall_lookup in HF. rewrite (HF _ _ Hf) in H. discriminate.
  - rewrite Forall_lookup in HS. rewrite (HS _ _ Hx) in H. discriminate.
Qed.

Lemma table_step_stores s s' :
  file_key <$> SymbolTable.ObjectFiles (Symtab s') = file_key <$> SymbolTable.ObjectFiles (Symtab s) ->
  SymbolTable.Functions (Symtab s') = SymbolTable.Functions (Symtab s) ->
  SymbolTable.Symbols (Symtab s') = SymbolTable.Symbols (Symtab s) ->
  table_step s s'.
Proof.
  intros Ho Ef Es. split; [exact Ho|]. split; [rewrite Ef; reflexivity|].
  split; [rewrite Es; reflexivity|].
  intros p v. unfold getTableIndex, getSym, getFunc. rewrite Es, Ef. auto.
Qed.

Lemma table_step_Symtab s s' : Symtab s' = Symtab s -> table_step s s'.
Proof. intros E. apply table_step_stores; rewrite E; reflexivity. Qed.

Lemma registerType_Symtab Sig s :
  Symtab (registerType Sig s).2 = Symtab s /\
  Writer.IndirectFunctions (W (registerType Sig s).2) = Writer.IndirectFunctions (W s).
Proof.
  unfold registerType. destruct (Writer.TypeIndices (W s) !! Sig); simpl; [auto|].
  destruct s as [nd cfg st ws er w]; destruct w; auto.
Qed.

Lemma file_key_withTypeMap m F : file_key (ObjFile.withTypeMap m F) = file_key F.
Proof. destruct F; reflexivity. Qed.

Lemma file_key_withTypeIsUsed m F : file_key (ObjFile.withTypeIsUsed m F) = file_key F.
Proof. destruct F; reflexivity. Qed.

Lemma putFile_step File F F' s :
  SymbolTable.ObjectFiles (Symtab s) !! File = Some F -> file_key F' = file_key F ->
  table_step s (putFile File F' s) /\ W (putFile File F' s) = W s /\
  forall p, getTableIndex p (putFile File F' s) = getTableIndex p s.
Proof.
  intros HF Hk.
  split; [|split; [destruct s as [nd cfg st ws er w]; destruct st; reflexivity|]].
  - apply table_step_stores; destruct s as [nd cfg st ws er w]; destruct st; simpl in *;
      try reflexivity.
    eapply fmap_insert_same; eassumption.
  - intros p. apply getTableIndex_stores;
      destruct s as [nd cfg st ws er w]; destruct st; reflexivity.
Qed.

Lemma setTypeMap_step File I v s s' :
  setTypeMap File I v s = Done s' ->
  table_step s s' /\ W s' = W s /\ forall p, getTableIndex p s' = getTableIndex p s.
Proof.
  unfold setTypeMap, getFile. intros H. inv_bind H as F HF. inv_Done.
  destruct (bool_decide _); inv_Done.
  eapply putFile_step; [eassumption | apply file_key_withTypeMap].
Qed.

Lemma setTypeIsUsed_step File I v s s' :
  setTypeIsUsed File I v s = Done s' ->
  table_step s s' /\ W s' = W s /\ forall p, getTableIndex p s' = getTableIndex p s.
Proof.
  unfold setTypeIsUsed, getFile. intros H. inv_bind H as F HF. inv_Done.
  destruct (bool_decide _); inv_Done.
  eapply putFile_step; [eassumption | apply file_key_withTypeIsUsed].
Qed.

Lemma pushIndirectFunction_proj p s :
  Symtab (pushIndirectFunction p s) = Symtab s /\
  Writer.IndirectFunctions (W (pushIndirectFunction p s)) = Writer.IndirectFunctions (W s) ++ [p].
Proof. destruct s as [nd cfg st ws er w]; destruct w; split; reflexivity. Qed.

(** The slot of a symbol is fixed by what the walk never changes. *)
Lemma table_slot_step p s s' : table_step s s' -> table_slot p s' = table_slot p s.
Proof.
  intros (_ & _ & Hs & _). unfold table_slot.
  pose proof (lookup_key sym_key _ _ p Hs) as Hp.
  destruct (SymbolTable.Symbols (Symtab s') !! p) as [x'|],
           (SymbolTable.Symbols (Symtab s) !! p) as [x|]; simpl in Hp; try discriminate;
    [|reflexivity].
  injection Hp as Hk Hfn _. rewrite Hk, Hfn. reflexivity.
Qed.

(** The table index and the function index are read from the slot: two
    symbols with the same slot read the same. *)
Lemma table_slot_getTableIndex p q s v :
  table_slot p s = table_slot q s ->
  getTableIndex p s = Done v -> getTableIndex q s = Done v.
Proof.
  unfold table_slot, getTableIndex, getSym. intros Hslot Hp.
  destruct (SymbolTable.Symbols (Symtab s) !! p) as [x|] eqn:Hx; [|discriminate]. simpl in Hp.
  destruct (Symbol.SymbolKind x) eqn:Hkx; try discriminate.
  - destruct (Symbol.Function x) as [fp|]; [|discriminate]. simpl in Hslot.
    destruct (SymbolTable.Symbols (Symtab s) !! q) as [y|]; [|discriminate]. simpl.
    destruct (Symbol.SymbolKind y); try discriminate.
    destruct (Symbol.Function y) as [fq|]; [|discriminate]. simpl in Hslot.
    assert (fq = fp) as -> by congruence. exact Hp.
  - destruct (SymbolTable.Symbols (Symtab s) !! q) as [y|] eqn:Hy; [|discriminate].
    destruct (Symbol.SymbolKind y) eqn:Hky; try discriminate.
    + destruct (Symbol.Function y); discriminate.
    + assert (q = p) by congruence. subst q.
      assert (y = x) by congruence. subst y. simpl. rewrite ?Hkx. exact Hp.
Qed.

Lemma table_slot_hasFunctionIndex p q s b :
  table_slot p s = table_slot q s ->
  hasFunctionIndex p s = Done b -> hasFunctionIndex q s = Done b.
Proof.
  unfold table_slot, hasFunctionIndex, getSym. intros Hslot Hp.
  destruct (SymbolTable.Symbols (Symtab s) !! p) as [x|] eqn:Hx; [|discriminate]. simpl in Hp.
  destruct (Symbol.SymbolKind x) eqn:Hkx; try discriminate.
  - destruct (Symbol.Function x) as [fp|]; [|discriminate]. simpl in Hslot.
    destruct (SymbolTable.Symbols (Symtab s) !! q) as [y|]; [|discriminate]. simpl.
    destruct (Symbol.SymbolKind y); try discriminate.
    destruct (Symbol.Function y) as [fq|]; [|discriminate]. simpl in Hslot.
    assert (fq = fp) as -> by congruence. exact Hp.
  - destruct (SymbolTable.Symbols (Symtab s) !! q) as [y|] eqn:Hy; [|discriminate].
    destruct (Symbol.SymbolKind y) eqn:Hky; try discriminate.
    + destruct (Symbol.Function y); discriminate.
    + assert (q = p) by congruence. subst q.
      assert (y = x) by congruence. subst y. simpl. rewrite ?Hkx. exact Hp.
Qed.

(** A symbol whose function index can be asked for answers on its table
    index as well. *)
Lemma hasTableIndex_of_hasFunctionIndex p s b :
  hasFunctionIndex p s = Done b -> exists t, hasTableIndex p s = Done t.
Proof.
  unfold hasFunctionIndex, hasTableIndex. intros H. inv_bind H as x Hx. rewrite Hx. simpl.
  destruct (Symbol.SymbolKind x); try discriminate.
  - inv_bind H as fp Hfp. inv_bind H as f Hf. rewrite Hfp. simpl. rewrite Hf. simpl. eauto.
  - eauto.
Qed.

(** After the assignment of the table index [T] to [p], a symbol reads
    [T] only from the slot of [p]; any other table index was there
    before. *)
Lemma setTableIndex_slot p T s s1 :
  hasTableIndex p s = Done false ->
  setTableIndex p T s = Done s1 ->
  forall q v, getTableIndex q s1 = Done v ->
              (v = T /\ table_slot q s = table_slot p s) \/ getTableIndex q s = Done v.
Proof.
  unfold hasTableIndex, setTableIndex. intros Hhas Hset.
  inv_bind Hset as x Hx. rewrite Hx in Hhas. simpl in Hhas.
  unfold getSym in Hx. inv_Done.
  destruct (Symbol.SymbolKind x) eqn:Hk; try discriminate.
  - inv_bind Hset as fp Hfp. inv_bind Hset as f Hf. inv_Done.
    unfold getFunc in Hf. inv_Done.
    destruct (putFunc_proj fp (InputFunction.setTableIndex T f) s) as (Eo & Es & Ef & Ew).
    set (s1 := putFunc fp _ s) in *. clearbody s1.
    assert (Hlt : (fp < length (SymbolTable.Functions (Symtab s)))%nat)
      by (eapply lookup_lt_Some; eassumption).
    intros q v. unfold getTableIndex, table_slot, getSym, getFunc. rewrite Es, Ef, Hx, Hk, Hfp.
    destruct (SymbolTable.Symbols (Symtab s) !! q) as [y|]; [|discriminate]. simpl.
    destruct (Symbol.SymbolKind y); try discriminate; [|intros Hq; right; exact Hq].
    destruct (Symbol.Function y) as [fq|]; [|discriminate]. simpl.
    destruct (decide (fq = fp)) as [-> | Hne].
    + rewrite list_lookup_insert_eq by assumption. simpl. intros Hq.
      left. split; [|reflexivity]. destruct f; simpl in Hq. congruence.
    + rewrite list_lookup_insert_ne by auto. intros Hq. right. exact Hq.
  - inv_Done.
    destruct (putSym_proj p (Symbol.withTableIndex T x) s) as (Eo & Es & Ef & Ew).
    set (s1 := putSym p _ s) in *. clearbody s1.
    assert (Hlt : (p < length (SymbolTable.Symbols (Symtab s)))%nat)
      by (eapply lookup_lt_Some; eassumption).
    intros q v. unfold getTableIndex, table_slot, getSym, getFunc. rewrite Es, Ef.
    destruct (decide (q = p)) as [-> | Hne].
    + rewrite list_lookup_insert_eq by assumption. simpl.
      destruct x; simpl in *. rewrite Hk. simpl. left. split; [congruence | reflexivity].
    + rewrite list_lookup_insert_ne by auto. auto.
Qed.

(** The invariant only looks at the indirect functions and is kept by a
    step that leaves them alone. *)
Lemma table_inv_step T s s' :
  table_step s s' ->
  Writer.IndirectFunctions (W s') = Writer.IndirectFunctions (W s) ->
  (forall p, getTableIndex p s' = getTableIndex p s) ->
  table_inv (T, s) -> table_inv (T, s').
Proof.
  intros Hstep E Hsame Hinv. unfold table_inv in *. rewrite E. intros Hb.
  destruct (Hinv Hb) as (HT & Hk & Hr & Hu). split; [exact HT|]. split; [|split].
  - intros k p Hp. destruct (Hk k p Hp) as [Ht Hf]. split.
    + apply Hstep. exact Ht.
    + rewrite (hasFunctionIndex_step p s s' Hstep). exact Hf.
  - intros p v Hp. rewrite Hsame in Hp. exact (Hr p v Hp).
  - intros p q v Hp Hq. rewrite Hsame in Hp, Hq.
    rewrite !(table_slot_step _ s s' Hstep). exact (Hu p q v Hp Hq).
Qed.

Lemma reloc_done_step File r s s' : table_step s s' -> reloc_done File r s -> reloc_done File r s'.
Proof.
  intros Hstep Hdone Htab F' p HF' Hp Hf.
  pose proof Hstep as (Ho & _).
  pose proof (lookup_key file_key _ _ File Ho) as HF.
  rewrite HF' in HF. simpl in HF.
  destruct (SymbolTable.ObjectFiles (Symtab s) !! File) as [F|] eqn:EF; [|discriminate].
  simpl in HF. assert (HF0 : file_key F' = file_key F) by congruence.
  rewrite (getFunctionSymbol_step F F' _ s s' HF0 Hstep) in Hp.
  rewrite (hasFunctionIndex_step p s s' Hstep) in Hf.
  destruct (getTableIndex_of_has p s (Hdone Htab F p EF Hp Hf)) as [v Hv].
  eapply hasTableIndex_of_get. apply Hstep. exact Hv.
Qed.

Lemma HandleReloc_eq File Reloc TableIndex s :
  HandleReloc File Reloc (TableIndex, s) =
  (F ← getFile File s;
   if table_reloc Reloc then
     p ← getFunctionSymbol F (RIndex Reloc) s;
     hasT ← hasTableIndex p s;
     if (hasT : bool) then Done (TableIndex, s)
     else
       hasF ← hasFunctionIndex p s;
       if negb hasF then Done (TableIndex, s)
       else
         s1 ← setTableIndex p TableIndex s;
         Done (wrap32 (TableIndex + 1), pushIndirectFunction p s1)
   else if RType Reloc =? R_WEBASSEMBLY_TYPE_INDEX_LEB then
     Sig ← deref (ObjFile.Types F !! Z.to_nat (RIndex Reloc));
     let '(i, s1) := registerType Sig s in
     s2 ← setTypeMap File (Z.to_nat (RIndex Reloc)) i s1;
     s3 ← setTypeIsUsed File (Z.to_nat (RIndex Reloc)) true s2;
     Done (TableIndex, s3)
   else Done (TableIndex, s)).
Proof. reflexivity. Qed.

(** One relocation: a step of the walk that keeps the invariant and serves
    the relocation. *)
Lemma HandleReloc_spec File r acc acc' :
  HandleReloc File r acc = Done acc' ->
  table_step acc.2 acc'.2 /\ (table_inv acc -> table_inv acc') /\ reloc_done File r acc'.2.
Proof.
  destruct acc as [T s], acc' as [T' s']. rewrite HandleReloc_eq. intros H. simpl.
  inv_bind H as F HF. unfold getFile in HF. inv_Done.
  destruct (table_reloc r) eqn:Htab.
  - inv_bind H as p Hp. inv_bind H as hasT HhasT.
    destruct hasT.
    + (* the target has a table index already *)
      inv_Done. split; [apply table_step_refl|]. split; [auto|].
      intros _ F' p' HF' Hp' _. assert (F' = F) as -> by congruence.
      assert (p' = p) as -> by congruence. exact HhasT.
    + inv_bind H as hasF HhasF. destruct hasF; simpl in H.
      * (* a new indirect function *)
        inv_bind H as s1 Hset. inv_Done.
        destruct (setTableIndex_step _ _ _ _ HhasT Hset) as (Hstep & Hget & EW & Hback).
        destruct (pushIndirectFunction_proj p s1) as (Est & Eif).
        assert (Hstep' : table_step s (pushIndirectFunction p s1))
          by (eapply table_step_trans; [exact Hstep | apply table_step_Symtab; exact Est]).
        set (s' := pushIndirectFunction p s1) in *. clearbody s'.
        rewrite EW in Eif.
        split; [exact Hstep'|]. split.
        -- unfold table_inv. intros Hinv Hb. rewrite Eif in *. rewrite length_app in *.
           simpl length in *. destruct Hinv as (HT & Hk & Hr & Hu); [lia|].
           assert (HT' : wrap32 (T + 1) = T + 1)
             by (unfold kInitialTableOffset in *; apply wrap32_small; lia).
           split; [unfold kInitialTableOffset in *; lia|]. split; cycle 1.
           { split.
             - intros q v Hq.
               rewrite (getTableIndex_stores s1 s' q) in Hq by (rewrite Est; reflexivity).
               destruct (Hback q v Hq) as [-> | Hold].
               + unfold kInitialTableOffset in *. lia.
               + specialize (Hr q v Hold). lia.
             - intros q1 q2 v Hq1 Hq2.
               rewrite (getTableIndex_stores s1 s') in Hq1, Hq2 by (rewrite Est; reflexivity).
               rewrite !(table_slot_step _ s s' Hstep').
               destruct (setTableIndex_slot _ _ _ _ HhasT Hset q1 v Hq1) as [[-> E1] | O1],
                        (setTableIndex_slot _ _ _ _ HhasT Hset q2 _ Hq2) as [[E E2] | O2].
               + congruence.
               + specialize (Hr q2 T O2). lia.
               + specialize (Hr q1 v O1). lia.
               + exact (Hu q1 q2 v O1 O2). }
           intros k q Hq. apply lookup_app_Some in Hq as [Hq | [Hge Hq]].
           ++ destruct (Hk k q Hq) as [Ht Hf]. split; [apply Hstep'; exact Ht|].
              rewrite (hasFunctionIndex_step q s s' Hstep'). exact Hf.
           ++ apply list_lookup_singleton_Some in Hq as [Hk0 <-].
              assert (k = length (Writer.IndirectFunctions (W s))) as -> by lia.
              split.
              ** rewrite <- HT.
                 assert (Hs1 : table_step s1 s') by (apply table_step_Symtab; exact Est).
                 apply Hs1. exact Hget.
              ** rewrite (hasFunctionIndex_step p s s' Hstep'). exact HhasF.
        -- intros _ F' p' HF' Hp' _.
           pose proof Hstep' as (Ho & _).
           pose proof (lookup_key file_key _ _ File Ho) as HkF.
           rewrite HF', HF in HkF. simpl in HkF.
           assert (HF0 : file_key F' = file_key F) by congruence.
           rewrite (getFunctionSymbol_step F F' _ s s' HF0 Hstep') in Hp'.
           assert (p' = p) as -> by congruence.
           eapply hasTableIndex_of_get.
           assert (Hs1 : table_step s1 s') by (apply table_step_Symtab; exact Est).
           apply Hs1. exact Hget.
      * (* the target has no function index *)
        inv_Done. split; [apply table_step_refl|]. split; [auto|].
        intros _ F' p' HF' Hp' Hf'. assert (F' = F) as -> by congruence.
        assert (p' = p) as -> by congruence. congruence.
  - assert (Hnot : reloc_done File r s') by (intros Ht; congruence).
    destruct (RType r =? R_WEBASSEMBLY_TYPE_INDEX_LEB).
    + inv_bind H as Sig HSig.
      destruct (registerType_Symtab Sig s) as (Est & Eif).
      destruct (registerType Sig s) as [i s1]. simpl in Est, Eif.
      inv_bind H as s2 H2. inv_bind H as s3 H3. inv_Done.
      destruct (setTypeMap_step _ _ _ _ _ H2) as (St2 & EW2 & G2).
      destruct (setTypeIsUsed_step _ _ _ _ _ H3) as (St3 & EW3 & G3).
      assert (Hstep : table_step s s').
      { eapply table_step_trans; [apply table_step_Symtab; exact Est|].
        eapply table_step_trans; eassumption. }
      split; [exact Hstep|]. split; [|exact Hnot].
      apply table_inv_step; [exact Hstep | rewrite EW3, EW2; exact Eif |].
      intros q. rewrite G3, G2. apply getTableIndex_stores; rewrite Est; reflexivity.
    + inv_Done. split; [apply table_step_refl|]. split; [auto | exact Hnot].
Qed.

Lemma walk_step_refl a : walk_step a a.
Proof. split; [apply table_step_refl | auto]. Qed.

Lemma walk_step_trans a1 a2 a3 : walk_step a1 a2 -> walk_step a2 a3 -> walk_step a1 a3.
Proof.
  intros [A1 A2] [B1 B2]. split; [eapply table_step_trans; eassumption | auto].
Qed.

Lemma live_relocs_step s s' F F' :
  table_step s s' -> file_key F' = file_key F -> live_relocs s' F' = live_relocs s F.
Proof.
  intros (_ & Hf & _) HF. unfold live_relocs. injection HF as -> -> -> _ _.
  f_equal. apply flat_map_ext. intros fp.
  pose proof (lookup_key func_key _ _ fp Hf) as Hq.
  destruct (SymbolTable.Functions (Symtab s') !! fp) as [f'|],
           (SymbolTable.Functions (Symtab s) !! fp) as [f|]; simpl in Hq; try discriminate;
    [|reflexivity].
  injection Hq as -> -> _. reflexivity.
Qed.

Lemma chunk_done_step File c a a' : walk_step a a' -> chunk_done File c a -> chunk_done File c a'.
Proof.
  intros [Hs _] H Hl r Hr. eapply reloc_done_step; [exact Hs | auto].
Qed.

Lemma function_done_step File fp a a' :
  walk_step a a' -> function_done File fp a -> function_done File fp a'.
Proof.
  intros [Hs _] H f' Hf' Hl r Hr.
  pose proof Hs as (_ & Hf & _).
  pose proof (lookup_key func_key _ _ fp Hf) as Hq. rewrite Hf' in Hq. simpl in Hq.
  destruct (SymbolTable.Functions (Symtab a.2) !! fp) as [f|] eqn:Ef; [|discriminate].
  simpl in Hq. injection Hq as Hlive Hrel _.
  eapply reloc_done_step; [exact Hs|]. apply (H f Ef); congruence.
Qed.

Lemma file_done_step File a a' : walk_step a a' -> file_done File a -> file_done File a'.
Proof.
  intros [Hs _] H F' HF' r Hr.
  pose proof Hs as (Ho & _).
  pose proof (lookup_key file_key _ _ File Ho) as Hq. rewrite HF' in Hq. simpl in Hq.
  destruct (SymbolTable.ObjectFiles (Symtab a.2) !! File) as [F|] eqn:EF; [|discriminate].
  simpl in Hq. assert (HF0 : file_key F' = file_key F) by congruence.
  rewrite (live_relocs_step _ _ F F' Hs HF0) in Hr.
  eapply reloc_done_step; [exact Hs|]. exact (H F EF r Hr).
Qed.

Lemma HandleRelocs_spec File Live Relocs acc acc' :
  HandleRelocs File Live Relocs acc = Done acc' ->
  walk_step acc acc' /\ (Live = true -> forall r, In r Relocs -> reloc_done File r acc'.2).
Proof.
  unfold HandleRelocs. destruct Live; simpl; intros H.
  - apply (forEach_each _ walk_step (fun r a => reloc_done File r a.2)) in H.
    + destruct H as [Hw HQ]. split; [exact Hw | intros _; exact HQ].
    + apply walk_step_refl.
    + apply walk_step_trans.
    + intros r a a' Hr. destruct (HandleReloc_spec _ _ _ _ Hr) as (A & B & C).
      split; [split; assumption | exact C].
    + intros r a a' [Hs _] Hd. eapply reloc_done_step; eassumption.
  - inv_Done. split; [apply walk_step_refl | discriminate].
Qed.

Lemma HandleRelocs_function_spec File fp acc acc' :
  HandleRelocs_function File fp acc = Done acc' ->
  walk_step acc acc' /\ function_done File fp acc'.
Proof.
  unfold HandleRelocs_function, getFunc. intros H. inv_bind H as f Hf. inv_Done.
  destruct (HandleRelocs_spec _ _ _ _ _ H) as [Hw Hd]. split; [exact Hw|].
  intros f' Hf' Hl r Hr.
  pose proof Hw as ((_ & Hk & _) & _).
  pose proof (lookup_key func_key _ _ fp Hk) as Hq. rewrite Hf', Hf in Hq. simpl in Hq.
  injection Hq as Hlive Hrel _. apply Hd; congruence.
Qed.

Lemma HandleRelocs_chunk_spec File c acc acc' :
  HandleRelocs_chunk File c acc = Done acc' ->
  walk_step acc acc' /\ chunk_done File c acc'.
Proof.
  unfold HandleRelocs_chunk. intros H.
  destruct (HandleRelocs_spec _ _ _ _ _ H) as [Hw Hd]. split; [exact Hw | exact Hd].
Qed.

Lemma HandleRelocs_file_spec File acc acc' :
  HandleRelocs_file File acc = Done acc' ->
  walk_step acc acc' /\ file_done File acc'.
Proof.
  unfold HandleRelocs_file, getFile. intros H.
  inv_bind H as F HF. inv_bind H as acc1 H1. inv_bind H as acc2 H2. inv_Done.
  apply (forEach_each _ walk_step (function_done File)) in H1;
    [ | apply walk_step_refl | apply walk_step_trans | apply HandleRelocs_function_spec
      | intros; eapply function_done_step; eassumption ].
  apply (forEach_each _ walk_step (chunk_done File)) in H2;
    [ | apply walk_step_refl | apply walk_step_trans | apply HandleRelocs_chunk_spec
      | intros; eapply chunk_done_step; eassumption ].
  apply (forEach_each _ walk_step (chunk_done File)) in H;
    [ | apply walk_step_refl | apply walk_step_trans | apply HandleRelocs_chunk_spec
      | intros; eapply chunk_done_step; eassumption ].
  destruct H1 as [W1 Q1], H2 as [W2 Q2], H as [W3 Q3].
  pose proof (walk_step_trans _ _ _ W2 W3) as W23.
  pose proof (walk_step_trans _ _ _ W1 W23) as W.
  split; [exact W|].
  intros F' HF' r Hr.
  pose proof W as ((Ho & _) & _).
  pose proof (lookup_key file_key _ _ File Ho) as Hq. rewrite HF', HF in Hq. simpl in Hq.
  injection Hq as Efun Eseg Ecus _ _.
  unfold live_relocs in Hr. rewrite Efun, Eseg, Ecus in Hr.
  apply in_app_or in Hr as [Hr | Hr]; [|apply in_app_or in Hr as [Hr | Hr]].
  - apply in_flat_map in Hr as (fp & Hfp & Hr).
    destruct (SymbolTable.Functions (Symtab acc'.2) !! fp) as [f|] eqn:Ef; [|destruct Hr].
    destruct (InputFunction.Live f) eqn:El; [|destruct Hr].
    exact (function_done_step _ _ _ _ W23 (Q1 fp Hfp) f Ef El r Hr).
  - apply in_flat_map in Hr as (c & Hc & Hr).
    destruct (InputChunk.Live c) eqn:El; [|destruct Hr].
    exact (chunk_done_step _ _ _ _ W3 (Q2 c Hc) El r Hr).
  - apply in_flat_map in Hr as (c & Hc & Hr).
    destruct (InputChunk.Live c) eqn:El; [|destruct Hr].
    exact (Q3 c Hc El r Hr).
Qed.

(** What the assignment of function indices leaves alone. *)
Lemma AddDefinedFunction_frame Func acc acc' :
  AddDefinedFunction Func acc = Done acc' ->
  SymbolTable.ObjectFiles (Symtab acc'.2) = SymbolTable.ObjectFiles (Symtab acc.2) /\
  Writer.IndirectFunctions (W acc'.2) = Writer.IndirectFunctions (W acc.2) /\
  (no_table_index acc.2 -> no_table_index acc'.2).
Proof.
  destruct acc as [i s]. unfold AddDefinedFunction, getFunc. intros H.
  inv_bind H as F HF. inv_Done. destruct (negb (InputFunction.Live F)); inv_Done; [auto|].
  split; [|split]; try (destruct s as [nd cfg st ws er w]; destruct st, w; reflexivity).
  intros [HFn HSy]. rewrite Forall_lookup in HFn. pose proof (HFn _ _ HF) as HT.
  rewrite <- Forall_lookup in HFn.
  destruct s as [nd cfg st ws er w]; destruct st, w; split; simpl in *; [|exact HSy].
  apply Forall_insert; [exact HFn|]. destruct F; exact HT.
Qed.

(** What the assignment of global indices leaves alone. *)
Lemma AddDefinedGlobal_frame Global acc acc' :
  AddDefinedGlobal Global acc = Done acc' ->
  SymbolTable.ObjectFiles (Symtab acc'.2) = SymbolTable.ObjectFiles (Symtab acc.2) /\
  SymbolTable.Functions (Symtab acc'.2) = SymbolTable.Functions (Symtab acc.2) /\
  SymbolTable.Symbols (Symtab acc'.2) = SymbolTable.Symbols (Symtab acc.2) /\
  Writer.IndirectFunctions (W acc'.2) = Writer.IndirectFunctions (W acc.2).
Proof.
  destruct acc as [i s]. unfold AddDefinedGlobal, getGlob. intros H.
  inv_bind H as G HG. inv_Done. destruct (InputGlobal.Live G); inv_Done; [|auto].
  destruct s as [nd cfg st ws er w]; destruct st, w; repeat split; reflexivity.
Qed.

Lemma assignIndexes_table (s s' : State) :
  Writer.IndirectFunctions (W s) = [] ->
  no_table_index s ->
  assignIndexes s = Done s' ->
  exists T, table_inv (T, s') /\ forall File, file_done File (T, s').
Proof.
  intros Hfresh Hnone H. unfold assignIndexes in H.
  inv_bind H as acc1 H1. inv_bind H as acc2 H2. inv_bind H as acc3 H3.
  destruct acc3 as [T3 s3]. inv_bind H as acc4 H4. inv_bind H as acc5 H5.
  destruct acc5 as [G5 s5]. inv_Done.
  set (I1 := fun a : Z * State =>
               SymbolTable.ObjectFiles (Symtab a.2) = SymbolTable.ObjectFiles (Symtab s) /\
               Writer.IndirectFunctions (W a.2) = [] /\
               no_table_index a.2).
  assert (HI1 : forall l a a', I1 a -> forEach AddDefinedFunction l a = Done a' -> I1 a').
  { intros l. apply forEach_invariant. intros x a a' _ (Ia & Ib & Ic) Hx.
    destruct (AddDefinedFunction_frame _ _ _ Hx) as (Ea & Eb & Ec).
    split; [congruence|]. split; [congruence | auto]. }
  assert (I1a : I1 acc1).
  { eapply HI1; [|exact H1]. split; [reflexivity|]. split; [exact Hfresh | exact Hnone]. }
  assert (I1b : I1 acc2).
  { eapply (forEach_invariant _ I1); [|exact I1a|exact H2].
    intros File a a' _ Ia Hx. simpl in Hx. inv_bind Hx as F HF. eapply HI1; eassumption. }
  destruct I1b as (Eo2 & Eif2 & Hnone2).
  apply (forEach_each _ walk_step file_done) in H3;
    [ | apply walk_step_refl | apply walk_step_trans | apply HandleRelocs_file_spec
      | intros; eapply file_done_step; eassumption ].
  destruct H3 as [[Hstep Hinv] Hdone]. simpl in Hstep.
  assert (Hinv3 : table_inv (T3, s3)).
  { apply Hinv. unfold table_inv. rewrite Eif2. simpl. intros _. split; [reflexivity|].
    split; [|split].
    - intros k p Hk. destruct k; discriminate Hk.
    - intros p v Hp. destruct (no_table_index_get _ _ _ Hnone2 Hp).
    - intros p q v Hp. destruct (no_table_index_get _ _ _ Hnone2 Hp). }
  assert (Hlen : length (SymbolTable.ObjectFiles (Symtab s3))
                 = length (SymbolTable.ObjectFiles (Symtab s))).
  { destruct Hstep as (Ho & _). rewrite <- Eo2.
    rewrite <- (length_fmap file_key), Ho, length_fmap. reflexivity. }
  assert (Hdone3 : forall File, file_done File (T3, s3)).
  { intros File. destruct (decide (File < length (SymbolTable.ObjectFiles (Symtab s)))%nat) as [Hlt | Hge].
    - apply Hdone. unfold fileIndices. apply in_seq. lia.
    - intros F HF. apply lookup_lt_Some in HF. simpl in HF. lia. }
  set (I3 := fun a : Z * State =>
               SymbolTable.ObjectFiles (Symtab a.2) = SymbolTable.ObjectFiles (Symtab s3) /\
               SymbolTable.Functions (Symtab a.2) = SymbolTable.Functions (Symtab s3) /\
               SymbolTable.Symbols (Symtab a.2) = SymbolTable.Symbols (Symtab s3) /\
               Writer.IndirectFunctions (W a.2) = Writer.IndirectFunctions (W s3)).
  assert (HI3 : forall l a a', I3 a -> forEach AddDefinedGlobal l a = Done a' -> I3 a').
  { intros l. apply forEach_invariant. intros x a a' _ (Ia & Ib & Ic & Id) Hx.
    destruct (AddDefinedGlobal_frame _ _ _ Hx) as (Ea & Eb & Ec & Ed).
    repeat split; congruence. }
  assert (I3a : I3 acc4) by (eapply HI3; [|exact H4]; repeat split).
  assert (I3b : I3 (G5, s')).
  { eapply (forEach_invariant _ I3); [|exact I3a|exact H5].
    intros File a a' _ Ia Hx. simpl in Hx. inv_bind Hx as F HF. eapply HI3; eassumption. }
  destruct I3b as (Eo & Ef & Es & Eif). simpl in Eo, Ef, Es, Eif.
  assert (Hfinal : table_step s3 s') by (apply table_step_stores; congruence).
  assert (Hsame : forall p, getTableIndex p s' = getTableIndex p s3)
    by (intros p; apply getTableIndex_stores; assumption).
  exists T3. split; [eapply table_inv_step; eassumption|].
  intros File. eapply (file_done_step File (T3, s3)); [|apply Hdone3].
  split; [exact Hfinal|]. intros Hi. eapply table_inv_step; eassumption.
Qed.

(** The entries of the element section: the function indices of the
    indirect functions, in the order of their table indices. *)
Lemma elemEntries_spec (l : list SymPtr) (s : State) :
  forall T, 0 <= T -> T + Z.of_nat (length l) < 2 ^ 32 ->
    (forall (k : nat) p, l !! k = Some p ->
       getTableIndex p s = Done (T + Z.of_nat k) /\ hasFunctionIndex p s = Done true) ->
    exists idxs, Forall2 (fun p i => getFunctionIndex p s = Done i) l idxs /\
                 elemEntries l T s = Done (flat_map writeUleb128 idxs).
Proof.
  induction l as [|p l IH]; intros T HT Hlen Hall.
  - exists []. split; [constructor | reflexivity].
  - simpl length in Hlen.
    destruct (Hall 0%nat p eq_refl) as [Ht Hf].
    destruct (getFunctionIndex_of_has _ _ Hf) as [i Hi].
    destruct (IH (T + 1)) as (idxs & Hidx & Hrun); [lia | lia | |].
    { intros k q Hq. destruct (Hall (S k) q Hq) as [Ht' Hf']. split; [|exact Hf'].
      rewrite Ht'. f_equal. lia. }
    exists (i :: idxs). split; [constructor; assumption|].
    simpl. rewrite Ht. rewrite Z.add_0_r. simpl. unfold assert_.
    rewrite Z.eqb_refl, orb_true_r. simpl. rewrite Hi. simpl.
    rewrite wrap32_small by lia. rewrite Hrun. reflexivity.
Qed.

(** C4, as stated, fails: the live data segment of [ExampleTable.file]
    carries a [TABLE_INDEX_I32] relocation whose target is the weak
    undefined function [w]. [w] is not imported, so it has no function
    index, and the walk of [assignIndexes] skips it: after the walk the
    relocation's target has no table index, and the indirect functions are
    [g] and [f] only. *)
Lemma weak_undefined_target_without_table_index :
  Writer.IndirectFunctions (W ExampleTable.state) = [] /\
  no_table_index ExampleTable.state /\
  assignIndexes ExampleTable.state = Done ExampleTable.assigned /\
  (exists F, SymbolTable.ObjectFiles (Symtab ExampleTable.assigned) !! 0%nat = Some F /\
             In (mkReloc R_WEBASSEMBLY_TABLE_INDEX_I32 2) (live_relocs ExampleTable.assigned F) /\
             getFunctionSymbol F 2 ExampleTable.assigned = Done 2%nat) /\
  table_reloc (mkReloc R_WEBASSEMBLY_TABLE_INDEX_I32 2) = true /\
  hasTableIndex 2%nat ExampleTable.assigned = Done false /\
  Writer.IndirectFunctions (W ExampleTable.assigned) = [1; 0]%nat.
Proof.
  split; [reflexivity|]. split; [split; repeat constructor|].
  split; [vm_compute; reflexivity|]. split.
  { eexists. split; [vm_compute; reflexivity|]. split; [vm_compute; tauto | vm_compute; reflexivity]. }
  split; [reflexivity|]. split; vm_compute; reflexivity.
Qed.

(** C4, amended: let [assignIndexes] start from a link in which nothing has
    a table index and return, with fewer than 2^32 - 1 indirect functions.
    Then (1) for every relocation of kind [TABLE_INDEX_I32] or
    [TABLE_INDEX_SLEB] of a live chunk whose target has a function index,
    the target has a table index, and the entry of [IndirectFunctions] at
    that index is a symbol of the same function; (2) a symbol without a
    function index, such as the target of a relocation that is a weak
    undefined function and not imported, has no table index; (3) two
    symbols that read the same table index are symbols of the same
    function; (4) the k-th entry of [IndirectFunctions] has the table index
    [kInitialTableOffset + k] and a function index; (5) no symbol and no
    function is listed twice; and (6) [createElemSection] writes nothing
    when there is no indirect function and otherwise one segment for table
    0 at the offset [i32.const 1] with the function indices of
    [IndirectFunctions] in that order. *)
Theorem indirect_functions_table (s s' : State) :
  Writer.IndirectFunctions (W s) = [] ->
  no_table_index s ->
  assignIndexes s = Done s' ->
  Z.of_nat (length (Writer.IndirectFunctions (W s'))) < 2 ^ 32 - 1 ->
  (forall File F r p,
     SymbolTable.ObjectFiles (Symtab s') !! File = Some F ->
     In r (live_relocs s' F) ->
     table_reloc r = true ->
     getFunctionSymbol F (RIndex r) s' = Done p ->
     hasFunctionIndex p s' = Done true ->
     exists (k : nat) q,
       Writer.IndirectFunctions (W s') !! k = Some q /\
       table_slot q s' = table_slot p s' /\
       getTableIndex p s' = Done (kInitialTableOffset + Z.of_nat k)) /\
  (forall p, hasFunctionIndex p s' = Done false -> hasTableIndex p s' = Done false) /\
  (forall p q v, getTableIndex p s' = Done v -> getTableIndex q s' = Done v ->
     table_slot p s' = table_slot q s') /\
  (forall (k : nat) p,
     Writer.IndirectFunctions (W s') !! k = Some p ->
     getTableIndex p s' = Done (kInitialTableOffset + Z.of_nat k) /\
     hasFunctionIndex p s' = Done true) /\
  NoDup (Writer.IndirectFunctions (W s')) /\
  (forall (k j : nat) p q,
     Writer.IndirectFunctions (W s') !! k = Some p ->
     Writer.IndirectFunctions (W s') !! j = Some q ->
     table_slot p s' = table_slot q s' -> k = j) /\
  (Writer.IndirectFunctions (W s') = [] -> createElemSection s' = Done s') /\
  exists idxs,
    Forall2 (fun p i => getFunctionIndex p s' = Done i) (Writer.IndirectFunctions (W s')) idxs /\
    (Writer.IndirectFunctions (W s') <> [] ->
     createElemSection s' =
       Done (createSyntheticSection WASM_SEC_ELEM ""
               (writeUleb128 1 ++ writeUleb128 0 ++
                writeInitExpr WASM_OPCODE_I32_CONST kInitialTableOffset ++
                writeUleb128 (Z.of_nat (length (Writer.IndirectFunctions (W s')))) ++
                flat_map writeUleb128 idxs) s')).
Proof.
  intros Hfresh Hnone Hrun Hbound.
  destruct (assignIndexes_table s s' Hfresh Hnone Hrun) as (T & Hinv & Hdone).
  destruct (Hinv Hbound) as (HT & Hk & Hr & Hu).
  assert (Hentry : forall p v, getTableIndex p s' = Done v ->
            exists (k : nat) q, Writer.IndirectFunctions (W s') !! k = Some q /\
                                table_slot q s' = table_slot p s' /\
                                v = kInitialTableOffset + Z.of_nat k).
  { intros p v Hv. pose proof (Hr p v Hv) as Hrange. unfold kInitialTableOffset in *.
    assert (Hlt : (Z.to_nat (v - 1) < length (Writer.IndirectFunctions (W s')))%nat) by lia.
    destruct (lookup_lt_is_Some_2 _ _ Hlt) as [q Hq].
    exists (Z.to_nat (v - 1)), q. split; [exact Hq|].
    destruct (Hk _ q Hq) as [Hqv _].
    replace (1 + Z.of_nat (Z.to_nat (v - 1))) with v in Hqv by lia.
    split; [exact (Hu q p v Hqv Hv) | lia]. }
  split; [|split; [|split; [exact Hu|split; [exact Hk|split; [|split; [|split]]]]]].
  - intros File F r p HF Hin Htab Hp Hf.
    pose proof (Hdone File F HF r Hin Htab F p HF Hp Hf) as Hhas.
    destruct (getTableIndex_of_has p s' Hhas) as [v Hv].
    destruct (Hentry p v Hv) as (k & q & Hq & Hslot & ->).
    exists k, q. split; [exact Hq|]. split; [exact Hslot | exact Hv].
  - intros p Hf.
    destruct (hasTableIndex_of_hasFunctionIndex p s' false Hf) as [[|] Ht]; [|exact Ht].
    exfalso. destruct (getTableIndex_of_has p s' Ht) as [v Hv].
    destruct (Hentry p v Hv) as (k & q & Hq & Hslot & ->).
    destruct (Hk k q Hq) as [_ Hqf].
    pose proof (table_slot_hasFunctionIndex q p s' true Hslot Hqf) as Hpf. congruence.
  - apply NoDup_alt. intros i j p Hi Hj.
    destruct (Hk i p Hi) as [Ti _], (Hk j p Hj) as [Tj _].
    rewrite Ti in Tj. injection Tj as E. lia.
  - intros k j p q Hp Hq Hslot.
    destruct (Hk k p Hp) as [Tp _], (Hk j q Hq) as [Tq _].
    pose proof (table_slot_getTableIndex p q s' _ Hslot Tp) as Tq'.
    rewrite Tq in Tq'. injection Tq' as E. lia.
  - intros E. unfold createElemSection. rewrite E. reflexivity.
  - destruct (elemEntries_spec (Writer.IndirectFunctions (W s')) s' kInitialTableOffset)
      as (idxs & Hidx & Hentries); [unfold kInitialTableOffset; lia ..| exact Hk |].
    exists idxs. split; [exact Hidx|]. intros Hne. unfold createElemSection.
    destruct (Writer.IndirectFunctions (W s')) as [|p l] eqn:E; [congruence|].
    rewrite Hentries. reflexivity.
Qed.

Lemma indirect_functions_table_witness :
  getTableIndex 1%nat ExampleTable.assigned = Done 1 /\
  getTableIndex 0%nat ExampleTable.assigned = Done 2 /\
  hasTableIndex 2%nat ExampleTable.assigned = Done false /\
  NoDup (Writer.IndirectFunctions (W ExampleTable.assigned)) /\
  exists s'', createElemSection ExampleTable.assigned = Done s'' /\
              Body <$> Writer.OutputSections (W s'') = [[1; 0; 65; 1; 11; 2; 1; 0]].
Proof.
  destruct (indirect_functions_table ExampleTable.state ExampleTable.assigned)
    as (_ & Hnot & _ & Hk & Hnodup & _).
  - reflexivity.
  - split; repeat constructor.
  - vm_compute. reflexivity.
  - vm_compute. reflexivity.
  - split; [exact (proj1 (Hk 0%nat 1%nat eq_refl))|].
    split; [exact (proj1 (Hk 1%nat 0%nat eq_refl))|].
    split; [exact (Hnot 2%nat eq_refl)|].
    split; [exact Hnodup|].
    eexists. split; vm_compute; reflexivity.
Defined.

(** ** Symbol flags *)

(** X1: the flags [getWasmFlags] computes for a symbol carry the symbol's
    binding and visibility: a symbol whose flags are the computed ones
    answers [isLocal], [isWeak] and [isHidden] as the original does. The
    flags never hold the local and the weak binding at once, they hold the
    bit [WASM_SYMBOL_UNDEFINED] exactly for an undefined symbol, and no
    other bit. *)
Theorem getWasmFlags_round_trip (Sym Sym' : Symbol.t) :
  Symbol.Flags Sym' = getWasmFlags Sym ->
  Symbol.isLocal Sym' = Symbol.isLocal Sym /\
  Symbol.isWeak Sym' = Symbol.isWeak Sym /\
  Symbol.isHidden Sym' = Symbol.isHidden Sym /\
  Z.testbit (getWasmFlags Sym) 4 = Symbol.isUndefined Sym /\
  Z.land (getWasmFlags Sym) WASM_SYMBOL_BINDING_MASK <> 3 /\
  Z.land (getWasmFlags Sym) (Z.lnot 0x17) = 0.
Proof.
  intros H.
  assert (Hexcl : Symbol.isLocal Sym = true -> Symbol.isWeak Sym = true -> False).
  { unfold Symbol.isLocal, Symbol.isWeak, WASM_SYMBOL_BINDING_LOCAL, WASM_SYMBOL_BINDING_WEAK.
    intros H1 H2. apply Z.eqb_eq in H1, H2. lia. }
  unfold Symbol.isLocal at 1, Symbol.isWeak at 1, Symbol.isHidden at 1.
  rewrite H. unfold getWasmFlags.
  destruct (Symbol.isLocal Sym), (Symbol.isWeak Sym);
    try (exfalso; apply Hexcl; reflexivity);
    destruct (Symbol.isHidden Sym), (Symbol.isUndefined Sym);
    repeat split; try reflexivity; discriminate.
Qed.

Lemma getWasmFlags_round_trip_witness :
  Symbol.isWeak (Symbol.mk "w" Symbol.UndefinedFunctionKind 0x15 true true None None None None None None None 0)
  = Symbol.isWeak (Symbol.mk "w" Symbol.UndefinedFunctionKind 0x1F5 true true None None None None None None None 0).
Proof.
  refine (proj1 (proj2 (getWasmFlags_round_trip
           (Symbol.mk "w" Symbol.UndefinedFunctionKind 0x1F5 true true None None None None None None None 0)
           (Symbol.mk "w" Symbol.UndefinedFunctionKind 0x15 true true None None None None None None None 0)
           _))).
  reflexivity.
Defined.

(** ** Output segments and the memory layout *)

(** X2: [getOutputDataSegmentName] is idempotent: the name of an output
    segment is the output name of itself, with or without merging. With
    merging, a name under [.text.], [.data.] or [.bss.] is mapped to the
    prefix without its last dot. *)
Theorem getOutputDataSegmentName_idempotent (cfg : Config.t) (Name : string) :
  getOutputDataSegmentName cfg (getOutputDataSegmentName cfg Name)
  = getOutputDataSegmentName cfg Name /\
  (forall rest, Config.MergeDataSegments cfg = true ->
     getOutputDataSegmentName cfg (".text." ++ rest) = ".text" /\
     getOutputDataSegmentName cfg (".data." ++ rest) = ".data" /\
     getOutputDataSegmentName cfg (".bss." ++ rest) = ".bss").
Proof.
  split.
  - unfold getOutputDataSegmentName.
    destruct (Config.MergeDataSegments cfg); simpl negb; cbv iota; [|reflexivity].
    destruct (String.prefix ".text." Name) eqn:E1; [reflexivity|].
    destruct (String.prefix ".data." Name) eqn:E2; [reflexivity|].
    destruct (String.prefix ".bss." Name) eqn:E3; [reflexivity|].
    rewrite E1, E2, E3. reflexivity.
  - intros rest Hm. unfold getOutputDataSegmentName. rewrite Hm.
    repeat split; destruct rest; reflexivity.
Qed.

(** [alignTo] on a value that fits: the least multiple of the alignment
    that is not below the value. *)
Lemma alignTo_spec (V A : Z) :
  0 <= V -> 0 < A -> V + A <= 2 ^ 64 ->
  V <= alignTo V A < V + A /\ alignTo V A mod A = 0.
Proof.
  intros HV HA Hfit. unfold alignTo, wrap64.
  rewrite (Z.mod_small (V + A - 1)) by lia.
  pose proof (Z.div_mod (V + A - 1) A ltac:(lia)) as Hdm.
  pose proof (Z.mod_pos_bound (V + A - 1) A HA) as Hmod.
  assert (Hq : V <= (V + A - 1) / A * A < V + A) by nia.
  rewrite Z.mod_small by lia. split; [exact Hq|].
  apply Z.mod_mul. lia.
Qed.

Lemma segments_extent_cons S Segs :
  segments_extent (S :: Segs)
  = OutputSegment.Alignment S + OutputSegment.Size S + segments_extent Segs.
Proof. reflexivity. Qed.

Lemma withStartVA_proj va S :
  OutputSegment.StartVA (OutputSegment.withStartVA va S) = va /\
  OutputSegment.Size (OutputSegment.withStartVA va S) = OutputSegment.Size S /\
  OutputSegment.Alignment (OutputSegment.withStartVA va S) = OutputSegment.Alignment S /\
  OutputSegment.Name (OutputSegment.withStartVA va S) = OutputSegment.Name S /\
  OutputSegment.Index (OutputSegment.withStartVA va S) = OutputSegment.Index S /\
  OutputSegment.InputSegments (OutputSegment.withStartVA va S) = OutputSegment.InputSegments S.
Proof. destruct S; repeat split. Qed.

(** The loop over the segments, as long as the addresses fit in 32 bits. *)
Lemma layoutSegments_spec (Segs : list OutputSegment.t) :
  forall M Segs' M',
    0 <= M ->
    Forall (fun S => 0 < OutputSegment.Alignment S /\ 0 <= OutputSegment.Size S) Segs ->
    M + segments_extent Segs < 2 ^ 32 ->
    layoutSegments Segs M = (Segs', M') ->
    M <= M' <= M + segments_extent Segs /\
    Forall2 (fun S S' => S' = OutputSegment.withStartVA (OutputSegment.StartVA S') S /\
                         OutputSegment.StartVA S' mod OutputSegment.Alignment S = 0) Segs Segs' /\
    Forall (fun S' => M <= OutputSegment.StartVA S' /\ segment_end S' <= M') Segs' /\
    (forall (i j : nat) S1 S2, (i < j)%nat -> Segs' !! i = Some S1 -> Segs' !! j = Some S2 ->
       segment_end S1 <= OutputSegment.StartVA S2).
Proof.
  induction Segs as [|S Segs IH]; intros M Segs' M' HM Hall Hfit Hrun.
  - simpl in Hrun. injection Hrun as <- <-. unfold segments_extent. simpl.
    split; [lia|]. split; [constructor|]. split; [constructor|].
    intros i j S1 S2 _ Hi. destruct i; discriminate Hi.
  - apply Forall_cons in Hall as [[HA HS] Hall]. rewrite segments_extent_cons in Hfit.
    assert (Hext : 0 <= segments_extent Segs).
    { clear -Hall. induction Hall as [|T l [Ha Hs] _ IHl]; [unfold segments_extent; simpl; lia|].
      rewrite segments_extent_cons. lia. }
    destruct (alignTo_spec M (OutputSegment.Alignment S) HM HA ltac:(lia)) as [Hal Hdiv].
    simpl in Hrun.
    rewrite (wrap32_small (alignTo M (OutputSegment.Alignment S))) in Hrun by lia.
    rewrite (wrap32_small (alignTo M (OutputSegment.Alignment S) + OutputSegment.Size S)) in Hrun by lia.
    destruct (layoutSegments Segs (alignTo M (OutputSegment.Alignment S) + OutputSegment.Size S))
      as [rest M2] eqn:Erest.
    injection Hrun as <- <-.
    assert (H0 : 0 <= alignTo M (OutputSegment.Alignment S) + OutputSegment.Size S) by lia.
    assert (H1 : alignTo M (OutputSegment.Alignment S) + OutputSegment.Size S
                 + segments_extent Segs < 2 ^ 32) by lia.
    destruct (IH _ _ _ H0 Hall H1 Erest) as (Hb & Hf2 & Hin & Hord).
    destruct (withStartVA_proj (alignTo M (OutputSegment.Alignment S)) S)
      as (Pva & Psz & Pal & _).
    rewrite segments_extent_cons. split; [lia|]. split; [|split].
    + constructor; [|exact Hf2]. rewrite Pva. split; [reflexivity | exact Hdiv].
    + constructor.
      * unfold segment_end. rewrite Pva, Psz. lia.
      * eapply Forall_impl; [exact Hin|]. intros T [Ha Hb']. simpl in *. split; lia.
    + intros i j S1 S2 Hij Hi Hj. destruct j as [|j]; [lia|]. simpl in Hj.
      destruct i as [|i].
      * simpl in Hi. injection Hi as <-. unfold segment_end. rewrite Pva, Psz.
        rewrite Forall_lookup in Hin. destruct (Hin _ _ Hj) as [Hlo _]. exact Hlo.
      * simpl in Hi. eapply (Hord i j); [lia | eassumption ..].
Qed.

(** X3: the loop of [layoutMemory] over the output segments places them in
    the order of the list, each at a multiple of its alignment, at or after
    the address the loop starts from, without overlap; the address it ends
    with is at or after the end of every segment. Only the start addresses
    are written. This holds as long as the sizes and the paddings fit below
    2^32; the alignments are positive. *)
Theorem layoutSegments_placed (Segs Segs' : list OutputSegment.t) (M M' : Z) :
  0 <= M ->
  Forall (fun S => 0 < OutputSegment.Alignment S /\ 0 <= OutputSegment.Size S) Segs ->
  M + segments_extent Segs < 2 ^ 32 ->
  layoutSegments Segs M = (Segs', M') ->
  M <= M' /\
  Forall2 (fun S S' => S' = OutputSegment.withStartVA (OutputSegment.StartVA S') S /\
                       OutputSegment.StartVA S' mod OutputSegment.Alignment S = 0) Segs Segs' /\
  Forall (fun S' => M <= OutputSegment.StartVA S' /\ segment_end S' <= M') Segs' /\
  (forall (i j : nat) S1 S2, (i < j)%nat -> Segs' !! i = Some S1 -> Segs' !! j = Some S2 ->
     segment_end S1 <= OutputSegment.StartVA S2).
Proof.
  intros HM Hall Hfit Hrun.
  destruct (layoutSegments_spec Segs M Segs' M' HM Hall Hfit Hrun) as (Hb & Hf & Hin & Hord).
  split; [lia|]. split; [exact Hf|]. split; [exact Hin | exact Hord].
Qed.

Lemma layoutSegments_placed_witness :
  OutputSegment.StartVA <$> (layoutSegments ExampleSegments.segments 1024).1 = [1024; 1136; 1176] /\
  1024 <= (layoutSegments ExampleSegments.segments 1024).2.
Proof.
  destruct (layoutSegments_placed ExampleSegments.segments
              (layoutSegments ExampleSegments.segments 1024).1 1024
              (layoutSegments ExampleSegments.segments 1024).2) as (Hle & _).
  - lia.
  - unfold ExampleSegments.segments. repeat (constructor; [simpl; lia|]). constructor.
  - vm_compute. reflexivity.
  - reflexivity.
  - split; [vm_compute; reflexivity | exact Hle].
Defined.

(** *** The grouping of the input segments *)

Lemma filter_snoc_bool {A} (f : A -> bool) (l : list A) (x : A) :
  filter (fun c => f c) (l ++ [x]) = filter (fun c => f c) l ++ (if f x then [x] else []).
Proof.
  rewrite filter_app, filter_cons, filter_nil.
  destruct (f x); [rewrite decide_True by exact I | rewrite decide_False by (simpl; tauto)];
    reflexivity.
Qed.

Lemma filter_none_bool {A} (f : A -> bool) (l : list A) :
  (forall x, In x l -> f x = false) -> filter (fun c => f c) l = [].
Proof.
  induction l as [|x l IH]; intros H; [reflexivity|].
  rewrite filter_cons, (H x (or_introl eq_refl)).
  rewrite decide_False by (simpl; tauto). apply IH. intros y Hy. apply H. right. exact Hy.
Qed.

Lemma addInputSegment_Done (c : InputChunk.t) (S : OutputSegment.t) :
  InputChunk.Alignment c <> 0 ->
  exists S', addInputSegment c S = Done S' /\
             OutputSegment.Name S' = OutputSegment.Name S /\
             OutputSegment.Index S' = OutputSegment.Index S /\
             OutputSegment.InputSegments S' = OutputSegment.InputSegments S ++ [c].
Proof.
  intros Hal. unfold addInputSegment. apply Z.eqb_neq in Hal. rewrite Hal.
  eexists. split; [reflexivity|]. repeat split.
Qed.

Lemma withSegments_proj (l : list OutputSegment.t) (s : State) :
  same_link s (withW (Writer.withSegments l (W s)) s) /\
  Writer.Segments (W (withW (Writer.withSegments l (W s)) s)) = l /\
  Writer.SegmentMap (W (withW (Writer.withSegments l (W s)) s)) = Writer.SegmentMap (W s) /\
  Writer.abis (W (withW (Writer.withSegments l (W s)) s)) = Writer.abis (W s).
Proof. destruct s as [nd cfg st ws er w]; destruct w; repeat split. Qed.

Lemma withSegmentMap_proj (l : list OutputSegment.t) (m : gmap string nat) (s : State) :
  same_link s (withW (Writer.withSegments l (Writer.withSegmentMap m (W s))) s) /\
  Writer.Segments (W (withW (Writer.withSegments l (Writer.withSegmentMap m (W s))) s)) = l /\
  Writer.SegmentMap (W (withW (Writer.withSegments l (Writer.withSegmentMap m (W s))) s)) = m /\
  Writer.abis (W (withW (Writer.withSegments l (Writer.withSegmentMap m (W s))) s))
    = Writer.abis (W s).
Proof. destruct s as [nd cfg st ws er w]; destruct w; repeat split. Qed.

Lemma in_output_segment_name cfg n c :
  in_output_segment cfg n c = true <->
  InputChunk.Live c = true /\ getOutputDataSegmentName cfg (InputChunk.Name c) = n.
Proof.
  unfold in_output_segment. rewrite andb_true_iff, String.eqb_eq. reflexivity.
Qed.

(** One input segment: the invariant of the grouping is kept. *)
Lemma createOutputSegments_segment_spec (c : InputChunk.t) (done : list InputChunk.t) (s : State) :
  segments_grouped (Cfg s) done (W s) ->
  (InputChunk.Live c = true -> InputChunk.Alignment c <> 0) ->
  exists s', createOutputSegments_segment c s = Done s' /\ same_link s s' /\
             segments_grouped (Cfg s) (done ++ [c]) (W s') /\
             Writer.abis (W s') = Writer.abis (W s).
Proof.
  intros (Ha & Hb & Hc) Hal. unfold createOutputSegments_segment.
  destruct (InputChunk.Live c) eqn:El; simpl negb; cbv iota.
  2: { exists s. split; [reflexivity|]. split; [apply same_link_refl|]. split; [|reflexivity].
       assert (Hf : forall n, in_output_segment (Cfg s) n c = false)
         by (intros n; unfold in_output_segment; rewrite El; reflexivity).
       split; [|split].
       - intros k S HS. destruct (Ha k S HS) as (A1 & A2 & A3 & A4).
         rewrite filter_snoc_bool, Hf, app_nil_r. auto.
       - exact Hb.
       - intros c' Hin Hl. apply in_app_or in Hin as [Hin | [<- | []]]; [auto | congruence]. }
  specialize (Hal eq_refl).
  set (Name := getOutputDataSegmentName (Cfg s) (InputChunk.Name c)).
  assert (Hself : in_output_segment (Cfg s) Name c = true)
    by (apply in_output_segment_name; auto).
  destruct (Writer.SegmentMap (W s) !! Name) as [i|] eqn:Em.
  - destruct (Hb Name i Em) as (S & HS & HN).
    rewrite HS. simpl deref. rewrite bind_Done_l.
    destruct (addInputSegment_Done c S Hal) as (S' & -> & N' & I' & L'). rewrite bind_Done_l.
    destruct (withSegments_proj (<[i := S']> (Writer.Segments (W s))) s) as (Sl & P1 & P2 & P3).
    eexists. split; [reflexivity|]. split; [exact Sl|]. split; [|exact P3].
    assert (Hlt : (i < length (Writer.Segments (W s)))%nat) by (eapply lookup_lt_Some; exact HS).
    unfold segments_grouped. rewrite P1, P2. split; [|split].
    + intros k T HT. destruct (decide (k = i)) as [->|Hne].
      * rewrite list_lookup_insert_eq in HT by exact Hlt. injection HT as <-.
        destruct (Ha i S HS) as (A1 & A2 & A3 & A4).
        rewrite N', I', L'. split; [exact A1|]. split; [exact A2|]. split.
        -- rewrite filter_snoc_bool, A3, HN, Hself. reflexivity.
        -- destruct (OutputSegment.InputSegments S); discriminate.
      * rewrite list_lookup_insert_ne in HT by auto.
        destruct (Ha k T HT) as (A1 & A2 & A3 & A4).
        split; [exact A1|]. split; [exact A2|]. split; [|exact A4].
        rewrite filter_snoc_bool.
        assert (Hno : in_output_segment (Cfg s) (OutputSegment.Name T) c = false).
        { destruct (in_output_segment (Cfg s) (OutputSegment.Name T) c) eqn:E; [|reflexivity].
          apply in_output_segment_name in E as [_ E]. fold Name in E.
          exfalso. apply Hne. rewrite <- E in A2. congruence. }
        rewrite Hno, app_nil_r. exact A3.
    + intros n k Hn. destruct (Hb n k Hn) as (T & HT & HTn).
      destruct (decide (k = i)) as [->|Hne].
      * exists S'. split; [apply list_lookup_insert_eq; exact Hlt|]. rewrite N'. congruence.
      * exists T. split; [rewrite list_lookup_insert_ne by auto; exact HT | exact HTn].
    + intros c' Hin Hl. apply in_app_or in Hin as [Hin | [<- | []]]; [auto|].
      fold Name. rewrite Em. eauto.
  - set (i := length (Writer.Segments (W s))).
    set (new := newOutputSegment Name (wrap32 (Z.of_nat i))).
    destruct (withSegmentMap_proj (Writer.Segments (W s) ++ [new])
                (<[Name := i]> (Writer.SegmentMap (W s))) s) as (Sl1 & Q1 & Q2 & Q3).
    set (s1 := withW _ s) in *.
    rewrite Q1. rewrite (list_lookup_middle _ [] new i eq_refl).
    simpl deref. rewrite bind_Done_l.
    destruct (addInputSegment_Done c new Hal) as (S' & -> & N' & I' & L'). rewrite bind_Done_l.
    destruct (withSegments_proj (<[i := S']> (Writer.Segments (W s) ++ [new])) s1)
      as (Sl & P1 & P2 & P3).
    eexists. split; [reflexivity|].
    split; [eapply same_link_trans; eassumption|]. split; [|congruence].
    unfold segments_grouped. rewrite P1, P2, Q2.
    assert (Hins : <[i := S']> (Writer.Segments (W s) ++ [new]) = Writer.Segments (W s) ++ [S']).
    { rewrite insert_app_r_alt by (unfold i; lia). unfold i. rewrite Nat.sub_diag. reflexivity. }
    rewrite Hins.
    assert (Hfresh : forall c', In c' done -> in_output_segment (Cfg s) Name c' = false).
    { intros c' Hin. destruct (in_output_segment (Cfg s) Name c') eqn:E; [|reflexivity].
      apply in_output_segment_name in E as [E1 E2].
      destruct (Hc c' Hin E1) as [k Hk]. rewrite E2 in Hk. congruence. }
    split; [|split].
    + intros k T HT. apply lookup_app_Some in HT as [HT | [Hge HT]].
      * destruct (Ha k T HT) as (A1 & A2 & A3 & A4).
        assert (Hn : OutputSegment.Name T <> Name) by (intros E; rewrite E in A2; congruence).
        split; [exact A1|]. split; [rewrite lookup_insert_ne by auto; exact A2|].
        split; [|exact A4]. rewrite filter_snoc_bool.
        assert (Hno : in_output_segment (Cfg s) (OutputSegment.Name T) c = false).
        { destruct (in_output_segment (Cfg s) (OutputSegment.Name T) c) eqn:E; [|reflexivity].
          apply in_output_segment_name in E as [_ E]. fold Name in E. congruence. }
        rewrite Hno, app_nil_r. exact A3.
      * apply list_lookup_singleton_Some in HT as [Hk <-].
        assert (k = i) as -> by (fold i in Hge; lia).
        rewrite N', I', L'. simpl. split; [reflexivity|].
        split; [apply lookup_insert_eq|]. split; [|discriminate].
        rewrite filter_snoc_bool, (filter_none_bool _ done Hfresh), Hself. reflexivity.
    + intros n k Hn. destruct (decide (n = Name)) as [->|Hne].
      * rewrite lookup_insert_eq in Hn. injection Hn as <-.
        exists S'. split; [apply list_lookup_middle; reflexivity | exact N'].
      * rewrite lookup_insert_ne in Hn by auto. destruct (Hb n k Hn) as (T & HT & HTn).
        exists T. split; [apply lookup_app_l_Some; exact HT | exact HTn].
    + intros c' Hin Hl. apply in_app_or in Hin as [Hin | [<- | []]].
      * destruct (decide (getOutputDataSegmentName (Cfg s) (InputChunk.Name c') = Name)) as [->|Hne].
        -- rewrite lookup_insert_eq. eauto.
        -- rewrite lookup_insert_ne by auto. auto.
      * fold Name. rewrite lookup_insert_eq. eauto.
Qed.

Lemma createOutputSegments_segments_spec (l : list InputChunk.t) :
  forall done s,
    segments_grouped (Cfg s) done (W s) ->
    Forall (fun c => InputChunk.Live c = true -> InputChunk.Alignment c <> 0) l ->
    exists s', forEach createOutputSegments_segment l s = Done s' /\ same_link s s' /\
               segments_grouped (Cfg s) (done ++ l) (W s') /\
               Writer.abis (W s') = Writer.abis (W s).
Proof.
  induction l as [|c l IH]; intros done s Hinv Hall.
  - exists s. rewrite app_nil_r. split; [reflexivity|]. split; [apply same_link_refl|].
    split; [exact Hinv | reflexivity].
  - apply Forall_cons in Hall as [Hc Hall].
    destruct (createOutputSegments_segment_spec c done s Hinv Hc) as (s1 & H1 & L1 & I1 & A1).
    assert (Ecfg : Cfg s1 = Cfg s) by apply L1.
    rewrite <- Ecfg in I1.
    destruct (IH (done ++ [c]) s1 I1 Hall) as (s' & H2 & L2 & I2 & A2).
    exists s'. rewrite forEach_cons, H1, bind_Done_l. split; [exact H2|].
    split; [eapply same_link_trans; eassumption|]. split; [|congruence].
    rewrite Ecfg, <- app_assoc in I2. exact I2.
Qed.

Lemma withAbis_proj (l : list string) (s : State) :
  same_link s (withW (Writer.withAbis l (W s)) s) /\
  Writer.Segments (W (withW (Writer.withAbis l (W s)) s)) = Writer.Segments (W s) /\
  Writer.SegmentMap (W (withW (Writer.withAbis l (W s)) s)) = Writer.SegmentMap (W s) /\
  Writer.abis (W (withW (Writer.withAbis l (W s)) s)) = l.
Proof. destruct s as [nd cfg st ws er w]; destruct w; repeat split. Qed.

Lemma createOutputSegments_files_spec (files : list ObjFile.t) :
  forall done s,
    segments_grouped (Cfg s) done (W s) ->
    Forall (fun c => InputChunk.Live c = true -> InputChunk.Alignment c <> 0)
           (flat_map ObjFile.Segments files) ->
    exists s', forEach createOutputSegments_file files s = Done s' /\ same_link s s' /\
               segments_grouped (Cfg s) (done ++ flat_map ObjFile.Segments files) (W s') /\
               Writer.abis (W s')
                 = Writer.abis (W s) ++ filter (fun a : string => a <> "") (ObjFile.SnaxABI <$> files).
Proof.
  induction files as [|File files IH]; intros done s Hinv Hall.
  - exists s. simpl flat_map. rewrite !app_nil_r. split; [reflexivity|].
    split; [apply same_link_refl|]. split; [exact Hinv | reflexivity].
  - simpl flat_map in *. apply Forall_app in Hall as [HF Hall].
    rewrite forEach_cons, createOutputSegments_file_eq.
    set (s0 := if String.eqb (ObjFile.SnaxABI File) "" then s
               else withW (Writer.withAbis (Writer.abis (W s) ++ [ObjFile.SnaxABI File]) (W s)) s).
    assert (H0 : same_link s s0 /\ Writer.Segments (W s0) = Writer.Segments (W s) /\
                 Writer.SegmentMap (W s0) = Writer.SegmentMap (W s) /\
                 Writer.abis (W s0)
                 = Writer.abis (W s) ++ filter (fun a : string => a <> "") [ObjFile.SnaxABI File]).
    { unfold s0. rewrite filter_cons, filter_nil.
      destruct (String.eqb_spec (ObjFile.SnaxABI File) "") as [E | E].
      - rewrite decide_False by (intros H; apply H; exact E). rewrite app_nil_r.
        split; [apply same_link_refl | repeat split].
      - rewrite decide_True by exact E. apply withAbis_proj. }
    destruct H0 as (L0 & S0 & M0 & A0).
    assert (Ecfg0 : Cfg s0 = Cfg s) by apply L0.
    assert (I0 : segments_grouped (Cfg s0) done (W s0)).
    { rewrite Ecfg0. unfold segments_grouped in *. rewrite S0, M0. exact Hinv. }
    destruct (createOutputSegments_segments_spec (ObjFile.Segments File) done s0 I0 HF)
      as (s1 & H1 & L1 & I1 & A1).
    rewrite H1, bind_Done_l.
    assert (Ecfg1 : Cfg s1 = Cfg s0) by apply L1.
    rewrite <- Ecfg1 in I1.
    destruct (IH _ s1 I1 Hall) as (s' & H2 & L2 & I2 & A2).
    exists s'. split; [exact H2|].
    split; [eapply same_link_trans; [exact L0 | eapply same_link_trans; eassumption]|].
    split.
    + rewrite Ecfg1, Ecfg0, <- app_assoc in I2. exact I2.
    + rewrite A2, A1, A0, fmap_cons, <- app_assoc. f_equal.
      rewrite (filter_cons _ (ObjFile.SnaxABI File)), filter_cons, filter_nil.
      destruct (decide (ObjFile.SnaxABI File <> "")); reflexivity.
Qed.

(** X4: from a writer without output segments, and input segments whose
    alignment is not zero, [createOutputSegments] returns and changes only
    the writer: there is one output segment per output name of a live input
    segment, the names are distinct, the k-th output segment has the index k
    and is the entry of [SegmentMap] under its name, and it holds exactly
    the live input segments of that output name, in the order of the object
    files; a dead input segment is in no output segment; the ABIs that are
    not empty are collected in the order of the files. *)
Theorem createOutputSegments_groups (s : State) :
  Writer.Segments (W s) = [] ->
  Writer.SegmentMap (W s) = ∅ ->
  Forall (fun c => InputChunk.Live c = true -> InputChunk.Alignment c <> 0) (allSegments s) ->
  exists s',
    createOutputSegments s = Done s' /\ same_link s s' /\
    NoDup (OutputSegment.Name <$> Writer.Segments (W s')) /\
    (forall (k : nat) S, Writer.Segments (W s') !! k = Some S ->
       OutputSegment.Index S = wrap32 (Z.of_nat k) /\
       Writer.SegmentMap (W s') !! OutputSegment.Name S = Some k /\
       OutputSegment.InputSegments S
         = filter (fun c => in_output_segment (Cfg s) (OutputSegment.Name S) c) (allSegments s) /\
       OutputSegment.InputSegments S <> []) /\
    (forall c, In c (allSegments s) -> InputChunk.Live c = true ->
       exists (k : nat) S, Writer.Segments (W s') !! k = Some S /\
                           OutputSegment.Name S = getOutputDataSegmentName (Cfg s) (InputChunk.Name c)) /\
    Writer.abis (W s')
      = Writer.abis (W s) ++
        filter (fun a : string => a <> "") (ObjFile.SnaxABI <$> SymbolTable.ObjectFiles (Symtab s)).
Proof.
  intros Hsegs Hmap Hall.
  assert (Hinit : segments_grouped (Cfg s) [] (W s)).
  { unfold segments_grouped. rewrite Hsegs, Hmap. split; [|split].
    - intros k S HS. rewrite lookup_nil in HS. discriminate.
    - intros n k H. rewrite lookup_empty in H. discriminate.
    - intros c []. }
  destruct (createOutputSegments_files_spec _ [] s Hinit Hall) as (s' & Hrun & Hl & Hinv & Habi).
  exists s'. split; [exact Hrun|]. split; [exact Hl|].
  simpl app in Hinv. fold (allSegments s) in Hinv. destruct Hinv as (Ha & Hb & Hc).
  split; [|split; [exact Ha|split; [|exact Habi]]].
  - apply NoDup_alt. intros i j n Hi Hj.
    rewrite list_lookup_fmap in Hi, Hj.
    destruct (Writer.Segments (W s') !! i) as [Si|] eqn:Ei; [|discriminate].
    destruct (Writer.Segments (W s') !! j) as [Sj|] eqn:Ej; [|discriminate].
    simpl in Hi, Hj. injection Hi as Hi. injection Hj as Hj.
    destruct (Ha i Si Ei) as (_ & Mi & _), (Ha j Sj Ej) as (_ & Mj & _).
    rewrite Hi in Mi. rewrite Hj in Mj. congruence.
  - intros c Hin Hlive. destruct (Hc c Hin Hlive) as [k Hk].
    destruct (Hb _ k Hk) as (S & HS & HN). eauto.
Qed.

Lemma createOutputSegments_groups_witness :
  exists s', createOutputSegments ExampleGroups.state = Done s' /\
             OutputSegment.Name <$> Writer.Segments (W s') = [".data"; ".bss"; ".rodata"] /\
             NoDup (OutputSegment.Name <$> Writer.Segments (W s')).
Proof.
  destruct (createOutputSegments_groups ExampleGroups.state) as (s' & Hrun & _ & Hnd & _).
  - reflexivity.
  - reflexivity.
  - unfold allSegments. simpl. repeat (constructor; [simpl; intros; (discriminate || lia)|]).
    constructor.
  - exists s'. split; [exact Hrun|]. split; [|exact Hnd].
    vm_compute in Hrun. injection Hrun as <-. reflexivity.
Defined.

(** *** The stack *)

Lemma alignTo_fixed (V A : Z) :
  0 <= V -> 0 < A -> V + A <= 2 ^ 64 -> (V = alignTo V A <-> V mod A = 0).
Proof.
  intros HV HA Hfit. destruct (alignTo_spec V A HV HA Hfit) as [Hb Hd]. split.
  - intros E. rewrite E at 1. exact Hd.
  - intros Hm.
    apply Z.mod_divide in Hm; [|lia]. apply Z.mod_divide in Hd; [|lia].
    destruct Hm as [k Hk], Hd as [k' Hk'].
    assert (H1 : k' - k < 1) by nia. assert (H2 : 0 <= k' - k) by nia.
    assert (k' = k) as -> by lia. congruence.
Qed.

Lemma putGlob_proj gp G s :
  Cfg (putGlob gp G s) = Cfg s /\ WSym (putGlob gp G s) = WSym s /\
  W (putGlob gp G s) = W s /\ Errors (putGlob gp G s) = Errors s /\
  SymbolTable.Symbols (Symtab (putGlob gp G s)) = SymbolTable.Symbols (Symtab s) /\
  SymbolTable.Globals (Symtab (putGlob gp G s)) = <[gp := G]> (SymbolTable.Globals (Symtab s)).
Proof. destruct s as [nd cfg st ws er w]; destruct st; repeat split. Qed.




(** *** The pages of the memory *)

(** What the steps of [layoutMemory] leave alone: the configuration and the
    synthetic symbols; the error sink only grows. *)
Lemma createOutputSegments_segment_frame c s s' :
  createOutputSegments_segment c s = Done s' -> same_link s s'.
Proof.
  unfold createOutputSegments_segment. intros H.
  destruct (negb (InputChunk.Live c)); [inv_Done; apply same_link_refl|].
  destruct (Writer.SegmentMap (W s) !! _).
  - inv_bind H as S HS. inv_bind H as S' HS'. inv_Done. apply same_link_withW.
  - inv_bind H as S HS. inv_bind H as S' HS'. inv_Done.
    eapply same_link_trans; apply same_link_withW.
Qed.

Lemma createOutputSegments_frame s s' : createOutputSegments s = Done s' -> same_link s s'.
Proof.
  unfold createOutputSegments.
  apply (forEach_invariant _ (same_link s)); [|apply same_link_refl].
  intros File a a' _ Ha Hrun. rewrite createOutputSegments_file_eq in Hrun.
  eapply same_link_trans; [exact Ha|].
  revert Hrun. apply (forEach_invariant _ (same_link a)).
  - intros c b b' _ Hb Hrun. eapply same_link_trans; [exact Hb|].
    eapply createOutputSegments_segment_frame. exact Hrun.
  - destruct (String.eqb _ _); [apply same_link_refl | apply same_link_withW].
Qed.

Lemma layoutSegments_range (Segs : list OutputSegment.t) :
  forall M Segs' M', 0 <= M < 2 ^ 32 -> layoutSegments Segs M = (Segs', M') -> 0 <= M' < 2 ^ 32.
Proof.
  induction Segs as [|S Segs IH]; intros M Segs' M' HM Hrun; simpl in Hrun.
  - injection Hrun as _ <-. exact HM.
  - destruct (layoutSegments Segs _) as [rest M2] eqn:E. injection Hrun as _ <-.
    eapply IH; [|exact E]. apply wrap32_range.
Qed.

Lemma setVirtualAddress_frame p a s s' :
  setVirtualAddress p a s = Done s' ->
  Cfg s' = Cfg s /\ WSym s' = WSym s /\ Errors s' = Errors s /\ W s' = W s /\
  getVirtualAddress p s' = Done a.
Proof.
  unfold setVirtualAddress, getSym. intros H. inv_bind H as sym Hsym. inv_Done.
  assert (Hlt : (p < length (SymbolTable.Symbols (Symtab s)))%nat)
    by (eapply lookup_lt_Some; exact Hsym).
  destruct (putSym_proj p (Symbol.withVirtualAddress a sym) s) as (_ & Es & _ & Ew).
  unfold getVirtualAddress, getSym. rewrite Es, list_lookup_insert_eq by exact Hlt.
  split; [|split; [|split; [|split; [exact Ew|]]]];
    try (destruct s as [nd cfg st ws er w]; destruct st; reflexivity).
  destruct sym; reflexivity.
Qed.

Lemma setOptVirtualAddress_frame p a s s' :
  setOptVirtualAddress p a s = Done s' ->
  Cfg s' = Cfg s /\ WSym s' = WSym s /\ Errors s' = Errors s /\ W s' = W s.
Proof.
  destruct p as [p|]; simpl; intros H; [|inv_Done; auto].
  destruct (setVirtualAddress_frame _ _ _ _ H) as (A & B & C & D & _). auto.
Qed.

Lemma PlaceStack_frame M s M' s' :
  PlaceStack (M, s) = Done (M', s') ->
  Cfg s' = Cfg s /\ WSym s' = WSym s /\ W s' = W s /\
  (exists more, Errors s' = Errors s ++ more) /\
  (Config.Relocatable (Cfg s) = false -> 0 <= M' < 2 ^ 32) /\
  (Config.Relocatable (Cfg s) = true -> M' = M).
Proof.
  unfold PlaceStack. intros H. destruct (Config.Relocatable (Cfg s)) eqn:Er.
  - inv_Done. split; [reflexivity|]. split; [reflexivity|]. split; [reflexivity|].
    split; [exists []; rewrite app_nil_r; reflexivity|]. split; [discriminate | reflexivity].
  - set (s1 := if negb _ then error _ s else s) in H.
    assert (H1 : Cfg s1 = Cfg s /\ WSym s1 = WSym s /\ W s1 = W s /\
                 exists more, Errors s1 = Errors s ++ more).
    { unfold s1. destruct (negb _).
      - destruct s as [nd cfg st ws er w]. repeat split. eexists. reflexivity.
      - repeat split. exists []. rewrite app_nil_r. reflexivity. }
    destruct H1 as (C1 & W1 & Wr1 & Er1). clearbody s1.
    inv_bind H as s2 Hset. injection H as <- <-.
    unfold setStackPointerInit, getSym, getGlob in Hset.
    inv_bind Hset as sp Hsp. inv_bind Hset as Sym HSym. inv_bind Hset as gp Hgp.
    inv_bind Hset as G HG. inv_Done.
    destruct (putGlob_proj gp (InputGlobal.setInitValue
                (to_int32 (wrap32 (wrap32 (alignTo M kStackAlignment) + Config.ZStackSize (Cfg s)))) G) s1)
      as (P1 & P2 & P3 & P4 & _).
    rewrite P1, P2, P3, P4. split; [exact C1|]. split; [exact W1|]. split; [exact Wr1|].
    split; [exact Er1|]. split; [intros _; apply wrap32_range | discriminate].
Qed.

Lemma pages_cover (M : Z) :
  0 <= M < 2 ^ 32 ->
  (M <= 2 ^ 32 - WasmPageSize ->
     M <= wrap32 (alignTo M WasmPageSize) / WasmPageSize * WasmPageSize < M + WasmPageSize) /\
  (2 ^ 32 - WasmPageSize < M -> wrap32 (alignTo M WasmPageSize) / WasmPageSize = 0).
Proof.
  intros HM. unfold WasmPageSize in *.
  destruct (alignTo_spec M 65536 ltac:(lia) ltac:(lia) ltac:(lia)) as [Hb Hd].
  apply Z.mod_divide in Hd; [|lia]. destruct Hd as [k Hk]. split; intros H.
  - rewrite wrap32_small by lia. rewrite Hk, Z.div_mul by lia. lia.
  - assert (k = 65536) as -> by lia. rewrite Hk. reflexivity.
Qed.



(** [layoutMemory] ends with [memoryPages]. *)
Lemma layoutMemory_eq (s : State) :
  layoutMemory s =
  (s ← createOutputSegments s;
   '(MemoryPtr, s) ←
     (if Config.StackFirst (Cfg s) then PlaceStack (0, s)
      else Done (Config.GlobalBase (Cfg s), s));
   let DataStart := MemoryPtr in
   s ← setOptVirtualAddress (WasmSym.DsoHandle (WSym s)) DataStart s;
   let '(Segs, MemoryPtr) := layoutSegments (Writer.Segments (W s)) MemoryPtr in
   let s := withW (Writer.withSegments Segs (W s)) s in
   s ← setOptVirtualAddress (WasmSym.DataEnd (WSym s)) MemoryPtr s;
   '(MemoryPtr, s) ←
     (if negb (Config.StackFirst (Cfg s)) then PlaceStack (MemoryPtr, s)
      else Done (MemoryPtr, s));
   s ← (if negb (Config.Relocatable (Cfg s)) then
          hb ← deref (WasmSym.HeapBase (WSym s)); setVirtualAddress hb MemoryPtr s
        else Done s);
   Done (memoryPages MemoryPtr s)).
Proof.
  unfold layoutMemory, memoryPages.
  destruct (createOutputSegments s) as [s1| | |]; try reflexivity. simpl.
  destruct (if Config.StackFirst (Cfg s1) then _ else _) as [[M1 s2]| | |]; try reflexivity. simpl.
  destruct (setOptVirtualAddress _ _ _) as [s3| | |]; try reflexivity. simpl.
  destruct (layoutSegments _ _) as [Segs M2].
  destruct (setOptVirtualAddress _ _ _) as [s5| | |]; try reflexivity. simpl.
  destruct (if negb _ then _ else _) as [[M3 s6]| | |]; try reflexivity. simpl.
  destruct (if negb _ then _ else _) as [s7| | |]; try reflexivity. simpl.
  destruct (negb (Config.InitialMemory (Cfg s7) =? 0)); [|reflexivity].
  destruct (Config.InitialMemory _ <? M3); reflexivity.
Qed.

Lemma memoryPages_spec (M : Z) (s : State) :
  Cfg (memoryPages M s) = Cfg s /\ Symtab (memoryPages M s) = Symtab s /\
  WSym (memoryPages M s) = WSym s /\
  exists more,
    Errors (memoryPages M s) = Errors s ++ more /\
    (Config.InitialMemory (Cfg s) = 0 \/ Config.InitialMemory (Cfg s) < M ->
       Writer.NumMemoryPages (W (memoryPages M s)) = wrap32 (alignTo M WasmPageSize) / WasmPageSize) /\
    (Config.InitialMemory (Cfg s) <> 0 -> Config.InitialMemory (Cfg s) < M ->
       In "initial memory too small" more) /\
    (Config.InitialMemory (Cfg s) <> 0 -> M <= Config.InitialMemory (Cfg s) ->
       Writer.NumMemoryPages (W (memoryPages M s))
       = wrap32 (alignTo (Config.InitialMemory (Cfg s)) WasmPageSize) / WasmPageSize) /\
    (Config.InitialMemory (Cfg s) <> 0 ->
       Config.InitialMemory (Cfg s) <> alignTo (Config.InitialMemory (Cfg s)) WasmPageSize ->
       In "initial memory must be 65536-byte aligned" more) /\
    (Config.MaxMemory (Cfg s) <> 0 ->
       Writer.MaxMemoryPages (W (memoryPages M s)) = Config.MaxMemory (Cfg s) / WasmPageSize /\
       (Config.MaxMemory (Cfg s) < M -> In "maximum memory too small" more)).
Proof.
  destruct s as [nd cfg st ws er w]; destruct w.
  cbv beta iota zeta delta [memoryPages error withW withErrors Writer.withNumMemoryPages
                            Writer.withMaxMemoryPages Cfg W Errors Symtab WSym
                            Writer.NumMemoryPages Writer.MaxMemoryPages].
  (destruct (Z.eqb_spec (Config.InitialMemory cfg) 0) as [I0 | I0];
   cbv beta iota zeta delta [negb Cfg W Errors Symtab WSym];
   [|destruct (Z.eqb_spec (Config.InitialMemory cfg) (alignTo (Config.InitialMemory cfg) WasmPageSize))
       as [I1 | I1];
     cbv beta iota zeta delta [negb Cfg W Errors Symtab WSym];
     (destruct (Z.ltb_spec (Config.InitialMemory cfg) M) as [I2 | I2]);
     cbv beta iota zeta delta [negb Cfg W Errors Symtab WSym]]);
  (destruct (Z.eqb_spec (Config.MaxMemory cfg) 0) as [M0 | M0];
   cbv beta iota zeta delta [negb Cfg W Errors Symtab WSym];
   [|destruct (Z.eqb_spec (Config.MaxMemory cfg) (alignTo (Config.MaxMemory cfg) WasmPageSize))
       as [M1 | M1];
     cbv beta iota zeta delta [negb Cfg W Errors Symtab WSym];
     match goal with
     | |- context [?a <? ?b] => destruct (Z.ltb_spec a b)
     end;
     cbv beta iota zeta delta [negb Cfg W Errors Symtab WSym]]);
  cbv beta iota zeta delta [Writer.NumMemoryPages Writer.MaxMemoryPages];
  (split; [reflexivity|]); (split; [reflexivity|]); (split; [reflexivity|]);
  (first [ exists []; split; [symmetry; apply app_nil_r|]
         | eexists; split; [rewrite <- ?app_assoc; reflexivity|] ]);
  repeat split; intros; try reflexivity; try contradiction; try lia;
  try (simpl; tauto).
Qed.

(** The memory pointer [PlaceStack] returns in a link that is not
    relocatable: the stack top. *)
Lemma PlaceStack_top M s M' s' :
  PlaceStack (M, s) = Done (M', s') ->
  Config.Relocatable (Cfg s) = false ->
  M' = wrap32 (wrap32 (alignTo M kStackAlignment) + Config.ZStackSize (Cfg s)).
Proof.
  unfold PlaceStack. intros H Hr. rewrite Hr in H.
  destruct (setStackPointerInit _ _) as [s2| | |]; try discriminate.
  simpl in H. injection H as <- _. reflexivity.
Qed.

Lemma memoryPages_Segments (M : Z) (s : State) :
  Writer.Segments (W (memoryPages M s)) = Writer.Segments (W s).
Proof.
  destruct s as [nd cfg st ws er w]; destruct w.
  cbv beta iota zeta delta [memoryPages error withW withErrors Writer.withNumMemoryPages
                            Writer.withMaxMemoryPages Cfg W Errors Symtab WSym
                            Writer.NumMemoryPages Writer.MaxMemoryPages Writer.Segments].
  repeat match goal with
         | |- context [if ?b then _ else _] => destruct b
         end; reflexivity.
Qed.

(** X6: in a link that is not relocatable, [layoutMemory] sets
    [__heap_base] to the address [a] where the data and the stack end, and
    only adds to the error sink: with the stack first, the output segments
    are laid out from the stack top above address 0 and [a] is where they
    end; otherwise they are laid out from the global base and [a] is the
    top of the stack placed behind them. The segments of the writer are the
    ones so laid out. Without an initial memory size, or with one
    that is too small (which is reported), the number of pages is the least
    that covers [a]; for [a] above 2^32 - 65536 the 32-bit size wraps and
    the number of pages is 0. An initial memory size that is large enough
    gives the pages; one that is not a multiple of 65536 is reported. A
    maximal memory size gives the maximal number of pages and is reported
    when it is below [a]. *)
Theorem layoutMemory_pages (s s' : State) :
  layoutMemory s = Done s' ->
  Config.Relocatable (Cfg s) = false ->
  exists hb a more,
    WasmSym.HeapBase (WSym s) = Some hb /\
    getVirtualAddress hb s' = Done a /\ 0 <= a < 2 ^ 32 /\
    Cfg s' = Cfg s /\ Errors s' = Errors s ++ more /\
    (Config.InitialMemory (Cfg s) = 0 \/ Config.InitialMemory (Cfg s) < a ->
       (a <= 2 ^ 32 - WasmPageSize ->
          a <= Writer.NumMemoryPages (W s') * WasmPageSize < a + WasmPageSize) /\
       (2 ^ 32 - WasmPageSize < a -> Writer.NumMemoryPages (W s') = 0)) /\
    (Config.InitialMemory (Cfg s) <> 0 -> Config.InitialMemory (Cfg s) < a ->
       In "initial memory too small" more) /\
    (Config.InitialMemory (Cfg s) <> 0 ->
       a <= Config.InitialMemory (Cfg s) <= 2 ^ 32 - WasmPageSize ->
       Config.InitialMemory (Cfg s) <= Writer.NumMemoryPages (W s') * WasmPageSize
         < Config.InitialMemory (Cfg s) + WasmPageSize) /\
    (0 < Config.InitialMemory (Cfg s) < 2 ^ 32 ->
       Config.InitialMemory (Cfg s) mod WasmPageSize <> 0 ->
       In "initial memory must be 65536-byte aligned" more) /\
    (Config.MaxMemory (Cfg s) <> 0 ->
       Writer.MaxMemoryPages (W s') = Config.MaxMemory (Cfg s) / WasmPageSize /\
       (Config.MaxMemory (Cfg s) < a -> In "maximum memory too small" more)) /\
    exists s1 Segs dataEnd,
      let stackTop := fun M =>
        wrap32 (wrap32 (alignTo M kStackAlignment) + Config.ZStackSize (Cfg s)) in
      createOutputSegments s = Done s1 /\
      layoutSegments (Writer.Segments (W s1))
        (if Config.StackFirst (Cfg s) then stackTop 0 else Config.GlobalBase (Cfg s))
      = (Segs, dataEnd) /\
      Writer.Segments (W s') = Segs /\
      a = (if Config.StackFirst (Cfg s) then dataEnd else stackTop dataEnd).
Proof.
  intros H Hrel. rewrite layoutMemory_eq in H.
  inv_bind H as s1 H1. pose proof (createOutputSegments_frame _ _ H1) as (_ & C1 & _ & W1 & E1).
  inv_bind H as acc2 H2. destruct acc2 as [M1 s2].
  assert (F2 : Cfg s2 = Cfg s1 /\ WSym s2 = WSym s1 /\ (exists more, Errors s2 = Errors s1 ++ more) /\
               (Config.StackFirst (Cfg s1) = true -> 0 <= M1 < 2 ^ 32) /\
               W s2 = W s1 /\
               M1 = (if Config.StackFirst (Cfg s)
                     then wrap32 (wrap32 (alignTo 0 kStackAlignment) + Config.ZStackSize (Cfg s))
                     else Config.GlobalBase (Cfg s))).
  { rewrite <- C1. destruct (Config.StackFirst (Cfg s1)).
    - destruct (PlaceStack_frame _ _ _ _ H2) as (A & B & Wr & D & E & _).
      pose proof (PlaceStack_top _ _ _ _ H2 ltac:(congruence)) as Etop.
      rewrite C1 in E.
      split; [exact A|]. split; [exact B|]. split; [exact D|].
      split; [intros _; exact (E Hrel)|]. split; [exact Wr | exact Etop].
    - injection H2 as <- <-. split; [reflexivity|]. split; [reflexivity|].
      split; [exists []; rewrite app_nil_r; reflexivity|].
      split; [discriminate|]. split; reflexivity. }
  destruct F2 as (C2 & W2 & [m2 E2] & R2 & Wr2 & EM1).
  inv_bind H as s3 H3. destruct (setOptVirtualAddress_frame _ _ _ _ H3) as (C3 & W3 & E3 & Wr3).
  destruct (layoutSegments (Writer.Segments (W s3)) M1) as [Segs M2] eqn:ELS.
  set (s4 := withW (Writer.withSegments Segs (W s3)) s3) in H.
  destruct (withSegments_proj Segs s3) as ((_ & C4 & _ & W4 & E4) & Sg4 & _).
  fold s4 in C4, W4, E4, Sg4.
  inv_bind H as s5 H5. destruct (setOptVirtualAddress_frame _ _ _ _ H5) as (C5 & W5 & E5 & Wr5).
  inv_bind H as acc6 H6. destruct acc6 as [M3 s6].
  assert (C15 : Cfg s5 = Cfg s) by congruence.
  assert (F6 : Cfg s6 = Cfg s5 /\ WSym s6 = WSym s5 /\ (exists more, Errors s6 = Errors s5 ++ more) /\
               0 <= M3 < 2 ^ 32 /\
               W s6 = W s5 /\
               M3 = (if Config.StackFirst (Cfg s) then M2
                     else wrap32 (wrap32 (alignTo M2 kStackAlignment)
                                  + Config.ZStackSize (Cfg s)))).
  { rewrite <- C15. destruct (Config.StackFirst (Cfg s5)) eqn:Esf; simpl negb in H6; cbv iota in H6.
    - injection H6 as <- <-. split; [reflexivity|]. split; [reflexivity|].
      split; [exists []; rewrite app_nil_r; reflexivity|].
      split; [|split; reflexivity].
      eapply layoutSegments_range; [|exact ELS]. apply R2. congruence.
    - destruct (PlaceStack_frame _ _ _ _ H6) as (A & B & Wr & D & E & _).
      pose proof (PlaceStack_top _ _ _ _ H6 ltac:(congruence)) as Etop.
      rewrite C15 in E.
      split; [exact A|]. split; [exact B|]. split; [exact D|].
      split; [exact (E Hrel)|]. split; [exact Wr | exact Etop]. }
  destruct F6 as (C6 & W6 & [m6 E6] & R6 & Wr6 & EM3).
  assert (C16 : Cfg s6 = Cfg s) by congruence.
  rewrite C16, Hrel in H. simpl negb in H. cbv iota in H.
  inv_bind H as s7 H7. inv_bind H7 as hb Hhb. apply deref_Done in Hhb. injection H as <-.
  destruct (setVirtualAddress_frame _ _ _ _ H7) as (C7 & W7 & E7 & Wr7 & G7).
  assert (C17 : Cfg s7 = Cfg s) by congruence.
  assert (E17 : Errors s7 = Errors s ++ m2 ++ m6).
  { rewrite E7, E6, E5, E4, E3, E2, E1, app_assoc. reflexivity. }
  destruct (memoryPages_spec M3 s7) as (Cp & Sp & Wp & more & Ep & P1 & P2 & P3 & P4 & P5).
  rewrite C17 in P1, P2, P3, P4, P5.
  destruct (pages_cover M3 R6) as [Pc1 Pc2].
  exists hb, M3, (m2 ++ m6 ++ more).
  split; [congruence|]. split.
  { unfold getVirtualAddress, getSym in *. rewrite Sp. exact G7. }
  split; [exact R6|]. split; [congruence|].
  split; [rewrite Ep, E17, <- !app_assoc; reflexivity|].
  split; [|split; [|split; [|split; [|split]]]]; cycle 5.
  { exists s1, Segs, M2. split; [exact H1|]. split; [|split].
    - rewrite <- EM1, <- Wr2, <- Wr3. exact ELS.
    - rewrite memoryPages_Segments, Wr7, Wr6, Wr5. exact Sg4.
    - exact EM3. }
  - intros Hc. rewrite (P1 Hc). split; [exact Pc1 | exact Pc2].
  - intros Hn Hlt. apply in_or_app. right. apply in_or_app. right. exact (P2 Hn Hlt).
  - intros Hn [Hle Hfit]. rewrite (P3 Hn Hle).
    apply (pages_cover (Config.InitialMemory (Cfg s))); lia.
  - intros Hr Hmod. apply in_or_app. right. apply in_or_app. right. apply P4; [lia|].
    intros E. apply Hmod.
    apply (alignTo_fixed (Config.InitialMemory (Cfg s)) WasmPageSize);
      [lia | unfold WasmPageSize; lia | unfold WasmPageSize; lia | exact E].
  - intros Hn. destruct (P5 Hn) as [Q1 Q2]. split; [exact Q1|].
    intros Hlt. apply in_or_app. right. apply in_or_app. right. exact (Q2 Hlt).
Qed.

Lemma layoutMemory_pages_witness :
  exists s', layoutMemory ExampleLayout.state = Done s' /\
             getVirtualAddress 1%nat s' = Done 5232 /\
             5232 <= Writer.NumMemoryPages (W s') * WasmPageSize < 5232 + WasmPageSize.
Proof.
  pose (s' := match layoutMemory ExampleLayout.state with
              | Done a => a
              | _ => ExampleLayout.state
              end).
  assert (Hrun : layoutMemory ExampleLayout.state = Done s') by (vm_compute; reflexivity).
  destruct (layoutMemory_pages ExampleLayout.state s' Hrun eq_refl)
    as (hb & a & more & Hhb & Ha & _ & _ & _ & Hp & _).
  injection Hhb as <-.
  assert (Ea : a = 5232) by (vm_compute in Ha; congruence). subst a.
  exists s'. split; [exact Hrun|]. split; [exact Ha|].
  apply Hp; [left; reflexivity | unfold WasmPageSize; lia].
Defined.

(** ** Function and global indices *)

(** A loop that visits every element once keeps an invariant indexed by
    the elements visited so far. *)
Lemma forEach_numbered {A S} (body : A -> S -> Outcome S) (Inv : list A -> S -> Prop) :
  (forall done x s s', Inv done s -> ~ In x done -> body x s = Done s' -> Inv (done ++ [x]) s') ->
  forall l done s s',
    Inv done s -> NoDup (done ++ l) -> forEach body l s = Done s' -> Inv (done ++ l) s'.
Proof.
  intros Hstep. induction l as [|x l IH]; intros done s s' Hinv Hnd Hrun.
  - rewrite forEach_nil in Hrun. inv_Done. rewrite app_nil_r. exact Hinv.
  - rewrite forEach_cons in Hrun. inv_bind Hrun as s1 H1.
    replace (done ++ x :: l) with ((done ++ [x]) ++ l) in * by (rewrite <- app_assoc; reflexivity).
    eapply IH; [|exact Hnd|exact Hrun].
    eapply Hstep; [exact Hinv| |exact H1].
    apply NoDup_app in Hnd as (Hnd & _ & _). apply NoDup_app in Hnd as (_ & Hd & _).
    intros Hin. apply (Hd x); [apply list_elem_of_In; exact Hin | apply list_elem_of_singleton; reflexivity].
Qed.

(** The same through an outer loop whose body runs the inner loop over
    the items of its element. *)
Lemma forEach_files_numbered {A B S} (fbody : B -> S -> Outcome S) (body : A -> S -> Outcome S)
    (Inv : list A -> S -> Prop) (items : B -> list A) :
  (forall done x s s', Inv done s -> ~ In x done -> body x s = Done s' -> Inv (done ++ [x]) s') ->
  (forall done i s s', Inv done s -> fbody i s = Done s' -> forEach body (items i) s = Done s') ->
  forall idxs done s s',
    Inv done s -> NoDup (done ++ flat_map items idxs) -> forEach fbody idxs s = Done s' ->
    Inv (done ++ flat_map items idxs) s'.
Proof.
  intros Hstep Hf. induction idxs as [|i idxs IH]; intros done s s' Hinv Hnd Hrun.
  - rewrite forEach_nil in Hrun. inv_Done. simpl. rewrite app_nil_r. exact Hinv.
  - rewrite forEach_cons in Hrun. inv_bind Hrun as s1 H1. simpl flat_map in *.
    rewrite app_assoc in *. eapply IH; [|exact Hnd|exact Hrun].
    eapply (forEach_numbered body Inv Hstep); [exact Hinv| |eapply Hf; eassumption].
    apply NoDup_app in Hnd as (Hnd & _ & _). exact Hnd.
Qed.

Lemma flat_map_seq_lookup {A B} (g : A -> list B) (l : list A) :
  forall pre,
    flat_map (fun i => match (pre ++ l) !! i with Some x => g x | None => [] end)
             (seq (length pre) (length l))
    = flat_map g l.
Proof.
  induction l as [|x l IH]; intros pre; [reflexivity|].
  simpl length. rewrite <- cons_seq. simpl flat_map.
  rewrite (list_lookup_middle pre l x (length pre) eq_refl). f_equal.
  specialize (IH (pre ++ [x])). rewrite <- app_assoc, length_app in IH. simpl in IH.
  rewrite Nat.add_1_r in IH. exact IH.
Qed.

Lemma wrap32_succ z : wrap32 (wrap32 z + 1) = wrap32 (z + 1).
Proof. unfold wrap32. rewrite Zplus_mod_idemp_l. reflexivity. Qed.

Lemma AddDefinedFunction_live_proj Func i F s :
  let s' := putFunc Func (InputFunction.setFunctionIndex i F)
              (withW (Writer.withInputFunctions (Writer.InputFunctions (W s) ++ [Func]) (W s)) s) in
  SymbolTable.Functions (Symtab s') = <[Func := InputFunction.setFunctionIndex i F]> (SymbolTable.Functions (Symtab s)) /\
  Writer.InputFunctions (W s') = Writer.InputFunctions (W s) ++ [Func] /\
  SymbolTable.ObjectFiles (Symtab s') = SymbolTable.ObjectFiles (Symtab s) /\
  globals_frame s s'.
Proof. destruct s as [nd cfg st ws er w]; destruct st, w; repeat split. Qed.

Lemma setFunctionIndex_proj i F :
  InputFunction.FunctionIndex (InputFunction.setFunctionIndex i F) = Some i /\
  InputFunction.Live (InputFunction.setFunctionIndex i F) = InputFunction.Live F.
Proof. destruct F; split; reflexivity. Qed.

Lemma filter_bool_In {A} (f : A -> bool) (l : list A) (x : A) :
  In x (filter (fun y => f y) l) <-> In x l /\ f x = true.
Proof.
  rewrite <- !list_elem_of_In, list_elem_of_filter. split.
  - intros [H1 H2]. split; [exact H2|]. destruct (f x); [reflexivity | destruct H1].
  - intros [H1 H2]. split; [rewrite H2; exact I | exact H1].
Qed.

(** One input function: the invariant of the numbering is kept. *)
Lemma AddDefinedFunction_numbered (s0 : State) (base : Z) (done : list FuncPtr)
    (fp : FuncPtr) (acc acc' : Z * State) :
  functions_numbered s0 base done acc -> ~ In fp done ->
  AddDefinedFunction fp acc = Done acc' ->
  functions_numbered s0 base (done ++ [fp]) acc'.
Proof.
  destruct acc as [FI s]. intros (I1 & I2 & I3 & I4 & I5 & I6) Hnew H.
  simpl in I1, I2, I3, I4, I5, I6. subst FI.
  unfold AddDefinedFunction, getFunc in H. inv_bind H as F HF. inv_Done.
  assert (Hlive : function_live s0 fp = InputFunction.Live F).
  { rewrite <- I5. unfold function_live. rewrite HF. reflexivity. }
  unfold functions_numbered. rewrite filter_snoc_bool, Hlive.
  destruct (InputFunction.Live F) eqn:El; simpl negb in H; cbv iota in H; inv_Done; simpl.
  - (* a live function *)
    destruct (AddDefinedFunction_live_proj fp
                (wrap32 (base + Z.of_nat (length (filter (fun fp => function_live s0 fp) done)))) F s)
      as (P1 & P2 & P3 & _).
    cbv zeta in P1, P2, P3. rewrite P1, P2, P3.
    assert (Hlt : (fp < length (SymbolTable.Functions (Symtab s)))%nat)
      by (eapply lookup_lt_Some; exact HF).
    destruct (setFunctionIndex_proj
                (wrap32 (base + Z.of_nat (length (filter (fun fp => function_live s0 fp) done)))) F)
      as [SF SL].
    split; [|split; [|split; [|split; [|split]]]].
    + rewrite wrap32_succ, length_app. simpl. f_equal. lia.
    + rewrite I2, app_assoc. reflexivity.
    + intros k q Hq. apply lookup_app_Some in Hq as [Hq | [Hge Hq]].
      * assert (q <> fp).
        { intros ->. apply Hnew. apply list_elem_of_lookup_2 in Hq.
          apply list_elem_of_In, filter_bool_In in Hq. tauto. }
        rewrite list_lookup_insert_ne by auto. exact (I3 k q Hq).
      * apply list_lookup_singleton_Some in Hq as [Hk <-].
        rewrite list_lookup_insert_eq by exact Hlt. eexists. split; [reflexivity|].
        rewrite SF. do 3 f_equal. lia.
    + intros q Hq. assert (q <> fp) by (intros ->; apply Hq; apply in_or_app; right; left; reflexivity).
      rewrite list_lookup_insert_ne by auto. apply I4. intros Hin. apply Hq.
      apply in_or_app. left. exact Hin.
    + intros q. rewrite <- I5.
      assert (Hq : forall st, function_live st q
                = match SymbolTable.Functions (Symtab st) !! q with
                  | Some f => InputFunction.Live f
                  | None => false
                  end) by reflexivity.
      rewrite !Hq, P1.
      destruct (decide (q = fp)) as [->|Hne].
      * rewrite list_lookup_insert_eq by exact Hlt. rewrite HF, SL. reflexivity.
      * rewrite list_lookup_insert_ne by auto. reflexivity.
    + exact I6.
  - (* a dead function *)
    rewrite !app_nil_r. auto 10.
Qed.

Lemma AddDefinedFunction_loop (s0 : State) (base : Z) (l : list FuncPtr) :
  forall done acc acc',
    functions_numbered s0 base done acc -> NoDup (done ++ l) ->
    forEach AddDefinedFunction l acc = Done acc' ->
    functions_numbered s0 base (done ++ l) acc'.
Proof.
  apply (forEach_numbered AddDefinedFunction (functions_numbered s0 base)).
  intros done x s s'. apply AddDefinedFunction_numbered.
Qed.

(** What is kept of the globals. *)
Lemma globals_frame_refl s : globals_frame s s.
Proof. repeat split. Qed.

Lemma globals_frame_trans s1 s2 s3 :
  globals_frame s1 s2 -> globals_frame s2 s3 -> globals_frame s1 s3.
Proof. unfold globals_frame. intuition congruence. Qed.

Lemma putFunc_globals fp f s :
  globals_frame s (putFunc fp f s) /\ W (putFunc fp f s) = W s.
Proof. destruct s as [nd cfg st ws er w]; destruct st; repeat split. Qed.

Lemma putSym_globals p x s :
  globals_frame s (putSym p x s) /\ W (putSym p x s) = W s.
Proof. destruct s as [nd cfg st ws er w]; destruct st; repeat split. Qed.

Lemma putFile_globals File F F' s :
  SymbolTable.ObjectFiles (Symtab s) !! File = Some F -> ObjFile.Globals F' = ObjFile.Globals F ->
  globals_frame s (putFile File F' s) /\ W (putFile File F' s) = W s.
Proof.
  intros HF HG. destruct s as [nd cfg st ws er w]; destruct st; simpl in *.
  split; [|reflexivity]. split; [reflexivity|]. split; [|repeat split].
  simpl. eapply fmap_insert_same; eassumption.
Qed.

Lemma setTableIndex_globals p T s s1 :
  setTableIndex p T s = Done s1 -> globals_frame s s1 /\ W s1 = W s.
Proof.
  unfold setTableIndex. intros H. inv_bind H as x Hx.
  destruct (Symbol.SymbolKind x); try discriminate.
  - inv_bind H as fp Hfp. inv_bind H as f Hf. inv_Done. apply putFunc_globals.
  - inv_Done. apply putSym_globals.
Qed.

Lemma pushIndirectFunction_globals p s :
  globals_frame s (pushIndirectFunction p s) /\
  Writer.InputFunctions (W (pushIndirectFunction p s)) = Writer.InputFunctions (W s).
Proof. destruct s as [nd cfg st ws er w]; destruct w; repeat split. Qed.

Lemma registerType_globals Sig s :
  globals_frame s (registerType Sig s).2 /\
  Writer.InputFunctions (W (registerType Sig s).2) = Writer.InputFunctions (W s).
Proof.
  unfold registerType. destruct (Writer.TypeIndices (W s) !! Sig); simpl;
    [split; [apply globals_frame_refl | reflexivity]|].
  destruct s as [nd cfg st ws er w]; destruct w; repeat split.
Qed.

Lemma setTypeMap_globals File I v s s' :
  setTypeMap File I v s = Done s' -> globals_frame s s' /\ W s' = W s.
Proof.
  unfold setTypeMap, getFile. intros H. inv_bind H as F HF. inv_Done.
  destruct (bool_decide _); inv_Done.
  eapply putFile_globals; [eassumption | destruct F; reflexivity].
Qed.

Lemma setTypeIsUsed_globals File I v s s' :
  setTypeIsUsed File I v s = Done s' -> globals_frame s s' /\ W s' = W s.
Proof.
  unfold setTypeIsUsed, getFile. intros H. inv_bind H as F HF. inv_Done.
  destruct (bool_decide _); inv_Done.
  eapply putFile_globals; [eassumption | destruct F; reflexivity].
Qed.

(** One relocation of the walk keeps the globals and the list of input
    functions. *)
Lemma HandleReloc_globals File r acc acc' :
  HandleReloc File r acc = Done acc' ->
  globals_frame acc.2 acc'.2 /\
  Writer.InputFunctions (W acc'.2) = Writer.InputFunctions (W acc.2).
Proof.
  destruct acc as [T s], acc' as [T' s']. rewrite HandleReloc_eq. intros H. simpl.
  inv_bind H as F HF.
  destruct (table_reloc r).
  - inv_bind H as p Hp. inv_bind H as hasT HhasT. destruct hasT.
    + inv_Done. split; [apply globals_frame_refl | reflexivity].
    + inv_bind H as hasF HhasF. destruct hasF; simpl in H.
      * inv_bind H as s1 Hset. inv_Done.
        destruct (setTableIndex_globals _ _ _ _ Hset) as [G1 W1].
        destruct (pushIndirectFunction_globals p s1) as [G2 I2].
        split; [eapply globals_frame_trans; eassumption | congruence].
      * inv_Done. split; [apply globals_frame_refl | reflexivity].
  - destruct (RType r =? R_WEBASSEMBLY_TYPE_INDEX_LEB).
    + inv_bind H as Sig HSig.
      destruct (registerType_globals Sig s) as [G1 I1].
      destruct (registerType Sig s) as [i s1]. simpl in G1, I1.
      inv_bind H as s2 H2. inv_bind H as s3 H3. inv_Done.
      destruct (setTypeMap_globals _ _ _ _ _ H2) as [G2 W2].
      destruct (setTypeIsUsed_globals _ _ _ _ _ H3) as [G3 W3].
      split; [|congruence].
      eapply globals_frame_trans; [exact G1|]. eapply globals_frame_trans; eassumption.
    + inv_Done. split; [apply globals_frame_refl | reflexivity].
Qed.

Lemma HandleRelocs_file_globals File acc acc' :
  HandleRelocs_file File acc = Done acc' ->
  globals_frame acc.2 acc'.2 /\
  Writer.InputFunctions (W acc'.2) = Writer.InputFunctions (W acc.2).
Proof.
  set (I := fun a : Z * State =>
              globals_frame acc.2 a.2 /\
              Writer.InputFunctions (W a.2) = Writer.InputFunctions (W acc.2)).
  assert (Hrel : forall l File' a a', I a -> forEach (HandleReloc File') l a = Done a' -> I a').
  { intros l File'. apply forEach_invariant. intros r a a' _ [Ga Ia] Hr.
    destruct (HandleReloc_globals _ _ _ _ Hr) as [G1 I1].
    split; [eapply globals_frame_trans; eassumption | congruence]. }
  assert (Hchunk : forall Live l File' a a', I a -> HandleRelocs File' Live l a = Done a' -> I a').
  { intros Live l File' a a' Ia Hr. unfold HandleRelocs in Hr.
    destruct (negb Live); [inv_Done; exact Ia | eapply Hrel; eassumption]. }
  unfold HandleRelocs_file. intros H.
  inv_bind H as F HF. inv_bind H as acc1 H1. inv_bind H as acc2 H2.
  assert (I0 : I acc) by (split; [apply globals_frame_refl | reflexivity]).
  assert (I1 : I acc1).
  { eapply (forEach_invariant _ I); [|exact I0|exact H1].
    intros fp a a' _ Ia Hr. unfold HandleRelocs_function in Hr. inv_bind Hr as f Hf.
    eapply Hchunk; eassumption. }
  assert (I2 : I acc2).
  { eapply (forEach_invariant _ I); [|exact I1|exact H2].
    intros c a a' _ Ia Hr. eapply Hchunk; eassumption. }
  eapply (forEach_invariant _ I); [|exact I2|exact H].
  intros c a a' _ Ia Hr. eapply Hchunk; eassumption.
Qed.

Lemma AddDefinedFunction_globals Func acc acc' :
  AddDefinedFunction Func acc = Done acc' -> globals_frame acc.2 acc'.2.
Proof.
  destruct acc as [i s]. unfold AddDefinedFunction, getFunc. intros H.
  inv_bind H as F HF. inv_Done.
  destruct (negb (InputFunction.Live F)); inv_Done; [apply globals_frame_refl|].
  apply (AddDefinedFunction_live_proj Func i F s).
Qed.

Lemma AddDefinedGlobal_functions Global acc acc' :
  AddDefinedGlobal Global acc = Done acc' ->
  Writer.InputFunctions (W acc'.2) = Writer.InputFunctions (W acc.2) /\
  SymbolTable.Functions (Symtab acc'.2) = SymbolTable.Functions (Symtab acc.2).
Proof.
  destruct acc as [i s]. unfold AddDefinedGlobal, getGlob. intros H.
  inv_bind H as G HG. inv_Done. destruct (InputGlobal.Live G); inv_Done; [|auto].
  destruct s as [nd cfg st ws er w]; destruct st, w; split; reflexivity.
Qed.

Lemma functions_numbered_init (s : State) :
  functions_numbered s
    (Writer.NumImportedFunctions (W s) + Z.of_nat (length (Writer.InputFunctions (W s)))) []
    (wrap32 (Writer.NumImportedFunctions (W s) + Z.of_nat (length (Writer.InputFunctions (W s)))), s).
Proof.
  unfold functions_numbered. simpl. rewrite Z.add_0_r, app_nil_r.
  split; [reflexivity|]. split; [reflexivity|]. split; [|auto].
  intros k fp Hk. destruct k; discriminate Hk.
Qed.

(** The two loops of [assignIndexes] over the input functions. *)
Lemma assignIndexes_function_loops (s : State) (acc1 acc2 : Z * State) :
  NoDup (definedFunctions s) ->
  forEach AddDefinedFunction (SymbolTable.SyntheticFunctions (Symtab s))
    (wrap32 (Writer.NumImportedFunctions (W s) + Z.of_nat (length (Writer.InputFunctions (W s)))), s)
    = Done acc1 ->
  forEach (fun File acc => F ← getFile File acc.2;
                           forEach AddDefinedFunction (ObjFile.Functions F) acc)
          (fileIndices s) acc1 = Done acc2 ->
  functions_numbered s
    (Writer.NumImportedFunctions (W s) + Z.of_nat (length (Writer.InputFunctions (W s))))
    (definedFunctions s) acc2 /\
  globals_frame s acc2.2.
Proof.
  intros Hnd H1 H2.
  set (base := Writer.NumImportedFunctions (W s) + Z.of_nat (length (Writer.InputFunctions (W s)))) in *.
  set (items := fun i : nat => match SymbolTable.ObjectFiles (Symtab s) !! i with
                               | Some F => ObjFile.Functions F
                               | None => []
                               end).
  assert (Hitems : flat_map items (fileIndices s)
                   = flat_map ObjFile.Functions (SymbolTable.ObjectFiles (Symtab s))).
  { unfold fileIndices, items. apply (flat_map_seq_lookup ObjFile.Functions _ []). }
  unfold definedFunctions in *. rewrite <- Hitems in *.
  split.
  - pose proof (AddDefinedFunction_loop s base _ [] _ _ (functions_numbered_init s)
                  ltac:(apply NoDup_app in Hnd as (Hnd & _ & _); exact Hnd) H1) as Inv1.
    simpl app in Inv1.
    eapply (forEach_files_numbered _ AddDefinedFunction (functions_numbered s base) items);
      [| |exact Inv1|exact Hnd|exact H2].
    + intros done x a a'. apply AddDefinedFunction_numbered.
    + intros done i a a' (_ & _ & _ & _ & _ & I6) Hf. unfold getFile in Hf.
      inv_bind Hf as F HF. inv_Done. unfold items. rewrite <- I6, HF. exact Hf.
  - assert (Hg : forall l a a', globals_frame s a.2 -> forEach AddDefinedFunction l a = Done a' ->
                                globals_frame s a'.2).
    { intros l. apply forEach_invariant. intros x a a' _ Ga Hx.
      eapply globals_frame_trans; [exact Ga | eapply AddDefinedFunction_globals; exact Hx]. }
    assert (G1 : globals_frame s acc1.2) by (eapply Hg; [|exact H1]; apply globals_frame_refl).
    eapply (forEach_invariant _ (fun a => globals_frame s a.2)); [|exact G1|exact H2].
    intros File a a' _ Ga Hx. simpl in Hx. inv_bind Hx as F HF. eapply Hg; eassumption.
Qed.

(** The numbering of the input functions by [assignIndexes]. *)
Lemma assignIndexes_functions_spec (s s' : State) :
  assignIndexes s = Done s' ->
  NoDup (definedFunctions s) ->
  0 <= Writer.NumImportedFunctions (W s) ->
  Writer.NumImportedFunctions (W s) + Z.of_nat (length (Writer.InputFunctions (W s)))
    + Z.of_nat (length (definedFunctions s)) <= 2 ^ 32 ->
  Writer.InputFunctions (W s')
    = Writer.InputFunctions (W s) ++ filter (fun fp => function_live s fp) (definedFunctions s) /\
  (forall (k : nat) fp,
     filter (fun fp => function_live s fp) (definedFunctions s) !! k = Some fp ->
     exists f, SymbolTable.Functions (Symtab s') !! fp = Some f /\
               InputFunction.Live f = true /\
               InputFunction.FunctionIndex f
                 = Some (Writer.NumImportedFunctions (W s)
                         + Z.of_nat (length (Writer.InputFunctions (W s))) + Z.of_nat k)) /\
  (forall fp, ~ In fp (filter (fun fp => function_live s fp) (definedFunctions s)) ->
     InputFunction.FunctionIndex <$> SymbolTable.Functions (Symtab s') !! fp
     = InputFunction.FunctionIndex <$> SymbolTable.Functions (Symtab s) !! fp).
Proof.
  intros H Hnd Hpos Hfit. unfold assignIndexes in H.
  inv_bind H as acc1 H1. inv_bind H as acc2 H2. inv_bind H as acc3 H3.
  destruct acc3 as [T3 s3]. inv_bind H as acc4 H4. inv_bind H as acc5 H5.
  destruct acc5 as [G5 s5]. inv_Done.
  destruct (assignIndexes_function_loops s acc1 acc2 Hnd H1 H2) as [Inv _].
  destruct Inv as (_ & I2 & I3 & I4 & I5 & _).
  (* the walk over the relocations *)
  assert (F3 : Writer.InputFunctions (W s3) = Writer.InputFunctions (W acc2.2)).
  { refine (forEach_invariant _ (fun a => Writer.InputFunctions (W a.2)
                                           = Writer.InputFunctions (W acc2.2))
                                _ _ (kInitialTableOffset, acc2.2) (T3, s3) eq_refl H3).
    intros File a a' _ Ia Hx. destruct (HandleRelocs_file_globals _ _ _ Hx) as [_ E]. congruence. }
  apply (forEach_each _ walk_step file_done) in H3;
    [ | apply walk_step_refl | apply walk_step_trans | apply HandleRelocs_file_spec
      | intros; eapply file_done_step; eassumption ].
  destruct H3 as [[(_ & Hkey & _) _] _]. simpl in Hkey.
  (* the loops over the globals *)
  set (I3' := fun a : Z * State =>
                Writer.InputFunctions (W a.2) = Writer.InputFunctions (W s3) /\
                SymbolTable.Functions (Symtab a.2) = SymbolTable.Functions (Symtab s3)).
  assert (HI3 : forall l a a', I3' a -> forEach AddDefinedGlobal l a = Done a' -> I3' a').
  { intros l. apply forEach_invariant. intros x a a' _ [Ia Ib] Hx.
    destruct (AddDefinedGlobal_functions _ _ _ Hx) as [Ea Eb]. split; congruence. }
  assert (I3a : I3' acc4) by (eapply HI3; [|exact H4]; split; reflexivity).
  assert (I3b : I3' (G5, s')).
  { eapply (forEach_invariant _ I3'); [|exact I3a|exact H5].
    intros File a a' _ Ia Hx. simpl in Hx. inv_bind Hx as F HF. eapply HI3; eassumption. }
  destruct I3b as [EIF EF]. simpl in EIF, EF.
  assert (Hsame : forall fp,
            func_key <$> SymbolTable.Functions (Symtab s') !! fp
            = func_key <$> SymbolTable.Functions (Symtab acc2.2) !! fp).
  { intros fp. rewrite EF. apply lookup_key. exact Hkey. }
  split; [congruence|]. split.
  - intros k fp Hk. destruct (I3 k fp Hk) as (f & Hf & Hi).
    specialize (Hsame fp). rewrite Hf in Hsame. simpl in Hsame.
    destruct (SymbolTable.Functions (Symtab s') !! fp) as [f'|]; [|discriminate].
    simpl in Hsame. injection Hsame as Hl _ Hfi.
    exists f'. split; [reflexivity|]. split.
    + rewrite Hl. specialize (I5 fp). unfold function_live at 1 in I5. rewrite Hf in I5.
      rewrite I5. apply list_elem_of_lookup_2, list_elem_of_In, filter_bool_In in Hk. tauto.
    + rewrite Hfi, Hi. f_equal. apply wrap32_small.
      pose proof (lookup_lt_Some _ _ _ Hk) as Hlt.
      pose proof (length_filter (fun fp => function_live s fp) (definedFunctions s)) as Hle.
      lia.
  - intros fp Hfp. specialize (Hsame fp). rewrite (I4 fp Hfp) in Hsame.
    destruct (SymbolTable.Functions (Symtab s') !! fp) as [f'|],
             (SymbolTable.Functions (Symtab s) !! fp) as [f|]; simpl in *;
      try discriminate; [|reflexivity].
    injection Hsame as _ _ Hfi. rewrite Hfi. reflexivity.
Qed.

(** X7: [assignIndexes] numbers the live input functions after the
    imported ones, in the order it visits them (the synthetic functions,
    then the functions of the object files, file by file): they are
    appended to [InputFunctions] in that order and the k-th of them gets
    the function index [NumImportedFunctions + |InputFunctions| + k]; a
    function that is not live keeps its index slot. Every input function is
    assumed to be listed once, and the indices to fit in 32 bits. *)
Theorem assignIndexes_function_indexes (s s' : State) :
  assignIndexes s = Done s' ->
  NoDup (definedFunctions s) ->
  0 <= Writer.NumImportedFunctions (W s) ->
  Writer.NumImportedFunctions (W s) + Z.of_nat (length (Writer.InputFunctions (W s)))
    + Z.of_nat (length (definedFunctions s)) <= 2 ^ 32 ->
  Writer.InputFunctions (W s')
    = Writer.InputFunctions (W s) ++ filter (fun fp => function_live s fp) (definedFunctions s) /\
  (forall (k : nat) fp,
     filter (fun fp => function_live s fp) (definedFunctions s) !! k = Some fp ->
     exists f, SymbolTable.Functions (Symtab s') !! fp = Some f /\
               InputFunction.Live f = true /\
               InputFunction.FunctionIndex f
                 = Some (Writer.NumImportedFunctions (W s)
                         + Z.of_nat (length (Writer.InputFunctions (W s))) + Z.of_nat k)) /\
  (forall fp, ~ In fp (filter (fun fp => function_live s fp) (definedFunctions s)) ->
     InputFunction.FunctionIndex <$> SymbolTable.Functions (Symtab s') !! fp
     = InputFunction.FunctionIndex <$> SymbolTable.Functions (Symtab s) !! fp).
Proof. exact (assignIndexes_functions_spec s s'). Qed.

Lemma assignIndexes_function_indexes_witness :
  Writer.InputFunctions (W ExampleIndexes.assigned) = [2; 0]%nat /\
  InputFunction.FunctionIndex <$> SymbolTable.Functions (Symtab ExampleIndexes.assigned)
    = [Some 3; None; Some 2].
Proof.
  destruct (assignIndexes_function_indexes ExampleIndexes.state ExampleIndexes.assigned)
    as (Hlist & _).
  - vm_compute. reflexivity.
  - apply (bool_decide_unpack _). vm_compute. exact I.
  - simpl. lia.
  - simpl. lia.
  - split; [exact Hlist | vm_compute; reflexivity].
Defined.

Lemma AddDefinedGlobal_live_proj Global i G s :
  let s1 := putGlob Global (InputGlobal.setGlobalIndex i G) s in
  let s' := withW (Writer.withInputGlobals (Writer.InputGlobals (W s1) ++ [Global]) (W s1)) s1 in
  SymbolTable.Globals (Symtab s') = <[Global := InputGlobal.setGlobalIndex i G]> (SymbolTable.Globals (Symtab s)) /\
  Writer.InputGlobals (W s') = Writer.InputGlobals (W s) ++ [Global] /\
  SymbolTable.ObjectFiles (Symtab s') = SymbolTable.ObjectFiles (Symtab s).
Proof. destruct s as [nd cfg st ws er w]; destruct st, w; repeat split. Qed.

Lemma setGlobalIndex_proj i G :
  InputGlobal.GlobalIndex (InputGlobal.setGlobalIndex i G) = Some i /\
  InputGlobal.Live (InputGlobal.setGlobalIndex i G) = InputGlobal.Live G.
Proof. destruct G; split; reflexivity. Qed.

(** One input global: the invariant of the numbering is kept. *)
Lemma AddDefinedGlobal_numbered (s0 : State) (base : Z) (done : list GlobPtr)
    (gp : GlobPtr) (acc acc' : Z * State) :
  globals_numbered s0 base done acc -> ~ In gp done ->
  AddDefinedGlobal gp acc = Done acc' ->
  globals_numbered s0 base (done ++ [gp]) acc'.
Proof.
  destruct acc as [GI s]. intros (I1 & I2 & I3 & I4 & I5 & I6) Hnew H.
  simpl in I1, I2, I3, I4, I5, I6. subst GI.
  unfold AddDefinedGlobal, getGlob in H. inv_bind H as G HG. inv_Done.
  assert (Hlive : global_live s0 gp = InputGlobal.Live G).
  { rewrite <- I5. unfold global_live. rewrite HG. reflexivity. }
  unfold globals_numbered. rewrite filter_snoc_bool, Hlive.
  destruct (InputGlobal.Live G) eqn:El; inv_Done; simpl.
  - destruct (AddDefinedGlobal_live_proj gp
                (wrap32 (base + Z.of_nat (length (filter (fun gp => global_live s0 gp) done)))) G s)
      as (P1 & P2 & P3).
    cbv zeta in P1, P2, P3. rewrite P1, P2, P3.
    assert (Hlt : (gp < length (SymbolTable.Globals (Symtab s)))%nat)
      by (eapply lookup_lt_Some; exact HG).
    destruct (setGlobalIndex_proj
                (wrap32 (base + Z.of_nat (length (filter (fun gp => global_live s0 gp) done)))) G)
      as [SF SL].
    split; [|split; [|split; [|split; [|split]]]].
    + rewrite wrap32_succ, length_app. simpl. f_equal. lia.
    + rewrite I2, app_assoc. reflexivity.
    + intros k q Hq. apply lookup_app_Some in Hq as [Hq | [Hge Hq]].
      * assert (q <> gp).
        { intros ->. apply Hnew. apply list_elem_of_lookup_2 in Hq.
          apply list_elem_of_In, filter_bool_In in Hq. tauto. }
        rewrite list_lookup_insert_ne by auto. exact (I3 k q Hq).
      * apply list_lookup_singleton_Some in Hq as [Hk <-].
        rewrite list_lookup_insert_eq by exact Hlt. eexists. split; [reflexivity|].
        rewrite SF. do 3 f_equal. lia.
    + intros q Hq. assert (q <> gp) by (intros ->; apply Hq; apply in_or_app; right; left; reflexivity).
      rewrite list_lookup_insert_ne by auto. apply I4. intros Hin. apply Hq.
      apply in_or_app. left. exact Hin.
    + intros q. rewrite <- I5.
      assert (Hq : forall st, global_live st q
                = match SymbolTable.Globals (Symtab st) !! q with
                  | Some g => InputGlobal.Live g
                  | None => false
                  end) by reflexivity.
      rewrite !Hq, P1.
      destruct (decide (q = gp)) as [->|Hne].
      * rewrite list_lookup_insert_eq by exact Hlt. rewrite HG, SL. reflexivity.
      * rewrite list_lookup_insert_ne by auto. reflexivity.
    + exact I6.
  - rewrite !app_nil_r. auto 10.
Qed.

Lemma flat_map_fmap_eq {A B} (f : A -> list B) (l1 l2 : list A) :
  f <$> l1 = f <$> l2 -> flat_map f l1 = flat_map f l2.
Proof.
  revert l2. induction l1 as [|x l1 IH]; intros [|y l2] H; try discriminate; [reflexivity|].
  rewrite !fmap_cons in H. injection H as Hx Hl. simpl. rewrite Hx, (IH l2 Hl). reflexivity.
Qed.

(** The loops over the functions and the walk keep the globals. *)
Lemma assignIndexes_globals_kept (s : State) (acc1 acc2 : Z * State) (T3 : Z) (s3 : State) :
  forEach AddDefinedFunction (SymbolTable.SyntheticFunctions (Symtab s))
    (wrap32 (Writer.NumImportedFunctions (W s) + Z.of_nat (length (Writer.InputFunctions (W s)))), s)
    = Done acc1 ->
  forEach (fun File acc => F ← getFile File acc.2;
                           forEach AddDefinedFunction (ObjFile.Functions F) acc)
          (fileIndices s) acc1 = Done acc2 ->
  forEach HandleRelocs_file (fileIndices s) (kInitialTableOffset, acc2.2) = Done (T3, s3) ->
  globals_frame s s3.
Proof.
  intros H1 H2 H3.
  assert (Hg : forall l a a', globals_frame s a.2 -> forEach AddDefinedFunction l a = Done a' ->
                              globals_frame s a'.2).
  { intros l. apply forEach_invariant. intros x a a' _ Ga Hx.
    eapply globals_frame_trans; [exact Ga | eapply AddDefinedFunction_globals; exact Hx]. }
  assert (G1 : globals_frame s acc1.2) by (eapply Hg; [|exact H1]; apply globals_frame_refl).
  assert (G2 : globals_frame s acc2.2).
  { eapply (forEach_invariant _ (fun a => globals_frame s a.2)); [|exact G1|exact H2].
    intros File a a' _ Ga Hx. simpl in Hx. inv_bind Hx as F HF. eapply Hg; eassumption. }
  refine (forEach_invariant _ (fun a => globals_frame s a.2) _ _
            (kInitialTableOffset, acc2.2) (T3, s3) G2 H3).
  intros File a a' _ Ga Hx. destruct (HandleRelocs_file_globals _ _ _ Hx) as [G _].
  eapply globals_frame_trans; eassumption.
Qed.

(** X8: [assignIndexes] numbers the live input globals after the imported
    ones, in the order it visits them (the synthetic globals, then the
    globals of the object files): they are appended to [InputGlobals] in
    that order and the k-th of them gets the global index
    [NumImportedGlobals + |InputGlobals| + k]; a global that is not live is
    left alone. Every input global is assumed to be listed once, and the
    indices to fit in 32 bits. *)
Theorem assignIndexes_global_indexes (s s' : State) :
  assignIndexes s = Done s' ->
  NoDup (definedGlobals s) ->
  0 <= Writer.NumImportedGlobals (W s) ->
  Writer.NumImportedGlobals (W s) + Z.of_nat (length (Writer.InputGlobals (W s)))
    + Z.of_nat (length (definedGlobals s)) <= 2 ^ 32 ->
  Writer.InputGlobals (W s')
    = Writer.InputGlobals (W s) ++ filter (fun gp => global_live s gp) (definedGlobals s) /\
  (forall (k : nat) gp,
     filter (fun gp => global_live s gp) (definedGlobals s) !! k = Some gp ->
     exists g, SymbolTable.Globals (Symtab s') !! gp = Some g /\
               InputGlobal.Live g = true /\
               InputGlobal.GlobalIndex g
                 = Some (Writer.NumImportedGlobals (W s)
                         + Z.of_nat (length (Writer.InputGlobals (W s))) + Z.of_nat k)) /\
  (forall gp, ~ In gp (filter (fun gp => global_live s gp) (definedGlobals s)) ->
     SymbolTable.Globals (Symtab s') !! gp = SymbolTable.Globals (Symtab s) !! gp).
Proof.
  intros H Hnd Hpos Hfit. unfold assignIndexes in H.
  inv_bind H as acc1 H1. inv_bind H as acc2 H2. inv_bind H as acc3 H3.
  destruct acc3 as [T3 s3]. inv_bind H as acc4 H4. inv_bind H as acc5 H5.
  destruct acc5 as [G5 s5]. inv_Done.
  destruct (assignIndexes_globals_kept s acc1 acc2 T3 s3 H1 H2 H3) as (Eg & Efg & Esg & Eig & Eng).
  set (base := Writer.NumImportedGlobals (W s) + Z.of_nat (length (Writer.InputGlobals (W s)))) in *.
  assert (Hlive : forall gp, global_live s3 gp = global_live s gp)
    by (intros gp; unfold global_live; rewrite Eg; reflexivity).
  assert (Hfilter : forall l : list nat, filter (fun gp => global_live s3 gp) l
                              = filter (fun gp => global_live s gp) l).
  { intros l. apply list_filter_iff. intros gp. rewrite Hlive. reflexivity. }
  assert (Inv0 : globals_numbered s3 base []
                   (wrap32 (Writer.NumImportedGlobals (W s3)
                            + Z.of_nat (length (Writer.InputGlobals (W s3)))), s3)).
  { unfold globals_numbered. simpl. rewrite Z.add_0_r, app_nil_r, Eng, Eig.
    split; [reflexivity|]. split; [reflexivity|]. split; [|auto].
    intros k gp Hk. destruct k; discriminate Hk. }
  set (items := fun i : nat => match SymbolTable.ObjectFiles (Symtab s3) !! i with
                               | Some F => ObjFile.Globals F
                               | None => []
                               end).
  assert (Hitems : flat_map items (fileIndices s)
                   = flat_map ObjFile.Globals (SymbolTable.ObjectFiles (Symtab s))).
  { unfold fileIndices, items.
    replace (length (SymbolTable.ObjectFiles (Symtab s)))
      with (length (SymbolTable.ObjectFiles (Symtab s3)))
      by (rewrite <- (length_fmap ObjFile.Globals), Efg, length_fmap; reflexivity).
    etransitivity; [apply (flat_map_seq_lookup ObjFile.Globals _ [])|].
    apply flat_map_fmap_eq. exact Efg. }
  unfold definedGlobals in *. rewrite <- Hitems, <- Esg in *.
  assert (Inv1 : globals_numbered s3 base (SymbolTable.SyntheticGlobals (Symtab s3)) acc4).
  { apply (forEach_numbered AddDefinedGlobal (globals_numbered s3 base)
             ltac:(intros done x a a'; apply AddDefinedGlobal_numbered) _ [] _ _ Inv0); [|exact H4].
    apply NoDup_app in Hnd as (Hnd & _ & _). exact Hnd. }
  assert (Inv2 : globals_numbered s3 base
                   (SymbolTable.SyntheticGlobals (Symtab s3) ++ flat_map items (fileIndices s))
                   (G5, s')).
  { eapply (forEach_files_numbered _ AddDefinedGlobal (globals_numbered s3 base) items);
      [| |exact Inv1|exact Hnd|exact H5].
    - intros done x a a'. apply AddDefinedGlobal_numbered.
    - intros done i a a' (_ & _ & _ & _ & _ & I6) Hf. unfold getFile in Hf.
      inv_bind Hf as F HF. inv_Done. unfold items. rewrite <- I6, HF. exact Hf. }
  destruct Inv2 as (_ & I2 & I3 & I4 & I5 & _). simpl in I2, I3, I4, I5.
  rewrite Hfilter in I2, I3, I4.
  split; [congruence|]. split.
  - intros k gp Hk. destruct (I3 k gp Hk) as (g & Hg & Hi).
    exists g. split; [exact Hg|]. split.
    + specialize (I5 gp). unfold global_live at 1 in I5. rewrite Hg in I5.
      rewrite I5, Hlive. apply list_elem_of_lookup_2, list_elem_of_In, filter_bool_In in Hk. tauto.
    + rewrite Hi. f_equal. apply wrap32_small.
      pose proof (lookup_lt_Some _ _ _ Hk) as Hlt.
      pose proof (length_filter (fun gp => global_live s gp)
                    (SymbolTable.SyntheticGlobals (Symtab s3) ++ flat_map items (fileIndices s))) as Hle.
      unfold base. lia.
  - intros gp Hgp. rewrite (I4 gp Hgp), Eg. reflexivity.
Qed.

Lemma assignIndexes_global_indexes_witness :
  Writer.InputGlobals (W ExampleIndexes.assigned) = [0; 1]%nat /\
  InputGlobal.GlobalIndex <$> SymbolTable.Globals (Symtab ExampleIndexes.assigned)
    = [Some 1; Some 2].
Proof.
  destruct (assignIndexes_global_indexes ExampleIndexes.state ExampleIndexes.assigned)
    as (Hlist & _).
  - vm_compute. reflexivity.
  - apply (bool_decide_unpack _). vm_compute. exact I.
  - simpl. lia.
  - simpl. lia.
  - split; [exact Hlist | vm_compute; reflexivity].
Defined.

(** ** The table and its size *)

(** X9: after [assignIndexes] (from a link without table indices, with
    fewer than 2^32 - 1 indirect functions) the table that is declared is as
    large as the table indices need: with K indirect functions the table
    section, or the table import when the table is imported, declares the
    initial and the maximal size [1 + K], and every table index that can be
    read lies in [1, 1 + K); slot 0 is never assigned. *)
Theorem table_size_covers_table_indexes (s s' : State) :
  Writer.IndirectFunctions (W s) = [] ->
  no_table_index s ->
  assignIndexes s = Done s' ->
  Z.of_nat (length (Writer.IndirectFunctions (W s'))) < 2 ^ 32 - 1 ->
  (Config.ImportTable (Cfg s') = false ->
     Writer.OutputSections (W (createTableSection s'))
     = Writer.OutputSections (W s') ++
       [mkSection WASM_SEC_TABLE ""
          (writeUleb128 1 ++ writeU8 WASM_TYPE_ANYFUNC ++
           writeLimits WASM_LIMITS_FLAG_HAS_MAX
             (kInitialTableOffset + Z.of_nat (length (Writer.IndirectFunctions (W s'))))
             (kInitialTableOffset + Z.of_nat (length (Writer.IndirectFunctions (W s')))))]) /\
  (Config.ImportTable (Cfg s') = true ->
     createTableSection s' = s' /\
     Desc (tableImport s')
     = ImportTable WASM_TYPE_ANYFUNC WASM_LIMITS_FLAG_HAS_MAX
         (kInitialTableOffset + Z.of_nat (length (Writer.IndirectFunctions (W s'))))
         (kInitialTableOffset + Z.of_nat (length (Writer.IndirectFunctions (W s'))))) /\
  (forall p v, getTableIndex p s' = Done v ->
     kInitialTableOffset <= v
       < kInitialTableOffset + Z.of_nat (length (Writer.IndirectFunctions (W s')))).
Proof.
  intros Hfresh Hnone Hrun Hbound.
  destruct (assignIndexes_table s s' Hfresh Hnone Hrun) as (T & Hinv & _).
  destruct (Hinv Hbound) as (HT & _ & Hr & _).
  assert (Hw : wrap32 (kInitialTableOffset + Z.of_nat (length (Writer.IndirectFunctions (W s'))))
               = kInitialTableOffset + Z.of_nat (length (Writer.IndirectFunctions (W s'))))
    by (apply wrap32_small; unfold kInitialTableOffset; lia).
  split; [|split].
  - intros Hi. unfold createTableSection. rewrite Hi, Hw.
    destruct s' as [nd cfg st ws er w]; destruct w; reflexivity.
  - intros Hi. unfold createTableSection, tableImport. rewrite Hi, Hw. split; reflexivity.
  - intros p v Hv. rewrite <- HT. exact (Hr p v Hv).
Qed.

Lemma table_size_covers_table_indexes_witness :
  Body <$> Writer.OutputSections (W (createTableSection ExampleTable.assigned))
  = [[1; 112; 1; 3; 3]] /\
  getTableIndex 0%nat ExampleTable.assigned = Done 2.
Proof.
  destruct (table_size_covers_table_indexes ExampleTable.state ExampleTable.assigned)
    as (Hsec & _ & Hrange).
  - reflexivity.
  - split; repeat constructor.
  - vm_compute. reflexivity.
  - vm_compute. reflexivity.
  - split; [rewrite (Hsec eq_refl); vm_compute; reflexivity | vm_compute; reflexivity].
Defined.

(** ** Exported data symbols *)










(** ** The export section *)

Lemma writeExports_Done (l : list WasmExport) :
  Forall (fun e => export_kind_known e = true) l -> exists b, writeExports l = Done b.
Proof.
  induction l as [|e l IH]; intros Hall; [exists []; reflexivity|].
  apply Forall_cons in Hall as [He Hall]. destruct (IH Hall) as [b Hb].
  exists (writeStr (EName e) ++ writeU8 (EKind e) ++ writeUleb128 (EIndex e) ++ b).
  simpl. unfold writeExport. unfold export_kind_known in He. rewrite He. simpl.
  rewrite Hb. simpl. rewrite <- !app_assoc. reflexivity.
Qed.

Lemma filter_bool_idemp {A} (f : A -> bool) (l : list A) :
  filter (fun x => f x) (filter (fun x => f x) l) = filter (fun x => f x) l.
Proof.
  induction l as [|x l IH]; [reflexivity|].
  rewrite filter_cons. destruct (f x) eqn:E.
  - rewrite decide_True by exact I. rewrite filter_cons, E.
    rewrite decide_True by exact I. rewrite IH. reflexivity.
  - rewrite decide_False by (simpl; tauto). exact IH.
Qed.

Lemma createExportSection_proj filtered body s :
  Writer.Exports (W (withW (Writer.withExports filtered
                              (W (createSyntheticSection WASM_SEC_EXPORT "" body s)))
                       (createSyntheticSection WASM_SEC_EXPORT "" body s))) = filtered /\
  Writer.OutputSections (W (withW (Writer.withExports filtered
                              (W (createSyntheticSection WASM_SEC_EXPORT "" body s)))
                       (createSyntheticSection WASM_SEC_EXPORT "" body s)))
  = Writer.OutputSections (W s) ++ [mkSection WASM_SEC_EXPORT "" body].
Proof. destruct s as [nd cfg st ws er w]; destruct w; split; reflexivity. Qed.

Lemma createExportSection_Exports (should_export : WasmExport -> bool) (s s' : State) :
  createExportSection should_export s = Done s' ->
  Writer.Exports (W s') = filter (fun e => should_export e) (Writer.Exports (W s)).
Proof.
  unfold createExportSection. intros H.
  destruct (Writer.Exports (W s)) as [|e l] eqn:E.
  - inv_Done. rewrite E. reflexivity.
  - inv_bind H as b Hb. inv_Done. apply (proj1 (createExportSection_proj _ _ _)).
Qed.

(** X11: with exports of the kinds the writer makes, [createExportSection]
    returns; it leaves a writer without exports alone, and otherwise keeps
    exactly the exports that [Config->should_export] accepts, in their
    order, and adds one export section with their number and their entries.
    The section is made before the filter is applied: when no export passes,
    an export section with the single byte 0 is still written. The pass is
    idempotent on [Exports]. *)
Theorem createExportSection_filters (should_export : WasmExport -> bool) (s : State) :
  Forall (fun e => export_kind_known e = true) (Writer.Exports (W s)) ->
  exists s',
    createExportSection should_export s = Done s' /\
    Writer.Exports (W s') = filter (fun e => should_export e) (Writer.Exports (W s)) /\
    (Writer.Exports (W s) = [] -> s' = s) /\
    (Writer.Exports (W s) <> [] ->
     exists entries,
       writeExports (Writer.Exports (W s')) = Done entries /\
       Writer.OutputSections (W s')
       = Writer.OutputSections (W s) ++
         [mkSection WASM_SEC_EXPORT ""
            (writeUleb128 (wrap32 (Z.of_nat (length (Writer.Exports (W s'))))) ++ entries)] /\
       (Writer.Exports (W s') = [] ->
        Writer.OutputSections (W s')
        = Writer.OutputSections (W s) ++ [mkSection WASM_SEC_EXPORT "" [0]])) /\
    (forall s'', createExportSection should_export s' = Done s'' ->
                 Writer.Exports (W s'') = Writer.Exports (W s')).
Proof.
  intros Hall. unfold createExportSection at 1.
  destruct (Writer.Exports (W s)) as [|e l] eqn:E.
  - exists s. split; [reflexivity|]. rewrite E. split; [reflexivity|]. split; [reflexivity|].
    split; [intros H; contradiction|].
    intros s'' H. rewrite (createExportSection_Exports _ _ _ H), E. reflexivity.
  - set (filtered := filter (fun ex => should_export ex) (e :: l)).
    destruct (writeExports_Done filtered) as [entries Hentries].
    { unfold filtered. apply Forall_forall. intros x Hx.
      apply list_elem_of_filter in Hx as [_ Hx]. rewrite Forall_forall in Hall. auto. }
    rewrite Hentries, bind_Done_l.
    destruct (createExportSection_proj filtered
                (writeUleb128 (wrap32 (Z.of_nat (length filtered))) ++ entries) s) as [P1 P2].
    eexists. split; [reflexivity|]. rewrite P1, P2.
    split; [reflexivity|]. split; [discriminate|]. split.
    + intros _. exists entries. split; [exact Hentries|]. split; [reflexivity|].
      intros Hnil. rewrite Hnil in Hentries. simpl in Hentries. inv_Done.
      rewrite Hnil. reflexivity.
    + intros s'' H. rewrite (createExportSection_Exports _ _ _ H), P1.
      apply filter_bool_idemp.
Qed.

Lemma createExportSection_filters_witness :
  exists s',
    createExportSection ExampleExportFilter.should_export
      (ExampleExportFilter.state [mkExport "helper" WASM_EXTERNAL_FUNCTION 4;
                                  mkExport "limit" WASM_EXTERNAL_GLOBAL 1]) = Done s' /\
    Writer.Exports (W s') = [] /\
    Body <$> Writer.OutputSections (W s') = [[0]].
Proof.
  destruct (createExportSection_filters ExampleExportFilter.should_export
              (ExampleExportFilter.state [mkExport "helper" WASM_EXTERNAL_FUNCTION 4;
                                          mkExport "limit" WASM_EXTERNAL_GLOBAL 1]))
    as (s' & Hrun & Hexp & _ & Hsec & _).
  - repeat constructor.
  - exists s'. split; [exact Hrun|]. split; [exact Hexp|].
    destruct (Hsec ltac:(discriminate)) as (entries & _ & _ & Hnil).
    rewrite (Hnil Hexp). reflexivity.
Defined.

(** ** Custom sections *)

Lemma calculateCustomSections_section_eq (StripDebug : bool) (c : InputChunk.t)
    (m : gmap string (list InputChunk.t)) :
  calculateCustomSections_section StripDebug c m
  = if custom_section_kept StripDebug (InputChunk.Name c)
    then <[InputChunk.Name c := default [] (m !! InputChunk.Name c) ++ [c]]> m
    else m.
Proof.
  unfold calculateCustomSections_section, custom_section_kept.
  destruct (String.eqb (InputChunk.Name c) "linking" || String.eqb (InputChunk.Name c) "name"
            || String.prefix "reloc." (InputChunk.Name c)); [reflexivity|].
  destruct (StripDebug && String.prefix ".debug_" (InputChunk.Name c)); reflexivity.
Qed.

Lemma default_nonempty {A} (l : list A) : default [] (nonempty l) = l.
Proof. destruct l; reflexivity. Qed.

Lemma calculateCustomSections_section_spec (StripDebug : bool) (c : InputChunk.t)
    (done : list InputChunk.t) (m : gmap string (list InputChunk.t)) :
  (forall n, m !! n = nonempty (customSectionsNamed StripDebug n done)) ->
  forall n, calculateCustomSections_section StripDebug c m !! n
            = nonempty (customSectionsNamed StripDebug n (done ++ [c])).
Proof.
  intros Hinv n. rewrite calculateCustomSections_section_eq.
  unfold customSectionsNamed. rewrite filter_snoc_bool.
  fold (customSectionsNamed StripDebug n done).
  destruct (custom_section_kept StripDebug (InputChunk.Name c)) eqn:Ek; simpl andb.
  - destruct (String.eqb_spec (InputChunk.Name c) n) as [<- | Hne].
    + rewrite lookup_insert_eq, Hinv, default_nonempty.
      destruct (customSectionsNamed StripDebug (InputChunk.Name c) done); reflexivity.
    + rewrite lookup_insert_ne by exact Hne. rewrite app_nil_r. apply Hinv.
  - rewrite app_nil_r. apply Hinv.
Qed.

Lemma calculateCustomSections_sections_spec (StripDebug : bool) (l : list InputChunk.t) :
  forall done m,
    (forall n, m !! n = nonempty (customSectionsNamed StripDebug n done)) ->
    forall n, foldl (fun m c => calculateCustomSections_section StripDebug c m) m l !! n
              = nonempty (customSectionsNamed StripDebug n (done ++ l)).
Proof.
  induction l as [|c l IH]; intros done m Hinv n; simpl.
  - rewrite app_nil_r. apply Hinv.
  - replace (done ++ c :: l) with ((done ++ [c]) ++ l) by (rewrite <- app_assoc; reflexivity).
    apply IH. apply calculateCustomSections_section_spec. exact Hinv.
Qed.

Lemma calculateCustomSections_files_spec (StripDebug : bool) (files : list ObjFile.t) :
  forall done m,
    (forall n, m !! n = nonempty (customSectionsNamed StripDebug n done)) ->
    forall n,
      foldl (fun m File =>
               foldl (fun m c => calculateCustomSections_section StripDebug c m)
                     m (ObjFile.CustomSections File)) m files !! n
      = nonempty (customSectionsNamed StripDebug n (done ++ flat_map ObjFile.CustomSections files)).
Proof.
  induction files as [|File files IH]; intros done m Hinv n; simpl.
  - rewrite app_nil_r. apply Hinv.
  - rewrite app_assoc. apply IH. intros n'.
    apply calculateCustomSections_sections_spec. exact Hinv.
Qed.

(** X12: from an empty [CustomSectionMapping], [calculateCustomSections]
    maps a name to the custom sections of that name of all object files, in
    the order of the files, when the name is copied, and to nothing
    otherwise: the names [linking] and [name], the names that start with
    [reloc.] and, when debug sections are stripped ([StripDebug] or
    [StripAll]), those that start with [.debug_] are never keys; no key has
    an empty vector. *)
Theorem calculateCustomSections_groups (s : State) (Name : string) :
  calculateCustomSections s ∅ !! Name
  = nonempty (customSectionsNamed (Config.StripDebug (Cfg s) || Config.StripAll (Cfg s))
                Name (allCustomSections s)) /\
  (custom_section_kept (Config.StripDebug (Cfg s) || Config.StripAll (Cfg s)) Name = true ->
   customSectionsNamed (Config.StripDebug (Cfg s) || Config.StripAll (Cfg s)) Name (allCustomSections s)
   = filter (fun c => String.eqb (InputChunk.Name c) Name) (allCustomSections s)) /\
  (custom_section_kept (Config.StripDebug (Cfg s) || Config.StripAll (Cfg s)) Name = false ->
   calculateCustomSections s ∅ !! Name = None) /\
  calculateCustomSections s ∅ !! Name <> Some [].
Proof.
  set (sd := Config.StripDebug (Cfg s) || Config.StripAll (Cfg s)).
  assert (Hmain : calculateCustomSections s ∅ !! Name
                  = nonempty (customSectionsNamed sd Name (allCustomSections s))).
  { unfold calculateCustomSections. fold sd.
    apply (calculateCustomSections_files_spec sd _ [] ∅). intros n. apply lookup_empty. }
  assert (Hsame : forall b, custom_section_kept sd Name = b ->
            customSectionsNamed sd Name (allCustomSections s)
            = if b then filter (fun c => String.eqb (InputChunk.Name c) Name) (allCustomSections s)
              else []).
  { intros b Hb. unfold customSectionsNamed.
    generalize (allCustomSections s) as l.
    induction l as [|c l IH]; [destruct b; reflexivity|].
    rewrite filter_cons, (filter_cons _ c), IH.
    destruct (String.eqb (InputChunk.Name c) Name) eqn:E.
    - apply String.eqb_eq in E. rewrite E, Hb.
      destruct b; simpl; repeat case_decide; simpl in *; try tauto; reflexivity.
    - rewrite andb_false_r.
      destruct b; simpl; repeat case_decide; simpl in *; try tauto; reflexivity. }
  split; [exact Hmain|]. split; [intros Hk; exact (Hsame true Hk)|]. split.
  - intros Hk. rewrite Hmain, (Hsame false Hk). reflexivity.
  - rewrite Hmain. destruct (customSectionsNamed sd Name (allCustomSections s)); discriminate.
Qed.

(** ** The name section *)

Lemma getFunc_functionName (fp : FuncPtr) (s : State) (F : InputFunction.t) :
  getFunc fp s = Done F -> functionName s fp = InputFunction.Name F.
Proof.
  unfold getFunc, functionName.
  destruct (SymbolTable.Functions (Symtab s) !! fp); simpl; congruence.
Qed.

Lemma length_filter_cons_bool {A} (f : A -> bool) (x : A) (l : list A) :
  length (filter (fun a => f a) (x :: l))
  = ((if f x then 1 else 0) + length (filter (fun a => f a) l))%nat.
Proof.
  rewrite filter_cons. destruct (f x); reflexivity.
Qed.

Lemma countNames_spec (getDebugName : FuncPtr -> string) (s : State) (l : list FuncPtr) :
  forall n N,
    countNames getDebugName l n s = Done N ->
    0 <= n -> n + Z.of_nat (length l) < 2 ^ 32 ->
    N = n + Z.of_nat (length (filter (fun fp => name_counted getDebugName s fp) l)).
Proof.
  induction l as [|fp l IH]; intros n N Hrun Hn Hb; simpl in Hrun.
  - inversion Hrun. simpl. lia.
  - rewrite length_filter_cons_bool. simpl length in Hb.
    destruct (getFunc fp s) as [F| | |] eqn:EF; try discriminate. simpl in Hrun.
    unfold name_counted at 1. rewrite (getFunc_functionName _ _ _ EF).
    destruct (negb (String.eqb (InputFunction.Name F) "") || negb (String.eqb (getDebugName fp) "")).
    + rewrite wrap32_small in Hrun by lia.
      apply IH in Hrun; lia.
    + apply IH in Hrun; lia.
Qed.

Lemma importedNames_length (demangleItanium : string -> option string) (s : State)
    (l : list SymPtr) :
  forall r, importedNames demangleItanium l s = Done r ->
            length r = length (filter (fun p => isFunctionImport s p) l).
Proof.
  induction l as [|p l IH]; intros r Hrun; simpl in Hrun.
  - inversion Hrun. reflexivity.
  - rewrite length_filter_cons_bool.
    unfold getSym in Hrun. unfold isFunctionImport at 1.
    destruct (SymbolTable.Symbols (Symtab s) !! p) as [S|]; try discriminate. simpl in Hrun.
    destruct (Symbol.isFunctionSymbol S).
    + destruct (getFunctionIndex p s); try discriminate. simpl in Hrun.
      destruct (importedNames demangleItanium l s) as [rest| | |]; try discriminate.
      inversion Hrun. simpl. rewrite (IH rest eq_refl). reflexivity.
    + apply IH. exact Hrun.
Qed.

Lemma functionNames_length (getDebugName : FuncPtr -> string)
    (demangleItanium : string -> option string) (s : State) (l : list FuncPtr) :
  forall r, functionNames getDebugName demangleItanium l s = Done r ->
            length r = length (filter (fun fp => name_written s fp) l).
Proof.
  induction l as [|fp l IH]; intros r Hrun; simpl in Hrun.
  - inversion Hrun. reflexivity.
  - rewrite length_filter_cons_bool.
    destruct (getFunc fp s) as [F| | |] eqn:EF; try discriminate. simpl in Hrun.
    unfold name_written at 1. rewrite (getFunc_functionName _ _ _ EF).
    destruct (negb (String.eqb (InputFunction.Name F) "")).
    + destruct (InputFunction.FunctionIndex F); try discriminate. simpl in Hrun.
      destruct (functionNames getDebugName demangleItanium l s) as [rest| | |]; try discriminate.
      inversion Hrun. simpl. rewrite (IH rest eq_refl). reflexivity.
    + apply IH. exact Hrun.
Qed.

Lemma names_written_counted (getDebugName : FuncPtr -> string) (s : State) (l : list FuncPtr) :
  (length (filter (fun fp => name_written s fp) l)
   <= length (filter (fun fp => name_counted getDebugName s fp) l))%nat /\
  (length (filter (fun fp => name_written s fp) l)
   = length (filter (fun fp => name_counted getDebugName s fp) l)
   <-> forall fp, In fp l -> functionName s fp = "" -> getDebugName fp = "").
Proof.
  induction l as [|fp l [IHle IHeq]].
  - split; [reflexivity|]. split; [intros _ fp []|reflexivity].
  - rewrite !length_filter_cons_bool. cbv beta.
    assert (Ew : name_written s fp = negb (String.eqb (functionName s fp) "")) by reflexivity.
    assert (Ec : name_counted getDebugName s fp
                 = negb (String.eqb (functionName s fp) "") || negb (String.eqb (getDebugName fp) ""))
      by reflexivity.
    rewrite Ew, Ec. clear Ew Ec.
    destruct (String.eqb_spec (functionName s fp) "") as [En | En];
      destruct (String.eqb_spec (getDebugName fp) "") as [Ed | Ed]; simpl negb; simpl orb.
    + split; [lia|]. split.
      * intros H fp' [<- | Hin] Hn; [exact Ed|]. apply IHeq; [lia|exact Hin|exact Hn].
      * intros H. assert (forall fp', In fp' l -> functionName s fp' = "" -> getDebugName fp' = "")
          as H' by (intros fp' Hin; apply H; right; exact Hin).
        apply IHeq in H'. lia.
    + split; [lia|]. split.
      * intros H. lia.
      * intros H. exfalso. apply Ed. apply H; [left; reflexivity|exact En].
    + split; [lia|]. split.
      * intros H fp' [<- | Hin] Hn; [contradiction|]. apply IHeq; [lia|exact Hin|exact Hn].
      * intros H. assert (forall fp', In fp' l -> functionName s fp' = "" -> getDebugName fp' = "")
          as H' by (intros fp' Hin; apply H; right; exact Hin).
        apply IHeq in H'. lia.
    + split; [lia|]. split.
      * intros H fp' [<- | Hin] Hn; [contradiction|]. apply IHeq; [lia|exact Hin|exact Hn].
      * intros H. assert (forall fp', In fp' l -> functionName s fp' = "" -> getDebugName fp' = "")
          as H' by (intros fp' Hin; apply H; right; exact Hin).
        apply IHeq in H'. lia.
Qed.

(** X13: when [createNameSection] returns and the counter does not wrap,
    the name count it declares is [NumImportedFunctions] plus the number of
    input functions with a name or a debug name; without any, no section is
    added. The entries written are one for each function symbol of
    [ImportedSymbols] and one for each input function with a name, so a
    function with an empty name and a debug name is counted and not written:
    when [NumImportedFunctions] is the number of imported function symbols,
    the declared count is the number of entries exactly when no input
    function has a debug name and no name, and is larger otherwise. *)
Theorem createNameSection_count (getDebugName : FuncPtr -> string)
    (demangleItanium : string -> option string) (s s' : State) :
  createNameSection getDebugName demangleItanium s = Done s' ->
  0 <= Writer.NumImportedFunctions (W s) ->
  Writer.NumImportedFunctions (W s) + Z.of_nat (length (Writer.InputFunctions (W s))) < 2 ^ 32 ->
  let NumNames := Writer.NumImportedFunctions (W s) +
                  Z.of_nat (length (filter (fun fp => name_counted getDebugName s fp)
                                           (Writer.InputFunctions (W s)))) in
  (NumNames = 0 -> s' = s) /\
  (NumNames <> 0 ->
   exists entries,
     Writer.OutputSections (W s') = Writer.OutputSections (W s) ++
       [mkSection WASM_SEC_CUSTOM "name"
          (writeSubSection WASM_NAMES_FUNCTION
             (writeUleb128 NumNames ++ flat_map writeNameEntry entries))] /\
     length entries
     = (length (filter (fun p => isFunctionImport s p) (Writer.ImportedSymbols (W s))) +
        length (filter (fun fp => name_written s fp) (Writer.InputFunctions (W s))))%nat /\
     (Writer.NumImportedFunctions (W s)
      = Z.of_nat (length (filter (fun p => isFunctionImport s p) (Writer.ImportedSymbols (W s)))) ->
      Z.of_nat (length entries) <= NumNames /\
      (Z.of_nat (length entries) = NumNames <->
       forall fp, In fp (Writer.InputFunctions (W s)) ->
                  functionName s fp = "" -> getDebugName fp = ""))).
Proof.
  intros Hrun H0 Hb NumNames. unfold createNameSection in Hrun.
  destruct (countNames getDebugName (Writer.InputFunctions (W s))
              (Writer.NumImportedFunctions (W s)) s) as [N| | |] eqn:EN; try discriminate.
  simpl in Hrun. apply countNames_spec in EN; [|exact H0|exact Hb]. fold NumNames in EN. subst N.
  destruct (Z.eqb_spec NumNames 0) as [E0 | E0].
  - split; [intros _; congruence|contradiction].
  - split; [contradiction|]. intros _.
    destruct (importedNames demangleItanium (Writer.ImportedSymbols (W s)) s)
      as [imports| | |] eqn:EI; try discriminate. simpl in Hrun.
    destruct (functionNames getDebugName demangleItanium (Writer.InputFunctions (W s)) s)
      as [functions| | |] eqn:EF; try discriminate. simpl in Hrun.
    apply importedNames_length in EI. apply functionNames_length in EF.
    exists (imports ++ functions). split; [|split].
    + inversion Hrun. unfold createSyntheticSection.
      destruct s as [nd cfg st ws er w]; destruct w; reflexivity.
    + rewrite length_app, EI, EF. reflexivity.
    + intros Himp. rewrite length_app, EI, EF.
      destruct (names_written_counted getDebugName s (Writer.InputFunctions (W s))) as [Hle Heq].
      unfold NumNames. split; [lia|].
      rewrite <- Heq. lia.
Qed.

Lemma createNameSection_count_witness :
  exists s' entries,
    createNameSection ExampleNames.getDebugName ExampleNames.demangleItanium
      ExampleNames.anonymous = Done s' /\
    Writer.OutputSections (W s')
    = [mkSection WASM_SEC_CUSTOM "name"
         (writeSubSection WASM_NAMES_FUNCTION (writeUleb128 2 ++ flat_map writeNameEntry entries))] /\
    length entries = 1%nat /\
    Writer.OutputSections (W s') = [mkSection WASM_SEC_CUSTOM "name" [1; 4; 2; 1; 1; 103]].
Proof.
  pose (s' := match createNameSection ExampleNames.getDebugName ExampleNames.demangleItanium
                      ExampleNames.anonymous with
              | Done a => a
              | _ => ExampleNames.anonymous
              end).
  assert (Hrun : createNameSection ExampleNames.getDebugName ExampleNames.demangleItanium
                   ExampleNames.anonymous = Done s') by (vm_compute; reflexivity).
  assert (H0 : 0 <= Writer.NumImportedFunctions (W ExampleNames.anonymous))
    by (vm_compute; discriminate).
  assert (Hb : Writer.NumImportedFunctions (W ExampleNames.anonymous) +
               Z.of_nat (length (Writer.InputFunctions (W ExampleNames.anonymous))) < 2 ^ 32)
    by (vm_compute; reflexivity).
  destruct (createNameSection_count _ _ _ _ Hrun H0 Hb) as [_ H].
  destruct H as (entries & Hsec & Hlen & _); [vm_compute; discriminate|].
  exists s', entries. split; [exact Hrun|]. split; [exact Hsec|]. split; [exact Hlen|].
  vm_compute. reflexivity.
Defined.

(** ** The entries of [snax_notify] *)

Lemma wrap64_small z : 0 <= z < 2 ^ 64 -> wrap64 z = z.
Proof. intros H. unfold wrap64. apply Z.mod_small. exact H. Qed.

Lemma find_from_no_colon (code : string) :
  forall i, no_colon code = true -> Str.find_from ":"%char code i = Str.npos.
Proof.
  induction code as [|a code IH]; intros i H; simpl in *; [reflexivity|].
  apply andb_true_iff in H as [Ha Hc].
  destruct (Ascii.eqb a ":"%char); [discriminate|]. apply IH. exact Hc.
Qed.

Lemma find_from_first_colon (code r : string) :
  forall i, no_colon code = true ->
            Str.find_from ":"%char (code +:+ String ":"%char r) i = i + Str.size code.
Proof.
  unfold Str.size.
  induction code as [|a code IH]; intros i H; simpl in *; [lia|].
  apply andb_true_iff in H as [Ha Hc].
  destruct (Ascii.eqb a ":"%char); [discriminate|]. rewrite IH by exact Hc. lia.
Qed.

Lemma string_length_app (a b : string) :
  String.length (a +:+ b) = (String.length a + String.length b)%nat.
Proof. induction a as [|c a IH]; simpl; [reflexivity|]. rewrite IH. reflexivity. Qed.

Lemma substring_all (r : string) : String.substring 0 (String.length r) r = r.
Proof. induction r as [|c r IH]; simpl; [reflexivity|]. rewrite IH. reflexivity. Qed.

Lemma substring_prefix (code r : string) :
  String.substring 0 (String.length code) (code +:+ r) = code.
Proof.
  induction code as [|c code IH]; simpl; [destruct r; reflexivity|]. rewrite IH. reflexivity.
Qed.

Lemma substring_skip (code r : string) (n m : nat) :
  String.substring (String.length code + n) m (code +:+ r) = String.substring n m r.
Proof. induction code as [|c code IH]; simpl; [reflexivity|]. exact IH. Qed.

(** X14: how [create_notify_dispatch] splits a new entry of [snax_notify]
    whose length leaves the position arithmetic unwrapped. The code name is
    what precedes the first colon and the handler what follows the character
    after that colon, whatever that character is; an entry that ends with its
    first colon throws [std::out_of_range] from [substr]. An entry without a
    colon is registered under itself as code name with the handler made of
    its characters from the second on, and the empty entry throws. *)
Theorem notify_body_splits (notif code : string) (has_dispatched : gset string)
    (notify_handlers : NotifyMap.t) (not_cnt : Z) :
  notif ∉ has_dispatched ->
  not_cnt < INT_MAX ->
  Str.size notif < 2 ^ 63 ->
  no_colon code = true ->
  (forall a rest,
     notif = code +:+ String ":"%char (String a rest) ->
     notify_body notif (has_dispatched, notify_handlers, not_cnt)
     = Done ({[notif]} ∪ has_dispatched, NotifyMap.push_back code rest notify_handlers,
             not_cnt + 1)) /\
  (notif = code +:+ ":" ->
   notify_body notif (has_dispatched, notify_handlers, not_cnt) = Raise "basic_string::substr") /\
  (notif = code ->
   notify_body notif (has_dispatched, notify_handlers, not_cnt)
   = match code with
     | EmptyString => Raise "basic_string::substr"
     | String _ rest =>
         Done ({[notif]} ∪ has_dispatched, NotifyMap.push_back code rest notify_handlers,
               not_cnt + 1)
     end).
Proof.
  intros Hnew Hcnt Hsize Hcode.
  assert (Hhead :
            notify_body notif (has_dispatched, notify_handlers, not_cnt)
            = (code_name ← Str.substr notif 0 (Str.find_colon notif);
               rest ← Str.substr_from notif (wrap64 (Str.find_colon notif + 2));
               Done ({[notif]} ∪ has_dispatched,
                     NotifyMap.push_back code_name rest notify_handlers, not_cnt + 1))).
  { rewrite notify_body_eq.
    rewrite bool_decide_eq_false_2 by exact Hnew.
    destruct (Z.leb_spec INT_MAX not_cnt); [lia|reflexivity]. }
  rewrite Hhead. clear Hhead.
  assert (Hlen0 : 0 <= Str.size code) by (unfold Str.size; lia).
  split; [|split].
  - intros a rest ->.
    unfold Str.find_colon. rewrite find_from_first_colon by exact Hcode. rewrite Z.add_0_l.
    assert (Hs : Str.size (code +:+ String ":"%char (String a rest))
                 = Str.size code + 2 + Str.size rest).
    { unfold Str.size. rewrite string_length_app. simpl String.length. lia. }
    assert (Hr0 : 0 <= Str.size rest) by (unfold Str.size; lia).
    rewrite Hs in Hsize.
    unfold Str.substr_from, Str.substr. rewrite Hs.
    destruct (Z.ltb_spec (Str.size code + 2 + Str.size rest) 0); [lia|].
    rewrite wrap64_small by lia.
    replace (Z.to_nat (Z.min (Str.size code) (Str.size code + 2 + Str.size rest - 0)))
      with (String.length code) by (unfold Str.size in *; lia).
    change (Z.to_nat 0) with 0%nat. rewrite substring_prefix. simpl.
    destruct (Z.ltb_spec (Str.size code + 2 + Str.size rest) (Str.size code + 2)); [lia|].
    replace (Z.to_nat (Str.size code + 2)) with (String.length code + 2)%nat
      by (unfold Str.size; lia).
    replace (Z.to_nat (Z.min Str.npos (Str.size code + 2 + Str.size rest - (Str.size code + 2))))
      with (String.length rest) by (unfold Str.size, Str.npos in *; lia).
    rewrite substring_skip. simpl String.substring. rewrite substring_all. reflexivity.
  - intros ->.
    unfold Str.find_colon. rewrite find_from_first_colon by exact Hcode. rewrite Z.add_0_l.
    assert (Hs : Str.size (code +:+ ":") = Str.size code + 1).
    { unfold Str.size. rewrite string_length_app. simpl String.length. lia. }
    rewrite Hs in Hsize.
    unfold Str.substr_from, Str.substr. rewrite Hs.
    destruct (Z.ltb_spec (Str.size code + 1) 0); [lia|]. simpl.
    rewrite wrap64_small by lia.
    destruct (Z.ltb_spec (Str.size code + 1) (Str.size code + 2)); [reflexivity|lia].
  - intros ->.
    unfold Str.find_colon. rewrite find_from_no_colon by exact Hcode.
    change (wrap64 (Str.npos + 2)) with 1.
    unfold Str.substr_from, Str.substr.
    destruct (Z.ltb_spec (Str.size code) 0); [lia|].
    replace (Z.to_nat (Z.min Str.npos (Str.size code - 0))) with (String.length code)
      by (unfold Str.size, Str.npos in *; lia).
    change (Z.to_nat 0) with 0%nat. rewrite substring_all. simpl.
    destruct code as [|c rest].
    + reflexivity.
    + assert (Hs : Str.size (String c rest) = 1 + Str.size rest)
        by (unfold Str.size; simpl String.length; lia).
      rewrite Hs in *.
      assert (Hr0 : 0 <= Str.size rest) by (unfold Str.size; lia).
      destruct (Z.ltb_spec (1 + Str.size rest) 1); [lia|].
      replace (Z.to_nat (Z.min Str.npos (1 + Str.size rest - 1))) with (String.length rest)
        by (unfold Str.size, Str.npos in *; lia).
      change (Z.to_nat 1) with 1%nat. simpl String.substring. rewrite substring_all. reflexivity.
Qed.

Lemma notify_body_splits_witness :
  notify_body "snax::transfer:on_transfer" (∅, [], 0)
  = Done ({["snax::transfer:on_transfer"]} ∪ ∅, [("snax", ["transfer:on_transfer"])], 1).
Proof.
  refine (proj1 (notify_body_splits "snax::transfer:on_transfer" "snax" ∅ [] 0 _ _ _ _)
            ":"%char "transfer:on_transfer" eq_refl).
  - apply not_elem_of_empty.
  - reflexivity.
  - reflexivity.
  - reflexivity.
Defined.

(** ** The call of the constructors in the dispatcher *)

(** X15: after [assignIndexes], the dispatcher calls [__wasm_call_ctors]
    with the index the numbering gave it, [NumImportedFunctions +
    |InputFunctions| + k] for the k-th live function visited, and leaves the
    call out when that index is 0: exactly when no function is imported, no
    input function was numbered before, and [__wasm_call_ctors] is the first
    live function visited. (As for the numbering, every input function is
    assumed to be listed once and the indices to fit in 32 bits.) *)
Theorem dispatcher_calls_ctors (s s' : State) (p : SymPtr) (sym : Symbol.t)
    (fp : FuncPtr) (k : nat) :
  assignIndexes s = Done s' ->
  NoDup (definedFunctions s) ->
  0 <= Writer.NumImportedFunctions (W s) ->
  Writer.NumImportedFunctions (W s) + Z.of_nat (length (Writer.InputFunctions (W s)))
    + Z.of_nat (length (definedFunctions s)) <= 2 ^ 32 ->
  find "__wasm_call_ctors" s' = Some p ->
  SymbolTable.Symbols (Symtab s') !! p = Some sym ->
  Symbol.SymbolKind sym = Symbol.DefinedFunctionKind ->
  Symbol.Function sym = Some fp ->
  filter (fun fp => function_live s fp) (definedFunctions s) !! k = Some fp ->
  let i := Writer.NumImportedFunctions (W s)
           + Z.of_nat (length (Writer.InputFunctions (W s))) + Z.of_nat k in
  call_ctors s' (find "__wasm_call_ctors" s')
  = Done (if i =? 0 then [] else writeU8 OPCODE_CALL ++ writeUleb128 i) /\
  (i = 0 <-> Writer.NumImportedFunctions (W s) = 0 /\ Writer.InputFunctions (W s) = [] /\
             k = 0%nat).
Proof.
  intros Hrun Hnd Hpos Hfit Hfind Hsym Hkind Hfun Hk i.
  destruct (assignIndexes_functions_spec s s' Hrun Hnd Hpos Hfit) as (_ & Hidx & _).
  destruct (Hidx k fp Hk) as (f & Hf & _ & Hi). fold i in Hi.
  assert (Hlt : (k < length (definedFunctions s))%nat).
  { apply lookup_lt_Some in Hk.
    pose proof (length_filter (fun fp => function_live s fp) (definedFunctions s)). lia. }
  assert (Hget : getFunctionIndex p s' = Done i).
  { unfold getFunctionIndex, getSym. rewrite Hsym. simpl. rewrite Hkind, Hfun. simpl.
    unfold getFunc. rewrite Hf. simpl. rewrite Hi. reflexivity. }
  split.
  - rewrite Hfind. unfold call_ctors. rewrite Hget. simpl.
    rewrite wrap32_small by (unfold i; lia).
    destruct (i =? 0); reflexivity.
  - unfold i. split.
    + intros H0. split; [lia|]. split; [|lia].
      destruct (Writer.InputFunctions (W s)); [reflexivity|simpl length in H0; lia].
    + intros (-> & -> & ->). reflexivity.
Qed.

Lemma dispatcher_calls_ctors_witness :
  call_ctors ExampleCtors.assigned (find "__wasm_call_ctors" ExampleCtors.assigned) = Done [].
Proof.
  assert (Hrun : assignIndexes ExampleCtors.state = Done ExampleCtors.assigned)
    by (vm_compute; reflexivity).
  assert (Hnd : NoDup (definedFunctions ExampleCtors.state))
    by (apply (bool_decide_unpack _); vm_compute; exact I).
  assert (Hpos : 0 <= Writer.NumImportedFunctions (W ExampleCtors.state))
    by (vm_compute; discriminate).
  assert (Hfit : Writer.NumImportedFunctions (W ExampleCtors.state)
                 + Z.of_nat (length (Writer.InputFunctions (W ExampleCtors.state)))
                 + Z.of_nat (length (definedFunctions ExampleCtors.state)) <= 2 ^ 32)
    by (vm_compute; discriminate).
  exact (proj1 (dispatcher_calls_ctors ExampleCtors.state ExampleCtors.assigned 0%nat
                  (Example.definedFunction "__wasm_call_ctors" 0%nat) 0%nat 0%nat
                  Hrun Hnd Hpos Hfit eq_refl eq_refl eq_refl eq_refl eq_refl)).
Defined.
